(** * Reed-Solomon erasure coding over GF(2^8): a shallow embedding of
    [reedsolomon.go] (klauspost/reedsolomon as vendored by cubefs, with the
    AzureLRC+1 extensions) and the properties of its encode, update,
    reconstruct and survivor-selection routines. *)

From Stdlib Require Import List Arith Bool Lia NArith ZArith Ring.
From Stdlib Require Import Strings.Byte.
Import ListNotations.

Set Implicit Arguments.

(** ** Bytes *)

Definition byte_of_N (n : N) : byte :=
  match Byte.of_N n with
  | Some b => b
  | None => x00
  end.

(** Go's [byte(i)] conversion of an [int]: truncation to the low 8 bits. *)
Definition byte_of_nat (i : nat) : byte := byte_of_N (N.of_nat i mod 256).

Definition nat_of_byte (b : byte) : nat := N.to_nat (Byte.to_N b).

Definition all_bytes : list byte :=
  Eval vm_compute in map byte_of_nat (seq 0 256).

Definition byte_all (P : byte -> bool) : bool := forallb P all_bytes.

(** ** GF(2^8) arithmetic *)

Module GF.

(** Modelled from the spec: the Galois-field layer (galois.go) is not part of
    the sources at hand.  Section 4.1 of the specification fixes the field:
    bytes in GF(2^8) with the polynomial 0x11d, addition is XOR, and
    multiplication goes through a log/exp table with generator 2. *)
Definition galAdd (a b : byte) : byte :=
  byte_of_N (N.lxor (Byte.to_N a) (Byte.to_N b)).

(** Multiplication by the generator: shift left, reduce by 0x11d. *)
Definition xtime (a : byte) : byte :=
  let n := (2 * Byte.to_N a)%N in
  byte_of_N (if (n <? 256)%N then n else N.lxor n 285).

Fixpoint gen_pow (i : nat) : byte :=
  match i with
  | O => x01
  | S j => xtime (gen_pow j)
  end.

(** Modelled from the spec: [expTable[i]] is generator^i, [logTable] its
    inverse on the nonzero bytes ([logTable[0]] is never consulted). *)
Definition expTable : list byte :=
  Eval vm_compute in map gen_pow (seq 0 256).

Fixpoint find_log (a : byte) (tbl : list byte) (i : nat) : nat :=
  match tbl with
  | [] => 0
  | b :: tbl' => if Byte.eqb a b then i else find_log a tbl' (S i)
  end.

Definition logTable : list nat :=
  Eval vm_compute in map (fun a => find_log a (firstn 255 expTable) 0) all_bytes.

Definition galLog (a : byte) : nat := nth (nat_of_byte a) logTable 0.
Definition galAlog (i : nat) : byte := nth i expTable x00.

(** Modelled from the spec: [mul(a,b) = 0 if a==0 or b==0 else
    exp[(log[a]+log[b]) mod 255]]. *)
Definition galMultiply (a b : byte) : byte :=
  if Byte.eqb a x00 || Byte.eqb b x00 then x00
  else galAlog ((galLog a + galLog b) mod 255).

(** Modelled from the spec: [div(a,b)] fails if [b==0]; the failure of the
    Go helper is a run-time panic, rendered here as [None]. *)
Definition galDivide (a b : byte) : option byte :=
  if Byte.eqb b x00 then None
  else if Byte.eqb a x00 then Some x00
  else Some (galAlog ((galLog a + 255 - galLog b) mod 255)).

(** Modelled from the spec: [inv(a) = div(1,a)], tabulated as [invTable];
    the entry for 0 is 0. *)
Definition invTable (a : byte) : byte :=
  match galDivide x01 a with
  | Some b => b
  | None => x00
  end.

(** Modelled from the spec: [exp_pow(a, n)], the n-th power of [a]. *)
Definition galExp (a : byte) (n : nat) : byte :=
  if Nat.eqb n 0 then x01
  else if Byte.eqb a x00 then x00
  else galAlog ((galLog a * n) mod 255).

End GF.

Import GF.


(** ** Run-time outcomes

    A Go function either returns or panics (index out of range, slice bounds,
    division by zero in the field).  Returned [error] values are data. *)

Inductive outcome (A : Type) : Type :=
| Ok (a : A)
| Panic.

Arguments Panic {A}.

Definition bind {A B : Type} (x : outcome A) (f : A -> outcome B) : outcome B :=
  match x with
  | Ok a => f a
  | Panic => Panic
  end.

Notation "x <- e ;; k" := (bind e (fun x => k))
  (at level 61, e at next level, right associativity).
Notation "e ;; k" := (bind e (fun _ => k))
  (at level 61, right associativity).
Notation "' p <- e ;; k" := (bind e (fun x => match x with p => k end))
  (at level 61, p pattern, e at next level, right associativity).

Inductive error : Type :=
| ErrInvShardNum
| ErrMaxShardNum
| ErrTooFewShards
| ErrInvalidInput
| ErrShardNoData
| ErrShardSize
| ErrShardsNotSurvival
| ErrIndexNotIncremental
| ErrShortData
| ErrReconstructRequired
| errSingular
| errNotSquare
| errColSizeMismatch.

Inductive result (A : Type) : Type :=
| Success (a : A)
| Failure (e : error).

Arguments Failure {A}.

(** Indexing with Go's bounds checks.  Indices and lengths are modelled by
    [nat]: a negative [int] used as an index panics just as one beyond the
    length does. *)
Definition get {A : Type} (l : list A) (i : nat) : outcome A :=
  match nth_error l i with
  | Some x => Ok x
  | None => Panic
  end.

Fixpoint upd {A : Type} (l : list A) (i : nat) (x : A) : list A :=
  match l, i with
  | [], _ => []
  | _ :: t, O => x :: t
  | h :: t, S j => h :: upd t j x
  end.

Definition set {A : Type} (l : list A) (i : nat) (x : A) : outcome (list A) :=
  if i <? length l then Ok (upd l i x) else Panic.

(** [l[i:]] and [l[:i]] on a slice whose capacity equals its length. *)
Definition slice_from {A : Type} (l : list A) (i : nat) : outcome (list A) :=
  if i <=? length l then Ok (skipn i l) else Panic.

Definition slice_to {A : Type} (l : list A) (i : nat) : outcome (list A) :=
  if i <=? length l then Ok (firstn i l) else Panic.

(** [for i := start; i < start+count; i++ { s = body i s }] *)
Fixpoint loop {S : Type} (body : nat -> S -> outcome S) (start count : nat) (s : S)
  : outcome S :=
  match count with
  | O => Ok s
  | Datatypes.S k => s' <- body start s ;; loop body (Datatypes.S start) k s'
  end.

Fixpoint map2 {A B C : Type} (f : A -> B -> C) (l1 : list A) (l2 : list B) : list C :=
  match l1, l2 with
  | a :: t1, b :: t2 => f a b :: map2 f t1 t2
  | _, _ => []
  end.

Definition mem (i : nat) (l : list nat) : bool := existsb (Nat.eqb i) l.

(** ** Byte slices

    A [[]byte] is a window on a backing array: [vis] are the [len] visible
    bytes, [spare] the bytes between [len] and [cap].  The nil slice is kept
    apart because [Update] tests [== nil].  Distinct shards are taken to
    have disjoint backing arrays. *)

Inductive slice : Type :=
| nil_slice
| mk_slice (vis spare : list byte).

Definition bytes (s : slice) : list byte :=
  match s with
  | nil_slice => []
  | mk_slice vis _ => vis
  end.

Definition backing (s : slice) : list byte :=
  match s with
  | nil_slice => []
  | mk_slice vis spare => vis ++ spare
  end.

Definition len (s : slice) : nat := length (bytes s).
Definition cap (s : slice) : nat := length (backing s).

Definition is_nil (s : slice) : bool :=
  match s with
  | nil_slice => true
  | mk_slice _ _ => false
  end.

(** [make([]byte, n)] *)
Definition make (n : nat) : slice := mk_slice (repeat x00 n) [].

(** [s[0:n]], legal up to the capacity. *)
Definition reslice (s : slice) (n : nat) : outcome slice :=
  if n <=? cap s then
    Ok (match s with
        | nil_slice => nil_slice
        | mk_slice _ _ => mk_slice (firstn n (backing s)) (skipn n (backing s))
        end)
  else Panic.

(** The bytes of [s[start:stop]]. *)
Definition window (s : slice) (start stop : nat) : outcome (list byte) :=
  if (start <=? stop) && (stop <=? cap s)
  then Ok (firstn (stop - start) (skipn start (backing s)))
  else Panic.

(** Writing [new] through the window that starts at [start]. *)
Definition store (s : slice) (start : nat) (new : list byte) : slice :=
  match s with
  | nil_slice => nil_slice
  | mk_slice vis spare =>
      let b := firstn start (vis ++ spare) ++ new
               ++ skipn (start + length new) (vis ++ spare) in
      mk_slice (firstn (length vis) b) (skipn (length vis) b)
  end.

(** ** Slice kernels *)

(** Modelled from the spec: the "multiply slice by constant c into output"
    primitive of galois.go, [out[n] = c * in[n]] over the range of [in]. *)
Definition galMulSlice (c : byte) (inp out : list byte) : outcome (list byte) :=
  if length inp <=? length out
  then Ok (map (galMultiply c) inp ++ skipn (length inp) out)
  else Panic.

(** Modelled from the spec: the "multiply-and-XOR-into-output" primitive,
    [out[n] ^= c * in[n]] over the range of [in]. *)
Definition galMulSliceXor (c : byte) (inp out : list byte) : outcome (list byte) :=
  if length inp <=? length out
  then Ok (map2 (fun i o => galAdd o (galMultiply c i)) inp out
           ++ skipn (length inp) out)
  else Panic.

(** Modelled from the spec: the XOR of [Update], [out[n] ^= in[n]] over the
    range of [in] (the source notes "oldinputs data will be change"). *)
Definition sliceXor (inp out : list byte) : outcome (list byte) :=
  if length inp <=? length out
  then Ok (map2 (fun i o => galAdd o i) inp out ++ skipn (length inp) out)
  else Panic.

(** ** Matrices *)

Definition matrix : Type := list (list byte).

Module Matrix.

(** Modelled from the spec: matrix.go is not part of the sources at hand;
    section 4.2 of the specification describes its operations. *)
Definition newMatrix (rows cols : nat) : matrix :=
  repeat (repeat x00 cols) rows.

Definition identityMatrix (n : nat) : matrix :=
  map (fun r => map (fun c => if r =? c then x01 else x00) (seq 0 n)) (seq 0 n).

Definition rows (m : matrix) : nat := length m.
Definition cols (m : matrix) : nat := length (hd [] m).

Definition entry (m : matrix) (r c : nat) : byte := nth c (nth r m []) x00.

Definition column (m : matrix) (c : nat) : list byte :=
  map (fun row => nth c row x00) m.

Definition dot (u v : list byte) : byte :=
  fold_right galAdd x00 (map2 galMultiply u v).

(** Modelled from the spec: "standard triple loop over GF(2^8); fails if
    A.cols != B.rows", for a matrix "dimensioned rows x cols".  A list of
    rows does not tell the column count of a matrix without rows, so the
    dimension [acols] of [a] is given with it. *)
Definition Multiply_dim (acols : nat) (a b : matrix) : result matrix :=
  if acols =? rows b
  then Success (map (fun row => map (fun c => dot row (column b c)) (seq 0 (cols b))) a)
  else Failure errColSizeMismatch.

(** The product of a matrix that has a row; its first row gives [A.cols]. *)
Definition Multiply (a b : matrix) : result matrix := Multiply_dim (cols a) a b.

(** Modelled from the spec: "materialized copy" of rows [rmin, rmax) and
    columns [cmin, cmax). *)
Definition SubMatrix (m : matrix) (rmin cmin rmax cmax : nat) : matrix :=
  map (fun row => firstn (cmax - cmin) (skipn cmin row))
      (firstn (rmax - rmin) (skipn rmin m)).

Definition Augment (m right : matrix) : matrix := map2 (@app byte) m right.

Definition vscale (c : byte) (row : list byte) : list byte :=
  map (galMultiply c) row.

(** [dst ^= c * src], entry by entry. *)
Definition vaddmul (c : byte) (src dst : list byte) : list byte :=
  map2 (fun s d => galAdd d (galMultiply c s)) src dst.

Fixpoint find_pivot (m : matrix) (k r : nat) : option nat :=
  match m with
  | [] => None
  | row :: m' =>
      if Byte.eqb (nth k row x00) x00 then find_pivot m' k (S r) else Some r
  end.

Definition SwapRows (m : matrix) (r1 r2 : nat) : matrix :=
  upd (upd m r1 (nth r2 m [])) r2 (nth r1 m []).

(** Modelled from the spec: one column of Gauss-Jordan.  "For column k, if
    the diagonal element is zero, find a row r > k with nonzero entry in
    column k and swap; fail with singular if none exists.  Eliminate both
    below and above the pivot." *)
Definition choose_pivot (k : nat) (m : matrix) : matrix :=
  if Byte.eqb (entry m k k) x00 then
    match find_pivot (skipn (S k) m) k (S k) with
    | Some r => SwapRows m k r
    | None => m
    end
  else m.

Definition eliminate (k : nat) (m : matrix) : matrix :=
  let prow := vscale (invTable (entry m k k)) (nth k m []) in
  map (fun '(r, row) =>
         if r =? k then prow
         else if Byte.eqb (nth k row x00) x00 then row
         else vaddmul (nth k row x00) prow row)
      (combine (seq 0 (length m)) m).

Definition pivot_step (k : nat) (m : matrix) : result matrix :=
  let m1 := choose_pivot k m in
  if Byte.eqb (entry m1 k k) x00 then Failure errSingular
  else Success (eliminate k m1).

Fixpoint gaussianElimination (k count : nat) (m : matrix) : result matrix :=
  match count with
  | O => Success m
  | S count' =>
      match pivot_step k m with
      | Success m' => gaussianElimination (S k) count' m'
      | Failure e => Failure e
      end
  end.

Definition IsSquare (m : matrix) : bool := rows m =? cols m.

(** Modelled from the spec: "invert(A): Gauss-Jordan.  The augmented matrix
    is [A | I]; row operations reduce A to I, and the right half becomes
    A^-1." *)
Definition Invert (m : matrix) : result matrix :=
  if negb (IsSquare m) then Failure errNotSquare
  else
    let size := rows m in
    match gaussianElimination 0 size (Augment m (identityMatrix size)) with
    | Success work => Success (SubMatrix work 0 size size (size * 2))
    | Failure e => Failure e
    end.

(** Modelled from the spec: "V[r][c] = exp_pow(r, c)". *)
Definition vandermonde (rows cols : nat) : matrix :=
  map (fun r => map (fun c => galExp (byte_of_nat r) c) (seq 0 cols)) (seq 0 rows).

Definition mget (m : matrix) (r c : nat) : outcome byte :=
  row <- get m r ;; get row c.

Definition mset (m : matrix) (r c : nat) (v : byte) : outcome matrix :=
  row <- get m r ;; row' <- set row c v ;; set m r row'.

End Matrix.

Import Matrix.

(** ** Code-matrix builders *)

(** [buildMatrix]: Vandermonde rows multiplied by the inverse of their top
    square. *)
Definition buildMatrix (dataShards totalShards : nat) : result matrix :=
  let vm := vandermonde totalShards dataShards in
  let top := SubMatrix vm 0 0 dataShards dataShards in
  match Invert top with
  | Failure e => Failure e
  | Success topInv => Multiply vm topInv
  end.

(** [galDivide(1, x)] as used by the Jerasure builder: a zero divisor
    panics. *)
Definition galDivide_or_panic (a b : byte) : outcome byte :=
  match galDivide a b with
  | Some q => Ok q
  | None => Panic
  end.

(** [n-1] used as an index. *)
Definition index_pred (n : nat) : outcome nat :=
  match n with
  | O => Panic
  | S k => Ok k
  end.

(** [for ; r < totalShards && vm[r][i] == 0; r++ {}] *)
Fixpoint jerasure_find_row (vm : matrix) (i r count : nat) : outcome nat :=
  match count with
  | O => Ok r
  | S count' =>
      v <- mget vm r i ;;
      if Byte.eqb v x00 then jerasure_find_row vm i (S r) count' else Ok r
  end.

(** [for r := from; r < from+count; r++ { vm[r][c] = galMultiply(vm[r][c], tmp) }] *)
Definition scale_column (c : nat) (tmp : byte) (from count : nat) (vm : matrix)
  : outcome matrix :=
  loop (fun r vm => v <- mget vm r c ;; mset vm r c (galMultiply v tmp)) from count vm.

(** [for c := 0; c < count; c++ { vm[r][c] = galMultiply(vm[r][c], tmp) }] *)
Definition scale_row (r : nat) (tmp : byte) (count : nat) (vm : matrix)
  : outcome matrix :=
  loop (fun c vm => v <- mget vm r c ;; mset vm r c (galMultiply v tmp)) 0 count vm.

(** One iteration of the main loop of [buildMatrixJerasure]. *)
Definition jerasure_step (dataShards totalShards i : nat) (vm : matrix)
  : outcome matrix :=
  r <- jerasure_find_row vm i i (totalShards - i) ;;
  vm <- (if r =? i then Ok vm
         else t <- get vm r ;; vi <- get vm i ;;
              vm <- set vm r vi ;; set vm i t) ;;
  d <- mget vm i i ;;
  vm <- (if Byte.eqb d x01 then Ok vm
         else tmp <- galDivide_or_panic x01 d ;;
              scale_column i tmp 0 totalShards vm) ;;
  loop (fun j vm =>
          tmp <- mget vm i j ;;
          if negb (j =? i) && negb (Byte.eqb tmp x00) then
            loop (fun r vm =>
                    a <- mget vm r j ;; b <- mget vm r i ;;
                    mset vm r j (galAdd a (galMultiply tmp b)))
                 0 totalShards vm
          else Ok vm)
       0 dataShards vm.

Definition buildMatrixJerasure (dataShards totalShards : nat) : outcome matrix :=
  let vm := vandermonde totalShards dataShards in
  vm <- mset vm 0 0 x01 ;;
  vm <- loop (fun i vm => mset vm 0 i x00) 1 (dataShards - 1) vm ;;
  last <- index_pred totalShards ;;
  vm <- loop (fun i vm => mset vm last i x00) 0 (dataShards - 1) vm ;;
  lastc <- index_pred dataShards ;;
  vm <- mset vm last lastc x01 ;;
  vm <- loop (jerasure_step dataShards totalShards) 0 dataShards vm ;;
  vm <- loop (fun j vm =>
                tmp <- mget vm dataShards j ;;
                if Byte.eqb tmp x01 then Ok vm
                else tmp <- galDivide_or_panic x01 tmp ;;
                     scale_column j tmp dataShards (totalShards - dataShards) vm)
             0 dataShards vm ;;
  loop (fun i vm =>
          tmp <- mget vm i 0 ;;
          if Byte.eqb tmp x01 then Ok vm
          else tmp <- galDivide_or_panic x01 tmp ;;
               scale_row i tmp dataShards vm)
       (dataShards + 1) (totalShards - (dataShards + 1)) vm.

(** [buildMatrixSpecialJerasure]: the Jerasure matrix for one more shard,
    with the all-ones row [vm[dataShards]] deleted. *)
Definition buildMatrixSpecialJerasure (dataShards totalShards : nat) : outcome matrix :=
  vm <- buildMatrixJerasure dataShards (totalShards + 1) ;;
  vm <- loop (fun i vm =>
                loop (fun j vm => v <- mget vm (i + 1) j ;; mset vm i j v)
                     0 dataShards vm)
             dataShards (totalShards - dataShards) vm ;;
  slice_to vm totalShards.

(** [buildMatrixAzureLrcP1]: global parities from the special Jerasure
    matrix, one 0-1 row per DATA-AZ, and a last row that sums the global
    parity rows.  [col/localDataNum] panics when [localDataNum] is 0. *)
Definition buildMatrixAzureLrcP1 (dataShards globalParityShards localParityShards : nat)
  : outcome matrix :=
  vm <- buildMatrixSpecialJerasure dataShards (globalParityShards + dataShards) ;;
  let vm := vm ++ newMatrix localParityShards dataShards in
  lp <- index_pred localParityShards ;;
  (if lp =? 0 then Panic else Ok tt) ;;
  let localDataNum := dataShards / lp in
  vm <- loop (fun row vm =>
                loop (fun col vm =>
                        (if localDataNum =? 0 then Panic else Ok tt) ;;
                        if negb (col / localDataNum =? row)
                        then mset vm (dataShards + globalParityShards + row) col x00
                        else mset vm (dataShards + globalParityShards + row) col x01)
                     0 dataShards vm)
             0 lp vm ;;
  loop (fun row vm =>
          loop (fun col vm =>
                  tmp <- mget vm (dataShards + globalParityShards + lp) col ;;
                  v <- mget vm row col ;;
                  mset vm (dataShards + globalParityShards + lp) col (galAdd tmp v))
               0 dataShards vm)
       dataShards globalParityShards vm.

(** [buildMatrixPAR1]: identity on top, [galExp(c+1, r-dataShards)] below. *)
Definition buildMatrixPAR1 (dataShards totalShards : nat) : matrix :=
  map (fun r =>
         map (fun c =>
                if r <? dataShards then (if c =? r then x01 else x00)
                else galExp (byte_of_nat (c + 1)) (r - dataShards))
             (seq 0 dataShards))
      (seq 0 totalShards).

(** [buildMatrixCauchy]: identity on top, [invTable[byte(r ^ c)]] below. *)
Definition buildMatrixCauchy (dataShards totalShards : nat) : matrix :=
  map (fun r =>
         map (fun c =>
                if r <? dataShards then (if c =? r then x01 else x00)
                else invTable (byte_of_nat (Nat.lxor r c)))
             (seq 0 dataShards))
      (seq 0 totalShards).

(** ** The encoder *)

(** The fields of [options] that the functions below read.  [maxGoroutines]
    is the value in force after [New]'s cache-size tuning. *)
Record options : Type := {
  useAVX512 : bool;
  useSSE2 : bool;
  maxGoroutines : nat;
  minSplitSize : nat;
  useCauchy : bool;
  usePAR1Matrix : bool;
  useJerasureMatrix : bool;
  useAzureLrcP1Matrix : bool
}.

(** [reedSolomon] without its inversion tree, which is the one mutable part
    and is threaded through the calls that use it. *)
Record reedSolomon : Type := {
  DataShards : nat;
  ParityShards : nat;
  Shards : nat;
  m : matrix;
  parity : matrix;
  o : options
}.

(** Modelled from the spec: the inversion cache (inversion_tree.go is not
    part of the sources at hand), a map from the list of invalid indices to
    the decode matrix cached for it; the root (no invalid index) holds the
    identity. *)
Definition inversionTree : Type := list (list nat * matrix).

Definition newInversionTree : inversionTree := [].

Fixpoint tree_find (key : list nat) (t : inversionTree) : option matrix :=
  match t with
  | [] => None
  | (k, mx) :: t' =>
      if list_eq_dec Nat.eq_dec key k then Some mx else tree_find key t'
  end.

Definition GetInvertedMatrix (dataShards : nat) (t : inversionTree)
  (invalidIndices : list nat) : option matrix :=
  match invalidIndices with
  | [] => Some (identityMatrix dataShards)
  | _ => tree_find invalidIndices t
  end.

Definition InsertInvertedMatrix (t : inversionTree) (invalidIndices : list nat)
  (mx : matrix) : inversionTree :=
  (invalidIndices, mx) :: t.

(** [New].  A negative global parity count ([parityShards < 3] with the
    AzureLRC+1 option) yields no encoder: the Jerasure builder indexes past
    its Vandermonde rows. *)
Definition New (dataShards parityShards : nat) (opts : options)
  : outcome (result reedSolomon) :=
  if (dataShards =? 0) || (parityShards =? 0) then Ok (Failure ErrInvShardNum)
  else if 256 <? dataShards + parityShards then Ok (Failure ErrMaxShardNum)
  else
    let shards := dataShards + parityShards in
    mx <- (if useCauchy opts then Ok (Success (buildMatrixCauchy dataShards shards))
           else if usePAR1Matrix opts then Ok (Success (buildMatrixPAR1 dataShards shards))
           else if useJerasureMatrix opts then
                  vm <- buildMatrixJerasure dataShards shards ;; Ok (Success vm)
           else if useAzureLrcP1Matrix opts then
                  let l := 3 in
                  if parityShards <? l then Panic
                  else vm <- buildMatrixAzureLrcP1 dataShards (shards - dataShards - l) l ;;
                       Ok (Success vm)
           else Ok (buildMatrix dataShards shards)) ;;
    match mx with
    | Failure e => Ok (Failure e)
    | Success mx =>
        par <- loop (fun i par => row <- get mx (dataShards + i) ;; Ok (par ++ [row]))
                    0 parityShards [] ;;
        Ok (Success {| DataShards := dataShards;
                       ParityShards := parityShards;
                       Shards := shards;
                       m := mx;
                       parity := par;
                       o := opts |})
    end.

(** ** Shard utilities *)

(** [for i, x := range l { s = body i x s }] *)
Fixpoint range_loop {A S : Type} (body : nat -> A -> S -> outcome S)
  (i : nat) (l : list A) (s : S) : outcome S :=
  match l with
  | [] => Ok s
  | x :: l' => s' <- body i x s ;; range_loop body (Datatypes.S i) l' s'
  end.

Fixpoint shardSize (shards : list slice) : nat :=
  match shards with
  | [] => 0
  | shard :: rest => if len shard =? 0 then shardSize rest else len shard
  end.

Fixpoint checkShards_sizes (shards : list slice) (size : nat) (nilok : bool)
  : option error :=
  match shards with
  | [] => None
  | shard :: rest =>
      if negb (len shard =? size) && (negb (len shard =? 0) || negb nilok)
      then Some ErrShardSize
      else checkShards_sizes rest size nilok
  end.

Definition checkShards (shards : list slice) (nilok : bool) : option error :=
  let size := shardSize shards in
  if size =? 0 then Some ErrShardNoData
  else checkShards_sizes shards size nilok.

(** [Split].  [append] is taken to return a slice with no spare capacity;
    every shard is a window on the (possibly padded) buffer, so its spare
    bytes are the rest of that buffer. *)
Definition Split (r : reedSolomon) (data : slice) : result (list slice) :=
  if len data =? 0 then Failure ErrShortData
  else
    let perShard := (len data + DataShards r - 1) / DataShards r in
    let buf := backing data in
    let buf := if length buf <? Shards r * perShard
               then buf ++ repeat x00 (Shards r * perShard - length buf)
               else buf in
    Success (map (fun i => mk_slice (firstn perShard (skipn (i * perShard) buf))
                                    (skipn (perShard + i * perShard) buf))
                 (seq 0 (Shards r))).

(** ** The shard coder *)

(** One call of a kernel on the windows [[start, stop)] of an input and of
    output number [iRow]; column 0 overwrites, the others accumulate. *)
Definition code_cell (matrixRows : matrix) (c : nat) (inb : list byte)
  (start stop iRow : nat) (outputs : list slice) : outcome (list slice) :=
  row <- get matrixRows iRow ;;
  coef <- get row c ;;
  out <- get outputs iRow ;;
  ob <- window out start stop ;;
  new <- (if c =? 0 then galMulSlice coef inb ob else galMulSliceXor coef inb ob) ;;
  Ok (upd outputs iRow (store out start new)).

(** The loop nest of [codeSomeShards] on whole shards. *)
Definition codeSomeShards_loop (dataShards : nat) (matrixRows : matrix)
  (inputs outputs : list slice) (outputCount : nat) : outcome (list slice) :=
  loop (fun c outputs =>
          inp <- get inputs c ;;
          loop (fun iRow outputs =>
                  out <- get outputs iRow ;;
                  code_cell matrixRows c (bytes inp) 0 (len out) iRow outputs)
               0 outputCount outputs)
       0 dataShards outputs.

(** The body of one goroutine of [codeSomeShardsP], on [[start, stop)]. *)
Definition codeSomeShards_chunk (dataShards : nat) (matrixRows : matrix)
  (inputs : list slice) (outputCount start stop : nat) (outputs : list slice)
  : outcome (list slice) :=
  loop (fun c outputs =>
          inp <- get inputs c ;;
          inb <- window inp start stop ;;
          loop (code_cell matrixRows c inb start stop) 0 outputCount outputs)
       0 dataShards outputs.

(** The chunking loop shared by the parallel variants.  The goroutines work
    on disjoint byte ranges and are joined before the function returns, so
    they are run here one after the other.  With [do = 0] the Go loop does
    not advance; the model stops with [Panic] when [fuel] runs out. *)
Fixpoint split_loop {S : Type} (body : nat -> nat -> S -> outcome S)
  (fuel start do byteCount : nat) (s : S) : outcome S :=
  if start <? byteCount then
    match fuel with
    | O => Panic
    | Datatypes.S fuel' =>
        let do := if byteCount <? start + do then byteCount - start else do in
        s' <- body start (start + do) s ;;
        split_loop body fuel' (start + do) do byteCount s'
    end
  else Ok s.

Definition codeSomeShardsP (r : reedSolomon) (matrixRows : matrix)
  (inputs outputs : list slice) (outputCount byteCount : nat) : outcome (list slice) :=
  let do := byteCount / maxGoroutines (o r) in
  let do := if do <? minSplitSize (o r) then minSplitSize (o r) else do in
  (* Make sizes divisible by 32 *)
  let do := (do + 31) / 32 * 32 in
  split_loop (codeSomeShards_chunk (DataShards r) matrixRows inputs outputCount)
             byteCount 0 do byteCount outputs.

(** Modelled from the spec: the AVX512 coder is not part of the sources at
    hand; "SIMD is a permitted implementation" of the same kernel. *)
Definition codeSomeShardsAvx512 (r : reedSolomon) (matrixRows : matrix)
  (inputs outputs : list slice) (outputCount byteCount : nat) : outcome (list slice) :=
  codeSomeShards_loop (DataShards r) matrixRows inputs outputs outputCount.

Definition codeSomeShards (r : reedSolomon) (matrixRows : matrix)
  (inputs outputs : list slice) (outputCount byteCount : nat) : outcome (list slice) :=
  if useAVX512 (o r) && (4 <=? length inputs) && (2 <=? length outputs) then
    codeSomeShardsAvx512 r matrixRows inputs outputs outputCount byteCount
  else if (1 <? maxGoroutines (o r)) && (minSplitSize (o r) <? byteCount) then
    codeSomeShardsP r matrixRows inputs outputs outputCount byteCount
  else
    codeSomeShards_loop (DataShards r) matrixRows inputs outputs outputCount.

(** ** Encode *)

Definition Encode (r : reedSolomon) (shards : list slice)
  : outcome (option error * list slice) :=
  if negb (length shards =? Shards r) then Ok (Some ErrTooFewShards, shards)
  else
    match checkShards shards false with
    | Some e => Ok (Some e, shards)
    | None =>
        output <- slice_from shards (DataShards r) ;;
        inputs <- slice_to shards (DataShards r) ;;
        s0 <- get shards 0 ;;
        output' <- codeSomeShards r (parity r) inputs output (ParityShards r) (len s0) ;;
        Ok (None, inputs ++ output')
    end.

(** ** Update *)

(** The body of the column loop of [updateParityShards] on the windows
    [[start, stop)]; [st] holds the old inputs and the outputs. *)
Definition update_column (matrixRows : matrix) (newinputs : list slice)
  (outputCount start stop c : nat) (st : list slice * list slice)
  : outcome (list slice * list slice) :=
  let '(oldinputs, outputs) := st in
  inp <- get newinputs c ;;
  if is_nil inp then Ok st
  else
    oldin <- get oldinputs c ;;
    inb <- window inp start stop ;;
    ob <- window oldin start stop ;;
    (* oldinputs data will be change *)
    x <- sliceXor inb ob ;;
    let oldin := store oldin start x in
    let oldinputs := upd oldinputs c oldin in
    outputs <- loop (fun iRow outputs =>
                       row <- get matrixRows iRow ;;
                       coef <- get row c ;;
                       out <- get outputs iRow ;;
                       outb <- window out start stop ;;
                       new <- galMulSliceXor coef x outb ;;
                       Ok (upd outputs iRow (store out start new)))
                    0 outputCount outputs ;;
    Ok (oldinputs, outputs).

(** The scalar loop passes whole slices: the windows are [[0, len)]. *)
Definition update_column_whole (matrixRows : matrix) (newinputs : list slice)
  (outputCount c : nat) (st : list slice * list slice)
  : outcome (list slice * list slice) :=
  let '(oldinputs, outputs) := st in
  inp <- get newinputs c ;;
  if is_nil inp then Ok st
  else
    oldin <- get oldinputs c ;;
    x <- sliceXor (bytes inp) (bytes oldin) ;;
    let oldin := store oldin 0 x in
    let oldinputs := upd oldinputs c oldin in
    outputs <- loop (fun iRow outputs =>
                       row <- get matrixRows iRow ;;
                       coef <- get row c ;;
                       out <- get outputs iRow ;;
                       new <- galMulSliceXor coef (bytes oldin) (bytes out) ;;
                       Ok (upd outputs iRow (store out 0 new)))
                    0 outputCount outputs ;;
    Ok (oldinputs, outputs).

Definition updateParityShardsP (r : reedSolomon) (matrixRows : matrix)
  (oldinputs newinputs outputs : list slice) (outputCount byteCount : nat)
  : outcome (list slice * list slice) :=
  let do := byteCount / maxGoroutines (o r) in
  let do := if do <? minSplitSize (o r) then minSplitSize (o r) else do in
  split_loop (fun start stop st =>
                loop (update_column matrixRows newinputs outputCount start stop)
                     0 (DataShards r) st)
             byteCount 0 do byteCount (oldinputs, outputs).

Definition updateParityShards (r : reedSolomon) (matrixRows : matrix)
  (oldinputs newinputs outputs : list slice) (outputCount byteCount : nat)
  : outcome (list slice * list slice) :=
  if (1 <? maxGoroutines (o r)) && (minSplitSize (o r) <? byteCount) then
    updateParityShardsP r matrixRows oldinputs newinputs outputs outputCount byteCount
  else
    loop (update_column_whole matrixRows newinputs outputCount)
         0 (DataShards r) (oldinputs, outputs).

(** [for i := range newDatashards { if newDatashards[i] != nil && shards[i] == nil ... }] *)
Definition update_check_old (shards newDatashards : list slice) : outcome bool :=
  range_loop (fun i nd (bad : bool) =>
                if bad then Ok true
                else if is_nil nd then Ok false
                else s <- get shards i ;; Ok (is_nil s))
             0 newDatashards false.

Definition Update (r : reedSolomon) (shards newDatashards : list slice)
  : outcome (option error * list slice) :=
  if negb (length shards =? Shards r) then Ok (Some ErrTooFewShards, shards)
  else if negb (length newDatashards =? DataShards r)
  then Ok (Some ErrTooFewShards, shards)
  else
    match checkShards shards true with
    | Some e => Ok (Some e, shards)
    | None =>
        match checkShards newDatashards true with
        | Some e => Ok (Some e, shards)
        | None =>
            bad <- update_check_old shards newDatashards ;;
            if bad then Ok (Some ErrInvalidInput, shards)
            else
              output <- slice_from shards (DataShards r) ;;
              if existsb is_nil output then Ok (Some ErrInvalidInput, shards)
              else
                let size := shardSize shards in
                oldinputs <- slice_to shards (DataShards r) ;;
                newinputs <- slice_to newDatashards (DataShards r) ;;
                '(oldinputs', output') <-
                  updateParityShards r (parity r) oldinputs newinputs output
                                     (ParityShards r) size ;;
                Ok (None, oldinputs' ++ output')
        end
    end.

(** ** Reconstruction *)

(** [for c := 0; c < count; c++ { dst[dstRow][c] = src[srcRow][c] }] *)
Definition copy_row (src : matrix) (srcRow count dstRow : nat) (dst : matrix)
  : outcome matrix :=
  loop (fun c dst => v <- mget src srcRow c ;; mset dst dstRow c v) 0 count dst.

(** [for row, idx := range idxs { copy the first count entries of src[idx] }] *)
Definition copy_rows (src : matrix) (count : nat) (idxs : list nat) (dst : matrix)
  : outcome matrix :=
  range_loop (fun row idx dst => copy_row src idx count row dst) 0 idxs dst.

(** The scan of [reconstruct] for the first [need] present shards:
    [subShards], [validIndices] and [invalidIndices].  The caller has checked
    that enough shards are present, so the first two are filled. *)
Fixpoint scan_valid (shards : list slice) (matrixRow need : nat)
  : list slice * list nat * list nat :=
  match need, shards with
  | S need', shard :: rest =>
      if negb (len shard =? 0) then
        let '(sub, valid, invalid) := scan_valid rest (S matrixRow) need' in
        (shard :: sub, matrixRow :: valid, invalid)
      else
        let '(sub, valid, invalid) := scan_valid rest (S matrixRow) need in
        (sub, valid, matrixRow :: invalid)
  | _, _ => ([], [], [])
  end.

Definition numberPresent (shards : list slice) : nat :=
  length (filter (fun shard => negb (len shard =? 0)) shards).

(** The decode matrix of [reconstruct] and [PartialReconstruct]: taken from
    the tree, or inverted from the rows [validIndices] of [r.m] and then
    inserted. *)
Definition decode_matrix (r : reedSolomon) (t : inversionTree)
  (validIndices invalidIndices : list nat)
  : outcome (result matrix * inversionTree) :=
  match GetInvertedMatrix (DataShards r) t invalidIndices with
  | Some mx => Ok (Success mx, t)
  | None =>
      subMatrix <- copy_rows (m r) (DataShards r) validIndices
                     (newMatrix (DataShards r) (DataShards r)) ;;
      match Invert subMatrix with
      | Failure e => Ok (Failure e, t)
      | Success mx => Ok (Success mx, InsertInvertedMatrix t invalidIndices mx)
      end
  end.

(** [shards[i] = shards[i][0:size]] when the capacity allows, a fresh
    buffer otherwise. *)
Definition prepare_output (size : nat) (shard : slice) : outcome slice :=
  if size <=? cap shard then reslice shard size else Ok (make size).

(** State of the loops that collect the shards to compute: the shard vector,
    [outputs], [matrixRows], and the shard index behind each output (the
    outputs alias those shards; [outputCount] is the length of that list). *)
Record gather : Type := {
  g_shards : list slice;
  g_outputs : list slice;
  g_rows : matrix;
  g_index : list nat
}.

(** [shards[iShard]] becomes output number [outputCount]. *)
Definition gather_output (size iShard : nat) (g : gather) : outcome gather :=
  shard <- get (g_shards g) iShard ;;
  shard <- prepare_output size shard ;;
  shards <- set (g_shards g) iShard shard ;;
  outputs <- set (g_outputs g) (length (g_index g)) shard ;;
  Ok {| g_shards := shards; g_outputs := outputs; g_rows := g_rows g;
        g_index := g_index g ++ [iShard] |}.

Definition gather_missing (size : nat) (rowOf : nat -> outcome (list byte))
  (iShard : nat) (g : gather) : outcome gather :=
  shard <- get (g_shards g) iShard ;;
  if len shard =? 0 then
    g' <- gather_output size iShard g ;;
    row <- rowOf iShard ;;
    rows <- set (g_rows g) (length (g_index g)) row ;;
    Ok {| g_shards := g_shards g'; g_outputs := g_outputs g'; g_rows := rows;
          g_index := g_index g' |}
  else Ok g.

(** The computed outputs are the shards they alias. *)
Fixpoint scatter (index : list nat) (outputs shards : list slice) : list slice :=
  match index, outputs with
  | i :: index', out :: outputs' => scatter index' outputs' (upd shards i out)
  | _, _ => shards
  end.

Definition reconstruct (r : reedSolomon) (t : inversionTree)
  (shards : list slice) (dataOnly : bool)
  : outcome (option error * list slice * inversionTree) :=
  if negb (length shards =? Shards r) then Ok (Some ErrTooFewShards, shards, t)
  else
    match checkShards shards true with
    | Some e => Ok (Some e, shards, t)
    | None =>
        let shardSize := shardSize shards in
        if numberPresent shards =? Shards r then Ok (None, shards, t)
        else if numberPresent shards <? DataShards r
        then Ok (Some ErrTooFewShards, shards, t)
        else
          let '(subShards, validIndices, invalidIndices) :=
            scan_valid shards 0 (DataShards r) in
          '(dec, t) <- decode_matrix r t validIndices invalidIndices ;;
          match dec with
          | Failure e => Ok (Some e, shards, t)
          | Success dataDecodeMatrix =>
              g <- loop (gather_missing shardSize (get dataDecodeMatrix))
                        0 (DataShards r)
                        {| g_shards := shards;
                           g_outputs := repeat nil_slice (ParityShards r);
                           g_rows := repeat [] (ParityShards r);
                           g_index := [] |} ;;
              outs <- slice_to (g_outputs g) (length (g_index g)) ;;
              outs <- codeSomeShards r (g_rows g) subShards outs
                                     (length (g_index g)) shardSize ;;
              let shards := scatter (g_index g) outs (g_shards g) in
              if dataOnly then Ok (None, shards, t)
              else
                g <- loop (gather_missing shardSize
                             (fun iShard => get (parity r) (iShard - DataShards r)))
                          (DataShards r) (Shards r - DataShards r)
                          {| g_shards := shards;
                             g_outputs := scatter (seq 0 (length (g_index g))) outs
                                                  (g_outputs g);
                             g_rows := g_rows g;
                             g_index := [] |} ;;
                outs <- slice_to (g_outputs g) (length (g_index g)) ;;
                inputs <- slice_to (g_shards g) (DataShards r) ;;
                outs <- codeSomeShards r (g_rows g) inputs outs
                                       (length (g_index g)) shardSize ;;
                Ok (None, scatter (g_index g) outs (g_shards g), t)
          end
    end.

Definition Reconstruct (r : reedSolomon) (t : inversionTree) (shards : list slice) :=
  reconstruct r t shards false.

Definition ReconstructData (r : reedSolomon) (t : inversionTree) (shards : list slice) :=
  reconstruct r t shards true.

(** ** Partial reconstruction *)

(** [for i := 1; i < len(idx); i++ { if idx[i] <= idx[i-1] ... }] *)
Fixpoint incremental (idx : list nat) : bool :=
  match idx with
  | a :: ((b :: _) as rest) => (a <? b) && incremental rest
  | _ => true
  end.

(** [invalidIndices := make([]int, size)], then one entry per index of
    [[0, Shards)] outside [survivalIdx]; a longer list does not fit. *)
Definition invalid_indices (shardsN : nat) (survivalIdx : list nat)
  : outcome (list nat) :=
  if shardsN <? length survivalIdx then Panic
  else
    let size := shardsN - length survivalIdx in
    let inv := filter (fun i => negb (mem i survivalIdx)) (seq 0 shardsN) in
    if size <? length inv then Panic
    else Ok (inv ++ repeat 0 (size - length inv)).

(** [if len(shards[idx]) == 0 { shards[idx] = make([]byte, size) }] for the
    survivors. *)
Definition fill_survivors (size : nat) (survivalIdx : list nat) (shards : list slice)
  : outcome (list slice) :=
  range_loop (fun _ idx shards =>
                shard <- get shards idx ;;
                if len shard =? 0 then set shards idx (make size) else Ok shards)
             0 survivalIdx shards.

(** [subShards[subShardsRow] = shards[i]] for the survivors, in index order. *)
Definition collect_survivors (r : reedSolomon) (survivalIdx : list nat)
  (shards : list slice) : outcome (list slice) :=
  '(sub, _) <- loop (fun i (st : list slice * nat) =>
                       let '(sub, row) := st in
                       if mem i survivalIdx then
                         shard <- get shards i ;;
                         sub <- set sub row shard ;;
                         Ok (sub, S row)
                       else Ok st)
                    0 (Shards r) (repeat nil_slice (DataShards r), 0) ;;
  Ok sub.

Definition gather_bad (size : nat) (badIdx : list nat) (iShard : nat) (g : gather)
  : outcome gather :=
  if mem iShard badIdx then gather_output size iShard g else Ok g.

(** The product [invalidEncodeMatrix x dataDecodeMatrix] of
    [PartialReconstruct]. *)
Definition final_decode (r : reedSolomon) (badIdx : list nat) (dataDecodeMatrix : matrix)
  : outcome (result matrix) :=
  invalidEncodeMatrix <- copy_rows (m r) (DataShards r) badIdx
                           (newMatrix (length badIdx) (DataShards r)) ;;
  Ok (Multiply_dim (DataShards r) invalidEncodeMatrix dataDecodeMatrix).

Definition PartialReconstruct (r : reedSolomon) (t : inversionTree)
  (shards : list slice) (survivalIdx badIdx : list nat)
  : outcome (option error * list slice * inversionTree) :=
  if negb (length shards =? Shards r) then Ok (Some ErrTooFewShards, shards, t)
  else if negb (incremental survivalIdx) then Ok (Some ErrIndexNotIncremental, shards, t)
  else if negb (incremental badIdx) then Ok (Some ErrIndexNotIncremental, shards, t)
  else if numberPresent shards =? Shards r then Ok (None, shards, t)
  else if existsb (fun '(i, shard) => negb (len shard =? 0) && negb (mem i survivalIdx))
                  (combine (seq 0 (Shards r)) shards)
  then Ok (Some ErrShardsNotSurvival, shards, t)
  else
    invalidIndices <- invalid_indices (Shards r) survivalIdx ;;
    '(dec, t) <- decode_matrix r t survivalIdx invalidIndices ;;
    match dec with
    | Failure e => Ok (Some e, shards, t)
    | Success dataDecodeMatrix =>
        fin <- final_decode r badIdx dataDecodeMatrix ;;
        match fin with
        | Failure _ => Ok (None, shards, t)
        | Success finalDecodeMatrix =>
            let size := shardSize shards in
            shards <- fill_survivors size survivalIdx shards ;;
            subShards <- collect_survivors r survivalIdx shards ;;
            g <- loop (gather_bad size badIdx) 0 (Shards r)
                      {| g_shards := shards;
                         g_outputs := repeat nil_slice (ParityShards r);
                         g_rows := [];
                         g_index := [] |} ;;
            outs <- slice_to (g_outputs g) (length (g_index g)) ;;
            outs <- codeSomeShards r finalDecodeMatrix subShards outs
                                   (length (g_index g)) size ;;
            Ok (None, scatter (g_index g) outs (g_shards g), t)
        end
    end.

(** ** Survivor selection *)

(** The number of combinations.  The source computes it in floating point,
    as [int(math.Round(math.Exp(lgamma(n+1) - lgamma(k+1) - lgamma(n-k+1))))];
    [comb] is the binomial coefficient, the value of that expression wherever
    the floating-point computation is exact; beyond the range of [int] the
    source's count is not [comb], see [GetSurvivalShards_with]. *)
Fixpoint comb (n k : nat) : nat :=
  match k, n with
  | O, _ => 1
  | S _, O => 0
  | S k', S n' => comb n' k' + comb n' k
  end.

(** The search for the AZ of the failed shard: the first AZ that lists it,
    AZ 0 if none does. *)
Fixpoint find_bad_az (bad : nat) (azLayout : list (list nat)) (azId : nat) : nat :=
  match azLayout with
  | [] => 0
  | layout :: rest =>
      if mem bad layout then azId else find_bad_az bad rest (S azId)
  end.

Definition isContainedIn (shortList longList : list nat) : bool :=
  length (filter (fun s => mem s longList) shortList) =? length shortList.

(** [survivalIndices := make([]int, size)], filled with the indices outside
    [badIndex]; returns the slice and [survivalCnt]. *)
Definition survival_indices (shardsN : nat) (badIndex : list nat)
  : outcome (list nat * nat) :=
  if shardsN <? length badIndex then Panic
  else
    let size := shardsN - length badIndex in
    let sur := filter (fun i => negb (mem i badIndex)) (seq 0 shardsN) in
    if size <? length sur then Panic
    else Ok (sur ++ repeat 0 (size - length sur), length sur).

(** [for j >= 0 && tmpCombination[j] == n-k+j { j-- }], on [j+1]. *)
Fixpoint next_combination_j (tmp : list nat) (n k j1 : nat) : outcome nat :=
  match j1 with
  | O => Ok 0
  | S j =>
      v <- get tmp j ;;
      if v =? n - k + j then next_combination_j tmp n k j else Ok (S j)
  end.

Definition next_combination (tmp : list nat) (n k : nat) : outcome (list nat) :=
  j1 <- next_combination_j tmp n k k ;;
  j <- index_pred j1 ;;
  v <- get tmp j ;;
  tmp <- set tmp j (v + 1) ;;
  loop (fun j tmp => p <- get tmp (j - 1) ;; set tmp j (p + 1)) (j + 1) (k - (j + 1)) tmp.

(** [for col, coe := range r.m[idx] { subMatrix[row][col] = coe }] *)
Definition copy_whole_row (src : matrix) (idx row : nat) (dst : matrix) : outcome matrix :=
  srow <- get src idx ;;
  range_loop (fun col coe dst => mset dst row col coe) 0 srow dst.

Record search : Type := {
  s_comb : list nat;
  s_sub : matrix;
  s_select : list nat;
  s_err : option error;
  s_chosen : bool
}.

(** The loop over the combinations; [i] counts up to [combinationCnt] and
    [todo] is what is left of it. *)
Fixpoint combination_loop (r : reedSolomon) (badIndex forComputationShards : list nat)
  (survivalIndices : list nat) (n k combinationCnt i todo : nat) (st : search)
  : outcome search :=
  match todo with
  | O => Ok st
  | S todo' =>
      sub <- range_loop (fun row sel sub =>
                           idx <- get survivalIndices sel ;;
                           copy_whole_row (m r) idx row sub)
                        0 (s_comb st) (s_sub st) ;;
      let inv := Invert sub in
      let err := match inv with Success _ => None | Failure e => Some e end in
      sel <- (match inv with
              | Success _ =>
                  range_loop (fun i sel selectShards =>
                                idx <- get survivalIndices sel ;;
                                set selectShards i idx)
                             0 (s_comb st) (s_select st)
              | Failure _ => Ok (s_select st)
              end) ;;
      let chosen :=
        match inv with
        | Success _ =>
            (1 <? length badIndex) || negb (useAzureLrcP1Matrix (o r))
            || ((length badIndex =? 1) && isContainedIn forComputationShards sel
                && useAzureLrcP1Matrix (o r))
        | Failure _ => false
        end in
      if chosen then
        Ok {| s_comb := s_comb st; s_sub := sub; s_select := sel;
              s_err := err; s_chosen := true |}
      else
        tmp <- (if i <? combinationCnt - 1 then next_combination (s_comb st) n k
                else Ok (s_comb st)) ;;
        combination_loop r badIndex forComputationShards survivalIndices n k
          combinationCnt (S i) todo'
          {| s_comb := tmp; s_sub := sub; s_select := sel;
             s_err := err; s_chosen := false |}
  end.

(** [GetSurvivalShards] returns [(select_shards, read_shards, err)]; the nil
    slices of the early returns are empty lists.  The closure [comb] of the
    source is the parameter [count]: [count n k] is the [int] that its
    floating-point computation yields, and a count that is not positive leaves
    the loop over the combinations without a turn. *)
Definition GetSurvivalShards_with (count : nat -> nat -> Z) (r : reedSolomon)
  (badIndex : list nat) (azLayout : list (list nat))
  : outcome (list nat * list nat * option error) :=
  if length badIndex =? 0 then Ok ([], [], None)
  else if Shards r <? DataShards r + length badIndex
  then Ok ([], [], Some ErrTooFewShards)
  else
    forComputationShards <-
      (if (length badIndex =? 1) && useAzureLrcP1Matrix (o r) then
         bad <- get badIndex 0 ;;
         let badAzId := find_bad_az bad azLayout 0 in
         layout <- get azLayout badAzId ;;
         Ok (filter (fun shardIdx => negb (bad =? shardIdx)) layout)
       else Ok []) ;;
    '(survivalIndices, survivalCnt) <- survival_indices (Shards r) badIndex ;;
    let n := survivalCnt in
    let k := DataShards r in
    let combinationCnt := Z.to_nat (count n k) in
    st <- combination_loop r badIndex forComputationShards survivalIndices n k
            combinationCnt 0 combinationCnt
            {| s_comb := seq 0 k;
               s_sub := newMatrix (DataShards r) (DataShards r);
               s_select := repeat 0 (DataShards r);
               s_err := None;
               s_chosen := false |} ;;
    if negb (s_chosen st) then Ok ([], [], s_err st)
    else if length badIndex =? 1 then Ok (s_select st, forComputationShards, None)
    else Ok (s_select st, s_select st, None).

(** [GetSurvivalShards] where the count of the source is exact. *)
Definition GetSurvivalShards (r : reedSolomon) (badIndex : list nat)
  (azLayout : list (list nat)) : outcome (list nat * list nat * option error) :=
  GetSurvivalShards_with (fun n k => Z.of_nat (comb n k)) r badIndex azLayout.

(** ** Well-formed encoders

    What [New] establishes about the encoder it returns: the shard counts,
    the shape of the code matrix, and the parity rows.  [minSplitSize] is
    positive in every options value that the option setters produce. *)
Record enc_ok (r : reedSolomon) : Prop := {
  ok_data : 0 < DataShards r;
  ok_shards : Shards r = DataShards r + ParityShards r;
  ok_rows : length (m r) = Shards r;
  ok_cols : forall row, In row (m r) -> length row = DataShards r;
  ok_parity : parity r = skipn (DataShards r) (m r);
  ok_split : 0 < minSplitSize (o r)
}.

(** A shard is present when its length is not zero. *)
Definition present (shard : slice) : bool := negb (len shard =? 0).

(** ** Vocabulary of the specifications *)

(** Sum in GF(2^8) of [f 0], ..., [f (n-1)]. *)
Fixpoint bigsum (n : nat) (f : nat -> byte) : byte :=
  match n with
  | O => x00
  | S k => galAdd (bigsum k f) (f k)
  end.

(** Byte [q] of shard number [c]. *)
Definition shard_byte (shards : list slice) (c q : nat) : byte :=
  nth q (bytes (nth c shards nil_slice)) x00.

(** Byte [q] of the product of a matrix row with the first [n] shards:
    the sum over [c < n] of [row[c] * shards[c][q]]. *)
Definition coded_byte (row : list byte) (shards : list slice) (n q : nat) : byte :=
  bigsum n (fun c => galMultiply (nth c row x00) (shard_byte shards c q)).

(** Rewriting the bytes [[start, stop)] of a buffer position by position. *)
Definition pw_list (l : list byte) (start stop : nat) (f : nat -> byte -> byte)
  : list byte :=
  map (fun '(q, x) => if (start <=? q) && (q <? stop) then f q x else x)
      (combine (seq 0 (length l)) l).

Definition pw (s : slice) (start stop : nat) (f : nat -> byte -> byte) : slice :=
  match s with
  | nil_slice => nil_slice
  | mk_slice vis spare => mk_slice (pw_list vis start stop f) spare
  end.

(** Applying [g i] to the elements of index [i < n]. *)
Definition imap_lt {A : Type} (n : nat) (g : nat -> A -> A) (l : list A) : list A :=
  map (fun '(i, x) => if i <? n then g i x else x) (combine (seq 0 (length l)) l).

(** What column [c] does to byte [q] of an output whose matrix row has
    [coef] in that column: column 0 overwrites, the others accumulate. *)
Definition cell_byte (c : nat) (coef x o : byte) : byte :=
  if c =? 0 then galMultiply coef x else galAdd o (galMultiply coef x).

(** The accumulated value of byte [q] of output [i] after [c] columns. *)
Definition acc_byte (matrixRows : matrix) (inputs : list slice) (i c q : nat) (o : byte)
  : byte :=
  match c with
  | O => o
  | S _ => coded_byte (nth i matrixRows []) inputs c q
  end.

(** The outputs once the columns below [c] have been applied to the bytes
    [[start, stop)]. *)
Definition coder_state (outputCount start stop : nat) (matrixRows : matrix)
  (inputs outputs : list slice) (c : nat) : list slice :=
  imap_lt outputCount
    (fun i out => pw out start stop (fun q o => acc_byte matrixRows inputs i c q o))
    outputs.

(** The outputs below [outputCount] with their first [size] bytes replaced
    by the product of their matrix row with the inputs. *)
Definition coded (n : nat) (matrixRows : matrix) (inputs : list slice)
  (outputCount size : nat) (outputs : list slice) : list slice :=
  imap_lt outputCount
    (fun i out => pw out 0 size (fun q _ => coded_byte (nth i matrixRows []) inputs n q))
    outputs.

(** What [Update] leaves in old data shard [c]: the XOR with the new shard
    on the bytes [[start, stop)] when there is a new shard. *)
Definition xored (newinputs : list slice) (start stop c : nat) (old : slice) : slice :=
  if is_nil (nth c newinputs nil_slice) then old
  else pw old start stop (fun q o => galAdd o (shard_byte newinputs c q)).

(** The change of byte [q] of data column [c]. *)
Definition delta_byte (oldinputs newinputs : list slice) (c q : nat) : byte :=
  if is_nil (nth c newinputs nil_slice) then x00
  else galAdd (shard_byte oldinputs c q) (shard_byte newinputs c q).

(** The change of byte [q] of the parity with matrix row [row], from the
    first [n] columns. *)
Definition update_sum (row : list byte) (oldinputs newinputs : list slice) (n q : nat)
  : byte :=
  bigsum n (fun c => galMultiply (nth c row x00) (delta_byte oldinputs newinputs c q)).

Definition updated (n : nat) (matrixRows : matrix) (oldinputs newinputs : list slice)
  (outputCount start stop : nat) (outputs : list slice) : list slice :=
  imap_lt outputCount
    (fun i out =>
       pw out start stop
          (fun q o => galAdd o (update_sum (nth i matrixRows []) oldinputs newinputs n q)))
    outputs.

(** The old inputs and the outputs of [updateParityShards] after the columns
    below [c] on the bytes [[start, stop)]. *)
Definition update_state (matrixRows : matrix) (oldinputs newinputs outputs : list slice)
  (outputCount start stop c : nat) : list slice * list slice :=
  (imap_lt c (xored newinputs start stop) oldinputs,
   updated c matrixRows oldinputs newinputs outputCount start stop outputs).

(** The shard vector that [Update] stands for: the new data shard where
    there is one, the old shard otherwise. *)
Definition merge_shards (n : nat) (shards newDatashards : list slice) : list slice :=
  imap_lt n
    (fun c old => if is_nil (nth c newDatashards nil_slice) then old
                  else nth c newDatashards nil_slice)
    shards.

(** ** Examples of encoders *)

(** Options that select the default matrix and the sequential coder. *)
Definition plainOptions : options :=
  {| useAVX512 := false; useSSE2 := false; maxGoroutines := 1; minSplitSize := 1;
     useCauchy := false; usePAR1Matrix := false; useJerasureMatrix := false;
     useAzureLrcP1Matrix := false |}.

Definition lrcOptions : options :=
  {| useAVX512 := false; useSSE2 := false; maxGoroutines := 1; minSplitSize := 1;
     useCauchy := false; usePAR1Matrix := false; useJerasureMatrix := false;
     useAzureLrcP1Matrix := true |}.

(** The encoder that [New 2 1] returns: 2 data shards, 1 parity shard. *)
Definition enc_2_1 : reedSolomon :=
  {| DataShards := 2; ParityShards := 1; Shards := 3;
     m := [[x01; x00]; [x00; x01]; [x03; x02]];
     parity := [[x03; x02]];
     o := plainOptions |}.

(** The encoder that [New 4 4] returns with the AzureLRC+1 matrix: 4 data
    shards, 1 global parity, 3 local parities. *)
Definition enc_lrc_4_1 : reedSolomon :=
  {| DataShards := 4; ParityShards := 4; Shards := 8;
     m := map (map byte_of_nat)
            [[1; 0; 0; 0]; [0; 1; 0; 0]; [0; 0; 1; 0]; [0; 0; 0; 1];
             [1; 70; 143; 200];
             [1; 1; 0; 0]; [0; 0; 1; 1]; [1; 70; 143; 200]];
     parity := map (map byte_of_nat)
                 [[1; 70; 143; 200];
                  [1; 1; 0; 0]; [0; 0; 1; 1]; [1; 70; 143; 200]];
     o := lrcOptions |}.

(** A shard of visible bytes [l] without spare capacity. *)
Definition shard_of (l : list nat) : slice := mk_slice (map byte_of_nat l) [].

(** ** Invariants of the inversion tree *)

(** Every cached matrix has [DataShards] rows. *)
Definition tree_shape (r : reedSolomon) (t : inversionTree) : Prop :=
  forall key mx, tree_find key t = Some mx -> rows mx = DataShards r.

(** Two matrices of the same shape. *)
Definition same_shape (a b : matrix) : Prop :=
  length a = length b /\ forall i, length (nth i a []) = length (nth i b []).

(** ** Linear algebra vocabulary *)

Definition delta (i j : nat) : byte := if i =? j then x01 else x00.

(** All rows have [w] entries. *)
Definition width (w : nat) (mx : matrix) : Prop :=
  forall row, In row mx -> length row = w.

(** [x] is in the kernel of the matrix: every row has dot product 0 with it. *)
Definition in_kernel (mx : matrix) (x : list byte) : Prop :=
  forall row, In row mx -> dot row x = x00.

Definition zero_vector (x : list byte) : Prop :=
  forall i, nth i x x00 = x00.

(** Only the zero vector of length [n] is in the kernel. *)
Definition independent (n : nat) (mx : matrix) : Prop :=
  forall x, length x = n -> in_kernel mx x -> zero_vector x.

(** The rows of [mx] at the indices [idx]. *)
Definition select_rows (mx : matrix) (idx : list nat) : matrix :=
  map (fun i => nth i mx []) idx.

(** [b] times [a] is the [n x n] identity. *)
Definition inverse_of (n : nat) (b a : matrix) : Prop :=
  forall i j, i < n -> j < n ->
    bigsum n (fun k => galMultiply (entry b i k) (entry a k j)) = delta i j.

(** In the first [k] columns the matrix is the identity. *)
Definition reduced (k : nat) (mx : matrix) : Prop :=
  forall r j, r < length mx -> j < k -> entry mx r j = delta r j.

(** The invariant of the elimination loop: the work matrix keeps its shape
    and its kernel, and its first [k] columns are reduced. *)
Record ge_inv (w n k : nat) (orig cur : matrix) : Prop := {
  ge_length : length cur = n;
  ge_width : width w cur;
  ge_reduced : reduced k cur;
  ge_kernel : forall x, in_kernel cur x <-> in_kernel orig x
}.

(** Value at [x] of the polynomial with the coefficients [p], lowest degree
    first. *)
Fixpoint peval (p : list byte) (x : byte) : byte :=
  match p with
  | [] => x00
  | a :: p' => galAdd a (galMultiply x (peval p' x))
  end.

(** Quotient of [p] by [(t + r)]. *)
Fixpoint pdiv (p : list byte) (r : byte) : list byte :=
  match p with
  | [] => []
  | _ :: p' =>
      match p' with
      | [] => []
      | _ :: _ => peval p' r :: pdiv p' r
      end
  end.

(** A row vector times a matrix, and a matrix times a column vector. *)
Definition row_mul (row : list byte) (b : matrix) : list byte :=
  map (fun c => dot row (column b c)) (seq 0 (cols b)).

Definition mat_vec (b : matrix) (x : list byte) : list byte :=
  map (fun row => dot row x) b.

(** The code matrix has the identity on top. *)
Definition systematic (n : nat) (mx : matrix) : Prop :=
  forall i j, i < n -> j < n -> entry mx i j = delta i j.

(** Any [n] distinct rows among the first [total] are independent. *)
Definition mds (n total : nat) (mx : matrix) : Prop :=
  forall idx, NoDup idx -> length idx = n -> (forall i, In i idx -> i < total) ->
              independent n (select_rows mx idx).

(** Polynomials over GF(2^8), lowest degree first: sum, multiple, and
    product with [(t + y)]. *)
Fixpoint padd (p q : list byte) : list byte :=
  match p, q with
  | [], _ => q
  | _, [] => p
  | a :: p', b :: q' => galAdd a b :: padd p' q'
  end.

Definition pscale (c : byte) (p : list byte) : list byte := map (galMultiply c) p.

Definition pmul_lin (y : byte) (p : list byte) : list byte :=
  padd (x00 :: p) (pscale y p).

(** The product of [(t + byte(l))] over [l < n]. *)
Fixpoint plin (n : nat) : list byte :=
  match n with
  | O => [x01]
  | S k => pmul_lin (byte_of_nat k) (plin k)
  end.

(** The sum over [c < n] of [x[c]] times the product of [(t + byte(l))] over
    the [l < n] other than [c]. *)
Fixpoint cpoly (x : list byte) (n : nat) : list byte :=
  match n with
  | O => []
  | S k => padd (pscale (nth k x x00) (plin k)) (pmul_lin (byte_of_nat k) (cpoly x k))
  end.

(** What reconstruction needs of an encoder: well-formed, identity on top,
    and any [DataShards] rows of the code matrix independent. *)
Record rs_code (r : reedSolomon) : Prop := {
  code_ok : enc_ok r;
  code_systematic : systematic (DataShards r) (m r);
  code_mds : mds (DataShards r) (Shards r) (m r)
}.

(** The first [n] shard indices that are not in [key]: the valid indices
    that go with the invalid indices [key]. *)
Definition valid_of_key (n : nat) (key : list nat) : list nat :=
  firstn n (filter (fun i => negb (mem i key)) (seq 0 (n + length key))).

(** [mx] decodes the shards [valid]: it is the inverse of those rows of the
    code matrix. *)
Definition decodes (r : reedSolomon) (valid : list nat) (mx : matrix) : Prop :=
  length mx = DataShards r /\ width (DataShards r) mx /\
  inverse_of (DataShards r) mx (select_rows (m r) valid) /\
  inverse_of (DataShards r) (select_rows (m r) valid) mx.

(** Every matrix in the tree decodes the shards that go with its key. *)
Definition tree_ok (r : reedSolomon) (t : inversionTree) : Prop :=
  forall key mx, key <> [] -> tree_find key t = Some mx ->
                 decodes r (valid_of_key (DataShards r) key) mx.

(** A vector of [Shards] shards of [size] bytes in which every shard is the
    product of its row of the code matrix with the data shards. *)
Record codeword (r : reedSolomon) (size : nat) (shards : list slice) : Prop := {
  cw_length : length shards = Shards r;
  cw_len : forall i, i < Shards r -> len (nth i shards nil_slice) = size;
  cw_coded : forall i q, i < Shards r -> q < size ->
                         shard_byte shards i q
                         = coded_byte (nth i (m r) []) shards (DataShards r) q
}.

(** The shard numbers of [[start, start + count)] whose shard is missing. *)
Definition missing (shards : list slice) (start count : nat) : list nat :=
  filter (fun i => len (nth i shards nil_slice) =? 0) (seq start count).

(** What [prepare_output] makes of a shard. *)
Definition prepared (size : nat) (shard : slice) : slice :=
  match prepare_output size shard with
  | Ok s => s
  | Panic => shard
  end.

(** The state after the loop: the missing shards of the range, in order,
    are prepared and become the next outputs, with their matrix rows. *)
Record gathered (size : nat) (rowf : nat -> list byte) (g : gather) (miss : list nat)
  (g' : gather) : Prop := {
  gd_index : g_index g' = g_index g ++ miss;
  gd_shards_length : length (g_shards g') = length (g_shards g);
  gd_shards : forall i,
      nth i (g_shards g') nil_slice
      = if mem i miss then prepared size (nth i (g_shards g) nil_slice)
        else nth i (g_shards g) nil_slice;
  gd_outputs_length : length (g_outputs g') = length (g_outputs g);
  gd_outputs : forall k, k < length miss ->
      nth (length (g_index g) + k) (g_outputs g') nil_slice
      = prepared size (nth (nth k miss 0) (g_shards g) nil_slice);
  gd_rows_length : length (g_rows g') = length (g_rows g);
  gd_rows : forall k, k < length miss ->
      nth (length (g_index g) + k) (g_rows g') [] = rowf (nth k miss 0);
  gd_outputs_old : forall k, k < length (g_index g) ->
      nth k (g_outputs g') nil_slice = nth k (g_outputs g) nil_slice;
  gd_rows_old : forall k, k < length (g_index g) ->
      nth k (g_rows g') [] = nth k (g_rows g) []
}.

(** ** Combinations *)

(** The [k]-element combinations of [[lo, lo + d)], as increasing lists, in
    lexicographic order. *)
Fixpoint combs (d lo k : nat) : list (list nat) :=
  match k with
  | O => [[]]
  | S k' =>
      match d with
      | O => []
      | S d' => map (cons lo) (combs d' (S lo) k') ++ combs d' (S lo) k
      end
  end.

(** [c] is strictly increasing with entries in [[lo, hi)]. *)
Fixpoint inc_in (lo hi : nat) (c : list nat) : Prop :=
  match c with
  | [] => True
  | a :: t => lo <= a < hi /\ inc_in (S a) hi t
  end.

(** [c'] is the combination of [[0, n)] after [c]: the last entry of [c]
    that can grow does, and the entries after it follow it. *)
Definition comb_step (n : nat) (c c' : list nat) : Prop :=
  exists pre v post,
    c = pre ++ v :: post
    /\ post = seq (n - length post) (length post)
    /\ v + length post + 1 < n
    /\ c' = pre ++ seq (v + 1) (S (length post)).

(** The shard numbers that a combination of positions in [sur] selects. *)
Definition sel_of (sur : list nat) (c : list nat) : list nat :=
  map (fun s => nth s sur 0) c.

(** The test that ends the search of [GetSurvivalShards] at an invertible
    combination, and the combinations at which the search ends. *)
Definition chosen_pred (r : reedSolomon) (badIndex forComputationShards sel : list nat)
  : bool :=
  (1 <? length badIndex) || negb (useAzureLrcP1Matrix (o r))
  || ((length badIndex =? 1) && isContainedIn forComputationShards sel
      && useAzureLrcP1Matrix (o r)).

Definition good_comb (r : reedSolomon) (badIndex forComputationShards sur c : list nat)
  : bool :=
  match Invert (select_rows (m r) (sel_of sur c)) with
  | Success _ => chosen_pred r badIndex forComputationShards (sel_of sur c)
  | Failure _ => false
  end.

(** The shard numbers of [[0, n)] other than [b], and where position [s] of
    that list points. *)
Definition survivors (n b : nat) : list nat := seq 0 b ++ seq (S b) (n - 1 - b).

Definition skip_bad (b s : nat) : nat := if s <? b then s else S s.

(** The other members of the AZ of shard [b]. *)
Definition az_peers (azLayout : list (list nat)) (b : nat) : list nat :=
  filter (fun shardIdx => negb (b =? shardIdx))
         (nth (find_bad_az b azLayout 0) azLayout []).

(** What [GetSurvivalShards] selects for the failed shard [b]: [DataShards]
    surviving shards, in increasing order, that include [peers] and whose rows
    of the code matrix can be inverted. *)
Record selection (r : reedSolomon) (b : nat) (peers sel : list nat) : Prop := {
  sel_length : length sel = DataShards r;
  sel_inc : inc_in 0 (Shards r) sel;
  sel_bad : ~ In b sel;
  sel_peers : forall p, In p peers -> In p sel;
  sel_invert : exists inv, Invert (select_rows (m r) sel) = Success inv
}.

(** The position among the survivors of a shard number other than [b]. *)
Definition unskip_bad (b x : nat) : nat := if x <? b then x else x - 1.

(** Row [b] of the code matrix is the sum of the rows [peers]. *)
Definition local_relation (r : reedSolomon) (b : nat) (peers : list nat) : Prop :=
  forall k, k < DataShards r ->
    entry (m r) b k
    = bigsum (Shards r)
        (fun x => galMultiply (if mem x peers then x01 else x00) (entry (m r) x k)).

(** ** Shapes and unit rows *)

Definition shape (rows cols : nat) (mx : matrix) : Prop :=
  length mx = rows /\ width cols mx.

(** The first [k] rows are rows of the identity. *)
Definition unit_rows (k n : nat) (mx : matrix) : Prop :=
  forall r c, r < k -> c < n -> entry mx r c = delta r c.

(** ** The AzureLRC+1 code matrix *)

(** Entry [c] of the local parity row of DATA-AZ [row]. *)
Definition az_row (n row c : nat) : byte := if c / (n / 2) =? row then x01 else x00.

(** The matrix for [n] data shards, [m] global parities and 3 local
    parities: unit rows on top, a 0-1 row per DATA-AZ, and a last row that is
    the sum of the global parity rows. *)
Record lrc_matrix (n m : nat) (mx : matrix) : Prop := {
  lrc_shape : shape (n + m + 3) n mx;
  lrc_unit : unit_rows n n mx;
  lrc_az : forall row c, row < 2 -> c < n -> entry mx (n + m + row) c = az_row n row c;
  lrc_lp : forall c, c < n ->
                     entry mx (n + m + 2) c = bigsum m (fun k => entry mx (n + k) c)
}.

(** The AZ layout that goes with that matrix: each DATA-AZ holds half of the
    data shards and its local parity, the PARITY-AZ holds the global parities
    and the last local parity. *)
Definition az_layout (n m : nat) : list (list nat) :=
  [seq 0 (n / 2) ++ [n + m];
   seq (n / 2) (n / 2) ++ [n + m + 1];
   seq n m ++ [n + m + 2]].

(** The rows of an AZ sum to zero. *)
Definition az_balanced (r : reedSolomon) (az : list nat) : Prop :=
  forall k, k < DataShards r ->
    bigsum (Shards r)
      (fun x => galMultiply (if mem x az then x01 else x00) (entry (m r) x k)) = x00.

(** What [New] returns for AzureLRC+1 with [n] data shards and [m] global
    parities. *)
Record lrc_code (n g : nat) (r : reedSolomon) : Prop := {
  lc_ok : enc_ok r;
  lc_data : DataShards r = n;
  lc_parity : ParityShards r = g + 3;
  lc_shards : Shards r = n + g + 3;
  lc_flag : useAzureLrcP1Matrix (o r) = true;
  lc_matrix : lrc_matrix n g (m r)
}.

(** Shard [b] is in one of the two DATA-AZs: a data shard or one of the first
    two local parities. *)
Definition in_data_az (n g b : nat) : bool :=
  (b <? n) || ((n + g <=? b) && (b <? n + g + 2)).

(** ** Verify *)

(** [bytes.Equal] *)
Definition bytes_equal (a b : list byte) : bool :=
  if list_eq_dec byte_eq_dec a b then true else false.

(** One call [galMulSliceXor(matrixRows[iRow][c], in, outputs[iRow])] of
    [checkSomeShards]; the outputs are buffers of the function's own. *)
Definition check_cell (matrixRows : matrix) (c : nat) (inb : list byte) (iRow : nat)
  (outputs : list (list byte)) : outcome (list (list byte)) :=
  row <- get matrixRows iRow ;;
  coef <- get row c ;;
  out <- get outputs iRow ;;
  new <- galMulSliceXor coef inb out ;;
  Ok (upd outputs iRow new).

(** [for i, calc := range outputs { if !bytes.Equal(calc, view(toCheck[i])) { return false } }] *)
Fixpoint check_outputs (view : slice -> outcome (list byte))
  (outputs : list (list byte)) (toCheck : list slice) : outcome bool :=
  match outputs, toCheck with
  | [], _ => Ok true
  | calc :: outputs', chk :: toCheck' =>
      w <- view chk ;;
      if bytes_equal calc w then check_outputs view outputs' toCheck' else Ok false
  | _ :: _, [] => Panic
  end.

(** The sequential body of [checkSomeShards]. *)
Definition checkSomeShards_loop (dataShards : nat) (matrixRows : matrix)
  (inputs toCheck : list slice) (outputCount byteCount : nat) : outcome bool :=
  outputs <- loop (fun c outputs =>
                     inp <- get inputs c ;;
                     loop (check_cell matrixRows c (bytes inp)) 0 outputCount outputs)
                  0 dataShards (repeat (repeat x00 byteCount) (length toCheck)) ;;
  check_outputs (fun chk => Ok (bytes chk)) outputs toCheck.

(** The body of one goroutine of [checkSomeShardsP] on [[start, stop)];
    [same] is the shared flag as the goroutine finds it, and the result is
    the flag as it leaves it.  [None] stands for a goroutine that has
    returned. *)
Definition checkSomeShards_chunk (dataShards : nat) (matrixRows : matrix)
  (inputs toCheck : list slice) (outputCount start stop : nat) (same : bool)
  : outcome bool :=
  st <- loop (fun c (st : option (list (list byte))) =>
                match st with
                | None => Ok None
                | Some outputs =>
                    if negb same then Ok None
                    else
                      inp <- get inputs c ;;
                      inb <- window inp start stop ;;
                      outputs <- loop (check_cell matrixRows c inb) 0 outputCount outputs ;;
                      Ok (Some outputs)
                end)
             0 dataShards
             (Some (repeat (repeat x00 (stop - start)) (length toCheck))) ;;
  match st with
  | None => Ok same
  | Some outputs =>
      eq <- check_outputs (fun chk => window chk start stop) outputs toCheck ;;
      Ok (if eq then same else false)
  end.

(** [checkSomeShardsP]: the goroutines are run one after the other, in the
    order in which they are started. *)
Definition checkSomeShardsP (r : reedSolomon) (matrixRows : matrix)
  (inputs toCheck : list slice) (outputCount byteCount : nat) : outcome bool :=
  let do := byteCount / maxGoroutines (o r) in
  let do := if do <? minSplitSize (o r) then minSplitSize (o r) else do in
  (* Make sizes divisible by 32 *)
  let do := (do + 31) / 32 * 32 in
  split_loop (checkSomeShards_chunk (DataShards r) matrixRows inputs toCheck outputCount)
             byteCount 0 do byteCount true.

Definition checkSomeShards (r : reedSolomon) (matrixRows : matrix)
  (inputs toCheck : list slice) (outputCount byteCount : nat) : outcome bool :=
  if (1 <? maxGoroutines (o r)) && (minSplitSize (o r) <? byteCount) then
    checkSomeShardsP r matrixRows inputs toCheck outputCount byteCount
  else
    checkSomeShards_loop (DataShards r) matrixRows inputs toCheck outputCount byteCount.

Definition Verify (r : reedSolomon) (shards : list slice) : outcome (bool * option error) :=
  if negb (length shards =? Shards r) then Ok (false, Some ErrTooFewShards)
  else
    match checkShards shards false with
    | Some e => Ok (false, Some e)
    | None =>
        toCheck <- slice_from shards (DataShards r) ;;
        inputs <- slice_to shards (DataShards r) ;;
        s0 <- get shards 0 ;;
        ok <- checkSomeShards r (parity r) inputs toCheck (ParityShards r) (len s0) ;;
        Ok (ok, None)
    end.

(** ** Join *)

(** The first loop of [Join]: the bytes of the shards up to the one that
    reaches [outSize]; a nil shard met on the way ends it. *)
Fixpoint join_size (shards : list slice) (size outSize : nat) : result nat :=
  match shards with
  | [] => Success size
  | shard :: rest =>
      if is_nil shard then Failure ErrReconstructRequired
      else
        let size := size + len shard in
        if outSize <=? size then Success size else join_size rest size outSize
  end.

(** The second loop of [Join].  [write] is the [Write] method of [dst], an
    [io.Writer] with state [W] and errors [E]; it returns the new state, the
    count [n] and the error.  The counter [todo] is an [int]: a writer that
    reports more than it was given makes it negative, and the next
    [shard[:write]] panics. *)
Fixpoint join_write {W E : Type} (write : W -> list byte -> W * Z * option E)
  (shards : list slice) (todo : Z) (dst : W) : outcome (W * option E) :=
  match shards with
  | [] => Ok (dst, None)
  | shard :: rest =>
      if (todo <? Z.of_nat (len shard))%Z then
        if (todo <? 0)%Z then Panic
        else
          let '(dst, _, err) := write dst (firstn (Z.to_nat todo) (bytes shard)) in
          Ok (dst, err)
      else
        let '(dst, n, err) := write dst (bytes shard) in
        match err with
        | Some e => Ok (dst, Some e)
        | None => join_write write rest (todo - n)%Z dst
        end
  end.

(** [Join]; [outSize] is taken non-negative.  The error is one of the
    package ([inl]) or the writer's ([inr]). *)
Definition Join {W E : Type} (write : W -> list byte -> W * Z * option E)
  (r : reedSolomon) (dst : W) (shards : list slice) (outSize : nat)
  : outcome (W * option (error + E)) :=
  if length shards <? DataShards r then Ok (dst, Some (inl ErrTooFewShards))
  else
    let shards := firstn (DataShards r) shards in
    match join_size shards 0 outSize with
    | Failure e => Ok (dst, Some (inl e))
    | Success size =>
        if size <? outSize then Ok (dst, Some (inl ErrShortData))
        else
          '(dst, err) <- join_write write shards (Z.of_nat outSize) dst ;;
          Ok (dst, option_map inr err)
    end.

(** A writer that appends to a byte buffer and never fails, as
    [bytes.Buffer] does. *)
Definition buffer_write (dst : list byte) (p : list byte)
  : list byte * Z * option Empty_set :=
  (dst ++ p, Z.of_nat (length p), None).

(** The bytes [[0, a)] of the shards [toCheck] are the products of their
    matrix rows with the first [n] inputs. *)
Definition agree (n : nat) (matrixRows : matrix) (inputs toCheck : list slice)
  (a : nat) : bool :=
  forallb (fun i =>
             forallb (fun q =>
                        Byte.eqb (coded_byte (nth i matrixRows []) inputs n q)
                                 (shard_byte toCheck i q))
                     (seq 0 a))
          (seq 0 (length toCheck)).

(** Every parity shard holds, on its first [size] bytes, the product of its
    row of the code matrix with the data shards. *)
Definition parity_consistent (r : reedSolomon) (size : nat) (shards : list slice) : Prop :=
  forall i q, DataShards r <= i < Shards r -> q < size ->
    shard_byte shards i q = coded_byte (nth i (m r) []) shards (DataShards r) q.

(** The error that inverting the rows [sel] of the code matrix leaves in
    [err]. *)
Definition inversion_error (r : reedSolomon) (sel : list nat) : option error :=
  match Invert (select_rows (m r) sel) with
  | Success _ => None
  | Failure e => Some e
  end.

(** The shard numbers of [[0, n)] outside [bad], in increasing order, and
    the selections of [DataShards] of them in the order in which
    [GetSurvivalShards] tries them. *)
Definition survivor_list (n : nat) (bad : list nat) : list nat :=
  filter (fun i => negb (mem i bad)) (seq 0 n).

Definition candidates (r : reedSolomon) (bad : list nat) : list (list nat) :=
  map (sel_of (survivor_list (Shards r) bad))
      (combs (Shards r - length bad) 0 (DataShards r)).

(** ** Further examples of encoders *)

(** Options that select the Jerasure matrix and the sequential coder. *)
Definition jerasureOptions : options :=
  {| useAVX512 := false; useSSE2 := false; maxGoroutines := 1; minSplitSize := 1;
     useCauchy := false; usePAR1Matrix := false; useJerasureMatrix := true;
     useAzureLrcP1Matrix := false |}.

(** The encoder that [New 3 2] returns with the Jerasure matrix. *)
Definition enc_jerasure_3_2 : reedSolomon :=
  {| DataShards := 3; ParityShards := 2; Shards := 5;
     m := map (map byte_of_nat)
            [[1; 0; 0]; [0; 1; 0]; [0; 0; 1]; [1; 1; 1]; [1; 245; 244]];
     parity := map (map byte_of_nat) [[1; 1; 1]; [1; 245; 244]];
     o := jerasureOptions |}.

(** The encoder that [New 2 2] returns with the default matrix: 2 data
    shards, 2 parity shards. *)
Definition enc_2_2 : reedSolomon :=
  {| DataShards := 2; ParityShards := 2; Shards := 4;
     m := [[x01; x00]; [x00; x01]; [x03; x02]; [x02; x03]];
     parity := [[x03; x02]; [x02; x03]];
     o := plainOptions |}.

(** Options that select the PAR1 matrix and the sequential coder. *)
Definition par1Options : options :=
  {| useAVX512 := false; useSSE2 := false; maxGoroutines := 1; minSplitSize := 1;
     useCauchy := false; usePAR1Matrix := true; useJerasureMatrix := false;
     useAzureLrcP1Matrix := false |}.

(** The encoder that [New 2 2] returns with the PAR1 matrix. *)
Definition enc_par1_2_2 : reedSolomon :=
  {| DataShards := 2; ParityShards := 2; Shards := 4;
     m := [[x01; x00]; [x00; x01]; [x01; x01]; [x01; x02]];
     parity := [[x01; x01]; [x01; x02]];
     o := par1Options |}.

(** Options that let the coder split every shard of more than one byte over
    up to four goroutines. *)
Definition concurrentOptions : options :=
  {| useAVX512 := false; useSSE2 := false; maxGoroutines := 4; minSplitSize := 1;
     useCauchy := false; usePAR1Matrix := false; useJerasureMatrix := false;
     useAzureLrcP1Matrix := false |}.

(** The encoder that [New 2 1] returns with these options. *)
Definition enc_2_1_concurrent : reedSolomon :=
  {| DataShards := 2; ParityShards := 1; Shards := 3;
     m := [[x01; x00]; [x00; x01]; [x03; x02]];
     parity := [[x03; x02]];
     o := concurrentOptions |}.

(** The encoder that [New 4 5] returns with the AzureLRC+1 matrix: 4 data
    shards, 2 global parities, 3 local parities. *)
Definition enc_lrc_4_2 : reedSolomon :=
  {| DataShards := 4; ParityShards := 5; Shards := 9;
     m := map (map byte_of_nat)
            [[1; 0; 0; 0]; [0; 1; 0; 0]; [0; 0; 1; 0]; [0; 0; 0; 1];
             [1; 217; 92; 172]; [1; 70; 143; 200];
             [1; 1; 0; 0]; [0; 0; 1; 1]; [0; 159; 211; 100]];
     parity := map (map byte_of_nat)
                 [[1; 217; 92; 172]; [1; 70; 143; 200];
                  [1; 1; 0; 0]; [0; 0; 1; 1]; [0; 159; 211; 100]];
     o := lrcOptions |}.

(** ** The coder call of [PartialReconstruct] *)

(** What [PartialReconstruct] does once it has the final decode matrix: it
    fills the absent survivors, collects the inputs and the outputs and runs
    the coder. *)
Definition partial_code (r : reedSolomon) (t : inversionTree)
  (finalDecodeMatrix : matrix) (survivalIdx badIdx : list nat) (shards : list slice)
  : outcome (option error * list slice * inversionTree) :=
  let size := shardSize shards in
  shards <- fill_survivors size survivalIdx shards ;;
  subShards <- collect_survivors r survivalIdx shards ;;
  g <- loop (gather_bad size badIdx) 0 (Shards r)
            {| g_shards := shards;
               g_outputs := repeat nil_slice (ParityShards r);
               g_rows := [];
               g_index := [] |} ;;
  outs <- slice_to (g_outputs g) (length (g_index g)) ;;
  outs <- codeSomeShards r finalDecodeMatrix subShards outs
                         (length (g_index g)) size ;;
  Ok (None, scatter (g_index g) outs (g_shards g), t).

Unset Implicit Arguments.

(** * Properties *)

(** ** Exhaustive checks over bytes *)

Lemma nat_of_byte_lt b : nat_of_byte b < 256.
Proof.
  unfold nat_of_byte. pose proof (Byte.to_N_bounded b). lia.
Qed.

Lemma all_bytes_nth b : nth (nat_of_byte b) all_bytes x00 = b.
Proof. destruct b; reflexivity. Qed.

Lemma all_bytes_In b : In b all_bytes.
Proof.
  rewrite <- (all_bytes_nth b) at 1.
  apply nth_In. change (length all_bytes) with 256. apply nat_of_byte_lt.
Qed.

Lemma byte_all_spec (P : byte -> bool) :
  byte_all P = true -> forall b, P b = true.
Proof.
  unfold byte_all. intros H b.
  rewrite forallb_forall in H. apply H, all_bytes_In.
Qed.

Lemma byte_eqb_eq a b : Byte.eqb a b = true <-> a = b.
Proof.
  split; [apply Byte.byte_dec_bl | apply Byte.byte_dec_lb].
Qed.

Lemma byte_eqb_neq a b : Byte.eqb a b = false <-> a <> b.
Proof.
  rewrite <- byte_eqb_eq. destruct (Byte.eqb a b); split; congruence.
Qed.

Lemma byte_eq_dec (a b : byte) : {a = b} + {a <> b}.
Proof.
  destruct (Byte.eqb a b) eqn:E; [left | right].
  - now apply byte_eqb_eq.
  - now apply byte_eqb_neq.
Qed.

Lemma byte_of_to_N b : byte_of_N (Byte.to_N b) = b.
Proof. unfold byte_of_N. now rewrite Byte.of_to_N. Qed.

Lemma to_N_inj a b : Byte.to_N a = Byte.to_N b -> a = b.
Proof.
  intros H. rewrite <- (byte_of_to_N a), <- (byte_of_to_N b). now rewrite H.
Qed.

(** ** Addition is XOR *)

Lemma to_N_galAdd a b :
  Byte.to_N (galAdd a b) = N.lxor (Byte.to_N a) (Byte.to_N b).
Proof.
  revert b. change (forall b, (fun b => Byte.to_N (galAdd a b)) b = (fun b => N.lxor (Byte.to_N a) (Byte.to_N b)) b).
  intros b.
  assert (H : byte_all (fun a => byte_all (fun b =>
             N.eqb (Byte.to_N (galAdd a b)) (N.lxor (Byte.to_N a) (Byte.to_N b)))) = true)
    by (vm_compute; reflexivity).
  apply N.eqb_eq.
  exact (byte_all_spec _ (byte_all_spec _ H a) b).
Qed.

Lemma galAdd_comm a b : galAdd a b = galAdd b a.
Proof. unfold galAdd. now rewrite N.lxor_comm. Qed.

Lemma galAdd_assoc a b c : galAdd a (galAdd b c) = galAdd (galAdd a b) c.
Proof.
  apply to_N_inj. rewrite !to_N_galAdd. now rewrite N.lxor_assoc.
Qed.

Lemma galAdd_0_l a : galAdd x00 a = a.
Proof. apply to_N_inj. rewrite to_N_galAdd. apply N.lxor_0_l. Qed.

Lemma galAdd_0_r a : galAdd a x00 = a.
Proof. rewrite galAdd_comm. apply galAdd_0_l. Qed.

Lemma galAdd_self a : galAdd a a = x00.
Proof. apply to_N_inj. rewrite to_N_galAdd. apply N.lxor_nilpotent. Qed.

Lemma galAdd_eq_0 a b : galAdd a b = x00 <-> a = b.
Proof.
  split; intros H.
  - rewrite <- (galAdd_0_r a), <- (galAdd_self b).
    rewrite galAdd_assoc, H. apply galAdd_0_l.
  - subst. apply galAdd_self.
Qed.

Lemma galAdd_cancel_l a b c : galAdd a b = galAdd a c -> b = c.
Proof.
  intros H.
  rewrite <- (galAdd_0_l b), <- (galAdd_0_l c), <- (galAdd_self a).
  now rewrite <- !galAdd_assoc, H.
Qed.

(** ** Multiplication through the log/exp tables *)

Lemma galAlog_gen_pow i : i < 256 -> galAlog i = gen_pow i.
Proof.
  intros H. unfold galAlog.
  change expTable with (map gen_pow (seq 0 256)).
  rewrite (nth_indep _ x00 (gen_pow 0)) by (rewrite length_map, length_seq; lia).
  rewrite map_nth. rewrite seq_nth by lia. reflexivity.
Qed.

Lemma galLog_spec a : a <> x00 -> galLog a < 255 /\ galAlog (galLog a) = a.
Proof.
  intros Ha.
  assert (H : byte_all (fun a => Byte.eqb a x00 ||
             (Nat.ltb (galLog a) 255 && Byte.eqb (galAlog (galLog a)) a)) = true)
    by (vm_compute; reflexivity).
  pose proof (byte_all_spec _ H a) as Hb. simpl in Hb.
  apply orb_true_iff in Hb. destruct Hb as [Hb | Hb].
  - apply byte_eqb_eq in Hb. contradiction.
  - apply andb_true_iff in Hb. destruct Hb as [H1 H2].
    apply Nat.ltb_lt in H1. apply byte_eqb_eq in H2. auto.
Qed.

Lemma galAlog_spec i : i < 255 -> galAlog i <> x00 /\ galLog (galAlog i) = i.
Proof.
  intros Hi.
  assert (H : forallb (fun i => negb (Byte.eqb (galAlog i) x00) &&
             Nat.eqb (galLog (galAlog i)) i) (seq 0 255) = true)
    by (vm_compute; reflexivity).
  rewrite forallb_forall in H.
  specialize (H i). rewrite in_seq in H.
  assert (Hi' : 0 <= i < 0 + 255) by lia.
  apply H in Hi'. apply andb_true_iff in Hi'. destruct Hi' as [H1 H2].
  apply negb_true_iff, byte_eqb_neq in H1. apply Nat.eqb_eq in H2. auto.
Qed.

Lemma galMultiply_0_l a : galMultiply x00 a = x00.
Proof. reflexivity. Qed.

Lemma galMultiply_0_r a : galMultiply a x00 = x00.
Proof. unfold galMultiply. now rewrite orb_true_r. Qed.

Lemma galMultiply_nz a b :
  a <> x00 -> b <> x00 ->
  galMultiply a b = galAlog ((galLog a + galLog b) mod 255).
Proof.
  intros Ha Hb. unfold galMultiply.
  apply byte_eqb_neq in Ha, Hb. now rewrite Ha, Hb.
Qed.

Lemma galMultiply_comm a b : galMultiply a b = galMultiply b a.
Proof. unfold galMultiply. now rewrite orb_comm, Nat.add_comm. Qed.

Lemma galMultiply_eq_0 a b : galMultiply a b = x00 -> a = x00 \/ b = x00.
Proof.
  intros H.
  destruct (byte_eq_dec a x00) as [|Ha]; [now left|].
  destruct (byte_eq_dec b x00) as [|Hb]; [now right|].
  rewrite galMultiply_nz in H by assumption.
  assert (Hlt : (galLog a + galLog b) mod 255 < 255)
    by (apply Nat.mod_upper_bound; lia).
  destruct (galAlog_spec _ Hlt) as [H1 _]. contradiction.
Qed.

Lemma galMultiply_neq_0 a b : a <> x00 -> b <> x00 -> galMultiply a b <> x00.
Proof. intros Ha Hb H. apply galMultiply_eq_0 in H. tauto. Qed.

Lemma galLog_galMultiply a b :
  a <> x00 -> b <> x00 ->
  galLog (galMultiply a b) = (galLog a + galLog b) mod 255.
Proof.
  intros Ha Hb. rewrite galMultiply_nz by assumption.
  apply galAlog_spec. apply Nat.mod_upper_bound. lia.
Qed.

Lemma galMultiply_assoc a b c :
  galMultiply a (galMultiply b c) = galMultiply (galMultiply a b) c.
Proof.
  destruct (byte_eq_dec a x00) as [->|Ha]; [reflexivity|].
  destruct (byte_eq_dec b x00) as [->|Hb].
  { now rewrite galMultiply_0_l, galMultiply_0_r. }
  destruct (byte_eq_dec c x00) as [->|Hc].
  { now rewrite !galMultiply_0_r. }
  rewrite (galMultiply_nz a (galMultiply b c))
    by auto using galMultiply_neq_0.
  rewrite (galMultiply_nz (galMultiply a b) c)
    by auto using galMultiply_neq_0.
  rewrite !galLog_galMultiply by assumption.
  f_equal.
  rewrite Nat.Div0.add_mod_idemp_r, Nat.Div0.add_mod_idemp_l.
  f_equal. lia.
Qed.

Lemma galMultiply_1_l a : galMultiply x01 a = a.
Proof.
  destruct (byte_eq_dec a x00) as [->|Ha]; [reflexivity|].
  rewrite galMultiply_nz by (assumption || discriminate).
  change (galLog x01) with 0. rewrite Nat.add_0_l.
  destruct (galLog_spec _ Ha) as [H1 H2].
  rewrite Nat.mod_small by assumption. exact H2.
Qed.

Lemma galMultiply_1_r a : galMultiply a x01 = a.
Proof. rewrite galMultiply_comm. apply galMultiply_1_l. Qed.

(** Distributivity: multiplication by the generator is XOR-linear, and every
    nonzero byte is a power of the generator. *)

Lemma xtime_galAdd a b : xtime (galAdd a b) = galAdd (xtime a) (xtime b).
Proof.
  assert (H : byte_all (fun a => byte_all (fun b =>
             Byte.eqb (xtime (galAdd a b)) (galAdd (xtime a) (xtime b)))) = true)
    by (vm_compute; reflexivity).
  apply byte_eqb_eq.
  exact (byte_all_spec _ (byte_all_spec _ H a) b).
Qed.

Lemma galMultiply_x02 a : galMultiply x02 a = xtime a.
Proof.
  assert (H : byte_all (fun a => Byte.eqb (galMultiply x02 a) (xtime a)) = true)
    by (vm_compute; reflexivity).
  apply byte_eqb_eq. exact (byte_all_spec _ H a).
Qed.

Lemma gen_pow_mul i a : galMultiply (gen_pow (S i)) a = xtime (galMultiply (gen_pow i) a).
Proof.
  simpl. rewrite <- !galMultiply_x02. now rewrite galMultiply_assoc.
Qed.

Lemma gen_pow_distr i b c :
  galMultiply (gen_pow i) (galAdd b c)
  = galAdd (galMultiply (gen_pow i) b) (galMultiply (gen_pow i) c).
Proof.
  induction i as [|i IH].
  - change (gen_pow 0) with x01. now rewrite !galMultiply_1_l.
  - rewrite !gen_pow_mul, IH. apply xtime_galAdd.
Qed.

Lemma galMultiply_distr_l a b c :
  galMultiply a (galAdd b c) = galAdd (galMultiply a b) (galMultiply a c).
Proof.
  destruct (byte_eq_dec a x00) as [->|Ha]; [reflexivity|].
  destruct (galLog_spec _ Ha) as [H1 H2].
  rewrite galAlog_gen_pow in H2 by lia.
  rewrite <- H2. apply gen_pow_distr.
Qed.

Lemma galMultiply_distr_r a b c :
  galMultiply (galAdd a b) c = galAdd (galMultiply a c) (galMultiply b c).
Proof.
  rewrite !(galMultiply_comm _ c). apply galMultiply_distr_l.
Qed.

(** ** Inverses, division and powers *)

Lemma invTable_spec a : a <> x00 -> galMultiply a (invTable a) = x01.
Proof.
  intros Ha.
  assert (H : byte_all (fun a => Byte.eqb a x00 ||
             Byte.eqb (galMultiply a (invTable a)) x01) = true)
    by (vm_compute; reflexivity).
  pose proof (byte_all_spec _ H a) as Hb. simpl in Hb.
  apply orb_true_iff in Hb. destruct Hb as [Hb | Hb]; apply byte_eqb_eq in Hb; tauto.
Qed.

Lemma invTable_neq_0 a : a <> x00 -> invTable a <> x00.
Proof.
  intros Ha H. pose proof (invTable_spec _ Ha) as E.
  rewrite H, galMultiply_0_r in E. discriminate.
Qed.

Lemma galDivide_1 a : a <> x00 -> galDivide x01 a = Some (invTable a).
Proof.
  intros Ha. unfold invTable. unfold galDivide.
  apply byte_eqb_neq in Ha. now rewrite Ha.
Qed.

Lemma galDivide_0 a : galDivide a x00 = None.
Proof. reflexivity. Qed.

Lemma galMultiply_cancel_l a b c :
  a <> x00 -> galMultiply a b = galMultiply a c -> b = c.
Proof.
  intros Ha H.
  rewrite <- (galMultiply_1_l b), <- (galMultiply_1_l c).
  rewrite <- (invTable_spec _ Ha), (galMultiply_comm a).
  now rewrite <- !galMultiply_assoc, H.
Qed.

Lemma galExp_0 a : galExp a 0 = x01.
Proof. reflexivity. Qed.

Lemma galExp_S a n : galExp a (S n) = galMultiply a (galExp a n).
Proof.
  unfold galExp. simpl Nat.eqb.
  destruct (Byte.eqb a x00) eqn:E.
  - apply byte_eqb_eq in E. subst. reflexivity.
  - apply byte_eqb_neq in E.
    destruct (galLog_spec _ E) as [H1 H2].
    destruct n as [|n]; simpl Nat.eqb; cbv iota.
    + rewrite galMultiply_1_r, Nat.mul_1_r, Nat.mod_small by assumption.
      exact H2.
    + assert (Hlt : (galLog a * S n) mod 255 < 255)
        by (apply Nat.mod_upper_bound; lia).
      destruct (galAlog_spec _ Hlt) as [H3 H4].
      rewrite galMultiply_nz by assumption.
      rewrite H4. f_equal.
      rewrite Nat.Div0.add_mod_idemp_r. f_equal. lia.
Qed.

(** ** Indexing, updates and loops *)

Lemma get_Ok {A : Type} (l : list A) (i : nat) (d : A) :
  i < length l -> get l i = Ok (nth i l d).
Proof.
  intros H. unfold get. now rewrite (nth_error_nth' l d H).
Qed.

Lemma get_Panic {A : Type} (l : list A) (i : nat) :
  length l <= i -> get l i = Panic.
Proof.
  intros H. unfold get. apply nth_error_None in H. now rewrite H.
Qed.

Lemma get_inv {A : Type} (l : list A) (i : nat) (x : A) (d : A) :
  get l i = Ok x -> i < length l /\ x = nth i l d.
Proof.
  unfold get. destruct (nth_error l i) eqn:E; [|discriminate].
  intros [= <-]. split.
  - apply nth_error_Some. congruence.
  - symmetry. now apply nth_error_nth.
Qed.

Lemma length_upd {A : Type} (l : list A) (i : nat) (x : A) :
  length (upd l i x) = length l.
Proof.
  revert i. induction l as [|h t IH]; intros [|i]; simpl; auto.
Qed.

Lemma nth_upd {A : Type} (l : list A) (i j : nat) (x d : A) :
  nth j (upd l i x) d = if (j =? i) && (i <? length l) then x else nth j l d.
Proof.
  revert i j. induction l as [|h t IH]; intros i j.
  - simpl. replace (i <? 0) with false by (symmetry; apply Nat.ltb_ge; lia).
    rewrite andb_false_r. now destruct i.
  - destruct i as [|i], j as [|j]; simpl; auto.
Qed.

Lemma nth_upd_eq {A : Type} (l : list A) (i : nat) (x d : A) :
  i < length l -> nth i (upd l i x) d = x.
Proof.
  intros H. rewrite nth_upd, Nat.eqb_refl.
  apply Nat.ltb_lt in H. now rewrite H.
Qed.

Lemma nth_upd_neq {A : Type} (l : list A) (i j : nat) (x d : A) :
  j <> i -> nth j (upd l i x) d = nth j l d.
Proof.
  intros H. rewrite nth_upd. apply Nat.eqb_neq in H. now rewrite H.
Qed.

Lemma upd_nth_same {A : Type} (l : list A) (i : nat) (d : A) :
  upd l i (nth i l d) = l.
Proof.
  revert i. induction l as [|h t IH]; intros [|i]; simpl; auto.
  now rewrite IH.
Qed.

Lemma upd_ge {A : Type} (l : list A) (i : nat) (x : A) :
  length l <= i -> upd l i x = l.
Proof.
  revert i. induction l as [|h t IH]; intros [|i]; simpl; auto; try lia.
  intros H. f_equal. apply IH. lia.
Qed.

Lemma set_Ok {A : Type} (l : list A) (i : nat) (x : A) :
  i < length l -> set l i x = Ok (upd l i x).
Proof.
  intros H. unfold set. apply Nat.ltb_lt in H. now rewrite H.
Qed.

Lemma set_inv {A : Type} (l l' : list A) (i : nat) (x : A) :
  set l i x = Ok l' -> i < length l /\ l' = upd l i x.
Proof.
  unfold set. destruct (i <? length l) eqn:E; [|discriminate].
  intros [= <-]. apply Nat.ltb_lt in E. auto.
Qed.

Lemma slice_to_Ok {A : Type} (l : list A) (i : nat) :
  i <= length l -> slice_to l i = Ok (firstn i l).
Proof.
  intros H. unfold slice_to. apply Nat.leb_le in H. now rewrite H.
Qed.

Lemma slice_from_Ok {A : Type} (l : list A) (i : nat) :
  i <= length l -> slice_from l i = Ok (skipn i l).
Proof.
  intros H. unfold slice_from. apply Nat.leb_le in H. now rewrite H.
Qed.

Lemma bind_Ok_inv {A B : Type} (x : outcome A) (f : A -> outcome B) (b : B) :
  bind x f = Ok b -> exists a, x = Ok a /\ f a = Ok b.
Proof.
  destruct x as [a|]; simpl; [eauto | discriminate].
Qed.

(** A loop whose body keeps an invariant runs to completion. *)
Lemma loop_invariant {S : Type} (P : nat -> S -> Prop)
  (body : nat -> S -> outcome S) (count start : nat) (s : S) :
  P start s ->
  (forall i s, start <= i < start + count -> P i s ->
               exists s', body i s = Ok s' /\ P (Datatypes.S i) s') ->
  exists s', loop body start count s = Ok s' /\ P (start + count) s'.
Proof.
  revert start s. induction count as [|count IH]; intros start s H0 Hstep.
  - exists s. rewrite Nat.add_0_r. auto.
  - destruct (Hstep start s) as [s1 [E1 H1]]; [lia | assumption |].
    simpl. rewrite E1. simpl.
    destruct (IH (Datatypes.S start) s1 H1) as [s2 [E2 H2]].
    + intros i s' Hi. apply Hstep. lia.
    + exists s2. split; [assumption|].
      now replace (start + Datatypes.S count) with (Datatypes.S start + count) by lia.
Qed.

(** What a finished loop says about its result, given what its body says. *)
Lemma loop_result {S : Type} (P : nat -> S -> Prop)
  (body : nat -> S -> outcome S) (count start : nat) (s s' : S) :
  P start s ->
  (forall i s s', start <= i < start + count -> P i s ->
                  body i s = Ok s' -> P (Datatypes.S i) s') ->
  loop body start count s = Ok s' ->
  P (start + count) s'.
Proof.
  revert start s. induction count as [|count IH]; intros start s H0 Hstep E.
  - simpl in E. injection E as <-. now rewrite Nat.add_0_r.
  - simpl in E. apply bind_Ok_inv in E. destruct E as [s1 [E1 E2]].
    replace (start + Datatypes.S count) with (Datatypes.S start + count) by lia.
    apply (IH (Datatypes.S start) s1).
    + apply (Hstep start s); auto. lia.
    + intros i x x' Hi. apply Hstep. lia.
    + assumption.
Qed.

Lemma loop_ext {S : Type} (body1 body2 : nat -> S -> outcome S)
  (count start : nat) (s : S) :
  (forall i s, start <= i < start + count -> body1 i s = body2 i s) ->
  loop body1 start count s = loop body2 start count s.
Proof.
  revert start s. induction count as [|count IH]; intros start s H; simpl; auto.
  rewrite H by lia. destruct (body2 start s); simpl; auto.
  apply IH. intros. apply H. lia.
Qed.

Lemma range_loop_invariant {A S : Type} (P : nat -> S -> Prop)
  (body : nat -> A -> S -> outcome S) (l : list A) (start : nat) (s : S) (d : A) :
  P start s ->
  (forall i s, start <= i < start + length l -> P i s ->
               exists s', body i (nth (i - start) l d) s = Ok s' /\ P (Datatypes.S i) s') ->
  exists s', range_loop body start l s = Ok s' /\ P (start + length l) s'.
Proof.
  revert start s. induction l as [|x l IH]; intros start s H0 Hstep.
  - exists s. simpl. rewrite Nat.add_0_r. auto.
  - destruct (Hstep start s) as [s1 [E1 H1]]; [simpl; lia | assumption |].
    rewrite Nat.sub_diag in E1. simpl in E1.
    simpl. rewrite E1. simpl.
    destruct (IH (Datatypes.S start) s1 H1) as [s2 [E2 H2]].
    + intros i s' Hi HP.
      destruct (Hstep i s') as [s3 [E3 H3]]; [simpl; lia | assumption |].
      replace (i - start) with (Datatypes.S (i - Datatypes.S start)) in E3 by lia.
      simpl in E3. eauto.
    + exists s2. split; [assumption|].
      now replace (start + Datatypes.S (length l)) with (Datatypes.S start + length l) by lia.
Qed.

Lemma range_loop_result {A S : Type} (P : nat -> S -> Prop)
  (body : nat -> A -> S -> outcome S) (l : list A) (start : nat) (s s' : S) (d : A) :
  P start s ->
  (forall i s s', start <= i < start + length l -> P i s ->
                  body i (nth (i - start) l d) s = Ok s' -> P (Datatypes.S i) s') ->
  range_loop body start l s = Ok s' ->
  P (start + length l) s'.
Proof.
  revert start s. induction l as [|x l IH]; intros start s H0 Hstep E.
  - simpl in E. injection E as <-. simpl. now rewrite Nat.add_0_r.
  - simpl in E. apply bind_Ok_inv in E. destruct E as [s1 [E1 E2]].
    replace (start + length (x :: l)) with (Datatypes.S start + length l) by (simpl; lia).
    apply (IH (Datatypes.S start) s1).
    + apply (Hstep start s); auto; [simpl; lia|].
      now rewrite Nat.sub_diag.
    + intros i y y' Hi HP Hb. apply (Hstep i y); auto; [simpl; lia|].
      replace (i - start) with (Datatypes.S (i - Datatypes.S start)) by lia.
      exact Hb.
    + assumption.
Qed.

(** ** [map2] *)

Lemma length_map2 {A B C : Type} (f : A -> B -> C) l1 l2 :
  length (map2 f l1 l2) = Nat.min (length l1) (length l2).
Proof.
  revert l2. induction l1 as [|a l1 IH]; intros [|b l2]; simpl; auto.
Qed.

Lemma nth_map2 {A B C : Type} (f : A -> B -> C) l1 l2 i da db dc :
  i < length l1 -> i < length l2 ->
  nth i (map2 f l1 l2) dc = f (nth i l1 da) (nth i l2 db).
Proof.
  revert l2 i. induction l1 as [|a l1 IH]; intros [|b l2] [|i]; simpl; try lia; auto.
  intros H1 H2. apply IH; lia.
Qed.

Lemma nth_ext_lt {A : Type} (l1 l2 : list A) (d : A) :
  length l1 = length l2 ->
  (forall i, i < length l1 -> nth i l1 d = nth i l2 d) ->
  l1 = l2.
Proof.
  intros Hl H. apply (nth_ext l1 l2 d d); auto.
Qed.

(** ** Slices *)

Lemma len_make n : len (make n) = n.
Proof. unfold len, make. simpl. apply repeat_length. Qed.

Lemma bytes_make n : bytes (make n) = repeat x00 n.
Proof. reflexivity. Qed.

Lemma len_le_cap s : len s <= cap s.
Proof.
  destruct s; unfold len, cap; simpl; auto. rewrite length_app. lia.
Qed.

Lemma len_nil_slice : len nil_slice = 0.
Proof. reflexivity. Qed.

Lemma len_0_bytes s : len s = 0 -> bytes s = [].
Proof. unfold len. destruct (bytes s); simpl; [auto | discriminate]. Qed.

Lemma prepare_output_total size s : exists s', prepare_output size s = Ok s' /\ len s' = size.
Proof.
  unfold prepare_output, reslice.
  destruct (size <=? cap s) eqn:E.
  - eexists. split; [reflexivity|].
    apply Nat.leb_le in E. destruct s as [|vis spare]; unfold len, cap in *; simpl in *.
    + lia.
    + rewrite length_firstn. lia.
  - eexists. split; [reflexivity|]. apply len_make.
Qed.

Lemma nth_map_seq {A : Type} (f : nat -> A) (n i : nat) (d : A) :
  i < n -> nth i (map f (seq 0 n)) d = f i.
Proof.
  intros H. rewrite (nth_indep _ d (f 0)) by (rewrite length_map, length_seq; lia).
  rewrite map_nth, seq_nth by lia. reflexivity.
Qed.

(** ** The count of [GetSurvivalShards] *)

(** [GetSurvivalShards], with the binomial coefficient for the count. *)
Lemma GetSurvivalShards_eq r badIndex azLayout :
  GetSurvivalShards r badIndex azLayout
  = if length badIndex =? 0 then Ok ([], [], None)
    else if Shards r <? DataShards r + length badIndex
    then Ok ([], [], Some ErrTooFewShards)
    else
      forComputationShards <-
        (if (length badIndex =? 1) && useAzureLrcP1Matrix (o r) then
           bad <- get badIndex 0 ;;
           let badAzId := find_bad_az bad azLayout 0 in
           layout <- get azLayout badAzId ;;
           Ok (filter (fun shardIdx => negb (bad =? shardIdx)) layout)
         else Ok []) ;;
      '(survivalIndices, survivalCnt) <- survival_indices (Shards r) badIndex ;;
      let n := survivalCnt in
      let k := DataShards r in
      let combinationCnt := comb n k in
      st <- combination_loop r badIndex forComputationShards survivalIndices n k
              combinationCnt 0 combinationCnt
              {| s_comb := seq 0 k;
                 s_sub := newMatrix (DataShards r) (DataShards r);
                 s_select := repeat 0 (DataShards r);
                 s_err := None;
                 s_chosen := false |} ;;
      if negb (s_chosen st) then Ok ([], [], s_err st)
      else if length badIndex =? 1 then Ok (s_select st, forComputationShards, None)
      else Ok (s_select st, s_select st, None).
Proof.
  unfold GetSurvivalShards, GetSurvivalShards_with.
  destruct (length badIndex =? 0); [reflexivity|].
  destruct (Shards r <? DataShards r + length badIndex); [reflexivity|].
  match goal with
  | |- bind ?e _ = _ => destruct e as [fcs|]; [|reflexivity]
  end.
  cbn [bind].
  destruct (survival_indices (Shards r) badIndex) as [[sur cnt]|]; [|reflexivity].
  cbn [bind]. cbv zeta. rewrite Nat2Z.id. reflexivity.
Qed.

(** ** Presence checks *)

Lemma numberPresent_le shards : numberPresent shards <= length shards.
Proof. unfold numberPresent. apply filter_length_le. Qed.

Lemma numberPresent_all shards :
  Forall (fun shard => len shard <> 0) shards ->
  numberPresent shards = length shards.
Proof.
  unfold numberPresent. induction 1 as [|s l Hs Hl IH]; simpl; auto.
  apply Nat.eqb_neq in Hs. rewrite Hs. simpl. now rewrite IH.
Qed.

Lemma numberPresent_all_inv shards :
  numberPresent shards = length shards ->
  Forall (fun shard => len shard <> 0) shards.
Proof.
  unfold numberPresent. induction shards as [|s l IH]; simpl; auto.
  destruct (len s =? 0) eqn:E; simpl; intros H.
  - pose proof (filter_length_le (fun shard => negb (len shard =? 0)) l). lia.
  - constructor; [now apply Nat.eqb_neq | apply IH; lia].
Qed.

(** C10.  With every shard present and both index lists strictly
    increasing, [PartialReconstruct] returns success at once: no shard is
    modified, the inversion tree is not consulted, and membership of the
    present shards in [survivalIdx] is not checked, so [ErrShardsNotSurvival]
    cannot be the result, whatever [survivalIdx] is. *)
Theorem PartialReconstruct_all_present_fast_path
  (r : reedSolomon) (t : inversionTree) (shards : list slice)
  (survivalIdx badIdx : list nat) :
  length shards = Shards r ->
  Forall (fun shard => len shard <> 0) shards ->
  incremental survivalIdx = true ->
  incremental badIdx = true ->
  PartialReconstruct r t shards survivalIdx badIdx = Ok (None, shards, t).
Proof.
  intros Hlen Hall Hs Hb. unfold PartialReconstruct.
  rewrite Hlen, Nat.eqb_refl, Hs, Hb. simpl.
  rewrite (numberPresent_all _ Hall), Hlen, Nat.eqb_refl. reflexivity.
Qed.

(** C7.  On a shard vector of the right length that passes the shape check,
    [reconstruct] returns success and leaves every shard as it is when all
    shards are present, and fails with [ErrTooFewShards], again leaving every
    shard as it is, when fewer than [DataShards] are present. *)
Theorem reconstruct_presence_checks
  (r : reedSolomon) (t : inversionTree) (shards : list slice) (dataOnly : bool) :
  enc_ok r ->
  length shards = Shards r ->
  checkShards shards true = None ->
  (Forall (fun shard => len shard <> 0) shards ->
   reconstruct r t shards dataOnly = Ok (None, shards, t))
  /\ (numberPresent shards < DataShards r ->
      reconstruct r t shards dataOnly = Ok (Some ErrTooFewShards, shards, t)).
Proof.
  intros Hok Hlen Hchk. unfold reconstruct.
  rewrite Hlen, Nat.eqb_refl, Hchk. simpl. split.
  - intros Hall. rewrite (numberPresent_all _ Hall), Hlen, Nat.eqb_refl. reflexivity.
  - intros Hfew.
    assert (Hne : (numberPresent shards =? Shards r) = false).
    { apply Nat.eqb_neq. rewrite (ok_shards Hok). lia. }
    rewrite Hne. apply Nat.ltb_lt in Hfew. now rewrite Hfew.
Qed.

(** ** Maps that see the index *)

Lemma nth_map_indexed_from {A B : Type} (g : nat -> A -> B) l s i dA dB :
  i < length l ->
  nth i (map (fun '(i, x) => g i x) (combine (seq s (length l)) l)) dB
  = g (s + i) (nth i l dA).
Proof.
  revert s i. induction l as [|a l IH]; intros s i H; simpl in *; [lia|].
  destruct i as [|i].
  - now rewrite Nat.add_0_r.
  - rewrite IH by lia. f_equal. lia.
Qed.

Lemma nth_map_indexed {A B : Type} (g : nat -> A -> B) l i dA dB :
  i < length l ->
  nth i (map (fun '(i, x) => g i x) (combine (seq 0 (length l)) l)) dB
  = g i (nth i l dA).
Proof. intros H. now rewrite (nth_map_indexed_from g l 0 i dA dB H). Qed.

(** ** Position-wise rewriting of buffers *)

Lemma length_pw_list l a b f : length (pw_list l a b f) = length l.
Proof.
  unfold pw_list. rewrite length_map, length_combine, length_seq. lia.
Qed.

Lemma nth_pw_list l a b f q :
  q < length l ->
  nth q (pw_list l a b f) x00
  = if (a <=? q) && (q <? b) then f q (nth q l x00) else nth q l x00.
Proof.
  intros H. unfold pw_list.
  now rewrite (nth_map_indexed
                 (fun q x => if (a <=? q) && (q <? b) then f q x else x) l q x00 x00 H).
Qed.

Lemma len_pw s a b f : len (pw s a b f) = len s.
Proof. destruct s; unfold len; simpl; auto using length_pw_list. Qed.

Lemma cap_pw s a b f : cap (pw s a b f) = cap s.
Proof.
  destruct s; unfold cap; simpl; auto.
  now rewrite !length_app, length_pw_list.
Qed.

Lemma is_nil_pw s a b f : is_nil (pw s a b f) = is_nil s.
Proof. now destruct s. Qed.

Lemma nth_bytes_pw s a b f q :
  q < len s ->
  nth q (bytes (pw s a b f)) x00
  = if (a <=? q) && (q <? b) then f q (nth q (bytes s) x00) else nth q (bytes s) x00.
Proof.
  destruct s; unfold len; simpl; [lia|]. apply nth_pw_list.
Qed.

Lemma pw_list_ext l a b f g :
  (forall q, a <= q < b -> q < length l -> f q (nth q l x00) = g q (nth q l x00)) ->
  pw_list l a b f = pw_list l a b g.
Proof.
  intros H. apply (nth_ext_lt _ _ x00).
  - now rewrite !length_pw_list.
  - intros q Hq. rewrite length_pw_list in Hq. rewrite !nth_pw_list by assumption.
    destruct (a <=? q) eqn:E1; simpl; auto.
    destruct (q <? b) eqn:E2; simpl; auto.
    apply H; auto. apply Nat.leb_le in E1. apply Nat.ltb_lt in E2. lia.
Qed.

Lemma pw_ext s a b f g :
  (forall q, a <= q < b -> q < len s ->
             f q (nth q (bytes s) x00) = g q (nth q (bytes s) x00)) ->
  pw s a b f = pw s a b g.
Proof.
  destruct s; simpl; auto. intros H. f_equal. apply pw_list_ext. exact H.
Qed.

Lemma pw_list_id l a b : pw_list l a b (fun _ x => x) = l.
Proof.
  apply (nth_ext_lt _ _ x00).
  - apply length_pw_list.
  - intros q Hq. rewrite length_pw_list in Hq. rewrite nth_pw_list by assumption.
    now destruct ((a <=? q) && (q <? b)).
Qed.

Lemma pw_id s a b : pw s a b (fun _ x => x) = s.
Proof. destruct s; simpl; auto. now rewrite pw_list_id. Qed.

Lemma pw_list_pw_list l a b f g :
  pw_list (pw_list l a b f) a b g = pw_list l a b (fun q x => g q (f q x)).
Proof.
  apply (nth_ext_lt _ _ x00).
  - now rewrite !length_pw_list.
  - intros q Hq. rewrite !length_pw_list in Hq.
    rewrite !nth_pw_list by (rewrite ?length_pw_list; assumption).
    now destruct ((a <=? q) && (q <? b)).
Qed.

Lemma pw_pw s a b f g :
  pw (pw s a b f) a b g = pw s a b (fun q x => g q (f q x)).
Proof. destruct s; simpl; auto. now rewrite pw_list_pw_list. Qed.

Lemma pw_list_adjacent l a b c f :
  a <= b <= c ->
  pw_list (pw_list l a b f) b c f = pw_list l a c f.
Proof.
  intros H. apply (nth_ext_lt _ _ x00).
  - now rewrite !length_pw_list.
  - intros q Hq. rewrite !length_pw_list in Hq.
    rewrite !nth_pw_list by (rewrite ?length_pw_list; assumption).
    destruct (a <=? q) eqn:E1, (q <? b) eqn:E2, (b <=? q) eqn:E3, (q <? c) eqn:E4;
      simpl; auto;
      repeat match goal with
             | H : (_ <=? _) = true |- _ => apply Nat.leb_le in H
             | H : (_ <=? _) = false |- _ => apply Nat.leb_gt in H
             | H : (_ <? _) = true |- _ => apply Nat.ltb_lt in H
             | H : (_ <? _) = false |- _ => apply Nat.ltb_ge in H
             end; lia.
Qed.

Lemma pw_adjacent s a b c f :
  a <= b <= c -> pw (pw s a b f) b c f = pw s a c f.
Proof. destruct s; simpl; auto. intros H. now rewrite pw_list_adjacent. Qed.

Lemma pw_list_empty l a f : pw_list l a a f = l.
Proof.
  apply (nth_ext_lt _ _ x00).
  - apply length_pw_list.
  - intros q Hq. rewrite length_pw_list in Hq. rewrite nth_pw_list by assumption.
    destruct (a <=? q) eqn:E1, (q <? a) eqn:E2; simpl; auto.
    apply Nat.leb_le in E1. apply Nat.ltb_lt in E2. lia.
Qed.

Lemma pw_empty s a f : pw s a a f = s.
Proof. destruct s; simpl; auto. now rewrite pw_list_empty. Qed.

(** ** Windows and stores *)

Lemma window_Ok s start stop :
  start <= stop -> stop <= len s ->
  window s start stop = Ok (firstn (stop - start) (skipn start (bytes s))).
Proof.
  intros H1 H2. unfold window.
  pose proof (len_le_cap s) as Hc.
  replace (start <=? stop) with true by (symmetry; apply Nat.leb_le; lia).
  replace (stop <=? cap s) with true by (symmetry; apply Nat.leb_le; lia).
  simpl. f_equal.
  destruct s as [|vis spare]; simpl; auto.
  unfold len in H2. simpl in H2.
  rewrite skipn_app, firstn_app, length_skipn.
  replace (stop - start - (length vis - start)) with 0 by lia.
  now rewrite firstn_O, app_nil_r.
Qed.

Lemma length_window_bytes s start stop :
  start <= stop -> stop <= len s ->
  length (firstn (stop - start) (skipn start (bytes s))) = stop - start.
Proof.
  intros H1 H2. unfold len in H2. rewrite length_firstn, length_skipn. lia.
Qed.

Lemma nth_window_bytes s start stop k :
  k < stop - start ->
  nth k (firstn (stop - start) (skipn start (bytes s))) x00
  = nth (start + k) (bytes s) x00.
Proof.
  intros H. rewrite nth_firstn.
  apply Nat.ltb_lt in H. rewrite H. now rewrite nth_skipn.
Qed.

Lemma splice_pw_list vis start stop new f :
  start <= stop -> stop <= length vis ->
  length new = stop - start ->
  (forall k, k < stop - start ->
             nth k new x00 = f (start + k) (nth (start + k) vis x00)) ->
  firstn start vis ++ new ++ skipn stop vis = pw_list vis start stop f.
Proof.
  intros H1 H2 Hl Hn. apply (nth_ext_lt _ _ x00).
  - rewrite length_pw_list, !length_app, length_firstn, length_skipn. lia.
  - intros q Hq.
    rewrite !length_app, length_firstn, length_skipn in Hq.
    assert (Hqv : q < length vis) by lia.
    rewrite nth_pw_list by assumption.
    destruct (Nat.lt_ge_cases q start) as [Hlt|Hge].
    + rewrite app_nth1 by (rewrite length_firstn; lia).
      rewrite nth_firstn. apply Nat.ltb_lt in Hlt as Hlt'. rewrite Hlt'.
      replace (start <=? q) with false by (symmetry; apply Nat.leb_gt; lia).
      reflexivity.
    + replace (start <=? q) with true by (symmetry; apply Nat.leb_le; lia).
      simpl.
      rewrite app_nth2 by (rewrite length_firstn; lia).
      rewrite length_firstn.
      replace (Nat.min start (length vis)) with start by lia.
      destruct (Nat.lt_ge_cases q stop) as [Hlt2|Hge2].
      * rewrite app_nth1 by lia.
        rewrite Hn by lia.
        replace (start + (q - start)) with q by lia.
        apply Nat.ltb_lt in Hlt2. now rewrite Hlt2.
      * rewrite app_nth2 by lia.
        rewrite nth_skipn, Hl.
        replace (stop + (q - start - (stop - start))) with q by lia.
        replace (q <? stop) with false by (symmetry; apply Nat.ltb_ge; lia).
        reflexivity.
Qed.

Lemma store_pw s start stop new f :
  start <= stop -> stop <= len s ->
  length new = stop - start ->
  (forall k, k < stop - start ->
             nth k new x00 = f (start + k) (nth (start + k) (bytes s) x00)) ->
  store s start new = pw s start stop f.
Proof.
  intros H1 H2 Hl Hn. destruct s as [|vis spare]; simpl; auto.
  unfold len in H2. simpl in H2, Hn.
  assert (E : firstn start (vis ++ spare) ++ new ++ skipn (start + length new) (vis ++ spare)
              = pw_list vis start stop f ++ spare).
  { rewrite Hl. replace (start + (stop - start)) with stop by lia.
    rewrite <- (splice_pw_list vis start stop new f H1 H2 Hl Hn).
    rewrite firstn_app, skipn_app.
    replace (start - length vis) with 0 by lia.
    replace (stop - length vis) with 0 by lia.
    simpl. rewrite app_nil_r, <- !app_assoc. reflexivity. }
  rewrite E.
  rewrite firstn_app, skipn_app, length_pw_list.
  rewrite Nat.sub_diag, firstn_O, app_nil_r. simpl.
  rewrite firstn_all2 by (rewrite length_pw_list; lia).
  rewrite skipn_all2 by (rewrite length_pw_list; lia).
  reflexivity.
Qed.

(** ** [imap_lt] *)

Lemma length_imap_lt {A : Type} n (g : nat -> A -> A) l :
  length (imap_lt n g l) = length l.
Proof.
  unfold imap_lt. rewrite length_map, length_combine, length_seq. lia.
Qed.

Lemma nth_imap_lt {A : Type} n (g : nat -> A -> A) l i d :
  i < length l ->
  nth i (imap_lt n g l) d = if i <? n then g i (nth i l d) else nth i l d.
Proof.
  intros H. unfold imap_lt.
  now rewrite (nth_map_indexed (fun i x => if i <? n then g i x else x) l i d d H).
Qed.

Lemma imap_lt_0 {A : Type} (g : nat -> A -> A) l : imap_lt 0 g l = l.
Proof.
  destruct l as [|d l']; [reflexivity|]. set (l := d :: l').
  apply (nth_ext _ _ d d).
  - apply length_imap_lt.
  - intros i Hi. rewrite length_imap_lt in Hi. now rewrite nth_imap_lt by assumption.
Qed.

Lemma imap_lt_step {A : Type} n (g : nat -> A -> A) l d :
  n < length l ->
  upd (imap_lt n g l) n (g n (nth n l d)) = imap_lt (S n) g l.
Proof.
  intros H. apply (nth_ext _ _ d d).
  - now rewrite length_upd, !length_imap_lt.
  - intros i Hi. rewrite length_upd, length_imap_lt in Hi.
    rewrite nth_upd, length_imap_lt, !nth_imap_lt by assumption.
    destruct (i =? n) eqn:E.
    + apply Nat.eqb_eq in E. subst i.
      replace (n <? length l) with true by (symmetry; apply Nat.ltb_lt; lia).
      replace (n <? S n) with true by (symmetry; apply Nat.ltb_lt; lia).
      reflexivity.
    + simpl. apply Nat.eqb_neq in E.
      destruct (i <? n) eqn:E1.
      * apply Nat.ltb_lt in E1.
        replace (i <? S n) with true by (symmetry; apply Nat.ltb_lt; lia). reflexivity.
      * apply Nat.ltb_ge in E1.
        replace (i <? S n) with false by (symmetry; apply Nat.ltb_ge; lia). reflexivity.
Qed.

Lemma imap_lt_ext {A : Type} n (g h : nat -> A -> A) l d :
  (forall i, i < n -> i < length l -> g i (nth i l d) = h i (nth i l d)) ->
  imap_lt n g l = imap_lt n h l.
Proof.
  intros H. apply (nth_ext _ _ d d).
  - now rewrite !length_imap_lt.
  - intros i Hi. rewrite length_imap_lt in Hi.
    rewrite !nth_imap_lt by assumption.
    destruct (i <? n) eqn:E; auto. apply H; auto. now apply Nat.ltb_lt.
Qed.

Lemma imap_lt_imap_lt {A : Type} n (g h : nat -> A -> A) l :
  imap_lt n h (imap_lt n g l) = imap_lt n (fun i x => h i (g i x)) l.
Proof.
  destruct l as [|d l']; [reflexivity|]. set (l := d :: l').
  apply (nth_ext _ _ d d).
  - now rewrite !length_imap_lt.
  - intros i Hi. rewrite !length_imap_lt in Hi.
    rewrite !nth_imap_lt by (rewrite ?length_imap_lt; assumption).
    now destruct (i <? n).
Qed.

Lemma imap_lt_id {A : Type} n (l : list A) : imap_lt n (fun _ x => x) l = l.
Proof.
  destruct l as [|d l']; [reflexivity|]. set (l := d :: l').
  apply (nth_ext _ _ d d).
  - now rewrite !length_imap_lt.
  - intros i Hi. rewrite !length_imap_lt in Hi.
    rewrite !nth_imap_lt by assumption. now destruct (i <? n).
Qed.

(** ** Kernels *)

Lemma galMulSlice_eq c inb ob :
  length inb = length ob ->
  galMulSlice c inb ob = Ok (map (galMultiply c) inb).
Proof.
  intros H. unfold galMulSlice. rewrite H, Nat.leb_refl.
  rewrite skipn_all, app_nil_r. reflexivity.
Qed.

Lemma galMulSliceXor_eq c inb ob :
  length inb = length ob ->
  galMulSliceXor c inb ob = Ok (map2 (fun i o => galAdd o (galMultiply c i)) inb ob).
Proof.
  intros H. unfold galMulSliceXor. rewrite H, Nat.leb_refl.
  rewrite skipn_all, app_nil_r. reflexivity.
Qed.

Lemma sliceXor_eq inb ob :
  length inb = length ob ->
  sliceXor inb ob = Ok (map2 (fun i o => galAdd o i) inb ob).
Proof.
  intros H. unfold sliceXor. rewrite H, Nat.leb_refl.
  rewrite skipn_all, app_nil_r. reflexivity.
Qed.

(** A loop that rewrites element [i] at step [i] is an indexed map. *)
Lemma loop_imap_lt {A : Type} (body : nat -> list A -> outcome (list A))
  (g : nat -> A -> A) (n : nat) (l : list A) (d : A) :
  n <= length l ->
  (forall i cur, i < n -> cur = imap_lt i g l ->
                 body i cur = Ok (upd cur i (g i (nth i l d)))) ->
  loop body 0 n l = Ok (imap_lt n g l).
Proof.
  intros Hn Hbody.
  destruct (loop_invariant (fun i cur => cur = imap_lt i g l) body n 0 l) as [s [E P]].
  - now rewrite imap_lt_0.
  - intros i cur Hi ->. eexists. split.
    + apply Hbody; [lia | reflexivity].
    + apply imap_lt_step. lia.
  - rewrite E. simpl in P. now subst.
Qed.

(** One kernel call through a window is a position-wise rewrite. *)
Lemma window_kernel_store
  (K : list byte -> list byte -> outcome (list byte)) (kf : byte -> byte -> byte)
  (inb : list byte) (out : slice) (start stop : nat) :
  (forall ob, length inb = length ob ->
     exists new, K inb ob = Ok new /\ length new = length ob /\
       forall k, k < length ob -> nth k new x00 = kf (nth k inb x00) (nth k ob x00)) ->
  start <= stop -> stop <= len out -> length inb = stop - start ->
  exists new,
    window out start stop = Ok (firstn (stop - start) (skipn start (bytes out)))
    /\ K inb (firstn (stop - start) (skipn start (bytes out))) = Ok new
    /\ store out start new
       = pw out start stop (fun q o => kf (nth (q - start) inb x00) o).
Proof.
  intros HK H1 H2 Hl.
  pose proof (length_window_bytes out start stop H1 H2) as Hw.
  destruct (HK (firstn (stop - start) (skipn start (bytes out)))) as [new [E [Ln Hn]]];
    [lia|].
  exists new. split; [now apply window_Ok|]. split; [exact E|].
  apply store_pw; auto; [lia|].
  intros k Hk. rewrite Hn by lia.
  rewrite nth_window_bytes by assumption.
  now replace (start + k - start) with k by lia.
Qed.

Lemma galMulSlice_kernel c inb ob :
  length inb = length ob ->
  exists new, galMulSlice c inb ob = Ok new /\ length new = length ob /\
    forall k, k < length ob ->
      nth k new x00 = (fun i _ => galMultiply c i) (nth k inb x00) (nth k ob x00).
Proof.
  intros H. exists (map (galMultiply c) inb).
  split; [now apply galMulSlice_eq|]. split; [now rewrite length_map|].
  intros k Hk. rewrite (nth_indep _ x00 (galMultiply c x00)) by (rewrite length_map; lia).
  now rewrite map_nth.
Qed.

Lemma galMulSliceXor_kernel c inb ob :
  length inb = length ob ->
  exists new, galMulSliceXor c inb ob = Ok new /\ length new = length ob /\
    forall k, k < length ob ->
      nth k new x00
      = (fun i o => galAdd o (galMultiply c i)) (nth k inb x00) (nth k ob x00).
Proof.
  intros H. eexists. split; [now apply galMulSliceXor_eq|].
  split; [rewrite length_map2; lia|].
  intros k Hk. now rewrite (nth_map2 _ _ _ _ x00 x00) by lia.
Qed.

Lemma sliceXor_kernel inb ob :
  length inb = length ob ->
  exists new, sliceXor inb ob = Ok new /\ length new = length ob /\
    forall k, k < length ob ->
      nth k new x00 = (fun i o => galAdd o i) (nth k inb x00) (nth k ob x00).
Proof.
  intros H. eexists. split; [now apply sliceXor_eq|].
  split; [rewrite length_map2; lia|].
  intros k Hk. now rewrite (nth_map2 _ _ _ _ x00 x00) by lia.
Qed.

(** ** The loop nest of the coder *)

Lemma code_cell_pw matrixRows c inb start stop iRow outputs :
  iRow < length matrixRows ->
  c < length (nth iRow matrixRows []) ->
  iRow < length outputs ->
  start <= stop -> stop <= len (nth iRow outputs nil_slice) ->
  length inb = stop - start ->
  code_cell matrixRows c inb start stop iRow outputs
  = Ok (upd outputs iRow
          (pw (nth iRow outputs nil_slice) start stop
              (fun q o => cell_byte c (nth c (nth iRow matrixRows []) x00)
                                    (nth (q - start) inb x00) o))).
Proof.
  intros Hr Hc Ho H1 H2 Hl. unfold code_cell.
  rewrite (get_Ok matrixRows iRow [] Hr). simpl.
  rewrite (get_Ok _ c x00 Hc). simpl.
  rewrite (get_Ok outputs iRow nil_slice Ho). simpl.
  set (coef := nth c (nth iRow matrixRows []) x00).
  set (out := nth iRow outputs nil_slice) in *.
  destruct (window_kernel_store
              (fun inb ob => if c =? 0 then galMulSlice coef inb ob
                             else galMulSliceXor coef inb ob)
              (cell_byte c coef) inb out start stop) as [new [Ew [Ek Es]]]; auto.
  { intros ob Hob. unfold cell_byte. destruct (c =? 0).
    - now apply galMulSlice_kernel.
    - now apply galMulSliceXor_kernel. }
  rewrite Ew. simpl. rewrite Ek. simpl. now rewrite Es.
Qed.

Lemma acc_byte_step matrixRows inputs i c q o :
  cell_byte c (nth c (nth i matrixRows []) x00) (shard_byte inputs c q)
            (acc_byte matrixRows inputs i c q o)
  = acc_byte matrixRows inputs i (S c) q o.
Proof.
  unfold cell_byte, acc_byte, coded_byte. destruct c as [|c]; simpl.
  - now rewrite galAdd_0_l.
  - reflexivity.
Qed.

Section CoderNest.

Variables (dataShards outputCount start stop : nat).
Variables (matrixRows : matrix) (inputs outputs : list slice).

Hypothesis Hinputs : dataShards <= length inputs.
Hypothesis Hin_len : forall c, c < dataShards -> stop <= len (nth c inputs nil_slice).
Hypothesis Hrows : outputCount <= length matrixRows.
Hypothesis Hcols : forall i, i < outputCount -> dataShards <= length (nth i matrixRows []).
Hypothesis Houts : outputCount <= length outputs.
Hypothesis Hout_len : forall i, i < outputCount -> stop <= len (nth i outputs nil_slice).
Hypothesis Hrange : start <= stop.

Lemma coder_state_0 : coder_state outputCount start stop matrixRows inputs outputs 0 = outputs.
Proof.
  unfold coder_state. rewrite <- (imap_lt_id outputCount outputs) at 2.
  apply (imap_lt_ext _ _ _ _ nil_slice). intros i _ _. apply pw_id.
Qed.

Lemma coder_state_nth c i :
  i < outputCount ->
  nth i (coder_state outputCount start stop matrixRows inputs outputs c) nil_slice
  = pw (nth i outputs nil_slice) start stop
       (fun q o => acc_byte matrixRows inputs i c q o).
Proof.
  intros Hi. unfold coder_state. rewrite nth_imap_lt by lia.
  apply Nat.ltb_lt in Hi. now rewrite Hi.
Qed.

(** Column [c] applied to every output, given the bytes [inb] of the
    window on input [c]. *)
Lemma coder_column c inb (body : nat -> list slice -> outcome (list slice)) :
  c < dataShards ->
  length inb = stop - start ->
  (forall k, k < stop - start -> nth k inb x00 = shard_byte inputs c (start + k)) ->
  (forall iRow cur, iRow < outputCount ->
     length cur = length outputs ->
     len (nth iRow cur nil_slice) = len (nth iRow outputs nil_slice) ->
     body iRow cur = code_cell matrixRows c inb start stop iRow cur) ->
  loop body 0 outputCount (coder_state outputCount start stop matrixRows inputs outputs c) = Ok (coder_state outputCount start stop matrixRows inputs outputs (S c)).
Proof.
  intros Hc Hl Hinb Hbody.
  set (g := fun i out =>
              pw out start stop
                 (fun q o => cell_byte c (nth c (nth i matrixRows []) x00)
                                       (nth (q - start) inb x00) o)).
  assert (Hlen : length (coder_state outputCount start stop matrixRows inputs outputs c) = length outputs)
    by (unfold coder_state; apply length_imap_lt).
  rewrite (loop_imap_lt body g outputCount (coder_state outputCount start stop matrixRows inputs outputs c) nil_slice).
  - f_equal. unfold coder_state. rewrite imap_lt_imap_lt.
    apply (imap_lt_ext _ _ _ _ nil_slice). intros i Hi _. unfold g.
    rewrite pw_pw. apply pw_ext. intros q Hq _.
    rewrite <- acc_byte_step. f_equal.
    rewrite Hinb by lia. f_equal. lia.
  - lia.
  - intros i cur Hi ->.
    assert (Hcur : nth i (imap_lt i g (coder_state outputCount start stop matrixRows inputs outputs c)) nil_slice
                   = nth i (coder_state outputCount start stop matrixRows inputs outputs c) nil_slice).
    { rewrite nth_imap_lt by lia. now rewrite Nat.ltb_irrefl. }
    rewrite Hbody; auto.
    + rewrite code_cell_pw.
      * now rewrite Hcur.
      * lia.
      * specialize (Hcols i Hi). lia.
      * rewrite length_imap_lt. lia.
      * assumption.
      * rewrite Hcur, coder_state_nth, len_pw by assumption. now apply Hout_len.
      * assumption.
    + now rewrite length_imap_lt.
    + rewrite Hcur, coder_state_nth, len_pw by assumption. reflexivity.
Qed.

Lemma codeSomeShards_chunk_spec :
  codeSomeShards_chunk dataShards matrixRows inputs outputCount start stop outputs
  = Ok (coder_state outputCount start stop matrixRows inputs outputs dataShards).
Proof.
  unfold codeSomeShards_chunk.
  destruct (loop_invariant
              (fun c cur => cur = coder_state outputCount start stop matrixRows inputs outputs c)
              (fun c outputs =>
                 inp <- get inputs c ;;
                 inb <- window inp start stop ;;
                 loop (code_cell matrixRows c inb start stop) 0 outputCount outputs)
              dataShards 0 outputs) as [s [E P]].
  - now rewrite coder_state_0.
  - intros c cur Hc ->. eexists. split; [|reflexivity].
    rewrite (get_Ok inputs c nil_slice) by lia. simpl.
    rewrite window_Ok by (auto; apply Hin_len; lia). simpl.
    apply (coder_column c
             (firstn (stop - start) (skipn start (bytes (nth c inputs nil_slice))))).
    + lia.
    + apply length_window_bytes; auto. apply Hin_len. lia.
    + intros k Hk. now rewrite nth_window_bytes.
    + reflexivity.
  - rewrite E. simpl in P. now subst.
Qed.

End CoderNest.

(** ** The chunking loop of the parallel variants *)

Lemma split_loop_spec {S : Type} (body : nat -> nat -> S -> outcome S)
  (st : nat -> S) (byteCount : nat) :
  (forall a b, a < b <= byteCount -> body a b (st a) = Ok (st b)) ->
  forall fuel start do,
    0 < do -> start <= byteCount -> byteCount - start <= fuel ->
    split_loop body fuel start do byteCount (st start) = Ok (st byteCount).
Proof.
  intros Hbody. induction fuel as [|fuel IH]; intros start do Hdo Hs Hf.
  - assert (start = byteCount) by lia. subst. simpl.
    now rewrite Nat.ltb_irrefl.
  - simpl. destruct (start <? byteCount) eqn:E.
    + apply Nat.ltb_lt in E.
      set (do' := if byteCount <? start + do then byteCount - start else do).
      assert (Hdo' : 0 < do' /\ start + do' <= byteCount).
      { unfold do'. destruct (byteCount <? start + do) eqn:E2.
        - apply Nat.ltb_lt in E2. lia.
        - apply Nat.ltb_ge in E2. lia. }
      rewrite Hbody by lia. simpl. apply IH; lia.
    + apply Nat.ltb_ge in E. assert (start = byteCount) by lia. now subst.
Qed.

(** ** The result of [codeSomeShards] *)

Lemma length_coded n matrixRows inputs outputCount size outputs :
  length (coded n matrixRows inputs outputCount size outputs) = length outputs.
Proof. apply length_imap_lt. Qed.

Lemma nth_coded_lt n matrixRows inputs outputCount size outputs i :
  i < outputCount -> i < length outputs ->
  nth i (coded n matrixRows inputs outputCount size outputs) nil_slice
  = pw (nth i outputs nil_slice) 0 size
       (fun q _ => coded_byte (nth i matrixRows []) inputs n q).
Proof.
  intros H1 H2. unfold coded. rewrite nth_imap_lt by assumption.
  apply Nat.ltb_lt in H1. now rewrite H1.
Qed.

Lemma nth_coded_ge n matrixRows inputs outputCount size outputs i :
  outputCount <= i ->
  nth i (coded n matrixRows inputs outputCount size outputs) nil_slice
  = nth i outputs nil_slice.
Proof.
  intros H1. destruct (Nat.lt_ge_cases i (length outputs)) as [H2|H2].
  - unfold coded. rewrite nth_imap_lt by assumption.
    apply Nat.ltb_ge in H1. now rewrite H1.
  - rewrite !nth_overflow; auto. now rewrite length_coded.
Qed.

Lemma coder_state_coded n matrixRows inputs outputCount a b outputs :
  0 < n -> a <= b ->
  coder_state outputCount a b matrixRows inputs
              (coded n matrixRows inputs outputCount a outputs) n
  = coded n matrixRows inputs outputCount b outputs.
Proof.
  intros Hn Hab. unfold coder_state, coded. rewrite imap_lt_imap_lt.
  apply (imap_lt_ext _ _ _ _ nil_slice). intros i _ _.
  rewrite <- (pw_adjacent _ 0 a b) by lia.
  apply pw_ext. intros q _ _. destruct n; [lia | reflexivity].
Qed.

Lemma coded_0 n matrixRows inputs outputCount outputs :
  coded n matrixRows inputs outputCount 0 outputs = outputs.
Proof.
  unfold coded. rewrite <- (imap_lt_id outputCount outputs) at 2.
  apply (imap_lt_ext _ _ _ _ nil_slice). intros i _ _. apply pw_empty.
Qed.

Section CoderSpec.

Variables (r : reedSolomon) (matrixRows : matrix) (inputs outputs : list slice).
Variables (outputCount byteCount : nat).

Hypothesis Hdata : 0 < DataShards r.
Hypothesis Hsplit : 0 < minSplitSize (o r).
Hypothesis Hinputs : DataShards r <= length inputs.
Hypothesis Hin_len :
  forall c, c < DataShards r -> len (nth c inputs nil_slice) = byteCount.
Hypothesis Hrows : outputCount <= length matrixRows.
Hypothesis Hcols :
  forall i, i < outputCount -> DataShards r <= length (nth i matrixRows []).
Hypothesis Houts : outputCount <= length outputs.
Hypothesis Hout_len :
  forall i, i < outputCount -> len (nth i outputs nil_slice) = byteCount.

Lemma codeSomeShards_chunk_coded a b :
  a <= b <= byteCount ->
  codeSomeShards_chunk (DataShards r) matrixRows inputs outputCount a b
    (coded (DataShards r) matrixRows inputs outputCount a outputs)
  = Ok (coded (DataShards r) matrixRows inputs outputCount b outputs).
Proof.
  intros Hab. rewrite codeSomeShards_chunk_spec.
  - f_equal. apply coder_state_coded; [assumption | lia].
  - assumption.
  - intros c Hc. rewrite Hin_len by assumption. lia.
  - assumption.
  - assumption.
  - now rewrite length_coded.
  - intros i Hi. rewrite nth_coded_lt, len_pw, Hout_len by (auto; lia). lia.
  - lia.
Qed.

Lemma codeSomeShards_loop_spec :
  codeSomeShards_loop (DataShards r) matrixRows inputs outputs outputCount = Ok (coded (DataShards r) matrixRows inputs outputCount byteCount outputs).
Proof.
  unfold codeSomeShards_loop.
  pose proof (codeSomeShards_chunk_coded 0 byteCount) as Hchunk.
  rewrite coded_0 in Hchunk.
  rewrite <- Hchunk by lia. unfold codeSomeShards_chunk.
  destruct (loop_invariant
              (fun c cur => cur = coder_state outputCount 0 byteCount matrixRows inputs outputs c)
              (fun c outputs =>
                 inp <- get inputs c ;;
                 loop (fun iRow outputs =>
                         out <- get outputs iRow ;;
                         code_cell matrixRows c (bytes inp) 0 (len out) iRow outputs)
                      0 outputCount outputs)
              (DataShards r) 0 outputs) as [s [E P]].
  - now rewrite coder_state_0.
  - intros c cur Hc ->. eexists. split; [|reflexivity].
    rewrite (get_Ok inputs c nil_slice) by lia. simpl.
    apply coder_column
      with (dataShards := DataShards r) (inb := bytes (nth c inputs nil_slice));
      try assumption; try lia.
    + intros i Hi. rewrite Hout_len by assumption. lia.
    + rewrite Nat.sub_0_r. apply Hin_len. lia.
    + intros k Hk. reflexivity.
    + intros iRow cur Hi Hl Hlen.
      rewrite (get_Ok cur iRow nil_slice) by lia. simpl.
      now rewrite Hlen, Hout_len.
  - rewrite E. simpl in P. subst s.
    pose proof (codeSomeShards_chunk_spec (DataShards r) outputCount 0 byteCount
                  matrixRows inputs outputs) as Hspec.
    unfold codeSomeShards_chunk in Hspec. rewrite Hspec; auto.
    + intros c Hc. rewrite Hin_len by assumption. lia.
    + intros i Hi. rewrite Hout_len by assumption. lia.
    + lia.
Qed.

Lemma codeSomeShardsP_spec :
  codeSomeShardsP r matrixRows inputs outputs outputCount byteCount = Ok (coded (DataShards r) matrixRows inputs outputCount byteCount outputs).
Proof.
  unfold codeSomeShardsP.
  set (do0 := byteCount / maxGoroutines (o r)).
  set (do1 := if do0 <? minSplitSize (o r) then minSplitSize (o r) else do0).
  set (do2 := (do1 + 31) / 32 * 32).
  assert (Hdo1 : 0 < do1).
  { unfold do1. destruct (do0 <? minSplitSize (o r)) eqn:E; [assumption|].
    apply Nat.ltb_ge in E. lia. }
  assert (Hdo2 : 0 < do2).
  { unfold do2.
    assert (1 <= (do1 + 31) / 32) by (apply Nat.div_le_lower_bound; lia).
    lia. }
  rewrite <- (coded_0 (DataShards r) matrixRows inputs outputCount outputs) at 1.
  apply (split_loop_spec
           (codeSomeShards_chunk (DataShards r) matrixRows inputs outputCount)
           (fun a => coded (DataShards r) matrixRows inputs outputCount a outputs)
           byteCount); try lia.
  intros a b Hab. apply codeSomeShards_chunk_coded. lia.
Qed.

Lemma codeSomeShards_spec :
  codeSomeShards r matrixRows inputs outputs outputCount byteCount = Ok (coded (DataShards r) matrixRows inputs outputCount byteCount outputs).
Proof.
  unfold codeSomeShards.
  destruct (useAVX512 (o r) && (4 <=? length inputs) && (2 <=? length outputs)).
  - apply codeSomeShards_loop_spec.
  - destruct ((1 <? maxGoroutines (o r)) && (minSplitSize (o r) <? byteCount)).
    + apply codeSomeShardsP_spec.
    + apply codeSomeShards_loop_spec.
Qed.

End CoderSpec.

(** Reading the coded outputs. *)

Lemma bytes_pw_const s size h :
  len s = size ->
  bytes (pw s 0 size (fun q _ => h q)) = map h (seq 0 size).
Proof.
  intros H. apply (nth_ext_lt _ _ x00).
  - fold (len (pw s 0 size (fun q _ => h q))). rewrite len_pw, length_map, length_seq.
    exact H.
  - intros q Hq. fold (len (pw s 0 size (fun q _ => h q))) in Hq. rewrite len_pw in Hq.
    rewrite nth_bytes_pw by assumption. simpl.
    replace (q <? size) with true by (symmetry; apply Nat.ltb_lt; lia).
    rewrite (nth_indep _ x00 (h 0)) by (rewrite length_map, length_seq; lia).
    rewrite map_nth, seq_nth by lia. reflexivity.
Qed.

(** ** Shape checks *)

Lemma shardSize_0 shards :
  shardSize shards = 0 <-> Forall (fun shard => len shard = 0) shards.
Proof.
  induction shards as [|s l IH]; simpl.
  - split; auto.
  - destruct (len s =? 0) eqn:E.
    + apply Nat.eqb_eq in E. rewrite IH. split.
      * intros H. now constructor.
      * intros H. now inversion H.
    + apply Nat.eqb_neq in E. split; [lia|].
      intros H. inversion H. contradiction.
Qed.

Lemma shardSize_In shards :
  shardSize shards <> 0 ->
  exists shard, In shard shards /\ len shard = shardSize shards.
Proof.
  induction shards as [|s l IH]; simpl; [lia|].
  destruct (len s =? 0) eqn:E.
  - intros H. destruct (IH H) as [x [Hx Hl]]. eauto.
  - intros _. eauto.
Qed.

Lemma shardSize_uniform shards size :
  shards <> [] ->
  Forall (fun shard => len shard = size) shards ->
  shardSize shards = size.
Proof.
  intros Hne Hall. destruct shards as [|s l]; [contradiction|].
  inversion Hall as [|? ? Hs Hl]; subst. simpl.
  destruct (len s =? 0) eqn:E; auto.
  apply Nat.eqb_eq in E. rewrite E in *. now apply shardSize_0.
Qed.

Lemma checkShards_sizes_None shards size nilok :
  checkShards_sizes shards size nilok = None <->
  Forall (fun shard => len shard = size \/ (len shard = 0 /\ nilok = true)) shards.
Proof.
  induction shards as [|s l IH]; simpl.
  - split; auto.
  - destruct (len s =? size) eqn:E1; simpl.
    + apply Nat.eqb_eq in E1. rewrite IH. split.
      * intros H. constructor; auto.
      * intros H. now inversion H.
    + apply Nat.eqb_neq in E1.
      destruct (len s =? 0) eqn:E2; simpl.
      * apply Nat.eqb_eq in E2. destruct nilok; simpl.
        -- rewrite IH. split.
           ++ intros H. constructor; auto.
           ++ intros H. now inversion H.
        -- split; [discriminate|]. intros H. inversion H as [|? ? Hs _]; subst.
           destruct Hs as [Hs|[_ Hs]]; [contradiction | discriminate].
      * apply Nat.eqb_neq in E2. split; [discriminate|].
        intros H. inversion H as [|? ? Hs _]; subst.
        destruct Hs as [Hs|[Hs _]]; contradiction.
Qed.

Lemma checkShards_sizes_Some shards size nilok e :
  checkShards_sizes shards size nilok = Some e -> e = ErrShardSize.
Proof.
  induction shards as [|s l IH]; simpl; [discriminate|].
  destruct (_ && _); [now intros [= <-] | exact IH].
Qed.

Lemma checkShards_uniform shards size nilok :
  shards <> [] -> 0 < size ->
  Forall (fun shard => len shard = size) shards ->
  checkShards shards nilok = None.
Proof.
  intros Hne Hs Hall. unfold checkShards.
  rewrite (shardSize_uniform shards size Hne Hall).
  replace (size =? 0) with false by (symmetry; apply Nat.eqb_neq; lia).
  apply checkShards_sizes_None.
  eapply Forall_impl; [|exact Hall]. simpl. auto.
Qed.

Lemma checkShards_NoData shards nilok :
  Forall (fun shard => len shard = 0) shards ->
  checkShards shards nilok = Some ErrShardNoData.
Proof.
  intros H. unfold checkShards. apply shardSize_0 in H. now rewrite H.
Qed.

Lemma checkShards_ShardSize shards s1 s2 :
  In s1 shards -> In s2 shards ->
  len s1 <> 0 -> len s2 <> 0 -> len s1 <> len s2 ->
  checkShards shards false = Some ErrShardSize.
Proof.
  intros H1 H2 N1 N2 Hne. unfold checkShards.
  destruct (shardSize shards =? 0) eqn:E.
  - apply Nat.eqb_eq, shardSize_0 in E. rewrite Forall_forall in E.
    specialize (E s1 H1). contradiction.
  - destruct (checkShards_sizes shards (shardSize shards) false) eqn:C.
    + f_equal. eapply checkShards_sizes_Some. exact C.
    + apply checkShards_sizes_None in C. rewrite Forall_forall in C.
      destruct (C s1 H1) as [A|[_ A]]; [|discriminate].
      destruct (C s2 H2) as [B|[_ B]]; [|discriminate].
      congruence.
Qed.

(** ** Encode *)

Lemma enc_ok_parity_length r : enc_ok r -> length (parity r) = ParityShards r.
Proof.
  intros H. rewrite (ok_parity H), length_skipn, (ok_rows H), (ok_shards H). lia.
Qed.

Lemma enc_ok_parity_nth r i :
  enc_ok r -> nth i (parity r) [] = nth (DataShards r + i) (m r) [].
Proof.
  intros H. rewrite (ok_parity H). apply nth_skipn.
Qed.

Lemma enc_ok_row_length r i :
  enc_ok r -> i < Shards r -> length (nth i (m r) []) = DataShards r.
Proof.
  intros H Hi. apply (ok_cols H). apply nth_In. now rewrite (ok_rows H).
Qed.

Lemma bigsum_ext n f g :
  (forall i, i < n -> f i = g i) -> bigsum n f = bigsum n g.
Proof.
  induction n as [|n IH]; intros H; simpl; auto.
  rewrite IH, H; auto.
Qed.

Lemma coded_byte_ext row shards1 shards2 n q :
  (forall c, c < n -> shard_byte shards1 c q = shard_byte shards2 c q) ->
  coded_byte row shards1 n q = coded_byte row shards2 n q.
Proof.
  intros H. unfold coded_byte. apply bigsum_ext. intros c Hc. now rewrite H.
Qed.

Lemma shard_byte_firstn shards n c q :
  c < n -> shard_byte (firstn n shards) c q = shard_byte shards c q.
Proof.
  intros H. unfold shard_byte. rewrite nth_firstn.
  apply Nat.ltb_lt in H. now rewrite H.
Qed.

Lemma Encode_well_shaped r shards size :
  enc_ok r ->
  length shards = Shards r ->
  0 < size ->
  Forall (fun shard => len shard = size) shards ->
  Encode r shards
  = Ok (None,
        firstn (DataShards r) shards
        ++ coded (DataShards r) (parity r) (firstn (DataShards r) shards)
                 (ParityShards r) size (skipn (DataShards r) shards)).
Proof.
  intros Hok Hlen Hsize Hall.
  pose proof (ok_data Hok) as Hd. pose proof (ok_shards Hok) as Hs.
  assert (Hne : shards <> []) by (destruct shards; simpl in *; [lia | discriminate]).
  assert (Hnth : forall i, i < Shards r -> len (nth i shards nil_slice) = size).
  { intros i Hi. rewrite Forall_forall in Hall. apply Hall, nth_In. lia. }
  unfold Encode. rewrite Hlen, Nat.eqb_refl. simpl.
  rewrite (checkShards_uniform shards size false Hne Hsize Hall).
  rewrite slice_from_Ok, slice_to_Ok by lia. simpl.
  rewrite (get_Ok shards 0 nil_slice) by lia. simpl.
  rewrite (Hnth 0) by lia.
  rewrite codeSomeShards_spec; auto.
  - apply (ok_split Hok).
  - rewrite length_firstn. lia.
  - intros c Hc. rewrite nth_firstn.
    apply Nat.ltb_lt in Hc as Hc'. rewrite Hc'. apply Hnth. lia.
  - rewrite (enc_ok_parity_length r Hok). lia.
  - intros i Hi. rewrite (enc_ok_parity_nth r i Hok), enc_ok_row_length; auto. lia.
  - rewrite length_skipn. lia.
  - intros i Hi. rewrite nth_skipn. apply Hnth. lia.
Qed.

(** On [Shards] non-empty shards of one length [Encode] succeeds, keeps the
    data shards and fills the parity shards. *)
Lemma Encode_success r shards size :
  enc_ok r ->
  length shards = Shards r -> 0 < size ->
  Forall (fun shard => len shard = size) shards ->
  exists shards',
    Encode r shards = Ok (None, shards')
    /\ length shards' = Shards r
    /\ (forall i, i < DataShards r ->
                  nth i shards' nil_slice = nth i shards nil_slice)
    /\ (forall i, DataShards r <= i < Shards r ->
          len (nth i shards' nil_slice) = size
          /\ forall q, q < size ->
               shard_byte shards' i q
               = coded_byte (nth i (m r) []) shards (DataShards r) q).
Proof.
  intros Hok Hlen Hsize Hall.
  pose proof (ok_data Hok) as Hd. pose proof (ok_shards Hok) as Hs.
  assert (Hnth : forall i, i < Shards r -> len (nth i shards nil_slice) = size).
  { intros i Hi. rewrite Forall_forall in Hall. apply Hall, nth_In. lia. }
  eexists. split; [apply (Encode_well_shaped r shards size); assumption|].
  assert (Hfl : length (firstn (DataShards r) shards) = DataShards r)
    by (rewrite length_firstn; lia).
  split; [|split].
  + rewrite length_app, length_coded, Hfl, length_skipn. lia.
  + intros i Hi. rewrite app_nth1 by lia. rewrite nth_firstn.
    apply Nat.ltb_lt in Hi. now rewrite Hi.
  + intros i Hi.
    assert (Hnth' : nth i (firstn (DataShards r) shards
                           ++ coded (DataShards r) (parity r)
                                (firstn (DataShards r) shards) (ParityShards r) size
                                (skipn (DataShards r) shards)) nil_slice
                    = pw (nth i shards nil_slice) 0 size
                         (fun q _ => coded_byte (nth i (m r) []) shards (DataShards r) q)).
    { rewrite app_nth2 by lia. rewrite Hfl.
      rewrite nth_coded_lt by (rewrite ?length_skipn; lia).
      rewrite nth_skipn, (enc_ok_parity_nth r _ Hok).
      replace (DataShards r + (i - DataShards r)) with i by lia.
      apply pw_ext. intros q _ _. apply coded_byte_ext.
      intros c Hc. now apply shard_byte_firstn. }
    split.
    * rewrite Hnth', len_pw. apply Hnth. lia.
    * intros q Hq. unfold shard_byte at 1. rewrite Hnth'.
      rewrite bytes_pw_const by (apply Hnth; lia).
      rewrite (nth_indep _ x00 ((fun q => coded_byte (nth i (m r) []) shards (DataShards r) q) 0))
        by (rewrite length_map, length_seq; lia).
      rewrite map_nth, seq_nth by lia. reflexivity.
Qed.

(** C6.  [Encode] fails with [ErrTooFewShards] when the number of shards is
    not [Shards]; with the right number it fails with [ErrShardNoData] when
    every shard is empty and with [ErrShardSize] when two present shards have
    different lengths; on [Shards] non-empty shards of one length it succeeds,
    leaves every data shard as it was and makes byte [q] of parity shard [i]
    the sum over the data columns [c] of [m[i][c] * shards[c][q]]. *)
Theorem Encode_contract (r : reedSolomon) (shards : list slice) :
  enc_ok r ->
  (length shards <> Shards r ->
   Encode r shards = Ok (Some ErrTooFewShards, shards))
  /\ (length shards = Shards r ->
      Forall (fun shard => len shard = 0) shards ->
      Encode r shards = Ok (Some ErrShardNoData, shards))
  /\ (length shards = Shards r ->
      (exists s1 s2, In s1 shards /\ In s2 shards /\
                     len s1 <> 0 /\ len s2 <> 0 /\ len s1 <> len s2) ->
      Encode r shards = Ok (Some ErrShardSize, shards))
  /\ (forall size,
        length shards = Shards r -> 0 < size ->
        Forall (fun shard => len shard = size) shards ->
        exists shards',
          Encode r shards = Ok (None, shards')
          /\ length shards' = Shards r
          /\ (forall i, i < DataShards r ->
                        nth i shards' nil_slice = nth i shards nil_slice)
          /\ (forall i, DataShards r <= i < Shards r ->
                len (nth i shards' nil_slice) = size
                /\ forall q, q < size ->
                     shard_byte shards' i q
                     = coded_byte (nth i (m r) []) shards (DataShards r) q)).
Proof.
  intros Hok. repeat split.
  - intros Hlen. unfold Encode.
    apply Nat.eqb_neq in Hlen. now rewrite Hlen.
  - intros Hlen Hall. unfold Encode. rewrite Hlen, Nat.eqb_refl. simpl.
    now rewrite (checkShards_NoData shards false Hall).
  - intros Hlen [s1 [s2 [H1 [H2 [N1 [N2 Hne]]]]]].
    unfold Encode. rewrite Hlen, Nat.eqb_refl. simpl.
    now rewrite (checkShards_ShardSize shards s1 s2 H1 H2 N1 N2 Hne).
  - intros size Hlen Hsize Hall. now apply Encode_success.
Qed.

(** ** The loop nest of [updateParityShards] *)

Section UpdateNest.

Variables (dataShards outputCount start stop : nat).
Variables (matrixRows : matrix) (oldinputs newinputs outputs : list slice).

Hypothesis Hold : dataShards <= length oldinputs.
Hypothesis Hnew : dataShards <= length newinputs.
Hypothesis Hlens :
  forall c, c < dataShards -> is_nil (nth c newinputs nil_slice) = false ->
            stop <= len (nth c newinputs nil_slice)
            /\ stop <= len (nth c oldinputs nil_slice).
Hypothesis Hrows : outputCount <= length matrixRows.
Hypothesis Hcols : forall i, i < outputCount -> dataShards <= length (nth i matrixRows []).
Hypothesis Houts : outputCount <= length outputs.
Hypothesis Hout_len : forall i, i < outputCount -> stop <= len (nth i outputs nil_slice).
Hypothesis Hrange : start <= stop.

Lemma update_state_0 :
  update_state matrixRows oldinputs newinputs outputs outputCount start stop 0
  = (oldinputs, outputs).
Proof.
  unfold update_state, updated. rewrite imap_lt_0. f_equal.
  rewrite <- (imap_lt_id outputCount outputs) at 2.
  apply (imap_lt_ext _ _ _ _ nil_slice). intros i _ _.
  rewrite <- (pw_id (nth i outputs nil_slice) start stop) at 2.
  apply pw_ext. intros q _ _. unfold update_sum. simpl. apply galAdd_0_r.
Qed.

Lemma update_column_spec c :
  c < dataShards ->
  update_column matrixRows newinputs outputCount start stop c
    (update_state matrixRows oldinputs newinputs outputs outputCount start stop c)
  = Ok (update_state matrixRows oldinputs newinputs outputs outputCount start stop (S c)).
Proof.
  intros Hc. unfold update_column, update_state.
  rewrite (get_Ok newinputs c nil_slice) by lia. simpl.
  destruct (is_nil (nth c newinputs nil_slice)) eqn:Enil.
  - f_equal. f_equal.
    + rewrite <- (imap_lt_step c _ oldinputs nil_slice) by lia.
      replace (xored newinputs start stop c (nth c oldinputs nil_slice))
        with (nth c (imap_lt c (xored newinputs start stop) oldinputs) nil_slice).
      * now rewrite upd_nth_same.
      * rewrite nth_imap_lt by lia. rewrite Nat.ltb_irrefl.
        unfold xored. now rewrite Enil.
    + unfold updated. apply (imap_lt_ext _ _ _ _ nil_slice). intros i _ _.
      apply pw_ext. intros q _ _. unfold update_sum. simpl.
      assert (Hd : delta_byte oldinputs newinputs c q = x00)
        by (unfold delta_byte; now rewrite Enil).
      rewrite Hd, galMultiply_0_r, galAdd_0_r. reflexivity.
  - destruct (Hlens c Hc Enil) as [Hln Hlo].
    assert (Hcur : nth c (imap_lt c (xored newinputs start stop) oldinputs) nil_slice
                   = nth c oldinputs nil_slice).
    { rewrite nth_imap_lt by lia. now rewrite Nat.ltb_irrefl. }
    rewrite (get_Ok _ c nil_slice) by (rewrite length_imap_lt; lia). simpl.
    rewrite Hcur.
    rewrite window_Ok by assumption. simpl.
    rewrite window_Ok by assumption. simpl.
    set (inb := firstn (stop - start) (skipn start (bytes (nth c newinputs nil_slice)))).
    assert (Hinb : length inb = stop - start) by (apply length_window_bytes; assumption).
    set (ob := firstn (stop - start) (skipn start (bytes (nth c oldinputs nil_slice)))).
    assert (Hob : length ob = stop - start) by (apply length_window_bytes; assumption).
    rewrite sliceXor_eq by lia. simpl.
    set (x := map2 (fun i o => galAdd o i) inb ob).
    assert (Hlx : length x = stop - start) by (unfold x; rewrite length_map2; lia).
    assert (Hx : forall k, k < stop - start ->
                   nth k x x00 = delta_byte oldinputs newinputs c (start + k)).
    { intros k Hk. unfold x. rewrite (nth_map2 _ _ _ _ x00 x00) by lia.
      unfold delta_byte. rewrite Enil. unfold inb, ob.
      now rewrite !nth_window_bytes by assumption. }
    rewrite (store_pw _ start stop x (fun q o => galAdd o (shard_byte newinputs c q)));
      auto.
    2:{ intros k Hk. rewrite Hx by assumption. unfold delta_byte. now rewrite Enil. }
    set (g := fun i out =>
                pw out start stop
                   (fun q o => galAdd o (galMultiply (nth c (nth i matrixRows []) x00)
                                                     (nth (q - start) x x00)))).
    rewrite (loop_imap_lt _ g outputCount _ nil_slice).
    + simpl. f_equal. f_equal.
      * rewrite <- (imap_lt_step c _ oldinputs nil_slice) by lia.
        f_equal. unfold xored. now rewrite Enil.
      * unfold updated. rewrite imap_lt_imap_lt.
        apply (imap_lt_ext _ _ _ _ nil_slice). intros i Hi _. unfold g.
        rewrite pw_pw. apply pw_ext. intros q Hq _.
        unfold update_sum. simpl. rewrite <- galAdd_assoc. f_equal. f_equal. f_equal.
        rewrite Hx by lia. f_equal. lia.
    + unfold updated. rewrite length_imap_lt. lia.
    + intros i cur Hi ->.
      set (outs := updated c matrixRows oldinputs newinputs outputCount start stop outputs).
      assert (Hlo' : length outs = length outputs) by (unfold outs, updated; apply length_imap_lt).
      assert (Hci : nth i (imap_lt i g outs) nil_slice = nth i outs nil_slice).
      { rewrite nth_imap_lt by lia. now rewrite Nat.ltb_irrefl. }
      assert (Hleni : stop <= len (nth i outs nil_slice)).
      { unfold outs, updated. rewrite nth_imap_lt by lia.
        apply Nat.ltb_lt in Hi as Hi'. rewrite Hi', len_pw. now apply Hout_len. }
      rewrite (get_Ok matrixRows i []) by lia. simpl.
      rewrite (get_Ok _ c x00) by (specialize (Hcols i Hi); lia). simpl.
      rewrite (get_Ok _ i nil_slice) by (rewrite length_imap_lt; lia). simpl.
      rewrite Hci.
      destruct (window_kernel_store
                  (fun inb ob => galMulSliceXor (nth c (nth i matrixRows []) x00) inb ob)
                  (fun v o => galAdd o (galMultiply (nth c (nth i matrixRows []) x00) v))
                  x (nth i outs nil_slice) start stop) as [new [Ew2 [Ek2 Es2]]]; auto.
      { intros ob' Hob'. now apply galMulSliceXor_kernel. }
      rewrite Ew2. simpl. rewrite Ek2. simpl. now rewrite Es2.
Qed.

Lemma update_chunk_spec :
  loop (update_column matrixRows newinputs outputCount start stop) 0 dataShards
       (oldinputs, outputs)
  = Ok (update_state matrixRows oldinputs newinputs outputs outputCount start stop dataShards).
Proof.
  destruct (loop_invariant
              (fun c st => st = update_state matrixRows oldinputs newinputs outputs
                                             outputCount start stop c)
              (update_column matrixRows newinputs outputCount start stop)
              dataShards 0 (oldinputs, outputs)) as [s [E P]].
  - now rewrite update_state_0.
  - intros c st Hc ->. eexists. split; [|reflexivity].
    apply update_column_spec. lia.
  - rewrite E. simpl in P. now subst.
Qed.

End UpdateNest.

(** ** Whole-slice loop and chunked loop *)

Lemma len_store s start new : len (store s start new) = len s.
Proof.
  destruct s as [|vis spare]; [reflexivity|]. unfold len. simpl.
  rewrite length_firstn, !length_app, length_firstn, length_skipn, length_app. lia.
Qed.

Lemma window_full s size :
  len s = size -> window s 0 size = Ok (bytes s).
Proof.
  intros H. rewrite window_Ok by lia.
  rewrite Nat.sub_0_r. subst size. unfold len.
  change (skipn 0 (bytes s)) with (bytes s). now rewrite firstn_all.
Qed.

Lemma bytes_store_full s new :
  length new = len s -> s <> nil_slice -> bytes (store s 0 new) = new.
Proof.
  intros H Hn. destruct s as [|vis spare]; [contradiction|].
  unfold len in H. simpl in *.
  rewrite <- H, firstn_app, firstn_all, Nat.sub_diag. simpl. apply app_nil_r.
Qed.

Lemma loop_ext_inv {S : Type} (P : S -> Prop) (body1 body2 : nat -> S -> outcome S)
  (count start : nat) (s : S) :
  P s ->
  (forall i s, start <= i < start + count -> P s -> body1 i s = body2 i s) ->
  (forall i s s', start <= i < start + count -> P s -> body2 i s = Ok s' -> P s') ->
  loop body1 start count s = loop body2 start count s.
Proof.
  revert start s. induction count as [|count IH]; intros start s HP Heq Hpres; simpl; auto.
  rewrite Heq by (auto; lia).
  destruct (body2 start s) as [s'|] eqn:E; simpl; auto.
  apply IH.
  - apply (Hpres start s); auto. lia.
  - intros. apply Heq; auto. lia.
  - intros i x x' Hi. apply Hpres. lia.
Qed.

Lemma update_column_whole_eq matrixRows newinputs outputCount size c oldinputs outputs :
  (is_nil (nth c newinputs nil_slice) = false ->
   len (nth c newinputs nil_slice) = size /\ len (nth c oldinputs nil_slice) = size) ->
  0 < size ->
  (forall i, i < outputCount -> len (nth i outputs nil_slice) = size) ->
  update_column_whole matrixRows newinputs outputCount c (oldinputs, outputs)
  = update_column matrixRows newinputs outputCount 0 size c (oldinputs, outputs).
Proof.
  intros Hlens Hsize Houts. unfold update_column_whole, update_column.
  destruct (get newinputs c) as [inp|] eqn:Ei; simpl; auto.
  destruct (get_inv newinputs c inp nil_slice Ei) as [Hc ->].
  destruct (is_nil (nth c newinputs nil_slice)) eqn:Enil; auto.
  destruct (Hlens eq_refl) as [Hln Hlo].
  destruct (get oldinputs c) as [oldin|] eqn:Eo; simpl; auto.
  destruct (get_inv oldinputs c oldin nil_slice Eo) as [Hc' ->].
  rewrite !window_full by assumption. simpl.
  assert (Hll : length (bytes (nth c newinputs nil_slice))
                = length (bytes (nth c oldinputs nil_slice))).
  { fold (len (nth c newinputs nil_slice)). fold (len (nth c oldinputs nil_slice)). lia. }
  rewrite sliceXor_eq by assumption. simpl.
  set (x := map2 (fun i o => galAdd o i) (bytes (nth c newinputs nil_slice))
                 (bytes (nth c oldinputs nil_slice))).
  assert (Hx : length x = size).
  { unfold x. rewrite length_map2. fold (len (nth c newinputs nil_slice)).
    fold (len (nth c oldinputs nil_slice)). lia. }
  assert (Hnn : nth c oldinputs nil_slice <> nil_slice).
  { intros E. rewrite E in Hlo. unfold len in Hlo. simpl in Hlo. lia. }
  rewrite bytes_store_full by (auto; lia).
  rewrite (loop_ext_inv
             (fun outs : list slice =>
                forall i, i < outputCount -> len (nth i outs nil_slice) = size)
             _ (fun iRow outputs0 =>
                  row <- get matrixRows iRow ;;
                  coef <- get row c ;;
                  out <- get outputs0 iRow ;;
                  outb <- window out 0 size ;;
                  new <- galMulSliceXor coef x outb ;;
                  Ok (upd outputs0 iRow (store out 0 new)))); auto.
  - intros i outs Hi HP.
    destruct (get matrixRows i); simpl; auto.
    destruct (get a c); simpl; auto.
    destruct (get outs i) as [out|] eqn:Eg; simpl; auto.
    destruct (get_inv outs i out nil_slice Eg) as [_ ->].
    rewrite window_full by (apply HP; lia). reflexivity.
  - intros i outs outs' Hi HP E j Hj.
    apply bind_Ok_inv in E. destruct E as [row [_ E]].
    apply bind_Ok_inv in E. destruct E as [coef [_ E]].
    apply bind_Ok_inv in E. destruct E as [out [Eg E]].
    apply bind_Ok_inv in E. destruct E as [outb [_ E]].
    apply bind_Ok_inv in E. destruct E as [new [_ E]].
    injection E as <-.
    destruct (get_inv outs i out nil_slice Eg) as [Hil ->].
    rewrite nth_upd. destruct ((j =? i) && (i <? length outs)) eqn:Ej.
    + apply andb_true_iff in Ej. destruct Ej as [Ej _]. apply Nat.eqb_eq in Ej. subst.
      rewrite len_store. now apply HP.
    + now apply HP.
Qed.

Lemma len_xored newinputs a b c old : len (xored newinputs a b c old) = len old.
Proof.
  unfold xored. destruct (is_nil _); auto using len_pw.
Qed.

Lemma nth_bytes_pw_out s a b f q :
  ~ (a <= q < b) ->
  nth q (bytes (pw s a b f)) x00 = nth q (bytes s) x00.
Proof.
  intros H. destruct (Nat.lt_ge_cases q (len s)) as [Hq|Hq].
  - rewrite nth_bytes_pw by assumption.
    destruct (a <=? q) eqn:E1, (q <? b) eqn:E2; simpl; auto.
    apply Nat.leb_le in E1. apply Nat.ltb_lt in E2. lia.
  - rewrite !nth_overflow; auto.
    fold (len (pw s a b f)). now rewrite len_pw.
Qed.

Section UpdateSpec.

Variables (r : reedSolomon) (matrixRows : matrix).
Variables (oldinputs newinputs outputs : list slice).
Variables (outputCount byteCount : nat).

Hypothesis Hsplit : 0 < minSplitSize (o r).
Hypothesis Hsize : 0 < byteCount.
Hypothesis Hold : DataShards r <= length oldinputs.
Hypothesis Hnew : DataShards r <= length newinputs.
Hypothesis Hlens :
  forall c, c < DataShards r -> is_nil (nth c newinputs nil_slice) = false ->
            len (nth c newinputs nil_slice) = byteCount
            /\ len (nth c oldinputs nil_slice) = byteCount.
Hypothesis Hrows : outputCount <= length matrixRows.
Hypothesis Hcols :
  forall i, i < outputCount -> DataShards r <= length (nth i matrixRows []).
Hypothesis Houts : outputCount <= length outputs.
Hypothesis Hout_len :
  forall i, i < outputCount -> len (nth i outputs nil_slice) = byteCount.

Lemma update_state_nth_old a b c i :
  i < length oldinputs ->
  len (nth i (fst (update_state matrixRows oldinputs newinputs outputs outputCount a b c))
           nil_slice)
  = len (nth i oldinputs nil_slice).
Proof.
  intros Hi. unfold update_state. simpl. rewrite nth_imap_lt by assumption.
  destruct (i <? c); auto using len_xored.
Qed.

Lemma update_state_nth_out a b c i :
  i < length outputs ->
  len (nth i (snd (update_state matrixRows oldinputs newinputs outputs outputCount a b c))
           nil_slice)
  = len (nth i outputs nil_slice).
Proof.
  intros Hi. unfold update_state, updated. simpl. rewrite nth_imap_lt by assumption.
  destruct (i <? outputCount); auto using len_pw.
Qed.

Lemma update_whole_spec :
  loop (update_column_whole matrixRows newinputs outputCount) 0 (DataShards r)
       (oldinputs, outputs)
  = Ok (update_state matrixRows oldinputs newinputs outputs outputCount 0 byteCount
                     (DataShards r)).
Proof.
  destruct (loop_invariant
              (fun c st => st = update_state matrixRows oldinputs newinputs outputs
                                             outputCount 0 byteCount c)
              (update_column_whole matrixRows newinputs outputCount)
              (DataShards r) 0 (oldinputs, outputs)) as [s [E P]].
  - rewrite update_state_0. reflexivity.
  - intros c st Hc ->. eexists. split; [|reflexivity].
    rewrite (surjective_pairing (update_state _ _ _ _ _ _ _ c)).
    rewrite (update_column_whole_eq _ _ _ byteCount); auto.
    + rewrite <- surjective_pairing.
      apply update_column_spec with (dataShards := DataShards r); auto; try lia.
      * intros c' Hc' Hn. destruct (Hlens c' Hc' Hn). lia.
      * intros i Hi. rewrite Hout_len by assumption. lia.
    + intros Hn. rewrite update_state_nth_old by lia. apply Hlens; auto. lia.
    + intros i Hi. rewrite update_state_nth_out by lia. now apply Hout_len.
  - rewrite E. simpl in P. now subst.
Qed.

Lemma update_state_adjacent a b :
  a <= b ->
  let st := update_state matrixRows oldinputs newinputs outputs outputCount 0 a
                         (DataShards r) in
  update_state matrixRows (fst st) newinputs (snd st) outputCount a b (DataShards r)
  = update_state matrixRows oldinputs newinputs outputs outputCount 0 b (DataShards r).
Proof.
  intros Hab st. unfold st, update_state. simpl fst. simpl snd. f_equal.
  - rewrite imap_lt_imap_lt. apply (imap_lt_ext _ _ _ _ nil_slice). intros i _ _.
    unfold xored. destruct (is_nil (nth i newinputs nil_slice)); auto.
    apply pw_adjacent. lia.
  - unfold updated. rewrite imap_lt_imap_lt.
    apply (imap_lt_ext _ _ _ _ nil_slice). intros i _ _.
    rewrite <- (pw_adjacent _ 0 a b) by lia.
    apply pw_ext. intros q Hq _. f_equal. unfold update_sum.
    apply bigsum_ext. intros c Hc. f_equal. unfold delta_byte.
    destruct (is_nil (nth c newinputs nil_slice)) eqn:Enil; auto. f_equal.
    unfold shard_byte. rewrite nth_imap_lt by lia.
    apply Nat.ltb_lt in Hc as Hc'. rewrite Hc'. unfold xored. rewrite Enil.
    apply nth_bytes_pw_out. lia.
Qed.

Lemma updateParityShardsP_spec :
  updateParityShardsP r matrixRows oldinputs newinputs outputs outputCount byteCount
  = Ok (update_state matrixRows oldinputs newinputs outputs outputCount 0 byteCount
                     (DataShards r)).
Proof.
  unfold updateParityShardsP.
  set (do0 := byteCount / maxGoroutines (o r)).
  set (do1 := if do0 <? minSplitSize (o r) then minSplitSize (o r) else do0).
  assert (Hdo1 : 0 < do1).
  { unfold do1. destruct (do0 <? minSplitSize (o r)) eqn:E; [assumption|].
    apply Nat.ltb_ge in E. lia. }
  assert (H0 : (oldinputs, outputs)
               = update_state matrixRows oldinputs newinputs outputs outputCount 0 0
                              (DataShards r)).
  { unfold update_state, updated. f_equal.
    - rewrite <- (imap_lt_id (DataShards r) oldinputs) at 1.
      apply (imap_lt_ext _ _ _ _ nil_slice). intros i _ _.
      unfold xored. destruct (is_nil _); auto. now rewrite pw_empty.
    - rewrite <- (imap_lt_id outputCount outputs) at 1.
      apply (imap_lt_ext _ _ _ _ nil_slice). intros i _ _. now rewrite pw_empty. }
  rewrite H0.
  apply (split_loop_spec
           (fun start stop st =>
              loop (update_column matrixRows newinputs outputCount start stop)
                   0 (DataShards r) st)
           (fun a => update_state matrixRows oldinputs newinputs outputs outputCount 0 a
                                  (DataShards r))
           byteCount); try lia.
  intros a b Hab.
  rewrite (surjective_pairing (update_state _ _ _ _ _ _ _ _)).
  rewrite update_chunk_spec.
  - f_equal. apply update_state_adjacent. lia.
  - unfold update_state. simpl. now rewrite length_imap_lt.
  - assumption.
  - intros c Hc Hn. rewrite update_state_nth_old by lia.
    destruct (Hlens c Hc Hn). lia.
  - assumption.
  - assumption.
  - unfold update_state, updated. simpl. now rewrite length_imap_lt.
  - intros i Hi. rewrite update_state_nth_out by lia. rewrite Hout_len by assumption. lia.
  - lia.
Qed.

Lemma updateParityShards_spec :
  updateParityShards r matrixRows oldinputs newinputs outputs outputCount byteCount
  = Ok (update_state matrixRows oldinputs newinputs outputs outputCount 0 byteCount
                     (DataShards r)).
Proof.
  unfold updateParityShards.
  destruct ((1 <? maxGoroutines (o r)) && (minSplitSize (o r) <? byteCount)).
  - apply updateParityShardsP_spec.
  - apply update_whole_spec.
Qed.

End UpdateSpec.

(** ** Update *)

Lemma shardSize_mixed shards size :
  Forall (fun shard => len shard = size \/ len shard = 0) shards ->
  (exists shard, In shard shards /\ len shard = size) ->
  shardSize shards = size.
Proof.
  intros Hall [s [Hin Hs]].
  destruct (Nat.eq_dec (shardSize shards) 0) as [E|E].
  - pose proof E as E'. apply shardSize_0 in E'. rewrite Forall_forall in E'.
    specialize (E' s Hin). lia.
  - destruct (shardSize_In shards E) as [x [Hx Hl]].
    rewrite Forall_forall in Hall. destruct (Hall x Hx); lia.
Qed.

Lemma checkShards_mixed shards size :
  0 < size ->
  Forall (fun shard => len shard = size \/ len shard = 0) shards ->
  (exists shard, In shard shards /\ len shard = size) ->
  checkShards shards true = None.
Proof.
  intros Hs Hall Hex. unfold checkShards.
  rewrite (shardSize_mixed shards size Hall Hex).
  replace (size =? 0) with false by (symmetry; apply Nat.eqb_neq; lia).
  apply checkShards_sizes_None.
  eapply Forall_impl; [|exact Hall]. simpl. intros a [H|H]; auto.
Qed.

Lemma update_check_old_false shards newDatashards :
  (forall c, c < length newDatashards ->
             is_nil (nth c newDatashards nil_slice) = false ->
             c < length shards /\ is_nil (nth c shards nil_slice) = false) ->
  update_check_old shards newDatashards = Ok false.
Proof.
  intros H. unfold update_check_old.
  destruct (range_loop_invariant (fun _ (bad : bool) => bad = false)
              (fun i nd (bad : bool) =>
                 if bad then Ok true
                 else if is_nil nd then Ok false
                      else s <- get shards i ;; Ok (is_nil s))
              newDatashards 0 false nil_slice) as [b [E P]]; auto.
  - intros i bad Hi ->. rewrite Nat.sub_0_r.
    destruct (is_nil (nth i newDatashards nil_slice)) eqn:En; eauto.
    destruct (H i) as [Hl Hn]; [lia | assumption |].
    rewrite (get_Ok shards i nil_slice Hl). simpl. rewrite Hn. eauto.
  - now rewrite E, P.
Qed.

Lemma is_nil_len s : 0 < len s -> is_nil s = false.
Proof. destruct s; unfold len; simpl; [lia | reflexivity]. Qed.

Section UpdateCall.

Variables (r : reedSolomon) (shards newDatashards : list slice) (size : nat).

Hypothesis Hok : enc_ok r.
Hypothesis Hlen : length shards = Shards r.
Hypothesis Hnlen : length newDatashards = DataShards r.
Hypothesis Hsize : 0 < size.
Hypothesis Hdata :
  forall c, c < DataShards r ->
            len (nth c shards nil_slice) = size \/ len (nth c shards nil_slice) = 0.
Hypothesis Hparity :
  forall i, DataShards r <= i < Shards r -> len (nth i shards nil_slice) = size.
Hypothesis Hnew :
  forall c, c < DataShards r ->
            is_nil (nth c newDatashards nil_slice) = true
            \/ len (nth c newDatashards nil_slice) = size.
Hypothesis Hchanged :
  exists c, c < DataShards r /\ is_nil (nth c newDatashards nil_slice) = false.
Hypothesis Hold :
  forall c, c < DataShards r ->
            is_nil (nth c newDatashards nil_slice) = false ->
            len (nth c shards nil_slice) = size.

Lemma Update_well_shaped :
  Update r shards newDatashards
  = Ok (None,
        let st := update_state (parity r) (firstn (DataShards r) shards) newDatashards
                               (skipn (DataShards r) shards) (ParityShards r) 0 size
                               (DataShards r) in
        fst st ++ snd st).
Proof.
  pose proof (ok_data Hok) as Hd. pose proof (ok_shards Hok) as Hs.
  assert (Hparity_pos : 0 < ParityShards r \/ ParityShards r = 0) by lia.
  unfold Update. rewrite Hlen, Hnlen, !Nat.eqb_refl. simpl.
  assert (Hnil_len : forall s, is_nil s = true -> len s = 0)
    by (intros [|]; [reflexivity | discriminate]).
  destruct Hchanged as [c0 [Hc0 Hn0]].
  assert (Hc0new : len (nth c0 newDatashards nil_slice) = size).
  { destruct (Hnew c0 Hc0) as [E|E]; [congruence | assumption]. }
  rewrite (checkShards_mixed shards size).
  2: assumption.
  2:{ apply Forall_forall. intros s Hin. destruct (In_nth _ _ nil_slice Hin) as [i [Hi <-]].
      destruct (Nat.lt_ge_cases i (DataShards r)); [apply Hdata; lia|].
      left. apply Hparity. lia. }
  2:{ exists (nth c0 shards nil_slice). split; [apply nth_In; lia | now apply Hold]. }
  rewrite (checkShards_mixed newDatashards size).
  2: assumption.
  2:{ apply Forall_forall. intros s Hin. destruct (In_nth _ _ nil_slice Hin) as [i [Hi <-]].
      destruct (Hnew i) as [E|E]; [lia | right; now apply Hnil_len | now left]. }
  2:{ exists (nth c0 newDatashards nil_slice). split; [apply nth_In; lia | assumption]. }
  rewrite update_check_old_false.
  2:{ intros c Hc Hn. split; [lia|]. apply is_nil_len. rewrite Hold; auto. lia. }
  simpl. rewrite slice_from_Ok by lia. simpl.
  assert (Hex : existsb is_nil (skipn (DataShards r) shards) = false).
  { destruct (existsb is_nil (skipn (DataShards r) shards)) eqn:E; auto.
    apply existsb_exists in E. destruct E as [s [Hin Hn]].
    destruct (In_nth _ _ nil_slice Hin) as [i [Hi <-]].
    rewrite length_skipn in Hi. rewrite nth_skipn in Hn.
    rewrite is_nil_len in Hn; [discriminate|]. rewrite Hparity; lia. }
  rewrite Hex.
  rewrite !slice_to_Ok by lia. simpl.
  rewrite (shardSize_mixed shards size).
  2:{ apply Forall_forall. intros s Hin. destruct (In_nth _ _ nil_slice Hin) as [i [Hi <-]].
      destruct (Nat.lt_ge_cases i (DataShards r)); [apply Hdata; lia|].
      left. apply Hparity. lia. }
  2:{ exists (nth c0 shards nil_slice). split; [apply nth_In; lia | now apply Hold]. }
  replace (firstn (DataShards r) newDatashards) with newDatashards
    by (rewrite <- Hnlen; symmetry; apply firstn_all).
  rewrite updateParityShards_spec; auto.
  - apply (ok_split Hok).
  - rewrite length_firstn. lia.
  - lia.
  - intros c Hc Hn. split.
    + destruct (Hnew c Hc) as [E|E]; [congruence | assumption].
    + rewrite nth_firstn. apply Nat.ltb_lt in Hc as Hc'. rewrite Hc'. now apply Hold.
  - rewrite (enc_ok_parity_length r Hok). lia.
  - intros i Hi. rewrite (enc_ok_parity_nth r i Hok), enc_ok_row_length; auto. lia.
  - rewrite length_skipn. lia.
  - intros i Hi. rewrite nth_skipn. apply Hparity. lia.
Qed.

End UpdateCall.



(** ** Update against re-encoding *)

Lemma New_2_1 : New 2 1 plainOptions = Ok (Success enc_2_1).
Proof. vm_compute. reflexivity. Qed.

Lemma bigsum_add n f g :
  galAdd (bigsum n f) (bigsum n g) = bigsum n (fun i => galAdd (f i) (g i)).
Proof.
  induction n as [|n IH]; simpl; [apply galAdd_0_l|].
  rewrite <- IH.
  rewrite <- !galAdd_assoc. f_equal.
  rewrite !galAdd_assoc. f_equal. apply galAdd_comm.
Qed.

Lemma nth_list_of_bytes l1 l2 size :
  length l1 = size -> length l2 = size ->
  (forall q, q < size -> nth q l1 x00 = nth q l2 x00) -> l1 = l2.
Proof.
  intros H1 H2 H. apply (nth_ext_lt _ _ x00); [lia|].
  intros q Hq. apply H. lia.
Qed.

(** C5, as stated, fails: with an old parity shard that is not the encoding
    of the old data ([3*1 + 2*2 = 7], not [0]), [Update] succeeds and leaves
    a parity that differs from the one [Encode] computes for the merged
    shards. *)
Lemma Update_stale_parity_differs :
  let shards := [shard_of [1]; shard_of [2]; shard_of [0]] in
  let newDatashards := [shard_of [5]; nil_slice] in
  exists shards' encoded,
    Update enc_2_1 shards newDatashards = Ok (None, shards')
    /\ Encode enc_2_1 (merge_shards 2 shards newDatashards) = Ok (None, encoded)
    /\ bytes (nth 2 shards' nil_slice) <> bytes (nth 2 encoded nil_slice).
Proof.
  simpl. eexists. eexists. split; [vm_compute; reflexivity|].
  split; [vm_compute; reflexivity|]. vm_compute. discriminate.
Qed.

(** C5, amended.  [old] is the stored stripe: [Shards] shards of one size
    whose parity shards are the encoding of its data shards.  [shards] is what
    the caller passes: the parity shards of [old], and its data shards, of
    which those of unchanged columns may be absent.  On such input, with every
    new data shard nil or of the shard size and at least one of them given,
    [Update] leaves the parity shards with the bytes that [Encode] computes
    for the stripe in which each changed column holds its new shard. *)
Theorem Update_equals_reencode
  (r : reedSolomon) (old shards newDatashards : list slice) (size : nat) :
  enc_ok r ->
  length old = Shards r ->
  (forall i, i < Shards r -> len (nth i old nil_slice) = size) ->
  (forall i q, DataShards r <= i < Shards r -> q < size ->
               shard_byte old i q
               = coded_byte (nth i (m r) []) old (DataShards r) q) ->
  length shards = Shards r ->
  (forall i, i < Shards r ->
             nth i shards nil_slice = nth i old nil_slice
             \/ (i < DataShards r
                 /\ len (nth i shards nil_slice) = 0
                 /\ is_nil (nth i newDatashards nil_slice) = true)) ->
  length newDatashards = DataShards r ->
  0 < size ->
  (forall c, c < DataShards r ->
             is_nil (nth c newDatashards nil_slice) = true
             \/ len (nth c newDatashards nil_slice) = size) ->
  (exists c, c < DataShards r /\ is_nil (nth c newDatashards nil_slice) = false) ->
  exists shards' encoded,
    Update r shards newDatashards = Ok (None, shards')
    /\ Encode r (merge_shards (DataShards r) old newDatashards) = Ok (None, encoded)
    /\ forall i, DataShards r <= i < Shards r ->
         bytes (nth i shards' nil_slice) = bytes (nth i encoded nil_slice).
Proof.
  intros Hok Hlo Hall Hcons Hlen Hview Hnlen Hsize Hnew Hchanged.
  pose proof (ok_shards Hok) as Hs. pose proof (ok_data Hok) as Hd.
  assert (Hpar : forall i, DataShards r <= i < Shards r ->
                   nth i shards nil_slice = nth i old nil_slice).
  { intros i Hi. destruct (Hview i) as [H|[H _]]; [lia | exact H | lia]. }
  assert (Hchg : forall c, c < DataShards r ->
                   is_nil (nth c newDatashards nil_slice) = false ->
                   nth c shards nil_slice = nth c old nil_slice).
  { intros c Hc Hn. destruct (Hview c) as [H|[_ [_ H]]]; [lia | exact H | congruence]. }
  set (merged := merge_shards (DataShards r) old newDatashards).
  assert (Hml : length merged = Shards r)
    by (unfold merged, merge_shards; now rewrite length_imap_lt).
  assert (Hmn : forall i, i < Shards r ->
                  nth i merged nil_slice
                  = if (i <? DataShards r) && negb (is_nil (nth i newDatashards nil_slice))
                    then nth i newDatashards nil_slice else nth i old nil_slice).
  { intros i Hi. unfold merged, merge_shards. rewrite nth_imap_lt by lia.
    destruct (i <? DataShards r); simpl; auto.
    now destruct (is_nil (nth i newDatashards nil_slice)). }
  assert (Hmall : Forall (fun shard => len shard = size) merged).
  { apply Forall_forall. intros s Hin.
    destruct (In_nth _ _ nil_slice Hin) as [i [Hi <-]]. rewrite Hml in Hi.
    rewrite Hmn by assumption.
    destruct (i <? DataShards r) eqn:E1; simpl; [|now apply Hall].
    destruct (is_nil (nth i newDatashards nil_slice)) eqn:E2; simpl; [now apply Hall|].
    apply Nat.ltb_lt in E1. destruct (Hnew i E1); congruence. }
  destruct (Encode_contract r merged Hok) as [_ [_ [_ Henc]]].
  destruct (Henc size Hml Hsize Hmall) as [encoded [Eenc [_ [_ Hp]]]].
  eexists. exists encoded. split; [|split; [exact Eenc|]].
  - apply (Update_well_shaped r shards newDatashards size); auto.
    + intros c Hc. destruct (Hview c) as [H|[_ [H _]]]; [lia| |now right].
      left. rewrite H. apply Hall. lia.
    + intros i Hi. rewrite Hpar by exact Hi. apply Hall. lia.
    + intros c Hc Hn. rewrite (Hchg c Hc Hn). apply Hall. lia.
  - intros i Hi. simpl.
    destruct (Hp i Hi) as [Hel Heb].
    assert (E : nth i (imap_lt (DataShards r) (xored newDatashards 0 size)
                         (firstn (DataShards r) shards)
                       ++ updated (DataShards r) (parity r) (firstn (DataShards r) shards)
                            newDatashards (ParityShards r) 0 size
                            (skipn (DataShards r) shards)) nil_slice
                = pw (nth i old nil_slice) 0 size
                     (fun q o => galAdd o (update_sum (nth i (m r) [])
                                             (firstn (DataShards r) shards)
                                             newDatashards (DataShards r) q))).
    { rewrite app_nth2 by (rewrite length_imap_lt, length_firstn; lia).
      rewrite length_imap_lt, length_firstn.
      replace (Nat.min (DataShards r) (length shards)) with (DataShards r) by lia.
      unfold updated. rewrite nth_imap_lt by (rewrite length_skipn; lia).
      replace (i - DataShards r <? ParityShards r) with true
        by (symmetry; apply Nat.ltb_lt; lia).
      rewrite nth_skipn, (enc_ok_parity_nth r _ Hok).
      replace (DataShards r + (i - DataShards r)) with i by lia.
      now rewrite Hpar by exact Hi. }
    rewrite E.
    apply (nth_list_of_bytes _ _ size).
    + fold (len (pw (nth i old nil_slice) 0 size
                    (fun q o => galAdd o (update_sum (nth i (m r) [])
                                            (firstn (DataShards r) shards)
                                            newDatashards (DataShards r) q)))).
      rewrite len_pw. apply Hall. lia.
    + exact Hel.
    + intros q Hq.
      rewrite nth_bytes_pw by (rewrite Hall; lia).
      replace (q <? size) with true by (symmetry; apply Nat.ltb_lt; lia). simpl.
      fold (shard_byte old i q). fold (shard_byte encoded i q).
      rewrite Heb, Hcons by assumption.
      unfold coded_byte, update_sum. rewrite bigsum_add.
      apply bigsum_ext. intros c Hc.
      rewrite <- galMultiply_distr_l. f_equal.
      unfold delta_byte, shard_byte at 4.
      rewrite Hmn by lia.
      apply Nat.ltb_lt in Hc as Hc'. rewrite Hc'. simpl. unfold shard_byte at 2.
      rewrite nth_firstn, Hc'.
      destruct (is_nil (nth c newDatashards nil_slice)) eqn:En; simpl.
      * apply galAdd_0_r.
      * rewrite (Hchg c Hc En).
        fold (shard_byte old c q).
        rewrite galAdd_assoc, galAdd_self. apply galAdd_0_l.
Qed.

(** ** Shapes of matrices *)

Lemma same_shape_refl a : same_shape a a.
Proof. split; auto. Qed.

Lemma same_shape_trans a b c : same_shape a b -> same_shape b c -> same_shape a c.
Proof.
  intros [H1 H2] [H3 H4]. split; [congruence|]. intros i. now rewrite H2.
Qed.

Lemma mset_same_shape mx r c v mx' : mset mx r c v = Ok mx' -> same_shape mx' mx.
Proof.
  unfold mset. intros E.
  apply bind_Ok_inv in E. destruct E as [row [E1 E]].
  apply bind_Ok_inv in E. destruct E as [row' [E2 E3]].
  destruct (get_inv mx r row [] E1) as [Hr ->].
  destruct (set_inv _ _ _ _ E2) as [Hc ->].
  destruct (set_inv _ _ _ _ E3) as [_ ->].
  split.
  - apply length_upd.
  - intros i. rewrite nth_upd. destruct ((i =? r) && (r <? length mx)) eqn:E; auto.
    apply andb_true_iff in E. destruct E as [E _]. apply Nat.eqb_eq in E. subst.
    apply length_upd.
Qed.

Lemma mset_Ok mx r c v :
  r < length mx -> c < length (nth r mx []) ->
  mset mx r c v = Ok (upd mx r (upd (nth r mx []) c v)).
Proof.
  intros Hr Hc. unfold mset.
  rewrite (get_Ok mx r [] Hr). simpl.
  rewrite (set_Ok _ c v Hc). simpl.
  now rewrite (set_Ok mx r _ Hr).
Qed.

Lemma mget_Ok mx r c :
  r < length mx -> c < length (nth r mx []) ->
  mget mx r c = Ok (nth c (nth r mx []) x00).
Proof.
  intros Hr Hc. unfold mget.
  rewrite (get_Ok mx r [] Hr). simpl. now apply get_Ok.
Qed.

Lemma copy_row_same_shape src srcRow count dstRow dst dst' :
  copy_row src srcRow count dstRow dst = Ok dst' -> same_shape dst' dst.
Proof.
  unfold copy_row. intros E.
  pose proof (loop_result (fun _ d => same_shape d dst)
                (fun c dst => v <- mget src srcRow c ;; mset dst dstRow c v)
                count 0 dst dst' (same_shape_refl dst)) as H.
  apply H; auto.
  intros i s s' _ Hs Eb.
  apply bind_Ok_inv in Eb. destruct Eb as [v [_ Eb]].
  eapply same_shape_trans; [eapply mset_same_shape; exact Eb | exact Hs].
Qed.

Lemma copy_rows_same_shape src count idxs dst dst' :
  copy_rows src count idxs dst = Ok dst' -> same_shape dst' dst.
Proof.
  unfold copy_rows. intros E.
  pose proof (range_loop_result (fun _ d => same_shape d dst)
                (fun row idx dst => copy_row src idx count row dst)
                idxs 0 dst dst' 0 (same_shape_refl dst)) as H.
  apply H; auto.
  intros i s s' _ Hs Eb.
  eapply same_shape_trans; [eapply copy_row_same_shape; exact Eb | exact Hs].
Qed.

Lemma length_newMatrix rows cols : length (newMatrix rows cols) = rows.
Proof. apply repeat_length. Qed.

Lemma nth_newMatrix rows cols i :
  i < rows -> nth i (newMatrix rows cols) [] = repeat x00 cols.
Proof.
  intros H. unfold newMatrix. now apply nth_repeat_lt.
Qed.

Lemma length_identityMatrix n : length (identityMatrix n) = n.
Proof. unfold identityMatrix. now rewrite length_map, length_seq. Qed.

(** ** The shape of an inverse *)

Lemma length_SwapRows mx r1 r2 : length (SwapRows mx r1 r2) = length mx.
Proof. unfold SwapRows. now rewrite !length_upd. Qed.

Lemma length_choose_pivot k mx : length (choose_pivot k mx) = length mx.
Proof.
  unfold choose_pivot. destruct (Byte.eqb (entry mx k k) x00); auto.
  destruct (find_pivot (skipn (S k) mx) k (S k)); auto using length_SwapRows.
Qed.

Lemma length_eliminate k mx : length (eliminate k mx) = length mx.
Proof.
  unfold eliminate. rewrite length_map, length_combine, length_seq. lia.
Qed.

Lemma pivot_step_length k mx mx' :
  pivot_step k mx = Success mx' -> length mx' = length mx.
Proof.
  unfold pivot_step.
  destruct (Byte.eqb (entry (choose_pivot k mx) k k) x00); [discriminate|].
  intros [= <-]. now rewrite length_eliminate, length_choose_pivot.
Qed.

Lemma gaussianElimination_length count k mx mx' :
  gaussianElimination k count mx = Success mx' -> length mx' = length mx.
Proof.
  revert k mx. induction count as [|count IH]; intros k mx; simpl.
  - now intros [= <-].
  - destruct (pivot_step k mx) as [m1|] eqn:E; [|discriminate].
    intros H. rewrite (IH _ _ H). eapply pivot_step_length. exact E.
Qed.

Lemma Invert_rows mx inv : Invert mx = Success inv -> rows inv = rows mx.
Proof.
  unfold Invert. destruct (IsSquare mx); simpl; [|discriminate].
  destruct (gaussianElimination 0 (rows mx) (Augment mx (identityMatrix (rows mx))))
    as [work|] eqn:E; [|discriminate].
  intros [= <-]. apply gaussianElimination_length in E.
  unfold rows, SubMatrix. rewrite length_map, length_firstn. simpl skipn.
  rewrite E. unfold Augment. rewrite length_map2, length_identityMatrix.
  unfold rows. lia.
Qed.

(** ** The decode matrix has [DataShards] rows *)

Lemma tree_shape_nil r : tree_shape r newInversionTree.
Proof. intros key mx. discriminate. Qed.

Lemma tree_shape_insert r t key mx :
  tree_shape r t -> rows mx = DataShards r ->
  tree_shape r (InsertInvertedMatrix t key mx).
Proof.
  intros Ht Hm key' mx'. unfold InsertInvertedMatrix. simpl.
  destruct (list_eq_dec Nat.eq_dec key' key).
  - now intros [= <-].
  - apply Ht.
Qed.

Lemma decode_matrix_rows r t validIndices invalidIndices dec t' :
  tree_shape r t ->
  decode_matrix r t validIndices invalidIndices = Ok (Success dec, t') ->
  rows dec = DataShards r /\ tree_shape r t'.
Proof.
  intros Ht. unfold decode_matrix.
  destruct (GetInvertedMatrix (DataShards r) t invalidIndices) as [mx|] eqn:G.
  - intros [= <- <-]. split; [|assumption].
    unfold GetInvertedMatrix in G. destruct invalidIndices.
    + injection G as <-. apply length_identityMatrix.
    + eapply Ht. exact G.
  - intros E. apply bind_Ok_inv in E. destruct E as [sub [Es E]].
    destruct (Invert sub) as [mx|] eqn:Ei; [|discriminate].
    injection E as <- <-.
    apply copy_rows_same_shape in Es. destruct Es as [Hl _].
    rewrite length_newMatrix in Hl.
    assert (Hr : rows mx = DataShards r).
    { rewrite (Invert_rows _ _ Ei). exact Hl. }
    split; [assumption|]. now apply tree_shape_insert.
Qed.

(** ** The product of [PartialReconstruct] *)

Lemma hd_nth_0 {A : Type} (l : list A) (d : A) : hd d l = nth 0 l d.
Proof. now destruct l. Qed.

(** With a decode matrix of [DataShards] rows the product is defined: the
    encode matrix is dimensioned [len(badIdx) x DataShards]. *)
Lemma final_decode_defined r badIdx dec e :
  rows dec = DataShards r ->
  final_decode r badIdx dec <> Ok (Failure e).
Proof.
  intros Hdec E. unfold final_decode in E.
  apply bind_Ok_inv in E. destruct E as [mat [Ec E]].
  injection E as E. unfold Multiply_dim in E.
  rewrite Hdec, Nat.eqb_refl in E. discriminate E.
Qed.

Lemma present_in_survival r shards survivalIdx :
  length shards = Shards r ->
  (forall i, i < Shards r -> len (nth i shards nil_slice) <> 0 ->
             mem i survivalIdx = true) ->
  existsb (fun '(i, shard) => negb (len shard =? 0) && negb (mem i survivalIdx))
          (combine (seq 0 (Shards r)) shards) = false.
Proof.
  intros Hlen H.
  destruct (existsb _ _) eqn:E; auto.
  apply existsb_exists in E. destruct E as [[i s] [Hin Hb]].
  apply andb_true_iff in Hb. destruct Hb as [H1 H2].
  apply (In_nth _ _ (0, nil_slice)) in Hin. destruct Hin as [k [Hk Ek]].
  rewrite length_combine, length_seq in Hk.
  rewrite combine_nth in Ek by (rewrite length_seq; lia).
  rewrite seq_nth in Ek by lia. injection Ek as <- <-.
  apply negb_true_iff, Nat.eqb_neq in H1.
  rewrite H in H2; [discriminate | lia | assumption].
Qed.

(** C8, as stated, fails: there is no input on which the product of the
    bad-row encode matrix with the data-decode matrix fails and
    [PartialReconstruct] returns success with a wrong byte in an output
    shard.  The product does not fail at all: the decode matrix has
    [DataShards] rows and the encode matrix [DataShards] columns. *)
Lemma no_wrong_output_from_failed_product :
  ~ exists (r : reedSolomon) (t t' t'' : inversionTree)
           (shards shards' : list slice) (survivalIdx badIdx invalidIndices : list nat)
           (dec : matrix) (e : error) (i : nat) (expected : list byte),
      enc_ok r /\ tree_shape r t
      /\ incremental survivalIdx = true /\ incremental badIdx = true
      /\ (forall i, i < Shards r -> len (nth i shards nil_slice) <> 0 ->
                    mem i survivalIdx = true)
      /\ invalid_indices (Shards r) survivalIdx = Ok invalidIndices
      /\ decode_matrix r t survivalIdx invalidIndices = Ok (Success dec, t')
      /\ final_decode r badIdx dec = Ok (Failure e)
      /\ PartialReconstruct r t shards survivalIdx badIdx = Ok (None, shards', t'')
      /\ In i badIdx
      /\ bytes (nth i shards' nil_slice) <> expected.
Proof.
  intros (r & t & t' & t'' & shards & shards' & survivalIdx & badIdx & invalidIndices
          & dec & e & i & expected
          & Hok & Ht & _ & _ & _ & _ & Hdec & Hfin & _ & Hin & _).
  destruct (decode_matrix_rows r t survivalIdx invalidIndices dec t' Ht Hdec) as [Hr _].
  exact (final_decode_defined r badIdx dec e Hr Hfin).
Qed.

(** ** Survivor selection *)

(** C4, at the failing input: a default (non-LRC) encoder with the single
    failure [0].  The combination [1; 2] is invertible and is returned as
    [select_shards], but [read_shards] is empty. *)
Theorem GetSurvivalShards_single_failure_reads_nothing :
  GetSurvivalShards enc_2_1 [0] [] = Ok ([1; 2], [], None).
Proof. vm_compute. reflexivity. Qed.

(** With more than one failure the two lists that [GetSurvivalShards]
    returns are the same list. *)
Lemma GetSurvivalShards_multi_failure r badIndex azLayout sel read e :
  1 < length badIndex ->
  GetSurvivalShards r badIndex azLayout = Ok (sel, read, e) ->
  sel = read.
Proof.
  intros Hb. rewrite GetSurvivalShards_eq.
  replace (length badIndex =? 0) with false by (symmetry; apply Nat.eqb_neq; lia).
  replace (length badIndex =? 1) with false by (symmetry; apply Nat.eqb_neq; lia).
  destruct (Shards r <? DataShards r + length badIndex); [now intros [= <- <- <-]|].
  simpl. intros E.
  apply bind_Ok_inv in E. destruct E as [[sur cnt] [_ E]].
  apply bind_Ok_inv in E. destruct E as [st [_ E]].
  destruct (negb (s_chosen st)); now injection E as <- <- <-.
Qed.

(** ** Two partial calls *)

(** C2, at the failing input: data [5] and [7], parity [1], survivors
    [1; 2], bad index [0], and a zero-initialized output buffer of capacity
    1.  One call with both survivors present leaves [5] in the buffer.  A
    call with only shard 1 present leaves [241] there; a second call on the
    same buffer with only shard 2 present overwrites it with [244]. *)
Theorem PartialReconstruct_second_call_overwrites :
  let buffer := mk_slice [] [x00] in
  let d1 := shard_of [7] in
  let p := shard_of [1] in
  exists together first second t1 t2 t3,
    PartialReconstruct enc_2_1 newInversionTree [buffer; d1; p] [1; 2] [0]
    = Ok (None, together, t1)
    /\ PartialReconstruct enc_2_1 newInversionTree [buffer; d1; nil_slice] [1; 2] [0]
       = Ok (None, first, t2)
    /\ PartialReconstruct enc_2_1 t2
         [mk_slice [] (backing (nth 0 first nil_slice)); nil_slice; p] [1; 2] [0]
       = Ok (None, second, t3)
    /\ bytes (nth 0 together nil_slice) = [byte_of_nat 5]
    /\ bytes (nth 0 first nil_slice) = [byte_of_nat 241]
    /\ bytes (nth 0 second nil_slice) = [byte_of_nat 244].
Proof.
  simpl. do 6 eexists.
  split; [vm_compute; reflexivity|].
  split; [vm_compute; reflexivity|].
  split; [vm_compute; reflexivity|].
  vm_compute. auto.
Qed.

(** ** The claims at concrete inputs *)

Lemma enc_2_1_ok : enc_ok enc_2_1.
Proof.
  constructor; simpl; try lia; try reflexivity.
  intros row [<-|[<-|[<-|[]]]]; reflexivity.
Defined.

Lemma PartialReconstruct_all_present_fast_path_witness :
  PartialReconstruct enc_2_1 newInversionTree
    [shard_of [5]; shard_of [7]; shard_of [1]] [0] []
  = Ok (None, [shard_of [5]; shard_of [7]; shard_of [1]], newInversionTree).
Proof.
  apply PartialReconstruct_all_present_fast_path.
  - reflexivity.
  - repeat constructor; discriminate.
  - reflexivity.
  - reflexivity.
Defined.

Lemma reconstruct_presence_checks_witness :
  reconstruct enc_2_1 newInversionTree
    [shard_of [5]; nil_slice; nil_slice] false
  = Ok (Some ErrTooFewShards, [shard_of [5]; nil_slice; nil_slice], newInversionTree).
Proof.
  apply (reconstruct_presence_checks enc_2_1 newInversionTree
           [shard_of [5]; nil_slice; nil_slice] false enc_2_1_ok).
  - reflexivity.
  - reflexivity.
  - vm_compute. lia.
Defined.

Lemma Encode_contract_witness :
  exists shards',
    Encode enc_2_1 [shard_of [5]; shard_of [7]; shard_of [0]] = Ok (None, shards')
    /\ length shards' = 3
    /\ (forall i, i < 2 ->
          nth i shards' nil_slice
          = nth i [shard_of [5]; shard_of [7]; shard_of [0]] nil_slice)
    /\ (forall i, 2 <= i < 3 ->
          len (nth i shards' nil_slice) = 1
          /\ forall q, q < 1 ->
               shard_byte shards' i q
               = coded_byte (nth i (m enc_2_1) [])
                            [shard_of [5]; shard_of [7]; shard_of [0]] 2 q).
Proof.
  apply (Encode_contract enc_2_1 [shard_of [5]; shard_of [7]; shard_of [0]] enc_2_1_ok).
  - reflexivity.
  - lia.
  - repeat constructor.
Defined.


Lemma Update_equals_reencode_witness :
  exists shards' encoded,
    Update enc_2_1 [shard_of [5]; nil_slice; shard_of [1]] [shard_of [9]; nil_slice]
    = Ok (None, shards')
    /\ Encode enc_2_1
         (merge_shards 2 [shard_of [5]; shard_of [7]; shard_of [1]]
                       [shard_of [9]; nil_slice])
       = Ok (None, encoded)
    /\ forall i, 2 <= i < 3 ->
         bytes (nth i shards' nil_slice) = bytes (nth i encoded nil_slice).
Proof.
  apply (Update_equals_reencode enc_2_1
           [shard_of [5]; shard_of [7]; shard_of [1]]
           [shard_of [5]; nil_slice; shard_of [1]] [shard_of [9]; nil_slice] 1
           enc_2_1_ok).
  - reflexivity.
  - intros [|[|[|i]]] Hi; simpl in Hi; try lia; reflexivity.
  - intros [|[|[|i]]] [|q] Hi Hq; simpl in Hi; try lia. vm_compute. reflexivity.
  - reflexivity.
  - intros [|[|[|i]]] Hi; simpl in Hi; try lia.
    + left. reflexivity.
    + right. repeat split; simpl; lia.
    + left. reflexivity.
  - reflexivity.
  - lia.
  - intros [|[|c]] Hc; simpl in Hc; try lia; [right | left]; reflexivity.
  - exists 0. split; [simpl; lia | reflexivity].
Defined.


(** ** Sums in GF(2^8) *)

Lemma bigsum_zero n f : (forall i, i < n -> f i = x00) -> bigsum n f = x00.
Proof.
  induction n as [|n IH]; intros H; simpl; auto.
  rewrite IH, H by auto. apply galAdd_0_l.
Qed.

Lemma bigsum_scale n c f :
  galMultiply c (bigsum n f) = bigsum n (fun i => galMultiply c (f i)).
Proof.
  induction n as [|n IH]; simpl.
  - apply galMultiply_0_r.
  - now rewrite galMultiply_distr_l, IH.
Qed.

Lemma bigsum_scale_r n c f :
  galMultiply (bigsum n f) c = bigsum n (fun i => galMultiply (f i) c).
Proof.
  rewrite galMultiply_comm, bigsum_scale. apply bigsum_ext.
  intros i _. apply galMultiply_comm.
Qed.

Lemma bigsum_exchange n k (f : nat -> nat -> byte) :
  bigsum n (fun i => bigsum k (fun j => f i j))
  = bigsum k (fun j => bigsum n (fun i => f i j)).
Proof.
  induction n as [|n IH]; simpl.
  - symmetry. now apply bigsum_zero.
  - rewrite IH. apply bigsum_add.
Qed.

Lemma bigsum_single n k a :
  k < n -> bigsum n (fun i => if i =? k then a else x00) = a.
Proof.
  induction n as [|n IH]; intros H; [lia|]. simpl.
  destruct (Nat.eq_dec k n) as [->|Hne].
  - rewrite Nat.eqb_refl, bigsum_zero; [apply galAdd_0_l|].
    intros i Hi. replace (i =? n) with false by (symmetry; apply Nat.eqb_neq; lia).
    reflexivity.
  - rewrite IH by lia.
    replace (n =? k) with false by (symmetry; apply Nat.eqb_neq; lia).
    apply galAdd_0_r.
Qed.

Lemma bigsum_delta_l n k f :
  k < n -> bigsum n (fun i => galMultiply (delta k i) (f i)) = f k.
Proof.
  intros H. rewrite <- (bigsum_single n k (f k) H). apply bigsum_ext.
  intros i _. unfold delta. rewrite Nat.eqb_sym. destruct (i =? k) eqn:E.
  - apply Nat.eqb_eq in E. subst. apply galMultiply_1_l.
  - reflexivity.
Qed.

Lemma bigsum_delta_r n k f :
  k < n -> bigsum n (fun i => galMultiply (f i) (delta i k)) = f k.
Proof.
  intros H. rewrite <- (bigsum_single n k (f k) H). apply bigsum_ext.
  intros i _. unfold delta. destruct (i =? k) eqn:E.
  - apply Nat.eqb_eq in E. subst. apply galMultiply_1_r.
  - apply galMultiply_0_r.
Qed.

Lemma bigsum_more n k f :
  n <= k -> (forall i, n <= i < k -> f i = x00) -> bigsum k f = bigsum n f.
Proof.
  intros Hle. induction k as [|k IH]; intros H.
  - now replace n with 0 by lia.
  - destruct (Nat.eq_dec n (S k)) as [->|Hne]; auto.
    simpl. rewrite H by lia. rewrite galAdd_0_r. apply IH; [lia|].
    intros i Hi. apply H. lia.
Qed.

(** ** Dot products *)

Lemma dot_nil_l v : dot [] v = x00.
Proof. reflexivity. Qed.

Lemma dot_nil_r u : dot u [] = x00.
Proof. now destruct u. Qed.

Lemma dot_cons a u b v :
  dot (a :: u) (b :: v) = galAdd (galMultiply a b) (dot u v).
Proof. reflexivity. Qed.

Lemma bigsum_shift n f :
  bigsum (S n) f = galAdd (f 0) (bigsum n (fun i => f (S i))).
Proof.
  induction n as [|n IH].
  - simpl. now rewrite galAdd_0_l, galAdd_0_r.
  - change (bigsum (S (S n)) f) with (galAdd (bigsum (S n) f) (f (S n))).
    rewrite IH. simpl. now rewrite galAdd_assoc.
Qed.

Lemma dot_bigsum u v n :
  Nat.min (length u) (length v) <= n ->
  dot u v = bigsum n (fun i => galMultiply (nth i u x00) (nth i v x00)).
Proof.
  revert v n. induction u as [|a u IH]; intros v n H.
  - rewrite dot_nil_l. symmetry. apply bigsum_zero. intros i _. now destruct i.
  - destruct v as [|b v].
    + rewrite dot_nil_r. symmetry. apply bigsum_zero. intros i _.
      destruct i; apply galMultiply_0_r.
    + simpl in H. destruct n as [|n]; [lia|].
      rewrite dot_cons, bigsum_shift. simpl. f_equal. apply IH. lia.
Qed.

Lemma dot_scale c u x : dot (vscale c u) x = galMultiply c (dot u x).
Proof.
  revert x. induction u as [|a u IH]; intros [|b x]; simpl;
    try (symmetry; apply galMultiply_0_r).
  fold (vscale c u). rewrite !dot_cons, IH, galMultiply_distr_l.
  now rewrite galMultiply_assoc.
Qed.

Lemma dot_vaddmul a s d x :
  length s = length d ->
  dot (vaddmul a s d) x = galAdd (dot d x) (galMultiply a (dot s x)).
Proof.
  revert d x. induction s as [|s0 s IH]; intros [|d0 d] x H; simpl in H; try lia.
  - simpl. rewrite dot_nil_l. now rewrite galMultiply_0_r, galAdd_0_r.
  - destruct x as [|x0 x].
    + rewrite !dot_nil_r. now rewrite galMultiply_0_r, galAdd_0_r.
    + unfold vaddmul. simpl. fold (vaddmul a s d). rewrite !dot_cons, IH by lia.
      rewrite galMultiply_distr_r, galMultiply_distr_l.
      rewrite <- (galMultiply_assoc a s0 x0).
      rewrite <- !galAdd_assoc. f_equal.
      rewrite !galAdd_assoc. f_equal. apply galAdd_comm.
Qed.

Lemma length_vscale c u : length (vscale c u) = length u.
Proof. apply length_map. Qed.

Lemma length_vaddmul a s d : length s = length d -> length (vaddmul a s d) = length d.
Proof. intros H. unfold vaddmul. rewrite length_map2. lia. Qed.

Lemma nth_vscale c u j : nth j (vscale c u) x00 = galMultiply c (nth j u x00).
Proof.
  unfold vscale. rewrite <- (galMultiply_0_r c) at 1. apply map_nth.
Qed.

Lemma nth_vaddmul a s d j :
  length s = length d ->
  nth j (vaddmul a s d) x00 = galAdd (nth j d x00) (galMultiply a (nth j s x00)).
Proof.
  intros H. destruct (Nat.lt_ge_cases j (length d)) as [Hj|Hj].
  - unfold vaddmul. now rewrite (nth_map2 _ _ _ _ x00 x00) by lia.
  - rewrite !nth_overflow by (rewrite ?length_vaddmul; lia).
    now rewrite galMultiply_0_r, galAdd_0_r.
Qed.

(** ** Rows, widths and kernels *)

Lemma in_kernel_nth mx x :
  in_kernel mx x <-> forall r, r < length mx -> dot (nth r mx []) x = x00.
Proof.
  unfold in_kernel. split.
  - intros H r Hr. apply H. now apply nth_In.
  - intros H row Hin. destruct (In_nth _ _ [] Hin) as [r [Hr <-]]. now apply H.
Qed.

Lemma width_nth w mx :
  width w mx <-> forall r, r < length mx -> length (nth r mx []) = w.
Proof.
  unfold width. split.
  - intros H r Hr. apply H. now apply nth_In.
  - intros H row Hin. destruct (In_nth _ _ [] Hin) as [r [Hr <-]]. now apply H.
Qed.

Lemma entry_overflow mx r c : length mx <= r -> entry mx r c = x00.
Proof.
  intros H. unfold entry. rewrite (nth_overflow mx) by assumption. now destruct c.
Qed.

(** ** Swapping rows *)

Lemma nth_SwapRows mx r1 r2 i :
  r1 < length mx -> r2 < length mx ->
  nth i (SwapRows mx r1 r2) []
  = if i =? r2 then nth r1 mx [] else if i =? r1 then nth r2 mx [] else nth i mx [].
Proof.
  intros H1 H2. unfold SwapRows. rewrite !nth_upd, !length_upd.
  apply Nat.ltb_lt in H1, H2. rewrite H1, H2, !andb_true_r. reflexivity.
Qed.

Lemma SwapRows_rows mx r1 r2 (P : list byte -> Prop) :
  r1 < length mx -> r2 < length mx ->
  (forall i, i < length (SwapRows mx r1 r2) -> P (nth i (SwapRows mx r1 r2) []))
  <-> (forall i, i < length mx -> P (nth i mx [])).
Proof.
  intros H1 H2. rewrite length_SwapRows. split; intros H i Hi.
  - destruct (Nat.eq_dec i r2) as [->|N2].
    + specialize (H r1 H1). rewrite nth_SwapRows in H by assumption.
      destruct (r1 =? r2) eqn:E.
      * apply Nat.eqb_eq in E. now subst.
      * now rewrite Nat.eqb_refl in H.
    + destruct (Nat.eq_dec i r1) as [->|N1].
      * specialize (H r2 H2). rewrite nth_SwapRows in H by assumption.
        now rewrite Nat.eqb_refl in H.
      * specialize (H i Hi). rewrite nth_SwapRows in H by assumption.
        apply Nat.eqb_neq in N1, N2. now rewrite N1, N2 in H.
  - rewrite nth_SwapRows by assumption.
    destruct (i =? r2); [now apply H|]. destruct (i =? r1); now apply H.
Qed.

(** ** Choosing the pivot *)

Lemma find_pivot_Some mx k r0 r :
  find_pivot mx k r0 = Some r ->
  r0 <= r < r0 + length mx /\ nth k (nth (r - r0) mx []) x00 <> x00.
Proof.
  revert r0. induction mx as [|row mx IH]; intros r0; simpl; [discriminate|].
  destruct (Byte.eqb (nth k row x00) x00) eqn:E.
  - intros H. destruct (IH _ H) as [H1 H2]. split; [lia|].
    replace (r - r0) with (S (r - S r0)) by lia. exact H2.
  - intros [= <-]. split; [lia|]. rewrite Nat.sub_diag. now apply byte_eqb_neq.
Qed.

Lemma find_pivot_None mx k r0 :
  find_pivot mx k r0 = None ->
  forall i, i < length mx -> nth k (nth i mx []) x00 = x00.
Proof.
  revert r0. induction mx as [|row mx IH]; intros r0; simpl; [intros; lia|].
  destruct (Byte.eqb (nth k row x00) x00) eqn:E; [|discriminate].
  intros H [|i] Hi.
  - now apply byte_eqb_eq.
  - apply (IH _ H). lia.
Qed.

Lemma choose_pivot_spec k mx :
  (choose_pivot k mx = mx
   /\ (entry mx k k <> x00 \/ forall r, k <= r -> entry mx r k = x00))
  \/ (exists r, k < r < length mx /\ entry mx r k <> x00
                /\ choose_pivot k mx = SwapRows mx k r).
Proof.
  unfold choose_pivot. destruct (Byte.eqb (entry mx k k) x00) eqn:E.
  - apply byte_eqb_eq in E.
    destruct (find_pivot (skipn (S k) mx) k (S k)) as [r|] eqn:F.
    + right. exists r. apply find_pivot_Some in F. destruct F as [H1 H2].
      rewrite length_skipn in H1. rewrite nth_skipn in H2.
      replace (S k + (r - S k)) with r in H2 by lia.
      repeat split; auto; lia.
    + left. split; auto. right. intros r Hr.
      destruct (Nat.eq_dec r k) as [->|Hne]; auto.
      destruct (Nat.lt_ge_cases r (length mx)) as [Hlt|Hge].
      * pose proof (find_pivot_None _ _ _ F (r - S k)) as H.
        rewrite length_skipn, nth_skipn in H.
        replace (S k + (r - S k)) with r in H by lia. apply H. lia.
      * now apply entry_overflow.
  - left. split; auto. left. now apply byte_eqb_neq.
Qed.

(** ** Elimination *)

Lemma nth_eliminate k mx r :
  r < length mx ->
  nth r (eliminate k mx) []
  = if r =? k then vscale (invTable (entry mx k k)) (nth k mx [])
    else if Byte.eqb (nth k (nth r mx []) x00) x00 then nth r mx []
         else vaddmul (nth k (nth r mx []) x00)
                      (vscale (invTable (entry mx k k)) (nth k mx [])) (nth r mx []).
Proof.
  intros H. unfold eliminate.
  now rewrite (nth_map_indexed
                 (fun r row =>
                    if r =? k then vscale (invTable (entry mx k k)) (nth k mx [])
                    else if Byte.eqb (nth k row x00) x00 then row
                         else vaddmul (nth k row x00)
                                (vscale (invTable (entry mx k k)) (nth k mx [])) row)
                 mx r [] [] H).
Qed.

Section Eliminate.

Variables (w k : nat) (mx : matrix).
Hypothesis Hw : width w mx.
Hypothesis Hk : k < length mx.
Hypothesis Hp : entry mx k k <> x00.

Let prow := vscale (invTable (entry mx k k)) (nth k mx []).

Lemma eliminate_prow_length : length prow = w.
Proof.
  unfold prow. rewrite length_vscale. now apply (proj1 (width_nth w mx)).
Qed.

Lemma width_eliminate : width w (eliminate k mx).
Proof.
  apply width_nth. intros r Hr. rewrite length_eliminate in Hr.
  rewrite nth_eliminate by assumption. fold prow.
  pose proof (proj1 (width_nth w mx) Hw r Hr) as Hrw.
  destruct (r =? k); [apply eliminate_prow_length|].
  destruct (Byte.eqb _ _); auto.
  rewrite length_vaddmul; auto. now rewrite eliminate_prow_length.
Qed.

Lemma dot_prow x : dot prow x = x00 <-> dot (nth k mx []) x = x00.
Proof.
  unfold prow. rewrite dot_scale. split; intros H.
  - apply galMultiply_eq_0 in H. destruct H as [H|H]; auto.
    now apply invTable_neq_0 in H.
  - rewrite H. apply galMultiply_0_r.
Qed.

Lemma eliminate_kernel x : in_kernel (eliminate k mx) x <-> in_kernel mx x.
Proof.
  rewrite !in_kernel_nth, length_eliminate. split; intros H.
  - assert (Hpk : dot prow x = x00).
    { specialize (H k Hk). rewrite nth_eliminate, Nat.eqb_refl in H by assumption.
      exact H. }
    intros r Hr. destruct (Nat.eq_dec r k) as [->|Hne]; [now apply dot_prow|].
    specialize (H r Hr). rewrite nth_eliminate in H by assumption. fold prow in H.
    apply Nat.eqb_neq in Hne. rewrite Hne in H.
    destruct (Byte.eqb _ _); auto.
    rewrite dot_vaddmul, Hpk, galMultiply_0_r, galAdd_0_r in H; auto.
    rewrite eliminate_prow_length. symmetry. now apply (proj1 (width_nth w mx)).
  - assert (Hpk : dot prow x = x00) by (apply dot_prow; now apply H).
    intros r Hr. rewrite nth_eliminate by assumption. fold prow.
    destruct (r =? k); auto.
    destruct (Byte.eqb _ _); auto.
    rewrite dot_vaddmul, Hpk, galMultiply_0_r, galAdd_0_r; auto.
    rewrite eliminate_prow_length. symmetry. now apply (proj1 (width_nth w mx)).
Qed.

Lemma eliminate_reduced : reduced k mx -> reduced (S k) (eliminate k mx).
Proof.
  intros Hred r j Hr Hj. rewrite length_eliminate in Hr.
  unfold entry. rewrite nth_eliminate by assumption. fold prow.
  assert (Hprow : forall c, nth c prow x00
                            = galMultiply (invTable (entry mx k k)) (entry mx k c)).
  { intros c. unfold prow. apply nth_vscale. }
  assert (Hpj : nth j prow x00 = delta k j).
  { rewrite Hprow. destruct (Nat.eq_dec j k) as [->|Hne].
    - unfold delta. rewrite Nat.eqb_refl, galMultiply_comm. now apply invTable_spec.
    - rewrite (Hred k j) by lia. unfold delta.
      replace (k =? j) with false by (symmetry; apply Nat.eqb_neq; lia).
      apply galMultiply_0_r. }
  destruct (r =? k) eqn:Erk.
  - apply Nat.eqb_eq in Erk. subst r. exact Hpj.
  - apply Nat.eqb_neq in Erk.
    assert (Hlen : length prow = length (nth r mx [])).
    { rewrite eliminate_prow_length. symmetry. now apply (proj1 (width_nth w mx)). }
    fold (entry mx r k).
    destruct (Nat.eq_dec j k) as [->|Hne].
    + unfold delta. replace (r =? k) with false by (symmetry; now apply Nat.eqb_neq).
      destruct (Byte.eqb (entry mx r k) x00) eqn:E.
      * now apply byte_eqb_eq in E.
      * rewrite nth_vaddmul by assumption. rewrite Hpj. unfold delta.
        rewrite Nat.eqb_refl, galMultiply_1_r. apply galAdd_self.
    + assert (Hrj : nth j (nth r mx []) x00 = delta r j) by (apply Hred; lia).
      destruct (Byte.eqb (entry mx r k) x00); auto.
      rewrite nth_vaddmul by assumption. rewrite Hpj, Hrj. unfold delta at 2.
      replace (k =? j) with false by (symmetry; apply Nat.eqb_neq; lia).
      now rewrite galMultiply_0_r, galAdd_0_r.
Qed.

End Eliminate.

(** ** The invariant of the elimination loop *)

Lemma choose_pivot_inv w n k orig cur :
  ge_inv w n k orig cur -> ge_inv w n k orig (choose_pivot k cur).
Proof.
  intros [Hl Hw Hr Hk].
  destruct (choose_pivot_spec k cur) as [[E _]|[r [Hr1 [Hr2 E]]]]; rewrite E.
  - now constructor.
  - assert (Hkl : k < length cur) by lia. assert (Hrl : r < length cur) by lia.
    constructor.
    + now rewrite length_SwapRows.
    + apply width_nth. apply (SwapRows_rows cur k r (fun row => length row = w)); auto.
      now apply width_nth.
    + intros i j Hi Hj. rewrite length_SwapRows in Hi. unfold entry.
      rewrite nth_SwapRows by assumption.
      destruct (i =? r) eqn:E1.
      * apply Nat.eqb_eq in E1. subst i. fold (entry cur k j). rewrite Hr by lia.
        unfold delta.
        replace (k =? j) with false by (symmetry; apply Nat.eqb_neq; lia).
        replace (r =? j) with false by (symmetry; apply Nat.eqb_neq; lia).
        reflexivity.
      * destruct (i =? k) eqn:E2.
        -- apply Nat.eqb_eq in E2. subst i. fold (entry cur r j). rewrite Hr by lia.
           unfold delta.
           replace (k =? j) with false by (symmetry; apply Nat.eqb_neq; lia).
           replace (r =? j) with false by (symmetry; apply Nat.eqb_neq; lia).
           reflexivity.
        -- now apply Hr.
    + intros x. rewrite <- Hk. rewrite !in_kernel_nth.
      apply (SwapRows_rows cur k r (fun row => dot row x = x00)); auto.
Qed.

Lemma pivot_step_success w n k orig cur cur' :
  ge_inv w n k orig cur ->
  pivot_step k cur = Success cur' ->
  ge_inv w n (S k) orig cur'.
Proof.
  intros Hinv. unfold pivot_step.
  pose proof (choose_pivot_inv w n k orig cur Hinv) as [Hl Hw Hr Hk].
  destruct (Byte.eqb (entry (choose_pivot k cur) k k) x00) eqn:E; [discriminate|].
  apply byte_eqb_neq in E. intros [= <-].
  assert (Hkl : k < length (choose_pivot k cur)).
  { destruct (Nat.lt_ge_cases k (length (choose_pivot k cur))); auto.
    exfalso. apply E. now apply entry_overflow. }
  constructor.
  - now rewrite length_eliminate.
  - now apply width_eliminate.
  - now apply (eliminate_reduced w).
  - intros x. rewrite <- Hk. now apply (eliminate_kernel w).
Qed.

(** The kernel vector that a zero pivot column gives. *)
Lemma pivot_step_failure w n k orig cur e :
  ge_inv w n k orig cur ->
  pivot_step k cur = Failure e ->
  k < w ->
  exists x, length x = w /\ nth k x x00 = x01
            /\ (forall j, k < j -> nth j x x00 = x00)
            /\ in_kernel orig x.
Proof.
  intros [Hl Hw Hr Hk] Hf Hkw. unfold pivot_step in Hf.
  destruct (Byte.eqb (entry (choose_pivot k cur) k k) x00) eqn:E; [|discriminate].
  apply byte_eqb_eq in E.
  destruct (choose_pivot_spec k cur) as [[Ec Hz]|[r [Hr1 [Hr2 Ec]]]].
  2:{ exfalso. rewrite Ec in E. unfold entry in E.
      rewrite nth_SwapRows in E by lia.
      replace (k =? r) with false in E by (symmetry; apply Nat.eqb_neq; lia).
      rewrite Nat.eqb_refl in E. contradiction. }
  rewrite Ec in E. destruct Hz as [Hz|Hz]; [contradiction|].
  set (x := map (fun j => if j <? k then entry cur j k
                          else if j =? k then x01 else x00) (seq 0 w)).
  assert (Hx : forall j, nth j x x00
                         = if j <? w then (if j <? k then entry cur j k
                                           else if j =? k then x01 else x00)
                           else x00).
  { intros j. unfold x. destruct (j <? w) eqn:Ej.
    - apply Nat.ltb_lt in Ej. now rewrite nth_map_seq by assumption.
    - apply Nat.ltb_ge in Ej. apply nth_overflow. rewrite length_map, length_seq. lia. }
  exists x. split; [unfold x; now rewrite length_map, length_seq|].
  split; [|split].
  - rewrite Hx. replace (k <? w) with true by (symmetry; apply Nat.ltb_lt; lia).
    now rewrite Nat.ltb_irrefl, Nat.eqb_refl.
  - intros j Hj. rewrite Hx. destruct (j <? w); auto.
    replace (j <? k) with false by (symmetry; apply Nat.ltb_ge; lia).
    replace (j =? k) with false by (symmetry; apply Nat.eqb_neq; lia).
    reflexivity.
  - apply Hk. apply in_kernel_nth. intros r Hrl.
    rewrite (dot_bigsum _ _ w) by
      (rewrite (proj1 (width_nth w cur) Hw r Hrl); lia).
    rewrite (bigsum_more (S k)); [|lia|].
    2:{ intros j Hj. rewrite Hx.
        replace (j <? w) with true by (symmetry; apply Nat.ltb_lt; lia).
        replace (j <? k) with false by (symmetry; apply Nat.ltb_ge; lia).
        replace (j =? k) with false by (symmetry; apply Nat.eqb_neq; lia).
        apply galMultiply_0_r. }
    simpl. rewrite Hx.
    replace (k <? w) with true by (symmetry; apply Nat.ltb_lt; lia).
    rewrite Nat.ltb_irrefl, Nat.eqb_refl, galMultiply_1_r.
    fold (entry cur r k).
    rewrite (bigsum_ext k _ (fun j => galMultiply (delta r j) (entry cur j k))).
    2:{ intros j Hj. rewrite Hx.
        replace (j <? w) with true by (symmetry; apply Nat.ltb_lt; lia).
        replace (j <? k) with true by (symmetry; apply Nat.ltb_lt; lia).
        fold (entry cur r j). now rewrite Hr by lia. }
    destruct (Nat.lt_ge_cases r k) as [Hlt|Hge].
    + rewrite bigsum_delta_l by assumption. apply galAdd_self.
    + rewrite bigsum_zero.
      * rewrite galAdd_0_l. now apply Hz.
      * intros j Hj. unfold delta.
        replace (r =? j) with false by (symmetry; apply Nat.eqb_neq; lia).
        reflexivity.
Qed.

Lemma gaussianElimination_spec w n orig count k cur :
  ge_inv w n k orig cur ->
  k + count <= w ->
  match gaussianElimination k count cur with
  | Success cur' => ge_inv w n (k + count) orig cur'
  | Failure _ =>
      exists k' x, k <= k' < k + count /\ length x = w /\ nth k' x x00 = x01
                   /\ (forall j, k' < j -> nth j x x00 = x00)
                   /\ in_kernel orig x
  end.
Proof.
  revert k cur. induction count as [|count IH]; intros k cur Hinv Hle; simpl.
  - now rewrite Nat.add_0_r.
  - destruct (pivot_step k cur) as [cur'|e] eqn:E.
    + pose proof (pivot_step_success w n k orig cur cur' Hinv E) as Hinv'.
      specialize (IH (S k) cur' Hinv').
      destruct (gaussianElimination (S k) count cur').
      * replace (k + S count) with (S k + count) by lia. apply IH. lia.
      * destruct IH as [k' [x [H1 H2]]]; [lia|]. exists k', x. split; [lia | exact H2].
    + destruct (pivot_step_failure w n k orig cur e Hinv E) as [x Hx]; [lia|].
      exists k, x. split; [lia | exact Hx].
Qed.

(** ** The augmented matrix *)

Lemma nth_identityMatrix n r :
  r < n -> nth r (identityMatrix n) [] = map (fun c => delta r c) (seq 0 n).
Proof. intros H. unfold identityMatrix. now rewrite nth_map_seq by assumption. Qed.

Lemma entry_identityMatrix n r c :
  r < n -> c < n -> entry (identityMatrix n) r c = delta r c.
Proof.
  intros Hr Hc. unfold entry. rewrite nth_identityMatrix by assumption.
  now rewrite nth_map_seq by assumption.
Qed.

Lemma width_identityMatrix n : width n (identityMatrix n).
Proof.
  apply width_nth. intros r Hr. rewrite length_identityMatrix in Hr.
  rewrite nth_identityMatrix by assumption. now rewrite length_map, length_seq.
Qed.

Lemma nth_Augment a b r :
  r < length a -> r < length b ->
  nth r (Augment a b) [] = nth r a [] ++ nth r b [].
Proof. intros Ha Hb. unfold Augment. now apply nth_map2. Qed.

Lemma dot_app a b u v :
  length a = length u ->
  dot (a ++ b) (u ++ v) = galAdd (dot a u) (dot b v).
Proof.
  revert u. induction a as [|a0 a IH]; intros [|u0 u] H; simpl in H; try lia.
  - simpl. now rewrite dot_nil_l, galAdd_0_l.
  - simpl. rewrite !dot_cons, IH by lia. apply galAdd_assoc.
Qed.

Lemma dot_zero_r u v : zero_vector v -> dot u v = x00.
Proof.
  intros H. rewrite (dot_bigsum u v (length u)) by lia.
  apply bigsum_zero. intros i _. rewrite H. apply galMultiply_0_r.
Qed.

Lemma dot_unit_l n r v :
  r < n -> dot (map (fun c => delta r c) (seq 0 n)) v = nth r v x00.
Proof.
  intros H. rewrite (dot_bigsum _ v n) by (rewrite length_map, length_seq; lia).
  rewrite (bigsum_ext n _ (fun i => galMultiply (delta r i) (nth i v x00))).
  - now apply bigsum_delta_l.
  - intros i Hi. now rewrite nth_map_seq by assumption.
Qed.

Lemma dot_unit_r n r u :
  r < n -> length u <= n -> dot u (map (fun c => delta c r) (seq 0 n)) = nth r u x00.
Proof.
  intros H Hu. rewrite (dot_bigsum u _ n) by lia.
  rewrite (bigsum_ext n _ (fun i => galMultiply (nth i u x00) (delta i r))).
  - now apply bigsum_delta_r.
  - intros i Hi. now rewrite nth_map_seq by assumption.
Qed.

Lemma nth_column mx j k : nth k (column mx j) x00 = entry mx k j.
Proof.
  unfold column, entry. revert k. induction mx as [|row mx IH]; intros [|k]; simpl; auto.
  - now destruct j.
  - now destruct j.
Qed.

Lemma dot_column u mx j n :
  length mx = n ->
  dot u (column mx j) = bigsum n (fun k => galMultiply (nth k u x00) (entry mx k j)).
Proof.
  intros H. rewrite (dot_bigsum u (column mx j) n)
    by (unfold column; rewrite length_map; lia).
  apply bigsum_ext. intros k Hk. f_equal. apply nth_column.
Qed.

Section Inversion.

Variables (n : nat) (a : matrix).
Hypothesis Hlen : length a = n.
Hypothesis Hwidth : width n a.

Let aug := Augment a (identityMatrix n).

Lemma aug_nth r : r < n -> nth r aug [] = nth r a [] ++ map (fun c => delta r c) (seq 0 n).
Proof.
  intros H. unfold aug. rewrite nth_Augment by (rewrite ?length_identityMatrix; lia).
  now rewrite nth_identityMatrix by assumption.
Qed.

Lemma aug_length : length aug = n.
Proof. unfold aug, Augment. rewrite length_map2, length_identityMatrix. lia. Qed.

Lemma aug_inv : ge_inv (n + n) n 0 aug aug.
Proof.
  constructor.
  - apply aug_length.
  - apply width_nth. intros r Hr. rewrite aug_length in Hr.
    rewrite aug_nth, length_app, length_map, length_seq by assumption.
    f_equal. apply (proj1 (width_nth n a) Hwidth). lia.
  - intros r j _ Hj. lia.
  - tauto.
Qed.

(** The dot product of a row of [[a | I]] with [u ++ v]. *)
Lemma aug_dot r u v :
  r < n -> length u = n ->
  dot (nth r aug []) (u ++ v) = galAdd (dot (nth r a []) u) (nth r v x00).
Proof.
  intros Hr Hu. rewrite aug_nth by assumption.
  rewrite dot_app by (rewrite Hu; apply (proj1 (width_nth n a) Hwidth); lia).
  now rewrite dot_unit_l by assumption.
Qed.

Lemma IsSquare_a : IsSquare a = true.
Proof.
  unfold IsSquare, rows, cols. apply Nat.eqb_eq. rewrite Hlen.
  destruct a as [|row rest] eqn:E; [simpl in *; lia|]. simpl. symmetry.
  apply Hwidth. now left.
Qed.

Section Reduced.

Variable work : matrix.
Hypothesis Hwork : ge_inv (n + n) n n aug work.

Let b := SubMatrix work 0 n n (n * 2).

Lemma work_row_length r : r < n -> length (nth r work []) = n + n.
Proof.
  intros Hr. apply (proj1 (width_nth (n + n) work) (ge_width Hwork)).
  now rewrite (ge_length Hwork).
Qed.

Lemma b_nth r : r < n -> nth r b [] = skipn n (nth r work []).
Proof.
  intros Hr. unfold b, SubMatrix. simpl skipn. rewrite Nat.sub_0_r.
  rewrite firstn_all2 by (rewrite (ge_length Hwork); lia).
  rewrite (nth_indep _ [] (firstn (n * 2 - n) (skipn n [])))
    by (rewrite length_map, (ge_length Hwork); lia).
  rewrite (map_nth (fun row => firstn (n * 2 - n) (skipn n row))). apply firstn_all2.
  rewrite length_skipn, work_row_length by assumption. lia.
Qed.

Lemma b_length : length b = n.
Proof.
  unfold b, SubMatrix. simpl skipn. rewrite length_map, length_firstn.
  rewrite (ge_length Hwork). lia.
Qed.

Lemma b_width : width n b.
Proof.
  apply width_nth. intros r Hr. rewrite b_length in Hr.
  rewrite b_nth, length_skipn, work_row_length by assumption. lia.
Qed.

Lemma work_left r : r < n -> firstn n (nth r work []) = map (fun c => delta r c) (seq 0 n).
Proof.
  intros Hr. apply (nth_ext_lt _ _ x00).
  - rewrite length_firstn, work_row_length, length_map, length_seq by assumption. lia.
  - intros j Hj. rewrite length_firstn, work_row_length in Hj by assumption.
    rewrite nth_firstn. replace (j <? n) with true by (symmetry; apply Nat.ltb_lt; lia).
    rewrite nth_map_seq by lia.
    apply (ge_reduced Hwork); [rewrite (ge_length Hwork)|]; lia.
Qed.

(** The dot product of a row of [[I | b]] with [u ++ v]. *)
Lemma work_dot r u v :
  r < n -> length u = n ->
  dot (nth r work []) (u ++ v) = galAdd (nth r u x00) (dot (nth r b []) v).
Proof.
  intros Hr Hu. rewrite <- (firstn_skipn n (nth r work [])) at 1.
  rewrite dot_app by (rewrite length_firstn, work_row_length by assumption; lia).
  rewrite work_left, dot_unit_l, b_nth by assumption. reflexivity.
Qed.

Lemma work_kernel u v :
  length u = n ->
  (forall r, r < n -> galAdd (nth r u x00) (dot (nth r b []) v) = x00)
  <-> (forall r, r < n -> galAdd (dot (nth r a []) u) (nth r v x00) = x00).
Proof.
  intros Hu.
  pose proof (ge_kernel Hwork (u ++ v)) as Hk.
  rewrite !in_kernel_nth, (ge_length Hwork), aug_length in Hk.
  split; intros H r Hr.
  - rewrite <- aug_dot by assumption. apply Hk; auto.
    intros i Hi. rewrite work_dot by assumption. now apply H.
  - rewrite <- work_dot by assumption. apply Hk; auto.
    intros i Hi. rewrite aug_dot by assumption. now apply H.
Qed.

Lemma b_left_inverse : inverse_of n b a.
Proof.
  intros i j Hi Hj.
  pose proof (work_kernel (map (fun c => delta c j) (seq 0 n)) (column a j)) as Hk.
  rewrite length_map, length_seq in Hk. specialize (Hk eq_refl).
  destruct Hk as [_ Hk].
  assert (H : forall r, r < n ->
                galAdd (nth r (map (fun c => delta c j) (seq 0 n)) x00)
                       (dot (nth r b []) (column a j)) = x00).
  { apply Hk. intros r Hr.
    rewrite dot_unit_r by (auto; rewrite (proj1 (width_nth n a) Hwidth); lia).
    rewrite nth_column. apply galAdd_self. }
  specialize (H i Hi). rewrite nth_map_seq in H by assumption.
  apply -> galAdd_eq_0 in H. rewrite (dot_column _ a j n Hlen) in H.
  symmetry. exact H.
Qed.

Lemma b_right_inverse : inverse_of n a b.
Proof.
  intros i j Hi Hj.
  pose proof (work_kernel (column b j) (map (fun c => delta c j) (seq 0 n))) as Hk.
  assert (Hcl : length (column b j) = n) by (unfold column; now rewrite length_map, b_length).
  specialize (Hk Hcl). destruct Hk as [Hk _].
  assert (H : forall r, r < n ->
                galAdd (dot (nth r a []) (column b j))
                       (nth r (map (fun c => delta c j) (seq 0 n)) x00) = x00).
  { apply Hk. intros r Hr.
    rewrite dot_unit_r by (auto; rewrite (proj1 (width_nth n b) b_width); rewrite ?b_length; lia).
    rewrite nth_column. apply galAdd_self. }
  specialize (H i Hi). rewrite nth_map_seq in H by assumption.
  apply -> galAdd_eq_0 in H. rewrite (dot_column _ b j n b_length) in H.
  exact H.
Qed.

End Reduced.

Theorem Invert_success b :
  Invert a = Success b ->
  length b = n /\ width n b /\ inverse_of n b a /\ inverse_of n a b.
Proof.
  unfold Invert. rewrite IsSquare_a. simpl. unfold rows. rewrite Hlen. fold aug.
  pose proof (gaussianElimination_spec (n + n) n aug n 0 aug aug_inv) as Hspec.
  destruct (gaussianElimination 0 n aug) as [work|]; [|discriminate].
  intros [= <-]. simpl in Hspec. specialize (Hspec (Nat.le_add_r n n)).
  repeat split.
  - now apply b_length.
  - now apply b_width.
  - now apply b_left_inverse.
  - now apply b_right_inverse.
Qed.

Theorem Invert_failure e :
  Invert a = Failure e ->
  exists x, length x = n /\ in_kernel a x /\ ~ zero_vector x.
Proof.
  unfold Invert. rewrite IsSquare_a. simpl. unfold rows. rewrite Hlen. fold aug.
  pose proof (gaussianElimination_spec (n + n) n aug n 0 aug aug_inv) as Hspec.
  destruct (gaussianElimination 0 n aug) as [work|]; [discriminate|].
  intros _. destruct Hspec as [k [x [Hk [Hx [H1 [H0 Hker]]]]]]; [lia|].
  simpl in Hk.
  exists (firstn n x). split; [rewrite length_firstn; lia|]. split.
  - apply in_kernel_nth. intros r Hr. rewrite Hlen in Hr.
    rewrite in_kernel_nth, aug_length in Hker. specialize (Hker r Hr).
    rewrite <- (firstn_skipn n x) in Hker.
    rewrite aug_dot in Hker by (auto; rewrite length_firstn; lia).
    rewrite nth_skipn, H0, galAdd_0_r in Hker by lia. exact Hker.
  - intros Hz. specialize (Hz k). rewrite nth_firstn in Hz.
    replace (k <? n) with true in Hz by (symmetry; apply Nat.ltb_lt; lia).
    rewrite H1 in Hz. discriminate.
Qed.

Corollary Invert_independent :
  independent n a -> exists b, Invert a = Success b.
Proof.
  intros Hind. destruct (Invert a) as [b|e] eqn:E; [eauto|].
  destruct (Invert_failure e E) as [x [Hx [Hk Hnz]]].
  exfalso. apply Hnz. now apply Hind.
Qed.

End Inversion.

(** ** GF(2^8) as a semiring for [ring] *)

Lemma byte_semi_ring : semi_ring_theory x00 x01 galAdd galMultiply eq.
Proof.
  constructor.
  - apply galAdd_0_l.
  - apply galAdd_comm.
  - apply galAdd_assoc.
  - apply galMultiply_1_l.
  - apply galMultiply_0_l.
  - apply galMultiply_comm.
  - apply galMultiply_assoc.
  - apply galMultiply_distr_r.
Qed.

Add Ring byte_ring : byte_semi_ring.

(** ** Polynomials and their roots *)

Lemma peval_pdiv p r x :
  peval p x = galAdd (galMultiply (galAdd x r) (peval (pdiv p r) x)) (peval p r).
Proof.
  induction p as [|a p IH]; simpl.
  - ring.
  - destruct p as [|b p].
    + simpl. ring.
    + set (q := b :: p) in *. rewrite IH.
      change (peval (peval q r :: pdiv q r) x)
        with (galAdd (peval q r) (galMultiply x (peval (pdiv q r) x))).
      set (s := peval q r). set (Q := peval (pdiv q r) x).
      transitivity (galAdd (galAdd a (galMultiply x (galAdd (galMultiply (galAdd x r) Q) s)))
                           (galAdd (galMultiply r s) (galMultiply r s))).
      * rewrite galAdd_self. ring.
      * ring.
Qed.

Lemma length_pdiv p r : length (pdiv p r) = length p - 1.
Proof.
  induction p as [|a p IH]; simpl; auto.
  destruct p as [|b p]; simpl in *; auto. rewrite IH. lia.
Qed.

Lemma pdiv_zero p r :
  zero_vector (pdiv p r) -> peval p r = x00 -> zero_vector p.
Proof.
  induction p as [|a p IH]; intros Hq Hr i.
  - now destruct i.
  - destruct p as [|b p].
    + simpl in Hr. rewrite galMultiply_0_r, galAdd_0_r in Hr. subst.
      destruct i as [|[|i]]; reflexivity.
    + set (q := b :: p) in *.
      change (pdiv (a :: q) r) with (peval q r :: pdiv q r) in Hq.
      assert (Hs : peval q r = x00) by (exact (Hq 0)).
      assert (Hq' : zero_vector (pdiv q r)) by (intros j; exact (Hq (S j))).
      pose proof (IH Hq' Hs) as Hz.
      change (peval (a :: q) r) with (galAdd a (galMultiply r (peval q r))) in Hr.
      rewrite Hs, galMultiply_0_r, galAdd_0_r in Hr. subst a.
      destruct i as [|i]; [reflexivity | apply Hz].
Qed.

(** A polynomial with more distinct roots than coefficients is zero. *)
Lemma poly_roots xs : forall p,
  NoDup xs -> length p <= length xs ->
  (forall x, In x xs -> peval p x = x00) ->
  zero_vector p.
Proof.
  induction xs as [|r xs IH]; intros p Hnd Hlen Hroots.
  - destruct p; [|simpl in Hlen; lia]. intros i. now destruct i.
  - inversion Hnd as [|? ? Hnotin Hnd']; subst.
    apply (pdiv_zero p r).
    + apply IH; auto.
      * rewrite length_pdiv. simpl in Hlen. lia.
      * intros x Hx.
        pose proof (peval_pdiv p r x) as E.
        rewrite (Hroots x), (Hroots r) in E by (simpl; auto).
        rewrite galAdd_0_r in E. symmetry in E.
        apply galMultiply_eq_0 in E. destruct E as [E|E]; auto.
        apply -> galAdd_eq_0 in E. subst. contradiction.
    + apply Hroots. now left.
Qed.

(** ** Vandermonde rows *)

Lemma dot_powers b k a :
  dot (map (fun c => galExp b (k + c)) (seq 0 (length a))) a
  = galMultiply (galExp b k) (peval a b).
Proof.
  revert k. induction a as [|a0 a IH]; intros k.
  - simpl. rewrite dot_nil_l. ring.
  - simpl length. rewrite <- cons_seq, <- seq_shift. simpl map. rewrite map_map.
    rewrite dot_cons, Nat.add_0_r.
    rewrite (map_ext _ (fun c => galExp b (S k + c))) by (intros c; f_equal; lia).
    rewrite IH. simpl peval. rewrite galExp_S. ring.
Qed.

Lemma dot_vandermonde_row total n r a :
  r < total -> length a = n ->
  dot (nth r (vandermonde total n) []) a = peval a (byte_of_nat r).
Proof.
  intros Hr Ha. unfold vandermonde. rewrite nth_map_seq by assumption.
  subst n. pose proof (dot_powers (byte_of_nat r) 0 a) as E.
  cbn [Nat.add] in E. rewrite E, galExp_0. ring.
Qed.

Lemma byte_of_nat_inj i j :
  i < 256 -> j < 256 -> byte_of_nat i = byte_of_nat j -> i = j.
Proof.
  intros Hi Hj H.
  assert (E : forall k, k < 256 -> nat_of_byte (byte_of_nat k) = k).
  { intros k Hk. unfold nat_of_byte, byte_of_nat, byte_of_N.
    rewrite N.mod_small by lia.
    destruct (Byte.of_N (N.of_nat k)) as [b|] eqn:Eb.
    - apply Byte.to_of_N in Eb. rewrite Eb. lia.
    - apply Byte.of_N_None_iff in Eb. lia. }
  rewrite <- (E i Hi), <- (E j Hj). now rewrite H.
Qed.

Lemma NoDup_map_byte_of_nat idx :
  NoDup idx -> (forall i, In i idx -> i < 256) -> NoDup (map byte_of_nat idx).
Proof.
  induction 1 as [|i idx Hnotin Hnd IH]; intros Hlt; simpl; constructor.
  - intros Hin. apply in_map_iff in Hin. destruct Hin as [j [Hj Hin]].
    apply byte_of_nat_inj in Hj; [subst; contradiction| |]; apply Hlt; simpl; auto.
  - apply IH. intros j Hj. apply Hlt. now right.
Qed.

Lemma select_rows_In mx idx row :
  In row (select_rows mx idx) <-> exists i, In i idx /\ row = nth i mx [].
Proof.
  unfold select_rows. rewrite in_map_iff. split; intros [i [H1 H2]]; eauto.
Qed.

(** Any [n] distinct rows of the Vandermonde matrix are independent. *)
Lemma vandermonde_independent total n idx :
  total <= 256 -> NoDup idx -> length idx = n ->
  (forall i, In i idx -> i < total) ->
  independent n (select_rows (vandermonde total n) idx).
Proof.
  intros Ht Hnd Hlen Hlt a Ha Hker.
  apply (poly_roots (map byte_of_nat idx)).
  - apply NoDup_map_byte_of_nat; auto. intros i Hi. specialize (Hlt i Hi). lia.
  - rewrite length_map. lia.
  - intros x Hx. apply in_map_iff in Hx. destruct Hx as [i [<- Hi]].
    rewrite <- (dot_vandermonde_row total n i a) by auto.
    apply Hker. apply select_rows_In. eauto.
Qed.

(** ** Products *)

Lemma cols_width n mx : 0 < length mx -> width n mx -> cols mx = n.
Proof.
  intros Hl Hw. unfold cols. destruct mx as [|row mx]; [simpl in Hl; lia|].
  simpl. apply Hw. now left.
Qed.

Lemma nth_mat_vec b x k : nth k (mat_vec b x) x00 = dot (nth k b []) x.
Proof.
  unfold mat_vec. revert k. induction b as [|row b IH]; intros [|k]; simpl; auto.
Qed.

Lemma length_mat_vec b x : length (mat_vec b x) = length b.
Proof. apply length_map. Qed.

Lemma nth_row_mul row b c :
  c < cols b -> nth c (row_mul row b) x00 = dot row (column b c).
Proof. intros H. unfold row_mul. now rewrite nth_map_seq by assumption. Qed.

Lemma length_row_mul row b : length (row_mul row b) = cols b.
Proof. unfold row_mul. now rewrite length_map, length_seq. Qed.

(** Associativity: [(row * b) . x = row . (b * x)]. *)
Lemma dot_row_mul n row b x :
  length b = n -> width n b -> 0 < n -> length row = n -> length x = n ->
  dot (row_mul row b) x = dot row (mat_vec b x).
Proof.
  intros Hb Hw Hn Hr Hx.
  assert (Hc : cols b = n) by (apply cols_width; auto; lia).
  rewrite (dot_bigsum _ x n) by (rewrite length_row_mul; lia).
  rewrite (dot_bigsum row _ n) by lia.
  rewrite (bigsum_ext n _
             (fun c => bigsum n (fun k =>
                galMultiply (galMultiply (nth k row x00) (entry b k c)) (nth c x x00)))).
  2:{ intros c Hcn. rewrite nth_row_mul by lia.
      rewrite (dot_column _ b c n Hb). apply bigsum_scale_r. }
  rewrite bigsum_exchange. apply bigsum_ext. intros k Hk.
  rewrite nth_mat_vec.
  rewrite (dot_bigsum _ x n) by (rewrite (proj1 (width_nth n b) Hw); lia).
  rewrite bigsum_scale. apply bigsum_ext. intros c Hcn.
  unfold entry. ring.
Qed.

Lemma Multiply_Success a b :
  cols a = rows b -> Multiply a b = Success (map (fun row => row_mul row b) a).
Proof. intros H. unfold Multiply, Multiply_dim. apply Nat.eqb_eq in H. now rewrite H. Qed.

(** A vector is zero when a right-invertible matrix sends it to zero. *)
Lemma inverse_kernel n a b x :
  inverse_of n a b -> length b = n -> width n b -> length x = n ->
  zero_vector (mat_vec b x) -> zero_vector x.
Proof.
  intros Hinv Hb Hw Hx Hz i.
  destruct (Nat.lt_ge_cases i n) as [Hi|Hi]; [|apply nth_overflow; lia].
  rewrite <- (bigsum_delta_l n i (fun c => nth c x x00) Hi).
  rewrite (bigsum_ext n _
             (fun c => bigsum n (fun k =>
                galMultiply (entry a i k)
                            (galMultiply (entry b k c) (nth c x x00))))).
  2:{ intros c Hc. rewrite <- (Hinv i c Hi Hc). rewrite bigsum_scale_r.
      apply bigsum_ext. intros k _. ring. }
  rewrite bigsum_exchange. apply bigsum_zero. intros k Hk.
  rewrite <- bigsum_scale. unfold entry.
  rewrite <- (dot_bigsum (nth k b []) x n)
    by (rewrite (proj1 (width_nth n b) Hw); lia).
  rewrite <- nth_mat_vec, Hz. ring.
Qed.

(** ** The default matrix *)

Lemma length_vandermonde total n : length (vandermonde total n) = total.
Proof. unfold vandermonde. now rewrite length_map, length_seq. Qed.

Lemma width_vandermonde total n : width n (vandermonde total n).
Proof.
  apply width_nth. intros r Hr. rewrite length_vandermonde in Hr.
  unfold vandermonde. rewrite nth_map_seq by assumption.
  now rewrite length_map, length_seq.
Qed.

Lemma In_firstn {A} n (l : list A) x : In x (firstn n l) -> In x l.
Proof.
  intros H. rewrite <- (firstn_skipn n l). apply in_or_app. now left.
Qed.

Lemma SubMatrix_top mx n total :
  length mx = total -> n <= total -> width n mx ->
  SubMatrix mx 0 0 n n = firstn n mx.
Proof.
  intros Hl Hn Hw. unfold SubMatrix. simpl skipn. rewrite Nat.sub_0_r.
  rewrite <- (map_id (firstn n mx)) at 2. apply map_ext_in.
  intros row Hin. apply firstn_all2. rewrite (Hw row); auto.
  now apply (In_firstn n).
Qed.

Section DefaultMatrix.

Variables (n total : nat) (mx : matrix).
Hypothesis Hn : 0 < n.
Hypothesis Hnt : n <= total.
Hypothesis Ht : total <= 256.
Hypothesis Hbuild : buildMatrix n total = Success mx.

Let vm := vandermonde total n.
Let top := firstn n vm.

Lemma top_length : length top = n.
Proof. unfold top. rewrite length_firstn. unfold vm. rewrite length_vandermonde. lia. Qed.

Lemma top_width : width n top.
Proof.
  intros row Hin. apply (width_vandermonde total n). now apply (In_firstn n).
Qed.

Lemma top_entry i k : i < n -> entry top i k = entry vm i k.
Proof.
  intros Hi. unfold entry, top. rewrite nth_firstn.
  apply Nat.ltb_lt in Hi. now rewrite Hi.
Qed.

Lemma buildMatrix_inv :
  exists b, Invert top = Success b /\ mx = map (fun row => row_mul row b) vm.
Proof.
  unfold buildMatrix in Hbuild.
  rewrite (SubMatrix_top _ n total) in Hbuild
    by (auto using length_vandermonde, width_vandermonde).
  fold vm in Hbuild. fold top in Hbuild.
  destruct (Invert top) as [b|] eqn:E; [|discriminate].
  exists b. split; auto.
  destruct (Invert_success n top top_length top_width b E) as [Hbl [Hbw _]].
  rewrite Multiply_Success in Hbuild.
  - now injection Hbuild as <-.
  - rewrite (cols_width n vm); auto.
    + unfold vm. rewrite length_vandermonde. lia.
    + apply width_vandermonde.
Qed.

Lemma buildMatrix_length : length mx = total.
Proof.
  destruct buildMatrix_inv as [b [_ ->]]. rewrite length_map. apply length_vandermonde.
Qed.

Lemma buildMatrix_width : width n mx.
Proof.
  destruct buildMatrix_inv as [b [E ->]].
  destruct (Invert_success n top top_length top_width b E) as [Hbl [Hbw _]].
  intros row Hin. apply in_map_iff in Hin. destruct Hin as [v [<- _]].
  rewrite length_row_mul. apply cols_width; auto. lia.
Qed.

Lemma buildMatrix_row b r :
  mx = map (fun row => row_mul row b) vm -> r < total ->
  nth r mx [] = row_mul (nth r vm []) b.
Proof.
  intros -> Hr.
  rewrite (nth_indep _ [] (row_mul [] b))
    by (rewrite length_map; unfold vm; rewrite length_vandermonde; lia).
  now rewrite (map_nth (fun row => row_mul row b)).
Qed.

Lemma buildMatrix_systematic : systematic n mx.
Proof.
  destruct buildMatrix_inv as [b [E Hmx]].
  destruct (Invert_success n top top_length top_width b E) as [Hbl [Hbw [_ Hr]]].
  intros i j Hi Hj. unfold entry. rewrite (buildMatrix_row b i Hmx) by lia.
  rewrite nth_row_mul by (rewrite (cols_width n b); auto; lia).
  rewrite (dot_column _ b j n Hbl). rewrite <- (Hr i j Hi Hj).
  apply bigsum_ext. intros k Hk. f_equal. now rewrite top_entry.
Qed.

Lemma buildMatrix_mds : mds n total mx.
Proof.
  destruct buildMatrix_inv as [b [E Hmx]].
  destruct (Invert_success n top top_length top_width b E) as [Hbl [Hbw [_ Hr]]].
  intros idx Hnd Hlen Hlt x Hx Hker.
  apply (inverse_kernel n top b x Hr Hbl Hbw Hx).
  apply (vandermonde_independent total n idx Ht Hnd Hlen Hlt).
  - now rewrite length_mat_vec.
  - intros row Hin. apply select_rows_In in Hin. destruct Hin as [i [Hi ->]].
    fold vm. rewrite <- (dot_row_mul n _ b x); auto.
    + rewrite <- (buildMatrix_row b i Hmx) by auto.
      apply Hker. apply select_rows_In. eauto.
    + apply (proj1 (width_nth n vm) (width_vandermonde total n)).
      unfold vm. rewrite length_vandermonde. auto.
Qed.

End DefaultMatrix.

(** ** Polynomial arithmetic *)

Lemma peval_padd p q t : peval (padd p q) t = galAdd (peval p t) (peval q t).
Proof.
  revert q. induction p as [|a p IH]; intros [|b q]; simpl.
  - ring.
  - ring.
  - ring.
  - rewrite IH. ring.
Qed.

Lemma peval_pscale c p t : peval (pscale c p) t = galMultiply c (peval p t).
Proof.
  induction p as [|a p IH]; simpl.
  - ring.
  - rewrite IH. ring.
Qed.

Lemma peval_pmul_lin y p t :
  peval (pmul_lin y p) t = galMultiply (galAdd t y) (peval p t).
Proof.
  unfold pmul_lin. rewrite peval_padd, peval_pscale. simpl. ring.
Qed.

Lemma length_padd p q : length (padd p q) = Nat.max (length p) (length q).
Proof.
  revert q. induction p as [|a p IH]; intros [|b q]; simpl; auto.
Qed.

Lemma length_pscale c p : length (pscale c p) = length p.
Proof. apply length_map. Qed.

Lemma length_pmul_lin y p : length (pmul_lin y p) = S (length p).
Proof. unfold pmul_lin. rewrite length_padd, length_pscale. cbn [length]. lia. Qed.

Lemma length_plin n : length (plin n) = S n.
Proof. induction n as [|n IH]; simpl; auto. now rewrite length_pmul_lin, IH. Qed.

Lemma length_cpoly x n : length (cpoly x n) <= n.
Proof.
  induction n as [|n IH]; simpl; auto.
  rewrite length_padd, length_pscale, length_plin, length_pmul_lin. lia.
Qed.

Lemma peval_zero p t : zero_vector p -> peval p t = x00.
Proof.
  induction p as [|a p IH]; intros H; simpl; auto.
  rewrite IH by (intros i; apply (H (S i))).
  rewrite (H 0 : a = x00). ring.
Qed.

(** ** The roots of [plin] *)

Lemma plin_root n l : l < n -> peval (plin n) (byte_of_nat l) = x00.
Proof.
  induction n as [|n IH]; intros H; [lia|]. simpl. rewrite peval_pmul_lin.
  destruct (Nat.eq_dec l n) as [->|Hne].
  - rewrite galAdd_self. ring.
  - rewrite IH by lia. ring.
Qed.

Lemma plin_nonroot n t :
  (forall l, l < n -> t <> byte_of_nat l) -> peval (plin n) t <> x00.
Proof.
  induction n as [|n IH]; intros H; simpl.
  - rewrite galMultiply_0_r, galAdd_0_r. discriminate.
  - rewrite peval_pmul_lin. apply galMultiply_neq_0.
    + intros E. apply -> galAdd_eq_0 in E. apply (H n); [lia | exact E].
    + apply IH. intros l Hl. apply H. lia.
Qed.

(** ** The Cauchy polynomial *)

Lemma cpoly_sum x n t :
  (forall l, l < n -> t <> byte_of_nat l) ->
  peval (cpoly x n) t
  = galMultiply (peval (plin n) t)
      (bigsum n (fun c => galMultiply (invTable (galAdd t (byte_of_nat c)))
                                      (nth c x x00))).
Proof.
  induction n as [|n IH]; intros H; simpl.
  - ring.
  - rewrite peval_padd, peval_pscale, !peval_pmul_lin.
    rewrite IH by (intros l Hl; apply H; lia).
    assert (Hu : galMultiply (galAdd t (byte_of_nat n))
                             (invTable (galAdd t (byte_of_nat n))) = x01).
    { apply invTable_spec. intros E. apply -> galAdd_eq_0 in E. apply (H n); [lia | exact E]. }
    set (u := galAdd t (byte_of_nat n)) in *.
    set (v := invTable u) in *.
    set (L := peval (plin n) t).
    set (S0 := bigsum n _).
    set (xn := nth n x x00).
    replace (galMultiply xn L) with (galMultiply (galMultiply xn L) (galMultiply u v))
      by (rewrite Hu; ring).
    ring.
Qed.

Lemma cpoly_root x n i :
  i < n -> nth i x x00 = x00 -> peval (cpoly x n) (byte_of_nat i) = x00.
Proof.
  induction n as [|n IH]; intros Hi Hx; [lia|]. simpl.
  rewrite peval_padd, peval_pscale, peval_pmul_lin.
  destruct (Nat.eq_dec i n) as [->|Hne].
  - rewrite Hx, galAdd_self. ring.
  - rewrite plin_root, IH by (auto; lia). ring.
Qed.

Lemma cpoly_zero x n :
  n <= 256 ->
  (forall i, i < n -> peval (cpoly x n) (byte_of_nat i) = x00) ->
  forall i, i < n -> nth i x x00 = x00.
Proof.
  induction n as [|n IH]; intros Hn H i Hi; [lia|].
  assert (Hxn : nth n x x00 = x00).
  { specialize (H n (Nat.lt_succ_diag_r n)). simpl in H.
    rewrite peval_padd, peval_pscale, peval_pmul_lin, galAdd_self in H.
    rewrite galMultiply_0_l, galAdd_0_r in H.
    apply galMultiply_eq_0 in H. destruct H as [H|H]; auto.
    exfalso. revert H. apply plin_nonroot. intros l Hl E.
    apply byte_of_nat_inj in E; lia. }
  destruct (Nat.eq_dec i n) as [->|Hne]; auto.
  apply IH; try lia. intros j Hj.
  specialize (H j (Nat.lt_lt_succ_r _ _ Hj)). simpl in H.
  rewrite peval_padd, peval_pscale, peval_pmul_lin, Hxn in H.
  rewrite galMultiply_0_l, galAdd_0_l in H.
  apply galMultiply_eq_0 in H. destruct H as [H|H]; auto.
  apply -> galAdd_eq_0 in H. apply byte_of_nat_inj in H; lia.
Qed.

(** ** The Cauchy matrix *)

Lemma to_N_byte_of_N n : (n < 256)%N -> Byte.to_N (byte_of_N n) = n.
Proof.
  intros H. unfold byte_of_N. destruct (Byte.of_N n) as [b|] eqn:E.
  - now apply Byte.to_of_N.
  - apply Byte.of_N_None_iff in E. lia.
Qed.

Lemma odd_of_nat a : N.odd (N.of_nat a) = Nat.odd a.
Proof.
  induction a as [|a IH]; auto.
  rewrite Nat2N.inj_succ, N.odd_succ, Nat.odd_succ.
  now rewrite <- N.negb_odd, <- Nat.negb_odd, IH.
Qed.

Lemma testbit_of_nat n : forall a,
  N.testbit (N.of_nat a) (N.of_nat n) = Nat.testbit a n.
Proof.
  induction n as [|n IH]; intros a.
  - change (N.of_nat 0) with 0%N. rewrite N.bit0_odd, Nat.bit0_odd. apply odd_of_nat.
  - rewrite Nat2N.inj_succ, N.testbit_succ_r_div2 by lia.
    rewrite <- Nat2N.inj_div2. rewrite IH. reflexivity.
Qed.

Lemma of_nat_lxor a b : N.of_nat (Nat.lxor a b) = N.lxor (N.of_nat a) (N.of_nat b).
Proof.
  apply N.bits_inj. intros n. rewrite <- (N2Nat.id n).
  rewrite N.lxor_spec, !testbit_of_nat. apply Nat.lxor_spec.
Qed.

(** Go's [byte(r ^ c)] is the field sum of [byte(r)] and [byte(c)]. *)
Lemma byte_of_nat_lxor r c :
  byte_of_nat (Nat.lxor r c) = galAdd (byte_of_nat r) (byte_of_nat c).
Proof.
  apply to_N_inj. rewrite to_N_galAdd. unfold byte_of_nat.
  rewrite !to_N_byte_of_N by (apply N.mod_lt; lia).
  rewrite of_nat_lxor. change 256%N with (2 ^ 8)%N.
  rewrite <- !N.land_ones. apply N.bits_inj. intros n.
  rewrite N.lxor_spec, !N.land_spec, N.lxor_spec.
  now destruct (N.testbit (N.ones 8) n), (N.testbit (N.of_nat r) n),
               (N.testbit (N.of_nat c) n).
Qed.

Lemma length_buildMatrixCauchy n total : length (buildMatrixCauchy n total) = total.
Proof. unfold buildMatrixCauchy. now rewrite length_map, length_seq. Qed.

Lemma nth_buildMatrixCauchy n total r :
  r < total -> total <= 256 ->
  nth r (buildMatrixCauchy n total) []
  = map (fun c => if r <? n then delta r c
                  else invTable (galAdd (byte_of_nat r) (byte_of_nat c)))
        (seq 0 n).
Proof.
  intros H Ht. unfold buildMatrixCauchy. rewrite nth_map_seq by assumption.
  apply map_ext_in. intros c Hc. apply in_seq in Hc. destruct (r <? n) eqn:E.
  - unfold delta. now rewrite Nat.eqb_sym.
  - now rewrite byte_of_nat_lxor.
Qed.

Lemma width_buildMatrixCauchy n total : width n (buildMatrixCauchy n total).
Proof.
  apply width_nth. intros r Hr. rewrite length_buildMatrixCauchy in Hr.
  unfold buildMatrixCauchy. rewrite nth_map_seq by assumption.
  now rewrite length_map, length_seq.
Qed.

Lemma buildMatrixCauchy_systematic n total :
  n <= total -> total <= 256 -> systematic n (buildMatrixCauchy n total).
Proof.
  intros Hn Ht i j Hi Hj. unfold entry. rewrite nth_buildMatrixCauchy by lia.
  rewrite nth_map_seq by assumption.
  apply Nat.ltb_lt in Hi. now rewrite Hi.
Qed.

Lemma dot_cauchy_top n total r x :
  r < n -> n <= total -> total <= 256 ->
  dot (nth r (buildMatrixCauchy n total) []) x = nth r x x00.
Proof.
  intros Hr Hn Ht. rewrite nth_buildMatrixCauchy by lia.
  apply Nat.ltb_lt in Hr as Hr'. rewrite Hr'. now apply dot_unit_l.
Qed.

Lemma dot_cauchy_parity n total r x :
  n <= r -> r < total -> total <= 256 ->
  dot (nth r (buildMatrixCauchy n total) []) x
  = bigsum n (fun c => galMultiply (invTable (galAdd (byte_of_nat r) (byte_of_nat c)))
                                   (nth c x x00)).
Proof.
  intros Hr Ht Ht'. rewrite nth_buildMatrixCauchy by lia.
  apply Nat.ltb_ge in Hr as Hr'. rewrite Hr'.
  rewrite (dot_bigsum _ x n) by (rewrite length_map, length_seq; lia).
  apply bigsum_ext. intros c Hc. now rewrite nth_map_seq by assumption.
Qed.

(** Any [n] distinct rows of the Cauchy code matrix are independent: the
    Cauchy polynomial of a kernel vector has the [n] row numbers as roots. *)
Lemma buildMatrixCauchy_mds n total :
  n <= total -> total <= 256 -> mds n total (buildMatrixCauchy n total).
Proof.
  intros Hn Ht idx Hnd Hlen Hlt x Hx Hker.
  assert (Hrow : forall i, In i idx ->
                 dot (nth i (buildMatrixCauchy n total) []) x = x00).
  { intros i Hi. apply Hker. apply select_rows_In. eauto. }
  assert (Hroots : forall t, In t (map byte_of_nat idx) -> peval (cpoly x n) t = x00).
  { intros t Hin. apply in_map_iff in Hin. destruct Hin as [i [<- Hi]].
    specialize (Hrow i Hi). specialize (Hlt i Hi).
    destruct (Nat.lt_ge_cases i n) as [Hin|Hin].
    - apply cpoly_root; auto. now rewrite dot_cauchy_top in Hrow by lia.
    - rewrite cpoly_sum.
      + rewrite dot_cauchy_parity in Hrow by lia. rewrite Hrow. ring.
      + intros l Hl E. apply byte_of_nat_inj in E; lia. }
  assert (Hz : zero_vector (cpoly x n)).
  { apply (poly_roots (map byte_of_nat idx)); auto.
    - apply NoDup_map_byte_of_nat; auto. intros i Hi. specialize (Hlt i Hi). lia.
    - rewrite length_map, Hlen. apply length_cpoly. }
  intros i. destruct (Nat.lt_ge_cases i n) as [Hi|Hi]; [|apply nth_overflow; lia].
  apply (cpoly_zero x n); auto; try lia.
  intros j _. now apply peval_zero.
Qed.

(** ** What [New] builds *)

Lemma firstn_S_nth {A} (l : list A) k d :
  k < length l -> firstn (S k) l = firstn k l ++ [nth k l d].
Proof.
  revert k. induction l as [|h l IH]; intros k H; simpl in H; [lia|].
  destruct k as [|k]; simpl; auto. f_equal. apply IH. lia.
Qed.

Lemma New_parity_loop (mx : matrix) n p :
  length mx = n + p ->
  loop (fun i par => row <- get mx (n + i) ;; Ok (par ++ [row])) 0 p []
  = Ok (skipn n mx).
Proof.
  intros Hlen.
  assert (H : forall count start,
             start + count = p ->
             loop (fun i par => row <- get mx (n + i) ;; Ok (par ++ [row]))
                  start count (firstn start (skipn n mx))
             = Ok (skipn n mx)).
  { induction count as [|count IH]; intros start Hs; simpl.
    - rewrite firstn_all2; auto. rewrite length_skipn. lia.
    - rewrite (get_Ok mx (n + start) []) by lia. simpl.
      rewrite <- (IH (S start)) by lia. f_equal.
      rewrite (firstn_S_nth (skipn n mx) start []) by (rewrite length_skipn; lia).
      now rewrite nth_skipn. }
  apply (H p 0). lia.
Qed.

Section NewCode.

Variables (dataShards parityShards : nat) (opts : options) (r : reedSolomon).
Hypothesis Hsplit : 0 < minSplitSize opts.
Hypothesis Hnew : New dataShards parityShards opts = Ok (Success r).

Lemma New_bounds : 0 < dataShards /\ 0 < parityShards /\ dataShards + parityShards <= 256.
Proof.
  unfold New in Hnew.
  destruct (dataShards =? 0) eqn:E1; [discriminate|].
  destruct (parityShards =? 0) eqn:E2; [discriminate|]. simpl in Hnew.
  destruct (256 <? dataShards + parityShards) eqn:E3; [discriminate|].
  apply Nat.eqb_neq in E1, E2. apply Nat.ltb_ge in E3. lia.
Qed.

Lemma New_fields (mx : matrix) :
  (if useCauchy opts then Ok (Success (buildMatrixCauchy dataShards (dataShards + parityShards)))
   else if usePAR1Matrix opts then Ok (Success (buildMatrixPAR1 dataShards (dataShards + parityShards)))
   else if useJerasureMatrix opts then
          vm <- buildMatrixJerasure dataShards (dataShards + parityShards) ;; Ok (Success vm)
   else if useAzureLrcP1Matrix opts then
          if parityShards <? 3 then Panic
          else vm <- buildMatrixAzureLrcP1 dataShards (dataShards + parityShards - dataShards - 3) 3 ;;
               Ok (Success vm)
   else Ok (buildMatrix dataShards (dataShards + parityShards))) = Ok (Success mx) ->
  length mx = dataShards + parityShards ->
  r = {| DataShards := dataShards; ParityShards := parityShards;
         Shards := dataShards + parityShards; m := mx;
         parity := skipn dataShards mx; o := opts |}.
Proof.
  intros Hmx Hlen. pose proof New_bounds as [Hd [Hp Hle]].
  unfold New in Hnew.
  destruct (dataShards =? 0) eqn:E1; [discriminate|].
  destruct (parityShards =? 0) eqn:E2; [discriminate|]. simpl in Hnew.
  destruct (256 <? dataShards + parityShards) eqn:E3; [discriminate|].
  rewrite Hmx in Hnew. simpl in Hnew.
  rewrite (New_parity_loop mx dataShards parityShards Hlen) in Hnew. simpl in Hnew.
  now injection Hnew as <-.
Qed.

Lemma New_code (mx : matrix) :
  r = {| DataShards := dataShards; ParityShards := parityShards;
         Shards := dataShards + parityShards; m := mx;
         parity := skipn dataShards mx; o := opts |} ->
  length mx = dataShards + parityShards ->
  width dataShards mx ->
  systematic dataShards mx ->
  mds dataShards (dataShards + parityShards) mx ->
  rs_code r.
Proof.
  pose proof New_bounds as [Hd [Hp Hle]].
  intros Hr Hlen Hw Hsys Hmds. rewrite Hr.
  split; [split|..]; simpl; auto.
Qed.

(** The default matrix. *)
Lemma New_default_code :
  useCauchy opts = false -> usePAR1Matrix opts = false ->
  useJerasureMatrix opts = false -> useAzureLrcP1Matrix opts = false ->
  rs_code r /\ DataShards r = dataShards /\ ParityShards r = parityShards.
Proof.
  intros F1 F2 F3 F4. pose proof New_bounds as [Hd [Hp Hle]].
  destruct (buildMatrix dataShards (dataShards + parityShards)) as [mx|e] eqn:E.
  - assert (Hlen : length mx = dataShards + parityShards)
      by (apply (buildMatrix_length dataShards _ mx); auto; lia).
    assert (Hr := New_fields mx). rewrite F1, F2, F3, F4 in Hr.
    specialize (Hr (f_equal _ E) Hlen).
    split; [|rewrite Hr; auto].
    apply (New_code mx); auto.
    + apply (buildMatrix_width dataShards (dataShards + parityShards)); auto; lia.
    + apply (buildMatrix_systematic dataShards (dataShards + parityShards)); auto; lia.
    + apply (buildMatrix_mds dataShards (dataShards + parityShards)); auto; lia.
  - exfalso. unfold New in Hnew.
    destruct (dataShards =? 0) eqn:E1; [discriminate|].
    destruct (parityShards =? 0) eqn:E2; [discriminate|]. simpl in Hnew.
    destruct (256 <? dataShards + parityShards) eqn:E3; [discriminate|].
    rewrite F1, F2, F3, F4, E in Hnew. discriminate.
Qed.

(** The Cauchy matrix. *)
Lemma New_cauchy_code :
  useCauchy opts = true ->
  rs_code r /\ DataShards r = dataShards /\ ParityShards r = parityShards.
Proof.
  intros F1. pose proof New_bounds as [Hd [Hp Hle]].
  assert (Hr := New_fields (buildMatrixCauchy dataShards (dataShards + parityShards))).
  rewrite F1 in Hr. specialize (Hr eq_refl (length_buildMatrixCauchy _ _)).
  split; [|rewrite Hr; auto].
  apply (New_code _ Hr).
  - apply length_buildMatrixCauchy.
  - apply width_buildMatrixCauchy.
  - apply buildMatrixCauchy_systematic; lia.
  - apply buildMatrixCauchy_mds; lia.
Qed.

End NewCode.

(** ** The scan for valid shards *)

Lemma mem_In i l : mem i l = true <-> In i l.
Proof.
  unfold mem. rewrite existsb_exists. split.
  - intros [x [Hx E]]. apply Nat.eqb_eq in E. now subst.
  - intros H. exists i. split; auto. apply Nat.eqb_refl.
Qed.

Lemma mem_false i l : mem i l = false <-> ~ In i l.
Proof.
  rewrite <- mem_In. destruct (mem i l); split; congruence.
Qed.

Lemma numberPresent_cons shard rest :
  numberPresent (shard :: rest)
  = (if len shard =? 0 then 0 else 1) + numberPresent rest.
Proof. unfold numberPresent. simpl. now destruct (len shard =? 0). Qed.

Lemma scan_valid_spec shards : forall row need sub valid invalid,
  scan_valid shards row need = (sub, valid, invalid) ->
  need <= numberPresent shards ->
  length valid = need
  /\ sub = map (fun i => nth (i - row) shards nil_slice) valid
  /\ (forall i, In i valid ->
        row <= i < row + length shards /\ len (nth (i - row) shards nil_slice) <> 0)
  /\ NoDup valid
  /\ (forall i, In i invalid -> row <= i)
  /\ (forall n, need + length invalid <= n ->
        valid = firstn need (filter (fun i => negb (mem i invalid)) (seq row n))).
Proof.
  induction shards as [|shard rest IH]; intros row need sub valid invalid E Hn.
  - assert (need = 0) by (unfold numberPresent in Hn; simpl in Hn; lia). subst.
    simpl in E. injection E as <- <- <-.
    refine (conj _ (conj _ (conj _ (conj _ (conj _ _))))); simpl; auto;
      try (intros i []). constructor.
  - destruct need as [|need].
    + simpl in E. injection E as <- <- <-.
      refine (conj _ (conj _ (conj _ (conj _ (conj _ _))))); simpl; auto;
        try (intros i []). constructor.
    + rewrite numberPresent_cons in Hn. simpl in E.
      destruct (len shard =? 0) eqn:El; simpl in E.
      * destruct (scan_valid rest (S row) (S need)) as [[sub' valid'] invalid'] eqn:E'.
        injection E as <- <- <-.
        destruct (IH _ _ _ _ _ E' ltac:(lia)) as [H1 [H2 [H3 [H4 [H5 H6]]]]].
        refine (conj _ (conj _ (conj _ (conj _ (conj _ _))))).
        -- exact H1.
        -- rewrite H2. apply map_ext_in. intros i Hi. destruct (H3 i Hi) as [[Hlo _] _].
           replace (i - row) with (S (i - S row)) by lia. reflexivity.
        -- intros i Hi. destruct (H3 i Hi) as [[Hlo Hhi] Hp].
           replace (i - row) with (S (i - S row)) by lia. simpl. split; [lia | exact Hp].
        -- exact H4.
        -- intros i [<-|Hi]; [lia|]. specialize (H5 i Hi). lia.
        -- intros n Hle. simpl in Hle. destruct n as [|n]; [lia|].
           cbn [seq filter]. cbn [mem existsb]. rewrite Nat.eqb_refl. cbn [orb negb].
           rewrite (H6 n) by lia. f_equal. apply filter_ext_in.
           intros i Hi. apply in_seq in Hi. cbn [mem existsb].
           replace (i =? row) with false by (symmetry; apply Nat.eqb_neq; lia).
           reflexivity.
      * destruct (scan_valid rest (S row) need) as [[sub' valid'] invalid'] eqn:E'.
        injection E as <- <- <-.
        destruct (IH _ _ _ _ _ E' ltac:(lia)) as [H1 [H2 [H3 [H4 [H5 H6]]]]].
        apply Nat.eqb_neq in El.
        refine (conj _ (conj _ (conj _ (conj _ (conj _ _))))).
        -- simpl. now rewrite H1.
        -- simpl. rewrite Nat.sub_diag. f_equal. rewrite H2.
           apply map_ext_in. intros i Hi. destruct (H3 i Hi) as [[Hlo _] _].
           replace (i - row) with (S (i - S row)) by lia. reflexivity.
        -- intros i [<-|Hi].
           ++ rewrite Nat.sub_diag. simpl. split; [lia | exact El].
           ++ destruct (H3 i Hi) as [[Hlo Hhi] Hp].
              replace (i - row) with (S (i - S row)) by lia. simpl. split; [lia | exact Hp].
        -- constructor; auto. intros Hin. destruct (H3 row Hin) as [[Hlo _] _]. lia.
        -- intros i Hi. specialize (H5 i Hi). lia.
        -- intros n Hle. destruct n as [|n]; [lia|].
           cbn [seq filter].
           replace (mem row invalid') with false.
           2:{ symmetry. apply mem_false. intros Hin. specialize (H5 row Hin). lia. }
           cbn [negb firstn]. f_equal. apply H6. lia.
Qed.

Lemma valid_of_key_nil n : valid_of_key n [] = seq 0 n.
Proof.
  unfold valid_of_key. simpl. rewrite Nat.add_0_r.
  assert (H : forall l : list nat, filter (fun _ => true) l = l)
    by (induction l; simpl; congruence).
  rewrite H. apply firstn_all2. rewrite length_seq. lia.
Qed.

(** ** Copying rows of the code matrix *)

Lemma upd_upd {A} (l : list A) i x y : upd (upd l i x) i y = upd l i y.
Proof.
  revert i. induction l as [|h l IH]; intros [|i]; simpl; auto. now rewrite IH.
Qed.

Lemma upd_splice {A} i : forall (a b : list A) d,
  i < length a -> i < length b ->
  upd (firstn i a ++ skipn i b) i (nth i a d) = firstn (S i) a ++ skipn (S i) b.
Proof.
  induction i as [|i IH]; intros [|x a] [|y b] d Ha Hb; simpl in *; try lia; auto.
  f_equal. apply IH; lia.
Qed.

Lemma firstn_upd_S {A} (l : list A) i x :
  i < length l -> firstn (S i) (upd l i x) = firstn i l ++ [x].
Proof.
  revert i. induction l as [|h l IH]; intros [|i] H; simpl in *; try lia; auto.
  f_equal. apply IH. lia.
Qed.

Lemma skipn_upd_gt {A} (l : list A) i k x :
  i < k -> skipn k (upd l i x) = skipn k l.
Proof.
  revert i k. induction l as [|h l IH]; intros [|i] [|k] H; simpl; auto; try lia.
  apply IH. lia.
Qed.

Lemma copy_row_spec src srcRow count dstRow dst :
  srcRow < length src -> length (nth srcRow src []) = count ->
  dstRow < length dst -> length (nth dstRow dst []) = count ->
  copy_row src srcRow count dstRow dst = Ok (upd dst dstRow (nth srcRow src [])).
Proof.
  intros Hs Hsl Hd Hdl. unfold copy_row.
  set (srow := nth srcRow src []) in *. set (drow := nth dstRow dst []) in *.
  destruct (loop_invariant
              (fun i d => i <= count /\ d = upd dst dstRow (firstn i srow ++ skipn i drow))
              (fun c dst => v <- mget src srcRow c ;; mset dst dstRow c v)
              count 0 dst) as [d' [E [_ Hd']]].
  - split; [lia|]. simpl. symmetry. apply upd_nth_same.
  - intros i d Hi [_ ->]. simpl in Hi.
    rewrite mget_Ok by (fold srow; lia). simpl. fold srow.
    rewrite mset_Ok.
    + eexists. split; [reflexivity|]. split; [lia|].
      rewrite nth_upd_eq by assumption. rewrite upd_upd. f_equal.
      apply upd_splice; lia.
    + now rewrite length_upd.
    + rewrite nth_upd_eq by assumption.
      rewrite length_app, length_firstn, length_skipn. lia.
  - transitivity (Ok d'); [exact E|]. f_equal. rewrite Hd'. f_equal. simpl.
    rewrite firstn_all2, skipn_all2 by lia. apply app_nil_r.
Qed.

Lemma width_upd n mx i row :
  width n mx -> length row = n -> width n (upd mx i row).
Proof.
  intros Hw Hr. apply width_nth. intros k Hk. rewrite length_upd in Hk.
  rewrite nth_upd. destruct ((k =? i) && (i <? length mx)); auto.
  now apply (proj1 (width_nth n mx) Hw).
Qed.

Lemma copy_rows_from src n : forall idxs row dst,
  width n src -> (forall i, In i idxs -> i < length src) ->
  row + length idxs <= length dst -> width n dst ->
  range_loop (fun row idx dst => copy_row src idx n row dst) row idxs dst
  = Ok (firstn row dst ++ select_rows src idxs ++ skipn (row + length idxs) dst).
Proof.
  induction idxs as [|i idxs IH]; intros row dst Hw Hin Hlen Hd; simpl.
  - now rewrite Nat.add_0_r, firstn_skipn.
  - simpl in Hlen.
    assert (Hi : i < length src) by (apply Hin; now left).
    assert (Hrow : length (nth i src []) = n) by now apply (proj1 (width_nth n src) Hw).
    rewrite copy_row_spec; auto; try lia.
    2:{ apply (proj1 (width_nth n dst) Hd). lia. }
    simpl. rewrite IH; auto.
    + rewrite firstn_upd_S by lia. rewrite skipn_upd_gt by lia.
      rewrite <- app_assoc. replace (row + S (length idxs)) with (S row + length idxs) by lia.
      reflexivity.
    + intros j Hj. apply Hin. now right.
    + rewrite length_upd. lia.
    + now apply width_upd.
Qed.

Lemma width_newMatrix rows cols : width cols (newMatrix rows cols).
Proof.
  apply width_nth. intros k Hk. rewrite length_newMatrix in Hk.
  rewrite nth_newMatrix by assumption. apply repeat_length.
Qed.

Lemma copy_rows_select src n idxs :
  width n src -> (forall i, In i idxs -> i < length src) -> length idxs = n ->
  copy_rows src n idxs (newMatrix n n) = Ok (select_rows src idxs).
Proof.
  intros Hw Hin Hlen. unfold copy_rows.
  rewrite copy_rows_from; auto.
  - simpl. rewrite skipn_all2 by (rewrite length_newMatrix; lia).
    now rewrite app_nil_r.
  - rewrite length_newMatrix. lia.
  - apply width_newMatrix.
Qed.

(** ** The decode matrix *)

Lemma length_select_rows mx idx : length (select_rows mx idx) = length idx.
Proof. apply length_map. Qed.

Lemma nth_select_rows mx idx k :
  k < length idx -> nth k (select_rows mx idx) [] = nth (nth k idx 0) mx [].
Proof.
  intros H. unfold select_rows.
  rewrite (nth_indep _ [] (nth 0 mx [])) by now rewrite length_map.
  apply (map_nth (fun i => nth i mx [])).
Qed.

Lemma width_select_rows n mx idx :
  width n mx -> (forall i, In i idx -> i < length mx) -> width n (select_rows mx idx).
Proof.
  intros Hw Hin row Hrow. apply select_rows_In in Hrow. destruct Hrow as [i [Hi ->]].
  apply (proj1 (width_nth n mx) Hw). auto.
Qed.

Lemma decodes_identity r :
  0 < DataShards r -> systematic (DataShards r) (m r) ->
  decodes r (seq 0 (DataShards r)) (identityMatrix (DataShards r)).
Proof.
  intros Hd Hsys.
  assert (He : forall i j, i < DataShards r -> j < DataShards r ->
                 entry (select_rows (m r) (seq 0 (DataShards r))) i j = delta i j).
  { intros i j Hi Hj. unfold entry. rewrite nth_select_rows by (rewrite length_seq; lia).
    rewrite seq_nth by lia. simpl. now apply Hsys. }
  split; [apply length_identityMatrix|]. split; [apply width_identityMatrix|].
  split; intros i j Hi Hj.
  - rewrite (bigsum_ext _ _ (fun k => galMultiply (delta i k)
               (entry (select_rows (m r) (seq 0 (DataShards r))) k j))).
    2:{ intros k Hk. now rewrite entry_identityMatrix. }
    rewrite bigsum_delta_l by assumption. now apply He.
  - rewrite (bigsum_ext _ _ (fun k => galMultiply
               (entry (select_rows (m r) (seq 0 (DataShards r))) i k) (delta k j))).
    2:{ intros k Hk. now rewrite entry_identityMatrix. }
    rewrite (bigsum_delta_r (DataShards r) j
               (fun k => entry (select_rows (m r) (seq 0 (DataShards r))) i k))
      by assumption.
    now apply He.
Qed.

Lemma tree_ok_nil r : tree_ok r newInversionTree.
Proof. intros key mx _ H. discriminate. Qed.

Lemma tree_ok_insert r t key mx :
  tree_ok r t -> decodes r (valid_of_key (DataShards r) key) mx ->
  tree_ok r (InsertInvertedMatrix t key mx).
Proof.
  intros Ht Hd key' mx' Hne H. unfold InsertInvertedMatrix in H. simpl in H.
  destruct (list_eq_dec Nat.eq_dec key' key) as [->|Hneq].
  - now injection H as <-.
  - now apply Ht.
Qed.

Lemma decode_matrix_general r t valid invalid :
  enc_ok r -> systematic (DataShards r) (m r) -> tree_ok r t ->
  valid = valid_of_key (DataShards r) invalid ->
  length valid = DataShards r ->
  (forall i, In i valid -> i < Shards r) ->
  (exists b, Invert (select_rows (m r) valid) = Success b) ->
  exists dec t',
    decode_matrix r t valid invalid = Ok (Success dec, t')
    /\ decodes r valid dec /\ tree_ok r t'.
Proof.
  intros Hok Hsys Ht Hv Hlen Hlt [b Hb].
  unfold decode_matrix.
  destruct (GetInvertedMatrix (DataShards r) t invalid) as [mx|] eqn:G.
  - exists mx, t. split; [reflexivity|]. split; [|assumption].
    unfold GetInvertedMatrix in G. destruct invalid as [|i0 invalid'].
    + injection G as <-. rewrite Hv, valid_of_key_nil.
      apply decodes_identity; auto. apply (ok_data Hok).
    + rewrite Hv. apply Ht; [discriminate | assumption].
  - assert (Hw : width (DataShards r) (m r)) by (intros row; apply (ok_cols Hok)).
    assert (Hin : forall i, In i valid -> i < length (m r))
      by (intros i Hi; rewrite (ok_rows Hok); auto).
    rewrite (copy_rows_select (m r) (DataShards r) valid Hw Hin Hlen). simpl.
    assert (Hsl : length (select_rows (m r) valid) = DataShards r)
      by now rewrite length_select_rows.
    assert (Hsw : width (DataShards r) (select_rows (m r) valid))
      by now apply width_select_rows.
    rewrite Hb.
    destruct (Invert_success _ _ Hsl Hsw b Hb) as [Hbl [Hbw [Hinv Hinv']]].
    assert (Hdec : decodes r valid b) by (repeat split; assumption).
    exists b, (InsertInvertedMatrix t invalid b). split; [reflexivity|].
    split; [assumption|]. apply tree_ok_insert; auto. now rewrite <- Hv.
Qed.

Lemma decode_matrix_spec r t valid invalid :
  rs_code r -> tree_ok r t ->
  valid = valid_of_key (DataShards r) invalid ->
  NoDup valid -> length valid = DataShards r ->
  (forall i, In i valid -> i < Shards r) ->
  exists dec t',
    decode_matrix r t valid invalid = Ok (Success dec, t')
    /\ decodes r valid dec /\ tree_ok r t'.
Proof.
  intros Hc Ht Hv Hnd Hlen Hlt. pose proof (code_ok Hc) as Hok.
  apply decode_matrix_general; auto.
  - apply (code_systematic Hc).
  - apply (Invert_independent (DataShards r)).
    + now rewrite length_select_rows.
    + apply width_select_rows.
      * intros row. apply (ok_cols Hok).
      * intros i Hi. rewrite (ok_rows Hok). auto.
    + now apply (code_mds Hc).
Qed.

(** ** Collecting the shards to compute *)

Lemma prepared_spec size s :
  prepare_output size s = Ok (prepared size s) /\ len (prepared size s) = size.
Proof.
  destruct (prepare_output_total size s) as [s' [E Hl]].
  unfold prepared. rewrite E. auto.
Qed.

Lemma missing_In shards start count i :
  In i (missing shards start count)
  <-> start <= i < start + count /\ len (nth i shards nil_slice) = 0.
Proof.
  unfold missing. rewrite filter_In, in_seq, Nat.eqb_eq. reflexivity.
Qed.

Lemma missing_hit shards start count :
  len (nth start shards nil_slice) = 0 ->
  missing shards start (S count) = start :: missing shards (S start) count.
Proof.
  intros H. unfold missing. simpl. apply Nat.eqb_eq in H. now rewrite H.
Qed.

Lemma missing_skip shards start count :
  len (nth start shards nil_slice) <> 0 ->
  missing shards start (S count) = missing shards (S start) count.
Proof.
  intros H. unfold missing. simpl. apply Nat.eqb_neq in H. now rewrite H.
Qed.

Lemma missing_upd shards i x start count :
  i < start -> missing (upd shards i x) start count = missing shards start count.
Proof.
  intros H. unfold missing. apply filter_ext_in. intros j Hj. apply in_seq in Hj.
  rewrite nth_upd_neq by lia. reflexivity.
Qed.

Lemma length_missing shards start count : length (missing shards start count) <= count.
Proof.
  unfold missing. etransitivity; [apply filter_length_le | now rewrite length_seq].
Qed.

Lemma NoDup_missing shards start count : NoDup (missing shards start count).
Proof. unfold missing. apply NoDup_filter, seq_NoDup. Qed.

Lemma gather_missing_hit size rowOf i g row :
  i < length (g_shards g) -> len (nth i (g_shards g) nil_slice) = 0 ->
  length (g_index g) < length (g_outputs g) ->
  length (g_index g) < length (g_rows g) ->
  rowOf i = Ok row ->
  gather_missing size rowOf i g
  = Ok {| g_shards := upd (g_shards g) i (prepared size (nth i (g_shards g) nil_slice));
          g_outputs := upd (g_outputs g) (length (g_index g))
                           (prepared size (nth i (g_shards g) nil_slice));
          g_rows := upd (g_rows g) (length (g_index g)) row;
          g_index := g_index g ++ [i] |}.
Proof.
  intros Hi Hl Ho Hr Hrow. unfold gather_missing, gather_output.
  rewrite (get_Ok _ i nil_slice Hi). cbn [bind g_shards g_outputs g_rows g_index].
  apply Nat.eqb_eq in Hl. rewrite Hl.
  rewrite (proj1 (prepared_spec size _)). cbn [bind g_shards g_outputs g_rows g_index].
  rewrite set_Ok by assumption. cbn [bind g_shards g_outputs g_rows g_index].
  rewrite set_Ok by assumption. cbn [bind g_shards g_outputs g_rows g_index].
  rewrite Hrow. cbn [bind g_shards g_outputs g_rows g_index].
  rewrite set_Ok by assumption. reflexivity.
Qed.

Lemma gather_missing_skip size rowOf i g :
  i < length (g_shards g) -> len (nth i (g_shards g) nil_slice) <> 0 ->
  gather_missing size rowOf i g = Ok g.
Proof.
  intros Hi Hl. unfold gather_missing.
  rewrite (get_Ok _ i nil_slice Hi). cbn [bind g_shards g_outputs g_rows g_index].
  apply Nat.eqb_neq in Hl. now rewrite Hl.
Qed.

Lemma gather_loop size rowOf rowf : forall count start g,
  start + count <= length (g_shards g) ->
  length (g_index g) + length (missing (g_shards g) start count) <= length (g_outputs g) ->
  length (g_index g) + length (missing (g_shards g) start count) <= length (g_rows g) ->
  (forall i, start <= i < start + count -> rowOf i = Ok (rowf i)) ->
  exists g', loop (gather_missing size rowOf) start count g = Ok g'
             /\ gathered size rowf g (missing (g_shards g) start count) g'.
Proof.
  induction count as [|count IH]; intros start g Hs Ho Hr Hrow.
  - exists g. split; [reflexivity|]. unfold missing. simpl.
    split; simpl; auto; try (intros; lia). now rewrite app_nil_r.
  - simpl. destruct (Nat.eq_dec (len (nth start (g_shards g) nil_slice)) 0) as [El|El].
    + rewrite (missing_hit _ _ _ El) in *. simpl in Ho, Hr.
      rewrite (gather_missing_hit size rowOf start g (rowf start)); auto; try lia.
      2:{ apply Hrow. lia. }
      simpl.
      set (p := prepared size (nth start (g_shards g) nil_slice)).
      set (g1 := {| g_shards := upd (g_shards g) start p;
                    g_outputs := upd (g_outputs g) (length (g_index g)) p;
                    g_rows := upd (g_rows g) (length (g_index g)) (rowf start);
                    g_index := g_index g ++ [start] |}).
      assert (Hm : missing (g_shards g1) (S start) count = missing (g_shards g) (S start) count)
        by (apply missing_upd; lia).
      destruct (IH (S start) g1) as [g' [E G]].
      * simpl. rewrite length_upd. lia.
      * rewrite Hm. simpl. rewrite length_upd, length_app. simpl. lia.
      * rewrite Hm. simpl. rewrite length_upd, length_app. simpl. lia.
      * intros i Hi. apply Hrow. lia.
      * exists g'. split; [exact E|]. rewrite Hm in G.
        set (miss := missing (g_shards g) (S start) count) in *.
        assert (Hnot : ~ In start miss).
        { intros Hin. apply missing_In in Hin. lia. }
        assert (Hidx : length (g_index g1) = S (length (g_index g)))
          by (simpl; rewrite length_app; simpl; lia).
        destruct G as [G1 G2 G3 G4 G5 G6 G7 G8 G9]. simpl in *.
        split.
        -- rewrite G1. now rewrite <- app_assoc.
        -- now rewrite G2, length_upd.
        -- intros i. rewrite G3. cbn [mem existsb].
           destruct (Nat.eq_dec i start) as [->|Hne].
           ++ rewrite Nat.eqb_refl. simpl.
              replace (mem start miss) with false by (symmetry; now apply mem_false).
              now rewrite nth_upd_eq by lia.
           ++ replace (i =? start) with false by (symmetry; apply Nat.eqb_neq; lia).
              simpl. now rewrite nth_upd_neq by lia.
        -- now rewrite G4, length_upd.
        -- intros k Hk. destruct k as [|k].
           ++ rewrite Nat.add_0_r, G8 by (rewrite length_app; simpl; lia).
              now rewrite nth_upd_eq by lia.
           ++ simpl. simpl in Hk.
              replace (length (g_index g) + S k) with (length (g_index g ++ [start]) + k)
                by (rewrite length_app; simpl; lia).
              rewrite G5 by lia.
              rewrite nth_upd_neq; auto.
              intros Heq. apply Hnot. rewrite <- Heq. apply nth_In. lia.
        -- now rewrite G6, length_upd.
        -- intros k Hk. destruct k as [|k].
           ++ rewrite Nat.add_0_r, G9 by (rewrite length_app; simpl; lia).
              now rewrite nth_upd_eq by lia.
           ++ simpl. simpl in Hk.
              replace (length (g_index g) + S k) with (length (g_index g ++ [start]) + k)
                by (rewrite length_app; simpl; lia).
              now rewrite G7 by lia.
        -- intros k Hk. rewrite G8 by (rewrite length_app; simpl; lia).
           now rewrite nth_upd_neq by lia.
        -- intros k Hk. rewrite G9 by (rewrite length_app; simpl; lia).
           now rewrite nth_upd_neq by lia.
    + rewrite (missing_skip _ _ _ El) in *.
      rewrite gather_missing_skip by (auto; lia). simpl.
      apply IH; auto; try lia. intros i Hi. apply Hrow. lia.
Qed.

(** ** Writing the outputs back *)

Lemma length_scatter index : forall outs shards,
  length (scatter index outs shards) = length shards.
Proof.
  induction index as [|i index IH]; intros [|out outs] shards; simpl; auto.
  now rewrite IH, length_upd.
Qed.

Lemma nth_scatter_notin index : forall outs shards i,
  ~ In i index -> nth i (scatter index outs shards) nil_slice = nth i shards nil_slice.
Proof.
  induction index as [|j index IH]; intros [|out outs] shards i Hn; simpl; auto.
  rewrite IH by (intros H; apply Hn; now right).
  apply nth_upd_neq. intros ->. apply Hn. now left.
Qed.

Lemma nth_scatter_in index : forall outs shards k,
  NoDup index -> length index <= length outs ->
  (forall i, In i index -> i < length shards) ->
  k < length index ->
  nth (nth k index 0) (scatter index outs shards) nil_slice = nth k outs nil_slice.
Proof.
  induction index as [|j index IH]; intros [|out outs] shards k Hnd Hlen Hlt Hk;
    simpl in *; try lia.
  inversion Hnd as [|? ? Hnot Hnd']; subst.
  destruct k as [|k].
  - rewrite nth_scatter_notin by assumption. apply nth_upd_eq. apply Hlt. now left.
  - apply IH; auto; try lia. intros i Hi. rewrite length_upd. apply Hlt. now right.
Qed.

(** ** Counting the missing shards *)

Lemma missing_app shards start a b :
  missing shards start (a + b) = missing shards start a ++ missing shards (start + a) b.
Proof. unfold missing. now rewrite seq_app, filter_app. Qed.

Lemma missing_snoc (l : list slice) x n :
  n <= length l -> missing (l ++ [x]) 0 n = missing l 0 n.
Proof.
  intros H. unfold missing. apply filter_ext_in. intros i Hi. apply in_seq in Hi.
  now rewrite app_nth1 by lia.
Qed.

Lemma numberPresent_missing shards :
  numberPresent shards + length (missing shards 0 (length shards)) = length shards.
Proof.
  induction shards as [|x l IH] using rev_ind; auto.
  rewrite length_app. simpl length. rewrite (missing_app _ 0 (length l) 1).
  rewrite missing_snoc by lia. rewrite length_app.
  unfold numberPresent in *. rewrite filter_app, length_app.
  unfold missing at 2. simpl. rewrite app_nth2, Nat.sub_diag by lia. simpl.
  destruct (len x =? 0); simpl; lia.
Qed.

Lemma missing_data_le shards n p :
  length shards = n + p -> n <= numberPresent shards ->
  length (missing shards 0 n) <= p.
Proof.
  intros Hlen Hn. pose proof (numberPresent_missing shards) as H.
  rewrite Hlen, missing_app, length_app in H. lia.
Qed.

(** ** One round of computing the missing shards of a range *)

Lemma bytes_as_map s size :
  len s = size -> bytes s = map (fun q => nth q (bytes s) x00) (seq 0 size).
Proof.
  intros H. apply (nth_ext_lt _ _ x00).
  - rewrite length_map, length_seq. exact H.
  - intros q Hq. unfold len in H. now rewrite nth_map_seq by lia.
Qed.

Lemma In_nth_0 (l : list nat) i : In i l -> exists k, k < length l /\ nth k l 0 = i.
Proof. apply In_nth. Qed.

Section Round.

Variables (r : reedSolomon) (size : nat) (rowf : nat -> list byte).
Variables (shards outputs : list slice) (rows : matrix) (miss : list nat).
Variables (g : gather) (inputs : list slice).

Hypothesis Hok : enc_ok r.
Hypothesis Hg :
  gathered size rowf
    {| g_shards := shards; g_outputs := outputs; g_rows := rows; g_index := [] |}
    miss g.
Hypothesis Hnd : NoDup miss.
Hypothesis Hmiss : forall i, In i miss -> i < length shards /\ length (rowf i) = DataShards r.
Hypothesis Houtputs : length miss <= length outputs.
Hypothesis Hrows : length miss <= length rows.
Hypothesis Hinputs : DataShards r <= length inputs.
Hypothesis Hin_len : forall c, c < DataShards r -> len (nth c inputs nil_slice) = size.

Let outs := firstn (length miss) (g_outputs g).

Lemma round_index : length (g_index g) = length miss.
Proof. now rewrite (gd_index Hg). Qed.

Lemma round_slice : slice_to (g_outputs g) (length (g_index g)) = Ok outs.
Proof.
  rewrite round_index. apply slice_to_Ok. rewrite (gd_outputs_length Hg). exact Houtputs.
Qed.

Lemma round_outs_nth k :
  k < length miss ->
  nth k outs nil_slice = prepared size (nth (nth k miss 0) shards nil_slice).
Proof.
  intros Hk. unfold outs. rewrite nth_firstn.
  apply Nat.ltb_lt in Hk as Hk'. rewrite Hk'.
  apply (gd_outputs Hg Hk).
Qed.

Lemma round_code :
  codeSomeShards r (g_rows g) inputs outs (length (g_index g)) size
  = Ok (coded (DataShards r) (g_rows g) inputs (length miss) size outs).
Proof.
  rewrite round_index. apply codeSomeShards_spec; auto.
  - apply (ok_data Hok).
  - apply (ok_split Hok).
  - rewrite (gd_rows_length Hg). exact Hrows.
  - intros i Hi. rewrite (gd_rows Hg Hi : nth i (g_rows g) [] = _).
    rewrite (proj2 (Hmiss _ (nth_In miss 0 Hi))). lia.
  - unfold outs. rewrite length_firstn, (gd_outputs_length Hg). simpl. lia.
  - intros i Hi. rewrite round_outs_nth by assumption. apply prepared_spec.
Qed.

Let result :=
  scatter (g_index g) (coded (DataShards r) (g_rows g) inputs (length miss) size outs)
          (g_shards g).

Lemma round_length : length result = length shards.
Proof. unfold result. now rewrite length_scatter, (gd_shards_length Hg). Qed.

Lemma round_other i :
  ~ In i miss -> nth i result nil_slice = nth i shards nil_slice.
Proof.
  intros Hi. unfold result. rewrite (gd_index Hg). simpl.
  rewrite nth_scatter_notin by assumption.
  rewrite (gd_shards Hg). simpl.
  apply mem_false in Hi. now rewrite Hi.
Qed.

Lemma round_computed i :
  In i miss ->
  bytes (nth i result nil_slice)
  = map (fun q => coded_byte (rowf i) inputs (DataShards r) q) (seq 0 size).
Proof.
  intros Hi. destruct (In_nth_0 miss i Hi) as [k [Hk <-]].
  unfold result. rewrite (gd_index Hg). simpl.
  assert (Hol : length outs = length miss).
  { unfold outs. rewrite length_firstn, (gd_outputs_length Hg). simpl. lia. }
  rewrite nth_scatter_in; auto.
  - rewrite nth_coded_lt by lia.
    rewrite (gd_rows Hg Hk : nth k (g_rows g) [] = _).
    apply bytes_pw_const. rewrite round_outs_nth by assumption. apply prepared_spec.
  - rewrite length_coded. lia.
  - intros j Hj. rewrite (gd_shards_length Hg). simpl. now apply Hmiss.
Qed.

End Round.

(** Gathering the missing shards of a range, computing them from [inputs]
    and writing them back. *)
Lemma round_run r size rowOf rowf start count shards outputs rows :
  enc_ok r ->
  start + count <= length shards ->
  length (missing shards start count) <= length outputs ->
  length (missing shards start count) <= length rows ->
  (forall i, start <= i < start + count ->
             rowOf i = Ok (rowf i) /\ length (rowf i) = DataShards r) ->
  exists g,
    loop (gather_missing size rowOf) start count
         {| g_shards := shards; g_outputs := outputs; g_rows := rows; g_index := [] |}
    = Ok g
    /\ gathered size rowf
         {| g_shards := shards; g_outputs := outputs; g_rows := rows; g_index := [] |}
         (missing shards start count) g
    /\ slice_to (g_outputs g) (length (g_index g))
       = Ok (firstn (length (missing shards start count)) (g_outputs g))
    /\ forall inputs,
        DataShards r <= length inputs ->
        (forall c, c < DataShards r -> len (nth c inputs nil_slice) = size) ->
        let outs := coded (DataShards r) (g_rows g) inputs
                          (length (missing shards start count)) size
                          (firstn (length (missing shards start count)) (g_outputs g)) in
        codeSomeShards r (g_rows g) inputs
          (firstn (length (missing shards start count)) (g_outputs g))
          (length (g_index g)) size = Ok outs
        /\ length (scatter (g_index g) outs (g_shards g)) = length shards
        /\ (forall i, ~ In i (missing shards start count) ->
              nth i (scatter (g_index g) outs (g_shards g)) nil_slice
              = nth i shards nil_slice)
        /\ (forall i, In i (missing shards start count) ->
              bytes (nth i (scatter (g_index g) outs (g_shards g)) nil_slice)
              = map (fun q => coded_byte (rowf i) inputs (DataShards r) q) (seq 0 size)).
Proof.
  intros Hok Hs Ho Hr Hrow.
  destruct (gather_loop size rowOf rowf count start
              {| g_shards := shards; g_outputs := outputs; g_rows := rows; g_index := [] |})
    as [g [E G]]; simpl; auto.
  { intros i Hi. now apply Hrow. }
  simpl in G.
  assert (Hmiss : forall i, In i (missing shards start count) ->
                            i < length shards /\ length (rowf i) = DataShards r).
  { intros i Hi. apply missing_In in Hi. split; [lia|]. apply Hrow. lia. }
  exists g. split; [exact E|]. split; [exact G|].
  split; [now apply (round_slice size rowf shards outputs rows)|].
  intros inputs Hin Hlen.
  split; [|split; [|split]].
  - now apply (round_code r size rowf shards outputs rows).
  - now apply (round_length r size rowf shards outputs rows).
  - now apply (round_other r size rowf shards outputs rows).
  - apply (round_computed r size rowf shards outputs rows); auto.
    apply NoDup_missing.
Qed.

(** ** Reconstruction of a damaged codeword *)

Section RoundTrip.

Variables (r : reedSolomon) (t : inversionTree) (size : nat).
Variables (E dm : list slice).

Hypothesis Hc : rs_code r.
Hypothesis Ht : tree_ok r t.
Hypothesis Hcw : codeword r size E.
Hypothesis Hsize : 0 < size.
Hypothesis Hlen : length dm = Shards r.
Hypothesis Hkeep :
  forall i, i < Shards r ->
            nth i dm nil_slice = nth i E nil_slice \/ len (nth i dm nil_slice) = 0.
Hypothesis Hpres : DataShards r <= numberPresent dm.

Lemma dm_present i :
  i < Shards r -> len (nth i dm nil_slice) <> 0 ->
  nth i dm nil_slice = nth i E nil_slice.
Proof. intros Hi Hp. destruct (Hkeep i Hi); [assumption | contradiction]. Qed.

Lemma dm_mixed : Forall (fun shard => len shard = size \/ len shard = 0) dm.
Proof.
  apply Forall_forall. intros s Hin.
  destruct (In_nth dm s nil_slice Hin) as [i [Hi <-]]. rewrite Hlen in Hi.
  destruct (Hkeep i Hi) as [H|H]; [left | now right].
  rewrite H. now apply (cw_len Hcw).
Qed.

Lemma dm_some_present : exists shard, In shard dm /\ len shard = size.
Proof.
  pose proof (ok_data (code_ok Hc)) as Hd.
  unfold numberPresent in Hpres.
  destruct (filter (fun shard => negb (len shard =? 0)) dm) as [|s l] eqn:F;
    [simpl in Hpres; lia|].
  assert (Hin : In s (filter (fun shard => negb (len shard =? 0)) dm))
    by (rewrite F; now left).
  apply filter_In in Hin. destruct Hin as [Hin Hp].
  exists s. split; auto.
  pose proof dm_mixed as Hall. rewrite Forall_forall in Hall.
  destruct (Hall s Hin) as [H|H]; auto.
  rewrite H in Hp. discriminate.
Qed.

Lemma decode_byte dec valid sub i q :
  decodes r valid dec ->
  (forall c, c < DataShards r -> nth c valid 0 < Shards r) ->
  length valid = DataShards r ->
  (forall c, c < DataShards r ->
             bytes (nth c sub nil_slice) = bytes (nth (nth c valid 0) E nil_slice)) ->
  i < DataShards r -> q < size ->
  coded_byte (nth i dec []) sub (DataShards r) q = shard_byte E i q.
Proof.
  intros [_ [_ [Hinv _]]] Hv Hvl Hsub Hi Hq. unfold coded_byte.
  rewrite (bigsum_ext _ _ (fun c => bigsum (DataShards r) (fun j =>
             galMultiply (galMultiply (entry dec i c)
                                      (entry (select_rows (m r) valid) c j))
                         (shard_byte E j q)))).
  2:{ intros c Hc'. unfold shard_byte at 1. rewrite Hsub by assumption.
      fold (shard_byte E (nth c valid 0) q).
      rewrite (cw_coded Hcw) by auto. unfold coded_byte.
      rewrite bigsum_scale. apply bigsum_ext. intros j Hj.
      unfold entry. rewrite nth_select_rows by lia. ring. }
  rewrite bigsum_exchange.
  rewrite (bigsum_ext _ _ (fun j => galMultiply (delta i j) (shard_byte E j q))).
  2:{ intros j Hj. rewrite <- (Hinv i j Hi Hj). now rewrite bigsum_scale_r. }
  now apply (bigsum_delta_l (DataShards r) i (fun j => shard_byte E j q)).
Qed.

Lemma parity_byte inputs i q :
  (forall c, c < DataShards r ->
             bytes (nth c inputs nil_slice) = bytes (nth c E nil_slice)) ->
  i < Shards r -> q < size ->
  coded_byte (nth i (m r) []) inputs (DataShards r) q = shard_byte E i q.
Proof.
  intros H Hi Hq. rewrite (cw_coded Hcw) by assumption.
  apply coded_byte_ext. intros c Hc'. unfold shard_byte. now rewrite H.
Qed.

Lemma codeword_bytes i (h : nat -> byte) :
  i < Shards r ->
  (forall q, q < size -> h q = shard_byte E i q) ->
  map h (seq 0 size) = bytes (nth i E nil_slice).
Proof.
  intros Hi H. rewrite (bytes_as_map (nth i E nil_slice) size) by now apply (cw_len Hcw).
  apply map_ext_in. intros q Hq. apply in_seq in Hq. apply H. lia.
Qed.

(** [Reconstruct] on a codeword of which at least [DataShards] shards are
    kept and the others are empty restores every shard. *)
Theorem reconstruct_codeword :
  exists restored t',
    Reconstruct r t dm = Ok (None, restored, t')
    /\ tree_ok r t'
    /\ length restored = Shards r
    /\ forall i, i < Shards r ->
         bytes (nth i restored nil_slice) = bytes (nth i E nil_slice).
Proof.
  pose proof (code_ok Hc) as Hok.
  pose proof (ok_data Hok) as Hd. pose proof (ok_shards Hok) as Hs.
  unfold Reconstruct, reconstruct.
  rewrite Hlen, Nat.eqb_refl. cbn [negb].
  rewrite (checkShards_mixed dm size Hsize dm_mixed dm_some_present).
  rewrite (shardSize_mixed dm size dm_mixed dm_some_present).
  destruct (numberPresent dm =? Shards r) eqn:Eall.
  { exists dm, t. split; [reflexivity|]. split; [assumption|]. split; [assumption|].
    intros i Hi. apply Nat.eqb_eq in Eall. rewrite <- Hlen in Eall.
    apply numberPresent_all_inv in Eall. rewrite Forall_forall in Eall.
    rewrite dm_present; auto. apply Eall. apply nth_In. lia. }
  replace (numberPresent dm <? DataShards r) with false
    by (symmetry; apply Nat.ltb_ge; lia).
  destruct (scan_valid dm 0 (DataShards r)) as [[sub valid] invalid] eqn:Es.
  destruct (scan_valid_spec dm 0 (DataShards r) sub valid invalid Es Hpres)
    as [Hvl [Hsub [Hvin [Hvnd [_ Hvkey]]]]].
  assert (Hvlt : forall i, In i valid -> i < Shards r)
    by (intros i Hi; destruct (Hvin i Hi); lia).
  destruct (decode_matrix_spec r t valid invalid Hc Ht) as [dec [t' [Ed [Hdec Ht']]]]; auto.
  { apply Hvkey. lia. }
  rewrite Ed. cbn [bind].
  pose proof Hdec as [Hdl [Hdw [Hdinv _]]].
  (* the missing data shards *)
  destruct (round_run r size (get dec) (fun i => nth i dec []) 0 (DataShards r) dm
              (repeat nil_slice (ParityShards r)) (repeat [] (ParityShards r)) Hok)
    as [g1 [E1 [G1 [S1 C1]]]].
  { lia. }
  { rewrite repeat_length. apply missing_data_le; [lia | assumption]. }
  { rewrite repeat_length. apply missing_data_le; [lia | assumption]. }
  { intros i Hi. split; [apply get_Ok; lia|].
    apply (proj1 (width_nth (DataShards r) dec) Hdw). lia. }
  rewrite E1. cbn [bind]. rewrite S1. cbn [bind].
  assert (Hsubn : forall c, c < DataShards r ->
                            nth c sub nil_slice = nth (nth c valid 0) E nil_slice).
  { intros c Hc'. rewrite Hsub.
    rewrite (nth_indep _ nil_slice ((fun i => nth (i - 0) dm nil_slice) 0))
      by (rewrite length_map; lia).
    rewrite (map_nth (fun i => nth (i - 0) dm nil_slice)).
    destruct (Hvin (nth c valid 0)) as [Hr Hp]; [apply nth_In; lia|].
    rewrite Nat.sub_0_r in Hp |- *. apply dm_present; [lia | exact Hp]. }
  destruct (C1 sub) as [K1 [L1 [O1 B1]]].
  { rewrite Hsub, length_map. lia. }
  { intros c Hc'. rewrite Hsubn by assumption. apply (cw_len Hcw).
    apply Hvlt, nth_In. lia. }
  rewrite K1. cbn [bind]. cbv zeta.
  set (miss1 := missing dm 0 (DataShards r)) in *.
  set (outs1 := coded (DataShards r) (g_rows g1) sub (length miss1) size
                      (firstn (length miss1) (g_outputs g1))) in *.
  set (shards2 := scatter (g_index g1) outs1 (g_shards g1)) in *.
  assert (H2data : forall i, i < DataShards r ->
                             bytes (nth i shards2 nil_slice) = bytes (nth i E nil_slice)).
  { intros i Hi. destruct (Nat.eq_dec (len (nth i dm nil_slice)) 0) as [Z|NZ].
    - rewrite B1 by (apply missing_In; split; [lia | assumption]).
      apply codeword_bytes; [lia|]. intros q Hq.
      apply (decode_byte dec valid sub); auto.
      + intros c Hc'. apply Hvlt, nth_In. lia.
      + intros c Hc'. now rewrite Hsubn.
    - rewrite O1 by (intros Hin; apply missing_In in Hin; lia).
      rewrite dm_present; auto. lia. }
  assert (H2par : forall i, DataShards r <= i ->
                            nth i shards2 nil_slice = nth i dm nil_slice).
  { intros i Hi. apply O1. intros Hin. apply missing_In in Hin. lia. }
  (* the missing parity shards *)
  set (outputs2 := scatter (seq 0 (length (g_index g1))) outs1 (g_outputs g1)) in *.
  destruct (round_run r size (fun i => get (parity r) (i - DataShards r))
              (fun i => nth i (m r) []) (DataShards r) (Shards r - DataShards r)
              shards2 outputs2 (g_rows g1) Hok)
    as [g2 [E2 [G2 [S2 C2]]]].
  { rewrite L1. lia. }
  { unfold outputs2. rewrite length_scatter, (gd_outputs_length G1). simpl.
    rewrite repeat_length. etransitivity; [apply length_missing | lia]. }
  { rewrite (gd_rows_length G1). simpl.
    rewrite repeat_length. etransitivity; [apply length_missing | lia]. }
  { intros i Hi. split.
    - rewrite (get_Ok (parity r) (i - DataShards r) [])
        by (rewrite enc_ok_parity_length; auto; lia).
      rewrite enc_ok_parity_nth by assumption. do 2 f_equal. lia.
    - apply enc_ok_row_length; auto. lia. }
  rewrite E2. cbn [bind]. rewrite S2. cbn [bind].
  rewrite slice_to_Ok by (rewrite (gd_shards_length G2); simpl; rewrite L1; lia).
  cbn [bind].
  set (miss2 := missing shards2 (DataShards r) (Shards r - DataShards r)) in *.
  assert (Hin2 : forall c, c < DataShards r ->
                           nth c (firstn (DataShards r) (g_shards g2)) nil_slice
                           = nth c shards2 nil_slice).
  { intros c Hc'. rewrite nth_firstn. apply Nat.ltb_lt in Hc' as Hc''. rewrite Hc''.
    rewrite (gd_shards G2). simpl.
    replace (mem c miss2) with false; auto.
    symmetry. apply mem_false. intros Hin. apply missing_In in Hin. lia. }
  destruct (C2 (firstn (DataShards r) (g_shards g2))) as [K2 [L2 [O2 B2]]].
  { rewrite length_firstn, (gd_shards_length G2). simpl. rewrite L1. lia. }
  { intros c Hc'. rewrite Hin2 by assumption. unfold len.
    rewrite H2data by assumption. apply (cw_len Hcw). lia. }
  rewrite K2. cbn [bind].
  eexists. exists t'. split; [reflexivity|]. split; [assumption|]. split.
  - rewrite L2, L1. assumption.
  - intros i Hi. destruct (Nat.lt_ge_cases i (DataShards r)) as [Hlt|Hge].
    + rewrite O2 by (intros Hin; apply missing_In in Hin; lia). now apply H2data.
    + destruct (Nat.eq_dec (len (nth i shards2 nil_slice)) 0) as [Z|NZ].
      * rewrite B2 by (apply missing_In; split; [lia | assumption]).
        apply codeword_bytes; auto. intros q Hq. apply parity_byte; auto.
        intros c Hc'. rewrite Hin2 by assumption. now apply H2data.
      * rewrite O2 by (intros Hin; apply missing_In in Hin; tauto).
        rewrite H2par in * by assumption. now rewrite dm_present.
Qed.

End RoundTrip.

(** ** From a byte string to a codeword *)

Lemma Split_success r data :
  0 < DataShards r -> 0 < len data ->
  exists shards size,
    Split r data = Success shards
    /\ 0 < size /\ length shards = Shards r
    /\ Forall (fun shard => len shard = size) shards.
Proof.
  intros Hd Hl. unfold Split.
  replace (len data =? 0) with false by (symmetry; apply Nat.eqb_neq; lia).
  set (perShard := (len data + DataShards r - 1) / DataShards r).
  set (buf := if length (backing data) <? Shards r * perShard
              then backing data ++ repeat x00 (Shards r * perShard - length (backing data))
              else backing data).
  assert (Hp : 0 < perShard) by (apply Nat.div_str_pos; lia).
  assert (Hb : Shards r * perShard <= length buf).
  { unfold buf. destruct (length (backing data) <? Shards r * perShard) eqn:E.
    - apply Nat.ltb_lt in E. rewrite length_app, repeat_length. lia.
    - now apply Nat.ltb_ge in E. }
  eexists. exists perShard. split; [reflexivity|]. split; [assumption|].
  split; [now rewrite length_map, length_seq|].
  apply Forall_forall. intros s Hin. apply in_map_iff in Hin.
  destruct Hin as [i [<- Hi]]. apply in_seq in Hi.
  unfold len. simpl. rewrite length_firstn, length_skipn.
  assert (i * perShard + perShard <= Shards r * perShard) by nia. lia.
Qed.

Lemma Encode_codeword r shards size :
  enc_ok r -> systematic (DataShards r) (m r) ->
  length shards = Shards r -> 0 < size ->
  Forall (fun shard => len shard = size) shards ->
  exists encoded, Encode r shards = Ok (None, encoded) /\ codeword r size encoded.
Proof.
  intros Hok Hsys Hlen Hsize Hall.
  destruct (Encode_success r shards size Hok Hlen Hsize Hall)
    as [encoded [E [Hel [Hdata Hpar]]]].
  exists encoded. split; [exact E|].
  assert (Hnth : forall i, i < Shards r -> len (nth i shards nil_slice) = size).
  { intros i Hi. rewrite Forall_forall in Hall. apply Hall, nth_In. lia. }
  assert (Hsame : forall row q,
             coded_byte row shards (DataShards r) q
             = coded_byte row encoded (DataShards r) q).
  { intros row q. apply coded_byte_ext. intros c Hc'. unfold shard_byte.
    now rewrite Hdata. }
  split; [assumption| |].
  - intros i Hi. destruct (Nat.lt_ge_cases i (DataShards r)) as [Hlt|Hge].
    + rewrite Hdata by assumption. now apply Hnth.
    + now apply Hpar.
  - intros i q Hi Hq. destruct (Nat.lt_ge_cases i (DataShards r)) as [Hlt|Hge].
    + unfold coded_byte.
      rewrite (bigsum_ext _ _ (fun c => galMultiply (delta i c) (shard_byte encoded c q))).
      * symmetry.
        now apply (bigsum_delta_l (DataShards r) i (fun c => shard_byte encoded c q)).
      * intros c Hc'. f_equal. now apply Hsys.
    + rewrite <- Hsame. now apply Hpar.
Qed.

(** C1.  Take an encoder built by [New] with the default or the Cauchy
    matrix, in any state of its inversion cache that earlier calls can have
    left, and a non-empty byte string.  [Split] and [Encode] succeed on it, and
    for every shard vector that keeps at least [DataShards] of the encoded
    shards and has empty shards elsewhere, [Reconstruct] succeeds and leaves
    every shard, the data shards in particular, with the bytes it had after
    [Encode]. *)
Theorem Reconstruct_round_trip
  (dataShards parityShards : nat) (opts : options) (r : reedSolomon)
  (t : inversionTree) (data : slice) :
  useCauchy opts = true
  \/ (useCauchy opts = false /\ usePAR1Matrix opts = false
      /\ useJerasureMatrix opts = false /\ useAzureLrcP1Matrix opts = false) ->
  0 < minSplitSize opts ->
  New dataShards parityShards opts = Ok (Success r) ->
  tree_ok r t ->
  0 < len data ->
  exists shards encoded,
    Split r data = Success shards
    /\ Encode r shards = Ok (None, encoded)
    /\ forall damaged,
         length damaged = Shards r ->
         (forall i, i < Shards r ->
                    nth i damaged nil_slice = nth i encoded nil_slice
                    \/ len (nth i damaged nil_slice) = 0) ->
         DataShards r <= numberPresent damaged ->
         exists restored t',
           Reconstruct r t damaged = Ok (None, restored, t')
           /\ tree_ok r t'
           /\ length restored = Shards r
           /\ forall i, i < Shards r ->
                bytes (nth i restored nil_slice) = bytes (nth i encoded nil_slice).
Proof.
  intros Hflags Hsplit Hnew Ht Hdata.
  assert (Hc : rs_code r).
  { destruct Hflags as [F|[F1 [F2 [F3 F4]]]].
    - now apply (New_cauchy_code dataShards parityShards opts r Hsplit Hnew).
    - now apply (New_default_code dataShards parityShards opts r Hsplit Hnew). }
  pose proof (code_ok Hc) as Hok.
  destruct (Split_success r data (ok_data Hok) Hdata)
    as [shards [size [Es [Hsize [Hlen Hall]]]]].
  destruct (Encode_codeword r shards size Hok (code_systematic Hc) Hlen Hsize Hall)
    as [encoded [Ee Hcw]].
  exists shards, encoded. split; [exact Es|]. split; [exact Ee|].
  intros damaged Hdl Hkeep Hpres.
  now apply (reconstruct_codeword r t size encoded damaged).
Qed.

Lemma Reconstruct_round_trip_witness :
  exists shards encoded,
    Split enc_2_1 (shard_of [1; 2; 3; 4]) = Success shards
    /\ Encode enc_2_1 shards = Ok (None, encoded)
    /\ forall damaged,
         length damaged = Shards enc_2_1 ->
         (forall i, i < Shards enc_2_1 ->
                    nth i damaged nil_slice = nth i encoded nil_slice
                    \/ len (nth i damaged nil_slice) = 0) ->
         DataShards enc_2_1 <= numberPresent damaged ->
         exists restored t',
           Reconstruct enc_2_1 newInversionTree damaged = Ok (None, restored, t')
           /\ tree_ok enc_2_1 t'
           /\ length restored = Shards enc_2_1
           /\ forall i, i < Shards enc_2_1 ->
                bytes (nth i restored nil_slice) = bytes (nth i encoded nil_slice).
Proof.
  apply (Reconstruct_round_trip 2 1 plainOptions enc_2_1 newInversionTree
           (shard_of [1; 2; 3; 4])).
  - right. repeat split; reflexivity.
  - simpl. lia.
  - vm_compute. reflexivity.
  - intros key mx _ H. discriminate H.
  - vm_compute. lia.
Defined.

(** ** The enumeration of combinations *)

Lemma length_combs d : forall lo k, length (combs d lo k) = comb d k.
Proof.
  induction d as [|d IH]; intros lo [|k]; simpl; auto.
  now rewrite length_app, length_map, !IH.
Qed.

Lemma comb_pos d : forall k, k <= d -> 0 < comb d k.
Proof.
  induction d as [|d IH]; intros [|k] H; simpl; try lia.
  specialize (IH k). lia.
Qed.

Lemma comb_zero d : forall k, d < k -> comb d k = 0.
Proof.
  induction d as [|d IH]; intros [|k] H; simpl; try lia.
  rewrite !IH by lia. reflexivity.
Qed.

Lemma inc_in_weaken hi c : forall lo lo', lo' <= lo -> inc_in lo hi c -> inc_in lo' hi c.
Proof.
  destruct c as [|a t]; simpl; auto. intros lo lo' H [Ha Ht]. split; [lia | assumption].
Qed.

Lemma inc_in_seq hi k : forall lo, lo + k <= hi -> inc_in lo hi (seq lo k).
Proof.
  induction k as [|k IH]; intros lo H; simpl; auto.
  split; [lia|]. apply IH. lia.
Qed.

Lemma inc_in_length hi c : forall lo, inc_in lo hi c -> lo + length c <= hi \/ c = [].
Proof.
  induction c as [|a t IH]; intros lo H; [now right|]. left.
  destruct H as [Ha Ht]. destruct (IH _ Ht) as [H| ->]; simpl in *; lia.
Qed.

Lemma combs_In d : forall lo k c,
  In c (combs d lo k) <-> length c = k /\ inc_in lo (lo + d) c.
Proof.
  induction d as [|d IH]; intros lo k c.
  - destruct k as [|k]; simpl.
    + split.
      * intros [<-|[]]. simpl. auto.
      * intros [Hl _]. left. destruct c; [reflexivity | discriminate].
    + split; [intros []|]. intros [Hl Hi].
      destruct c as [|a t]; [discriminate|]. simpl in Hi. lia.
  - destruct k as [|k]; simpl.
    + split.
      * intros [<-|[]]. simpl. auto.
      * intros [Hl _]. left. destruct c; [reflexivity | discriminate].
    + rewrite in_app_iff, in_map_iff. split.
      * intros [[t [<- Ht]]|Hc].
        -- apply IH in Ht. destruct Ht as [Hl Hi]. simpl. split; [lia|].
           split; [lia|]. now replace (lo + S d) with (S lo + d) by lia.
        -- apply IH in Hc. destruct Hc as [Hl Hi]. split; [assumption|].
           replace (lo + S d) with (S lo + d) by lia.
           now apply (inc_in_weaken _ _ (S lo)); [lia|].
      * intros [Hl Hi]. destruct c as [|a t]; [discriminate|].
        simpl in Hl, Hi. destruct Hi as [Ha Ht].
        replace (lo + S d) with (S lo + d) in * by lia.
        destruct (Nat.eq_dec a lo) as [->|Hne].
        -- left. exists t. split; auto. apply IH. split; [lia | assumption].
        -- right. apply IH. split; [simpl; lia|]. simpl. split; [lia | assumption].
Qed.

Lemma combs_first d : forall lo k, k <= d -> nth 0 (combs d lo k) [] = seq lo k.
Proof.
  induction d as [|d IH]; intros lo [|k] H; simpl; auto; try lia.
  rewrite app_nth1.
  - rewrite (nth_indep _ [] (lo :: [])) by (rewrite length_map, length_combs; apply comb_pos; lia).
    rewrite (map_nth (cons lo)). now rewrite IH by lia.
  - rewrite length_map, length_combs. apply comb_pos. lia.
Qed.

Lemma combs_last d : forall lo k,
  k <= d -> nth (comb d k - 1) (combs d lo k) [] = seq (lo + d - k) k.
Proof.
  induction d as [|d IH]; intros lo [|k] H; simpl; auto; try lia.
  destruct (Nat.eq_dec k d) as [->|Hne].
  - rewrite (comb_zero d (S d)) by lia.
    assert (E : combs d (S lo) (S d) = []).
    { apply length_zero_iff_nil. rewrite length_combs. apply comb_zero. lia. }
    rewrite E, app_nil_r, Nat.add_0_r.
    rewrite (nth_indep _ [] (lo :: []))
      by (rewrite length_map, length_combs; pose proof (comb_pos d d); lia).
    rewrite (map_nth (cons lo)). rewrite IH by lia.
    replace (S lo + d - d) with (S lo) by lia.
    replace (lo + S d - S d) with lo by lia. reflexivity.
  - pose proof (comb_pos d (S k)) as Hp. pose proof (comb_pos d k) as Hp'.
    rewrite app_nth2 by (rewrite length_map, length_combs; lia).
    rewrite length_map, length_combs.
    replace (comb d k + comb d (S k) - 1 - comb d k) with (comb d (S k) - 1) by lia.
    rewrite IH by lia. simpl. repeat (f_equal; try lia).
Qed.

(** Consecutive combinations are related by [comb_step]. *)
Lemma combs_chain d : forall lo k i,
  S i < comb d k ->
  comb_step (lo + d) (nth i (combs d lo k) []) (nth (S i) (combs d lo k) []).
Proof.
  induction d as [|d IH]; intros lo [|k] i Hi; simpl in Hi; try lia.
  simpl combs.
  assert (Hk : k <= d).
  { destruct (Nat.le_gt_cases k d); auto.
    rewrite (comb_zero d k), (comb_zero d (S k)) in Hi by lia. lia. }
  assert (Hl : length (map (cons lo) (combs d (S lo) k)) = comb d k)
    by now rewrite length_map, length_combs.
  replace (lo + S d) with (S lo + d) by lia.
  destruct (Nat.lt_ge_cases (S i) (comb d k)) as [H1|H1].
  - (* both in the block that starts with [lo] *)
    rewrite !app_nth1 by lia.
    rewrite !(nth_indep (map (cons lo) _) [] (lo :: [])) by lia.
    rewrite !(map_nth (cons lo)).
    destruct (IH (S lo) k i H1) as [pre [v [post [E1 [E2 [E3 E4]]]]]].
    exists (lo :: pre), v, post. rewrite E1, E4. auto.
  - destruct (Nat.lt_ge_cases i (comb d k)) as [H2|H2].
    + (* the last of that block, then the first of the next *)
      assert (i = comb d k - 1) by lia. subst i.
      rewrite app_nth1 by lia. rewrite app_nth2 by lia.
      rewrite (nth_indep (map (cons lo) _) [] (lo :: [])) by lia.
      rewrite (map_nth (cons lo)). rewrite combs_last by assumption.
      rewrite Hl. replace (S (comb d k - 1) - comb d k) with 0 by lia.
      assert (Hk' : S k <= d).
      { destruct (Nat.le_gt_cases (S k) d); auto.
        rewrite (comb_zero d (S k)) in Hi by lia. lia. }
      rewrite combs_first by assumption.
      exists [], lo, (seq (S lo + d - k) k). rewrite length_seq.
      split; [reflexivity|]. split; [reflexivity|]. split; [lia|].
      replace (lo + 1) with (S lo) by lia. reflexivity.
    + (* both in the next block *)
      rewrite !app_nth2 by lia. rewrite Hl.
      replace (S i - comb d k) with (S (i - comb d k)) by lia.
      apply IH. lia.
Qed.

(** ** [next_combination] computes the step *)

Lemma upd_app_mid {A} (pre : list A) x y rest :
  upd (pre ++ x :: rest) (length pre) y = pre ++ y :: rest.
Proof. induction pre as [|a pre IH]; simpl; congruence. Qed.

Lemma skipn_cons_nth {A} (l : list A) t d :
  t < length l -> skipn t l = nth t l d :: skipn (S t) l.
Proof.
  revert t. induction l as [|a l IH]; intros [|t] H; simpl in *; try lia; auto.
  apply IH. lia.
Qed.

Lemma loop_snoc {S : Type} (body : nat -> S -> outcome S) count : forall start s,
  loop body start (Datatypes.S count) s
  = (s' <- loop body start count s ;; body (start + count) s').
Proof.
  induction count as [|count IH]; intros start s.
  - simpl. rewrite Nat.add_0_r. destruct (body start s); reflexivity.
  - change (loop body start (Datatypes.S (Datatypes.S count)) s)
      with (s1 <- body start s ;; loop body (Datatypes.S start) (Datatypes.S count) s1).
    change (loop body start (Datatypes.S count) s)
      with (s1 <- body start s ;; loop body (Datatypes.S start) count s1).
    destruct (body start s) as [s1|]; cbn [bind]; [|reflexivity].
    rewrite IH. now replace (Datatypes.S start + count) with (start + Datatypes.S count) by lia.
Qed.

Section NextCombination.

Variables (n k : nat) (pre post : list nat) (v : nat).
Hypothesis Hk : k = length pre + S (length post).
Hypothesis Hkn : k <= n.
Hypothesis Hpost : post = seq (n - length post) (length post).
Hypothesis Hv : v + length post + 1 < n.

Lemma next_combination_j_spec t :
  t <= length post ->
  next_combination_j (pre ++ v :: post) n k (length pre + 1 + t) = Ok (S (length pre)).
Proof.
  induction t as [|t IH]; intros Ht.
  - rewrite Nat.add_0_r, Nat.add_1_r. simpl.
    rewrite (get_Ok _ (length pre) 0) by (rewrite length_app; simpl; lia).
    rewrite nth_middle. simpl.
    replace (v =? n - k + length pre) with false by (symmetry; apply Nat.eqb_neq; lia).
    reflexivity.
  - replace (length pre + 1 + S t) with (S (length pre + 1 + t)) by lia. simpl.
    rewrite (get_Ok _ (length pre + 1 + t) 0) by (rewrite length_app; simpl; lia).
    rewrite app_nth2 by lia.
    replace (length pre + 1 + t - length pre) with (S t) by lia. simpl.
    rewrite Hpost, seq_nth by lia.
    replace (n - length post + t =? n - k + (length pre + 1 + t)) with true
      by (symmetry; apply Nat.eqb_eq; lia).
    rewrite <- Hpost. apply IH. lia.
Qed.

Lemma next_combination_fill t :
  t <= length post ->
  loop (fun j tmp => p <- get tmp (j - 1) ;; set tmp j (p + 1))
       (length pre + 1) t (pre ++ (v + 1) :: post)
  = Ok (pre ++ seq (v + 1) (S t) ++ skipn t post).
Proof.
  induction t as [|t IH]; intros Ht.
  - reflexivity.
  - rewrite loop_snoc, IH by lia. cbn [bind].
    assert (Hl : length (pre ++ seq (v + 1) (S t)) = length pre + 1 + t)
      by (rewrite length_app, length_seq; lia).
    rewrite (get_Ok _ (length pre + 1 + t - 1) 0)
      by (rewrite !length_app, length_seq, length_skipn; lia).
    rewrite app_nth2 by lia.
    replace (length pre + 1 + t - 1 - length pre) with t by lia.
    rewrite app_nth1 by (rewrite length_seq; lia). rewrite seq_nth by lia.
    cbn [bind]. rewrite set_Ok by (rewrite !length_app, length_seq, length_skipn; lia).
    f_equal. rewrite (skipn_cons_nth post t 0) by lia.
    rewrite app_assoc, <- Hl, upd_app_mid. rewrite <- app_assoc. f_equal.
    rewrite (seq_S (S t) (v + 1)), <- app_assoc. cbn [app]. do 2 f_equal. lia.
Qed.

Lemma next_combination_spec :
  next_combination (pre ++ v :: post) n k = Ok (pre ++ seq (v + 1) (S (length post))).
Proof.
  unfold next_combination.
  replace (next_combination_j (pre ++ v :: post) n k k) with (Ok (S (length pre))).
  2:{ symmetry. rewrite Hk at 2.
      replace (length pre + S (length post)) with (length pre + 1 + length post) by lia.
      now apply next_combination_j_spec. }
  simpl.
  rewrite (get_Ok _ (length pre) 0) by (rewrite length_app; simpl; lia).
  rewrite nth_middle. simpl.
  rewrite set_Ok by (rewrite length_app; simpl; lia). simpl.
  rewrite upd_app_mid.
  replace (k - (length pre + 1)) with (length post) by lia.
  rewrite next_combination_fill by lia.
  now rewrite skipn_all, app_nil_r.
Qed.

End NextCombination.

Lemma next_combination_step n k c c' :
  comb_step n c c' -> length c = k -> k <= n -> next_combination c n k = Ok c'.
Proof.
  intros [pre [v [post [-> [Hpost [Hv ->]]]]]] Hl Hkn.
  apply next_combination_spec; auto.
  rewrite length_app in Hl. simpl in Hl. lia.
Qed.

(** ** The submatrix and the selection of one combination *)

Lemma copy_whole_row_spec src idx row dst :
  idx < length src -> row < length dst ->
  length (nth row dst []) = length (nth idx src []) ->
  copy_whole_row src idx row dst = Ok (upd dst row (nth idx src [])).
Proof.
  intros Hs Hd Hl. unfold copy_whole_row.
  rewrite (get_Ok src idx [] Hs). cbn [bind].
  set (srow := nth idx src []) in *. set (drow := nth row dst []) in *.
  destruct (range_loop_invariant
              (fun i d => i <= length srow
                          /\ d = upd dst row (firstn i srow ++ skipn i drow))
              (fun col coe dst => mset dst row col coe) srow 0 dst x00)
    as [d' [E [_ Hd']]].
  - split; [lia|]. simpl. symmetry. apply upd_nth_same.
  - intros i d Hi [_ ->]. simpl in Hi. rewrite mset_Ok.
    + eexists. split; [reflexivity|]. split; [lia|].
      rewrite nth_upd_eq by assumption. rewrite upd_upd. f_equal.
      rewrite Nat.sub_0_r. apply upd_splice; lia.
    + now rewrite length_upd.
    + rewrite nth_upd_eq by assumption.
      rewrite length_app, length_firstn, length_skipn. lia.
  - transitivity (Ok d'); [exact E|]. f_equal. rewrite Hd'. f_equal. simpl.
    rewrite firstn_all, skipn_all2 by lia. apply app_nil_r.
Qed.

Section Combination.

Variables (src : matrix) (n : nat) (sur : list nat).
Hypothesis Hsrc : width n src.
Hypothesis Hsur : forall s, s < length sur -> nth s sur 0 < length src.

Lemma fill_sub_from : forall c row sub,
  (forall s, In s c -> s < length sur) ->
  row + length c <= length sub -> width n sub ->
  range_loop (fun row sel sub => idx <- get sur sel ;; copy_whole_row src idx row sub)
             row c sub
  = Ok (firstn row sub ++ select_rows src (sel_of sur c) ++ skipn (row + length c) sub).
Proof.
  induction c as [|s c IH]; intros row sub Hc Hlen Hw; simpl.
  - now rewrite Nat.add_0_r, firstn_skipn.
  - simpl in Hlen.
    assert (Hs : s < length sur) by (apply Hc; now left).
    rewrite (get_Ok sur s 0 Hs). cbn [bind].
    rewrite copy_whole_row_spec; auto; try lia.
    2:{ rewrite (proj1 (width_nth n sub) Hw) by lia.
        now rewrite (proj1 (width_nth n src) Hsrc) by auto. }
    cbn [bind]. rewrite IH.
    + rewrite firstn_upd_S by lia. rewrite skipn_upd_gt by lia.
      rewrite <- app_assoc.
      replace (row + S (length c)) with (S row + length c) by lia. reflexivity.
    + intros j Hj. apply Hc. now right.
    + rewrite length_upd. lia.
    + apply width_upd; auto. apply (proj1 (width_nth n src) Hsrc). auto.
Qed.

Lemma fill_select_from : forall c i sel,
  (forall s, In s c -> s < length sur) ->
  i + length c <= length sel ->
  range_loop (fun i s sel => idx <- get sur s ;; set sel i idx) i c sel
  = Ok (firstn i sel ++ sel_of sur c ++ skipn (i + length c) sel).
Proof.
  induction c as [|s c IH]; intros i sel Hc Hlen; simpl.
  - now rewrite Nat.add_0_r, firstn_skipn.
  - simpl in Hlen.
    assert (Hs : s < length sur) by (apply Hc; now left).
    rewrite (get_Ok sur s 0 Hs). cbn [bind].
    rewrite set_Ok by lia. cbn [bind]. rewrite IH.
    + rewrite firstn_upd_S by lia. rewrite skipn_upd_gt by lia.
      rewrite <- app_assoc.
      replace (i + S (length c)) with (S i + length c) by lia. reflexivity.
    + intros j Hj. apply Hc. now right.
    + rewrite length_upd. lia.
Qed.

Lemma fill_sub c sub :
  (forall s, In s c -> s < length sur) ->
  length sub = length c -> width n sub ->
  range_loop (fun row sel sub => idx <- get sur sel ;; copy_whole_row src idx row sub)
             0 c sub
  = Ok (select_rows src (sel_of sur c)).
Proof.
  intros Hc Hl Hw. rewrite fill_sub_from by (auto; lia).
  simpl. rewrite skipn_all2 by lia. now rewrite app_nil_r.
Qed.

Lemma fill_select c sel :
  (forall s, In s c -> s < length sur) ->
  length sel = length c ->
  range_loop (fun i s sel => idx <- get sur s ;; set sel i idx) 0 c sel
  = Ok (sel_of sur c).
Proof.
  intros Hc Hl. rewrite fill_select_from by (auto; lia).
  simpl. rewrite skipn_all2 by lia. now rewrite app_nil_r.
Qed.

End Combination.

(** ** The search through the combinations *)

Lemma inc_in_bound hi c : forall lo x, inc_in lo hi c -> In x c -> lo <= x < hi.
Proof.
  induction c as [|a t IH]; intros lo x H Hx; [destruct Hx|].
  destruct H as [Ha Ht]. destruct Hx as [<-|Hx]; [assumption|].
  specialize (IH _ _ Ht Hx). lia.
Qed.

Section Search.

Variables (r : reedSolomon) (badIndex fcs sur : list nat) (ns k : nat).
Hypothesis Hns : length sur = ns.
Hypothesis Hm : width k (m r).
Hypothesis Hsur : forall s, s < length sur -> nth s sur 0 < length (m r).

Lemma combination_loop_spec : forall todo i st,
  i + todo = comb ns k ->
  (0 < todo -> s_comb st = nth i (combs ns 0 k) []) ->
  length (s_sub st) = k -> width k (s_sub st) -> length (s_select st) = k ->
  s_chosen st = false ->
  exists st',
    combination_loop r badIndex fcs sur ns k (comb ns k) i todo st = Ok st'
    /\ ((s_chosen st' = true
         /\ exists j, i <= j < comb ns k
                      /\ good_comb r badIndex fcs sur (nth j (combs ns 0 k) []) = true
                      /\ s_select st' = sel_of sur (nth j (combs ns 0 k) []))
        \/ (s_chosen st' = false
            /\ forall j, i <= j < comb ns k ->
                         good_comb r badIndex fcs sur (nth j (combs ns 0 k) []) = false)).
Proof.
  induction todo as [|todo IH]; intros i st Hi Hcomb Hsub Hsubw Hsel Hch.
  - exists st. split; [reflexivity|]. right. split; [assumption|]. intros j Hj. lia.
  - set (c := nth i (combs ns 0 k) []).
    assert (Hc : length c = k /\ inc_in 0 (0 + ns) c).
    { apply combs_In. apply nth_In. rewrite length_combs. lia. }
    destruct Hc as [Hcl Hci].
    assert (Hcs : forall s, In s c -> s < length sur).
    { intros s Hs. destruct (inc_in_bound _ _ _ _ Hci Hs). lia. }
    assert (Hkn : k <= ns).
    { destruct (Nat.le_gt_cases k ns); auto. rewrite (comb_zero ns k) in Hi by lia. lia. }
    (* what happens when the combination is not chosen *)
    assert (Hcont : good_comb r badIndex fcs sur c = false ->
              forall sel' err, length sel' = k ->
              exists st',
                (tmp <- (if i <? comb ns k - 1 then next_combination c ns k else Ok c) ;;
                 combination_loop r badIndex fcs sur ns k (comb ns k) (S i) todo
                   {| s_comb := tmp; s_sub := select_rows (m r) (sel_of sur c);
                      s_select := sel'; s_err := err; s_chosen := false |}) = Ok st'
                /\ ((s_chosen st' = true
                     /\ exists j, i <= j < comb ns k
                          /\ good_comb r badIndex fcs sur (nth j (combs ns 0 k) []) = true
                          /\ s_select st' = sel_of sur (nth j (combs ns 0 k) []))
                    \/ (s_chosen st' = false
                        /\ forall j, i <= j < comb ns k ->
                             good_comb r badIndex fcs sur (nth j (combs ns 0 k) []) = false))).
    { intros Hbad sel' err Hsel'.
      assert (Hnext : exists tmp,
                 (if i <? comb ns k - 1 then next_combination c ns k else Ok c) = Ok tmp
                 /\ (0 < todo -> tmp = nth (S i) (combs ns 0 k) [])).
      { destruct (i <? comb ns k - 1) eqn:Eg.
        - apply Nat.ltb_lt in Eg. exists (nth (S i) (combs ns 0 k) []). split; auto.
          apply next_combination_step; auto.
          apply (combs_chain ns 0 k i). lia.
        - apply Nat.ltb_ge in Eg. exists c. split; auto. intros Ht. lia. }
      destruct Hnext as [tmp [En Htmp]]. rewrite En. cbn [bind].
      destruct (IH (S i) {| s_comb := tmp; s_sub := select_rows (m r) (sel_of sur c);
                            s_select := sel'; s_err := err; s_chosen := false |})
        as [st' [E [[H1 [j [Hj [Hg Hs]]]]|[H1 H2]]]]; simpl; auto; try lia.
      - unfold sel_of. now rewrite length_select_rows, length_map.
      - apply width_select_rows; auto. intros x Hx. unfold sel_of in Hx.
        apply in_map_iff in Hx. destruct Hx as [s [<- Hs]]. auto.
      - exists st'. split; [exact E|]. left. split; [assumption|].
        exists j. split; [lia|]. auto.
      - exists st'. split; [exact E|]. right. split; [assumption|].
        intros j Hj. destruct (Nat.eq_dec j i) as [->|Hne]; [exact Hbad|].
        apply H2. lia. }
    simpl combination_loop. rewrite (Hcomb (Nat.lt_0_succ todo)). fold c.
    rewrite (fill_sub (m r) k sur Hm Hsur c (s_sub st)) by (auto; lia).
    cbn [bind]. cbv zeta.
    unfold good_comb in Hcont.
    destruct (Invert (select_rows (m r) (sel_of sur c))) as [inv|e] eqn:EI.
    + rewrite (fill_select sur c (s_select st)) by (auto; lia). cbn [bind].
      fold (chosen_pred r badIndex fcs (sel_of sur c)) in *.
      destruct (chosen_pred r badIndex fcs (sel_of sur c)) eqn:EC.
      * eexists. split; [reflexivity|]. left. split; [reflexivity|].
        exists i. split; [lia|]. split; [|reflexivity].
        unfold good_comb. fold c. now rewrite EI.
      * apply Hcont; auto. unfold sel_of. now rewrite length_map.
    + cbn [bind]. apply Hcont; auto.
Qed.

End Search.

(** ** One failed shard *)

Lemma filter_all {A} (f : A -> bool) l :
  (forall x, In x l -> f x = true) -> filter f l = l.
Proof.
  induction l as [|a l IH]; intros H; simpl; auto.
  rewrite (H a) by now left. f_equal. apply IH. intros x Hx. apply H. now right.
Qed.

Lemma filter_none {A} (f : A -> bool) l :
  (forall x, In x l -> f x = false) -> filter f l = [].
Proof.
  induction l as [|a l IH]; intros H; simpl; auto.
  rewrite (H a) by now left. apply IH. intros x Hx. apply H. now right.
Qed.

Lemma filter_length_all {A} (f : A -> bool) l :
  length (filter f l) = length l -> forall x, In x l -> f x = true.
Proof.
  induction l as [|a l IH]; intros H x Hx; [destruct Hx|].
  simpl in H. pose proof (filter_length_le f l) as Hle.
  destruct (f a) eqn:E; simpl in H; [|lia].
  destruct Hx as [<-|Hx]; auto.
Qed.

Lemma isContainedIn_spec short long :
  isContainedIn short long = true <-> forall x, In x short -> In x long.
Proof.
  unfold isContainedIn. rewrite Nat.eqb_eq. split.
  - intros H x Hx. apply mem_In. now apply (filter_length_all _ _ H).
  - intros H. f_equal. apply filter_all. intros x Hx. apply mem_In. auto.
Qed.

Lemma survivors_filter n b :
  b < n -> filter (fun i => negb (mem i [b])) (seq 0 n) = survivors n b.
Proof.
  intros H. unfold survivors.
  replace n with (b + (1 + (n - 1 - b))) at 1 by lia.
  rewrite !seq_app, !filter_app. f_equal.
  - apply filter_all. intros x Hx. apply in_seq in Hx. simpl.
    replace (x =? b) with false by (symmetry; apply Nat.eqb_neq; lia). reflexivity.
  - replace (filter (fun i => negb (mem i [b])) (seq (0 + b) 1)) with (@nil nat)
      by (simpl; now rewrite Nat.eqb_refl).
    replace (0 + b + 1) with (S b) by lia. simpl app.
    apply filter_all. intros x Hx. apply in_seq in Hx. simpl.
    replace (x =? b) with false by (symmetry; apply Nat.eqb_neq; lia). reflexivity.
Qed.

Lemma length_survivors n b : b < n -> length (survivors n b) = n - 1.
Proof. intros H. unfold survivors. rewrite length_app, !length_seq. lia. Qed.

Lemma nth_survivors n b s : b < n -> s < n - 1 -> nth s (survivors n b) 0 = skip_bad b s.
Proof.
  intros Hb Hs. unfold survivors, skip_bad. destruct (s <? b) eqn:E.
  - apply Nat.ltb_lt in E. rewrite app_nth1 by (rewrite length_seq; lia).
    now rewrite seq_nth.
  - apply Nat.ltb_ge in E. rewrite app_nth2 by (rewrite length_seq; lia).
    rewrite length_seq, seq_nth by lia. lia.
Qed.

Lemma survival_indices_single n b :
  b < n -> survival_indices n [b] = Ok (survivors n b, n - 1).
Proof.
  intros H. unfold survival_indices. change (length [b]) with 1.
  replace (n <? 1) with false by (symmetry; apply Nat.ltb_ge; lia).
  rewrite survivors_filter by assumption. rewrite length_survivors by assumption.
  rewrite Nat.ltb_irrefl, Nat.sub_diag. simpl. now rewrite app_nil_r.
Qed.

Lemma sel_of_survivors n b c :
  b < n -> (forall s, In s c -> s < n - 1) ->
  sel_of (survivors n b) c = map (skip_bad b) c.
Proof.
  intros Hb Hc. unfold sel_of. apply map_ext_in. intros s Hs.
  apply nth_survivors; auto.
Qed.

Lemma inc_in_skip_bad b hi c : forall lo,
  inc_in lo hi c -> inc_in (skip_bad b lo) (S hi) (map (skip_bad b) c).
Proof.
  induction c as [|a t IH]; intros lo H; simpl; auto.
  destruct H as [Ha Ht]. split.
  - unfold skip_bad. destruct (Nat.ltb_spec lo b), (Nat.ltb_spec a b); lia.
  - apply (inc_in_weaken _ _ (skip_bad b (S a))); [|now apply IH].
    unfold skip_bad. destruct (Nat.ltb_spec a b), (Nat.ltb_spec (S a) b); lia.
Qed.

Lemma skip_bad_neq b s : skip_bad b s <> b.
Proof.
  unfold skip_bad. destruct (Nat.ltb_spec s b); lia.
Qed.

Lemma inc_in_incremental hi c : forall lo, inc_in lo hi c -> incremental c = true.
Proof.
  induction c as [|a t IH]; intros lo H; auto.
  destruct H as [Ha Ht]. destruct t as [|a' t']; auto.
  change (incremental (a :: a' :: t')) with ((a <? a') && incremental (a' :: t')).
  rewrite (IH _ Ht). destruct Ht as [Ha' _].
  replace (a <? a') with true by (symmetry; apply Nat.ltb_lt; lia). reflexivity.
Qed.

Lemma inc_in_NoDup hi c : forall lo, inc_in lo hi c -> NoDup c.
Proof.
  induction c as [|a t IH]; intros lo H; constructor.
  - destruct H as [Ha Ht]. intros Hin.
    destruct (inc_in_bound _ _ _ _ Ht Hin). lia.
  - destruct H as [_ Ht]. now apply (IH (S a)).
Qed.

Lemma inc_in_unskip b hi c : forall lo,
  b < hi -> inc_in lo hi c -> ~ In b c ->
  inc_in (if lo <=? b then lo else lo - 1) (hi - 1) (map (unskip_bad b) c).
Proof.
  induction c as [|a t IH]; intros lo Hb H Hn; simpl; auto.
  destruct H as [Ha Ht].
  assert (Hab : a <> b) by (intros ->; apply Hn; now left).
  split.
  - unfold unskip_bad. destruct (Nat.leb_spec lo b), (Nat.ltb_spec a b); lia.
  - specialize (IH (S a) Hb Ht (fun H => Hn (or_intror H))).
    replace (S (unskip_bad b a)) with (if S a <=? b then S a else S a - 1); [exact IH|].
    unfold unskip_bad. destruct (Nat.leb_spec (S a) b), (Nat.ltb_spec a b); lia.
Qed.

Lemma skip_unskip b x : x <> b -> skip_bad b (unskip_bad b x) = x.
Proof.
  intros H. unfold skip_bad, unskip_bad.
  destruct (Nat.ltb_spec x b).
  - destruct (Nat.ltb_spec x b); lia.
  - destruct (Nat.ltb_spec (x - 1) b); lia.
Qed.

Section Single.

Variables (r : reedSolomon) (b : nat) (peers : list nat).
Hypothesis Hlrc : useAzureLrcP1Matrix (o r) = true.
Hypothesis Hok : enc_ok r.
Hypothesis Hpar : 0 < ParityShards r.
Hypothesis Hb : b < Shards r.

Lemma chosen_pred_single sel :
  chosen_pred r [b] peers sel = isContainedIn peers sel.
Proof. unfold chosen_pred. rewrite Hlrc. simpl. now rewrite andb_true_r. Qed.

Lemma good_selection c :
  In c (combs (Shards r - 1) 0 (DataShards r)) ->
  good_comb r [b] peers (survivors (Shards r) b) c = true ->
  selection r b peers (sel_of (survivors (Shards r) b) c).
Proof.
  intros Hc Hg. apply combs_In in Hc. destruct Hc as [Hl Hi]. simpl in Hi.
  assert (Hcs : forall s, In s c -> s < Shards r - 1)
    by (intros s Hs; destruct (inc_in_bound _ _ _ _ Hi Hs); lia).
  unfold good_comb in Hg.
  destruct (Invert (select_rows (m r) (sel_of (survivors (Shards r) b) c)))
    as [inv|] eqn:EI; [|discriminate].
  rewrite chosen_pred_single in Hg.
  rewrite sel_of_survivors in * by assumption.
  split.
  - now rewrite length_map.
  - apply (inc_in_weaken _ _ (skip_bad b 0)); [lia|].
    replace (Shards r) with (S (Shards r - 1)) at 1 by lia.
    now apply inc_in_skip_bad.
  - intros Hin. apply in_map_iff in Hin. destruct Hin as [s [E _]].
    now apply skip_bad_neq in E.
  - now apply isContainedIn_spec.
  - now exists inv.
Qed.

Lemma selection_good sel :
  selection r b peers sel ->
  exists c, In c (combs (Shards r - 1) 0 (DataShards r))
            /\ sel_of (survivors (Shards r) b) c = sel
            /\ good_comb r [b] peers (survivors (Shards r) b) c = true.
Proof.
  intros [Hl Hi Hnb Hp [inv Hinv]].
  pose proof (inc_in_unskip b (Shards r) sel 0 Hb Hi Hnb) as Hc. simpl in Hc.
  set (c := map (unskip_bad b) sel) in *.
  assert (Hcs : forall s, In s c -> s < Shards r - 1)
    by (intros s Hs; destruct (inc_in_bound _ _ _ _ Hc Hs); lia).
  assert (Hsel : sel_of (survivors (Shards r) b) c = sel).
  { rewrite sel_of_survivors by assumption. unfold c. rewrite map_map.
    rewrite <- (map_id sel) at 2. apply map_ext_in. intros x Hx.
    apply skip_unskip. intros ->. contradiction. }
  exists c. split; [|split]; auto.
  - apply combs_In. split; [unfold c; now rewrite length_map | exact Hc].
  - unfold good_comb. rewrite Hsel, Hinv, chosen_pred_single.
    now apply isContainedIn_spec.
Qed.

End Single.

Lemma GetSurvivalShards_single r b azLayout :
  useAzureLrcP1Matrix (o r) = true -> enc_ok r -> 0 < ParityShards r ->
  b < Shards r -> find_bad_az b azLayout 0 < length azLayout ->
  (exists sel, selection r b (az_peers azLayout b) sel
               /\ GetSurvivalShards r [b] azLayout = Ok (sel, az_peers azLayout b, None))
  \/ ((forall sel, ~ selection r b (az_peers azLayout b) sel)
      /\ exists e, GetSurvivalShards r [b] azLayout = Ok ([], [], e)).
Proof.
  intros Hlrc Hok Hpar Hb Haz.
  pose proof (ok_shards Hok) as Hs. pose proof (ok_data Hok) as Hd.
  rewrite GetSurvivalShards_eq. change (length [b]) with 1. simpl (1 =? 0).
  replace (Shards r <? DataShards r + 1) with false by (symmetry; apply Nat.ltb_ge; lia).
  rewrite Hlrc. simpl (_ && _). cbn [get nth_error bind].
  rewrite (get_Ok azLayout _ [] Haz). cbn [bind].
  fold (az_peers azLayout b).
  rewrite survival_indices_single by assumption. cbn [bind].
  set (peers := az_peers azLayout b).
  set (sur := survivors (Shards r) b).
  destruct (combination_loop_spec r [b] peers sur (Shards r - 1) (DataShards r))
    with (todo := comb (Shards r - 1) (DataShards r)) (i := 0)
         (st := {| s_comb := seq 0 (DataShards r);
                   s_sub := newMatrix (DataShards r) (DataShards r);
                   s_select := repeat 0 (DataShards r);
                   s_err := None; s_chosen := false |})
    as [st' [E [[Hch [j [Hj [Hg Hsel]]]]|[Hch Hnone]]]]; simpl; auto.
  - unfold sur. now apply length_survivors.
  - intros row. apply (ok_cols Hok).
  - intros s Hs'. unfold sur in *. rewrite length_survivors in Hs' by assumption.
    rewrite nth_survivors by assumption. rewrite (ok_rows Hok).
    unfold skip_bad. destruct (Nat.ltb_spec s b); lia.
  - intros _. symmetry. apply combs_first. lia.
  - apply length_newMatrix.
  - apply width_newMatrix.
  - apply repeat_length.
  - left. exists (s_select st'). rewrite E. cbn [bind]. rewrite Hch. simpl.
    split; [|reflexivity]. rewrite Hsel.
    apply good_selection; auto. apply nth_In. rewrite length_combs. lia.
  - right. rewrite E. cbn [bind]. rewrite Hch. simpl. split; [|eauto].
    intros sel Hsel.
    destruct (selection_good r b peers) with (sel := sel) as [c [Hc [_ Hg]]]; auto.
    destruct (In_nth _ _ [] Hc) as [j [Hj <-]]. rewrite length_combs in Hj.
    rewrite Hnone in Hg by lia. discriminate.
Qed.

(** ** Increasing lists of shard numbers *)

Lemma filter_mem_inc hi sel : forall lo,
  inc_in lo hi sel ->
  filter (fun i => mem i sel) (seq lo (hi - lo)) = sel.
Proof.
  induction sel as [|a t IH]; intros lo H.
  - now apply filter_none.
  - destruct H as [Ha Ht].
    replace (hi - lo) with ((a - lo) + (1 + (hi - S a))) by lia.
    rewrite !seq_app, !filter_app.
    rewrite filter_none.
    2:{ intros x Hx. apply in_seq in Hx. apply mem_false. intros [->|Hin]; [lia|].
        destruct (inc_in_bound _ _ _ _ Ht Hin). lia. }
    replace (lo + (a - lo)) with a by lia. simpl seq.
    cbn [filter mem existsb app]. rewrite Nat.eqb_refl. cbn [orb].
    change ([a] ++ ?x) with (a :: x). f_equal.
    replace (a + 1) with (S a) by lia.
    transitivity (filter (fun i => mem i t) (seq (S a) (hi - S a))); [|now apply IH].
    apply filter_ext_in. intros x Hx. apply in_seq in Hx.
    replace (x =? a) with false by (symmetry; apply Nat.eqb_neq; lia). reflexivity.
Qed.

Lemma filter_mem_sel n sel :
  inc_in 0 n sel -> filter (fun i => mem i sel) (seq 0 n) = sel.
Proof. intros H. pose proof (filter_mem_inc n sel 0 H) as E. now rewrite Nat.sub_0_r in E. Qed.

Lemma invalid_indices_spec n sel :
  inc_in 0 n sel ->
  invalid_indices n sel = Ok (filter (fun i => negb (mem i sel)) (seq 0 n))
  /\ length (filter (fun i => negb (mem i sel)) (seq 0 n)) = n - length sel
  /\ length sel <= n.
Proof.
  intros H.
  pose proof (filter_length (fun i => mem i sel) (seq 0 n)) as Hl.
  rewrite (filter_mem_sel n sel H), length_seq in Hl.
  unfold invalid_indices.
  replace (n <? length sel) with false by (symmetry; apply Nat.ltb_ge; lia).
  replace (length (filter (fun i => negb (mem i sel)) (seq 0 n))) with (n - length sel)
    by lia.
  rewrite Nat.ltb_irrefl, Nat.sub_diag. simpl. rewrite app_nil_r.
  repeat split; lia.
Qed.

Lemma valid_of_invalid n sel :
  inc_in 0 n sel ->
  valid_of_key (length sel) (filter (fun i => negb (mem i sel)) (seq 0 n)) = sel.
Proof.
  intros H. destruct (invalid_indices_spec n sel H) as [_ [Hl Hle]].
  unfold valid_of_key. rewrite Hl.
  replace (length sel + (n - length sel)) with n by lia.
  rewrite (filter_ext_in _ (fun i => mem i sel)).
  - rewrite (filter_mem_sel n sel H). apply firstn_all.
  - intros x Hx. rewrite negb_true_iff || idtac.
    destruct (mem x sel) eqn:E.
    + apply negb_true_iff. apply mem_false. intros Hin. apply filter_In in Hin.
      rewrite E in Hin. destruct Hin. discriminate.
    + apply negb_false_iff. apply mem_In. apply filter_In. rewrite E. auto.
Qed.

(** ** Sums over the shards of a list *)

Lemma bigsum_split n a f :
  a < n ->
  bigsum n f = galAdd (f a) (bigsum n (fun x => if x =? a then x00 else f x)).
Proof.
  intros H. rewrite <- (bigsum_single n a (f a) H). rewrite bigsum_add.
  apply bigsum_ext. intros x _. destruct (x =? a) eqn:E.
  - apply Nat.eqb_eq in E. subst. ring.
  - ring.
Qed.

Lemma bigsum_support n f l :
  NoDup l -> (forall x, In x l -> x < n) ->
  (forall x, x < n -> ~ In x l -> f x = x00) ->
  bigsum n f = bigsum (length l) (fun p => f (nth p l 0)).
Proof.
  revert f. induction l as [|a l IH]; intros f Hnd Hlt Hz.
  - simpl. apply bigsum_zero. intros x Hx. now apply Hz.
  - inversion Hnd as [|? ? Hnot Hnd']; subst.
    rewrite (bigsum_split n a f) by (apply Hlt; now left).
    simpl length. rewrite bigsum_shift. simpl nth at 1. f_equal.
    rewrite (IH (fun x => if x =? a then x00 else f x)); auto.
    + apply bigsum_ext. intros p Hp. simpl.
      replace (nth p l 0 =? a) with false; auto.
      symmetry. apply Nat.eqb_neq. intros E. apply Hnot. rewrite <- E. now apply nth_In.
    + intros x Hx. apply Hlt. now right.
    + intros x Hx Hn. destruct (x =? a) eqn:E; auto.
      apply Hz; auto. intros [->|Hin]; [|contradiction].
      now rewrite Nat.eqb_refl in E.
Qed.

(** ** The steps of [PartialReconstruct] *)

Lemma fill_survivors_from size : forall l k shards,
  0 < size -> (forall i, In i l -> i < length shards) ->
  exists shards',
    range_loop (fun (_ : nat) idx shards =>
                  shard <- get shards idx ;;
                  if len shard =? 0 then set shards idx (make size) else Ok shards)
               k l shards = Ok shards'
    /\ length shards' = length shards
    /\ forall i, nth i shards' nil_slice
                 = if mem i l && (len (nth i shards nil_slice) =? 0) then make size
                   else nth i shards nil_slice.
Proof.
  induction l as [|a l IH]; intros k shards Hsize Hl.
  - exists shards. simpl. auto.
  - assert (Ha : a < length shards) by (apply Hl; now left).
    simpl range_loop. rewrite (get_Ok shards a nil_slice Ha). cbn [bind].
    destruct (len (nth a shards nil_slice) =? 0) eqn:E.
    + rewrite set_Ok by assumption. cbn [bind].
      destruct (IH (S k) (upd shards a (make size)) Hsize) as [s' [E' [Hl' Hn]]].
      { intros i Hi. rewrite length_upd. apply Hl. now right. }
      exists s'. split; [exact E'|]. split; [now rewrite Hl', length_upd|].
      intros i. rewrite Hn. cbn [mem existsb]. fold (mem i l).
      rewrite nth_upd. apply Nat.ltb_lt in Ha as Ha'. rewrite Ha', andb_true_r.
      destruct (i =? a) eqn:Ei.
      * apply Nat.eqb_eq in Ei. subst i. rewrite E, len_make. simpl.
        replace (size =? 0) with false by (symmetry; apply Nat.eqb_neq; lia).
        now rewrite andb_false_r.
      * reflexivity.
    + cbn [bind].
      destruct (IH (S k) shards Hsize) as [s' [E' [Hl' Hn]]].
      { intros i Hi. apply Hl. now right. }
      exists s'. split; [exact E'|]. split; [assumption|].
      intros i. rewrite Hn. cbn [mem existsb]. fold (mem i l).
      destruct (i =? a) eqn:Ei; auto.
      apply Nat.eqb_eq in Ei. subst i. rewrite E. simpl. now rewrite andb_false_r.
Qed.

Lemma fill_survivors_spec size l shards :
  0 < size -> (forall i, In i l -> i < length shards) ->
  exists shards',
    fill_survivors size l shards = Ok shards'
    /\ length shards' = length shards
    /\ forall i, nth i shards' nil_slice
                 = if mem i l && (len (nth i shards nil_slice) =? 0) then make size
                   else nth i shards nil_slice.
Proof. apply fill_survivors_from. Qed.

Lemma filter_seq_S f i :
  filter f (seq 0 (S i)) = filter f (seq 0 i) ++ (if f i then [i] else []).
Proof. rewrite seq_S, filter_app. simpl. now destruct (f i). Qed.

Lemma filter_seq_le f i n :
  i <= n -> length (filter f (seq 0 i)) <= length (filter f (seq 0 n)).
Proof.
  intros H. replace n with (i + (n - i)) by lia.
  rewrite seq_app, filter_app, length_app. lia.
Qed.

Lemma collect_survivors_spec r sel shards :
  inc_in 0 (Shards r) sel -> length sel = DataShards r -> length shards = Shards r ->
  collect_survivors r sel shards = Ok (map (fun i => nth i shards nil_slice) sel).
Proof.
  intros Hinc Hlen Hsh. unfold collect_survivors.
  pose proof (filter_mem_sel (Shards r) sel Hinc) as Hall.
  destruct (loop_invariant
              (fun i (st : list slice * nat) =>
                 i <= Shards r
                 /\ snd st = length (filter (fun x => mem x sel) (seq 0 i))
                 /\ fst st = map (fun x => nth x shards nil_slice)
                                 (filter (fun x => mem x sel) (seq 0 i))
                             ++ repeat nil_slice (DataShards r - snd st))
              (fun i (st : list slice * nat) =>
                 let '(sub, row) := st in
                 if mem i sel then
                   shard <- get shards i ;;
                   sub <- set sub row shard ;;
                   Ok (sub, S row)
                 else Ok st)
              (Shards r) 0 (repeat nil_slice (DataShards r), 0))
    as [[sub row] [E [_ [Hrow Hsub]]]].
  - simpl. split; [lia|]. split; auto. now rewrite Nat.sub_0_r.
  - intros i [sub row] Hi [_ [Hrow Hsub]]. simpl in Hrow, Hsub, Hi.
    pose proof (filter_seq_le (fun x => mem x sel) (S i) (Shards r)) as Hle.
    rewrite Hall, Hlen, filter_seq_S in Hle. rewrite length_app in Hle.
    rewrite filter_seq_S.
    destruct (mem i sel) eqn:Em.
    + simpl in Hle.
      rewrite (get_Ok shards i nil_slice) by lia. cbn [bind].
      rewrite set_Ok by (rewrite Hsub, length_app, length_map, repeat_length; lia).
      cbn [bind]. eexists. split; [reflexivity|]. simpl.
      split; [lia|]. split; [rewrite length_app; simpl; lia|].
      rewrite Hsub. rewrite map_app, <- app_assoc. simpl.
      set (F := map (fun x => nth x shards nil_slice)
                    (filter (fun x => mem x sel) (seq 0 i))).
      assert (HF : row = length F) by (unfold F; rewrite length_map; lia).
      rewrite HF.
      replace (DataShards r - length F) with (S (DataShards r - S (length F))) by lia.
      simpl repeat. apply upd_app_mid.
    + eexists. split; [reflexivity|]. simpl.
      split; [lia|]. rewrite app_nil_r. auto.
  - simpl in Hrow, Hsub. rewrite E. cbn [bind]. f_equal.
    rewrite Hsub, Hrow, Hall, Hlen, Nat.sub_diag. simpl. apply app_nil_r.
Qed.

Lemma loop_skip {S : Type} (body : nat -> S -> outcome S) : forall count start s,
  (forall i s, start <= i < start + count -> body i s = Ok s) ->
  loop body start count s = Ok s.
Proof.
  induction count as [|count IH]; intros start s H; simpl; auto.
  rewrite H by lia. cbn [bind]. apply IH. intros i s' Hi. apply H. lia.
Qed.

Lemma loop_at_one {S : Type} (body : nat -> S -> outcome S) b s1 : forall count start s,
  start <= b < start + count ->
  (forall i s, i <> b -> body i s = Ok s) ->
  body b s = Ok s1 ->
  loop body start count s = Ok s1.
Proof.
  induction count as [|count IH]; intros start s Hb Hother Hat; [lia|].
  simpl. destruct (Nat.eq_dec start b) as [->|Hne].
  - rewrite Hat. cbn [bind]. apply loop_skip. intros i s' Hi. apply Hother. lia.
  - rewrite Hother by assumption. cbn [bind]. apply IH; auto. lia.
Qed.

Lemma final_decode_single r b dec :
  enc_ok r -> b < Shards r -> length dec = DataShards r ->
  final_decode r [b] dec = Ok (Success [row_mul (nth b (m r) []) dec]).
Proof.
  intros Hok Hb Hdec. unfold final_decode, copy_rows.
  rewrite (copy_rows_from (m r) (DataShards r)).
  - cbn [bind]. f_equal. simpl. unfold Multiply_dim, rows.
    rewrite Hdec, Nat.eqb_refl. reflexivity.
  - intros row. apply (ok_cols Hok).
  - intros i [<-|[]]. now rewrite (ok_rows Hok).
  - rewrite length_newMatrix. simpl. lia.
  - apply width_newMatrix.
Qed.

(** ** Recovering a shard from its peers *)

Section Recover.

Variables (r : reedSolomon) (t : inversionTree) (b : nat) (peers sel : list nat).
Variables (size : nat) (E shards : list slice).

Hypothesis Hok : enc_ok r.
Hypothesis Hsys : systematic (DataShards r) (m r).
Hypothesis Ht : tree_ok r t.
Hypothesis Hpar : 0 < ParityShards r.
Hypothesis Hsel : selection r b peers sel.
Hypothesis Hrel : local_relation r b peers.
Hypothesis Hb : b < Shards r.
Hypothesis Hcw : codeword r size E.
Hypothesis Hsize : 0 < size.
Hypothesis Hlen : length shards = Shards r.
Hypothesis Hpresent :
  forall i, In i peers -> nth i shards nil_slice = nth i E nil_slice.
Hypothesis Habsent :
  forall i, i < Shards r -> ~ In i peers -> len (nth i shards nil_slice) = 0.
Hypothesis Hsome : peers <> [].

Lemma sel_lt i : In i sel -> i < Shards r.
Proof. intros H. destruct (inc_in_bound _ _ _ _ (sel_inc Hsel) H). lia. Qed.

Lemma sel_nth_lt c : c < DataShards r -> nth c sel 0 < Shards r.
Proof. intros H. apply sel_lt, nth_In. now rewrite (sel_length Hsel). Qed.

Lemma peers_lt i : In i peers -> i < Shards r.
Proof. intros H. apply sel_lt. now apply (sel_peers Hsel). Qed.

Lemma peers_support (g : nat -> byte) :
  bigsum (Shards r) (fun x => galMultiply (if mem x peers then x01 else x00) (g x))
  = bigsum (DataShards r)
      (fun p => galMultiply (if mem (nth p sel 0) peers then x01 else x00)
                            (g (nth p sel 0))).
Proof.
  rewrite <- (sel_length Hsel).
  apply (bigsum_support (Shards r)
           (fun x => galMultiply (if mem x peers then x01 else x00) (g x)) sel).
  - apply (inc_in_NoDup _ _ _ (sel_inc Hsel)).
  - apply sel_lt.
  - intros x Hx Hn. replace (mem x peers) with false; [ring|].
    symmetry. apply mem_false. intros Hin. apply Hn. now apply (sel_peers Hsel).
Qed.

Lemma decode_weights dec c :
  decodes r sel dec -> c < DataShards r ->
  nth c (row_mul (nth b (m r) []) dec) x00
  = if mem (nth c sel 0) peers then x01 else x00.
Proof.
  intros [Hdl [Hdw [_ Hinv]]] Hc.
  rewrite nth_row_mul by (rewrite (cols_width (DataShards r)); auto; rewrite Hdl; apply (ok_data Hok)).
  rewrite (dot_column _ dec c (DataShards r) Hdl).
  rewrite (bigsum_ext _ _ (fun k => bigsum (DataShards r) (fun p =>
             galMultiply (if mem (nth p sel 0) peers then x01 else x00)
               (galMultiply (entry (select_rows (m r) sel) p k) (entry dec k c))))).
  2:{ intros k Hk. fold (entry (m r) b k). rewrite (Hrel k Hk).
      rewrite (peers_support (fun x => entry (m r) x k)).
      rewrite bigsum_scale_r. apply bigsum_ext. intros p Hp.
      unfold entry at 3. rewrite nth_select_rows by (rewrite (sel_length Hsel); lia).
      fold (entry (m r) (nth p sel 0) k). ring. }
  rewrite bigsum_exchange.
  rewrite (bigsum_ext _ _ (fun p => galMultiply
             (if mem (nth p sel 0) peers then x01 else x00) (delta p c))).
  2:{ intros p Hp. rewrite <- bigsum_scale. f_equal. now apply Hinv. }
  now apply (bigsum_delta_r (DataShards r) c
               (fun p => if mem (nth p sel 0) peers then x01 else x00)).
Qed.

Lemma peers_sum q :
  q < size ->
  bigsum (Shards r)
    (fun x => galMultiply (if mem x peers then x01 else x00) (shard_byte E x q))
  = shard_byte E b q.
Proof.
  intros Hq. rewrite (cw_coded Hcw Hb Hq). unfold coded_byte.
  rewrite (bigsum_ext _ _ (fun x => bigsum (DataShards r) (fun k =>
             galMultiply (galMultiply (if mem x peers then x01 else x00)
                                      (entry (m r) x k))
                         (shard_byte E k q)))).
  2:{ intros x Hx. rewrite (cw_coded Hcw Hx Hq). unfold coded_byte.
      rewrite bigsum_scale. apply bigsum_ext. intros k Hk. unfold entry. ring. }
  rewrite bigsum_exchange. apply bigsum_ext. intros k Hk.
  rewrite <- bigsum_scale_r. f_equal. fold (entry (m r) b k). symmetry. now apply Hrel.
Qed.

Lemma recovered_byte dec shards1 q :
  decodes r sel dec ->
  (forall i, nth i shards1 nil_slice
             = if mem i sel && (len (nth i shards nil_slice) =? 0) then make size
               else nth i shards nil_slice) ->
  q < size ->
  coded_byte (row_mul (nth b (m r) []) dec)
             (map (fun i => nth i shards1 nil_slice) sel) (DataShards r) q
  = shard_byte E b q.
Proof.
  intros Hdec Hn1 Hq. unfold coded_byte.
  rewrite (bigsum_ext _ _ (fun p =>
             galMultiply (if mem (nth p sel 0) peers then x01 else x00)
                         (shard_byte E (nth p sel 0) q))).
  - rewrite <- (peers_support (fun x => shard_byte E x q)). now apply peers_sum.
  - intros p Hp. rewrite (decode_weights dec p Hdec Hp).
    destruct (mem (nth p sel 0) peers) eqn:Em; [|ring].
    f_equal. apply mem_In in Em. unfold shard_byte.
    rewrite (nth_indep _ nil_slice ((fun i => nth i shards1 nil_slice) 0))
      by (rewrite length_map, (sel_length Hsel); lia).
    rewrite (map_nth (fun i => nth i shards1 nil_slice)).
    rewrite Hn1, (Hpresent _ Em).
    rewrite (cw_len Hcw (peers_lt _ Em)).
    replace (size =? 0) with false by (symmetry; apply Nat.eqb_neq; lia).
    now rewrite andb_false_r.
Qed.

(** [PartialReconstruct] with the selection and the peers' shards gives the
    failed shard its bytes back. *)
Lemma PartialReconstruct_recovers :
  exists restored t',
    PartialReconstruct r t shards sel [b] = Ok (None, restored, t')
    /\ tree_ok r t'
    /\ length restored = Shards r
    /\ bytes (nth b restored nil_slice) = bytes (nth b E nil_slice).
Proof.
  pose proof (ok_data Hok) as Hd. pose proof (ok_shards Hok) as Hs.
  assert (Hbsel : ~ In b sel) by apply (sel_bad Hsel).
  assert (Hbp : ~ In b peers) by (intros H; apply Hbsel; now apply (sel_peers Hsel)).
  assert (Hmixed : Forall (fun shard => len shard = size \/ len shard = 0) shards).
  { apply Forall_forall. intros s Hin.
    destruct (In_nth shards s nil_slice Hin) as [i [Hi <-]]. rewrite Hlen in Hi.
    destruct (in_dec Nat.eq_dec i peers) as [Hp|Hp].
    - left. rewrite Hpresent by assumption. now apply (cw_len Hcw).
    - right. now apply Habsent. }
  assert (Hex : exists shard, In shard shards /\ len shard = size).
  { assert (Hp : exists p, In p peers).
    { clear - Hsome. destruct peers as [|p ps]; [contradiction|]. exists p. now left. }
    destruct Hp as [p Hp]. exists (nth p shards nil_slice). split.
    - apply nth_In. rewrite Hlen. now apply peers_lt.
    - rewrite Hpresent by assumption. apply (cw_len Hcw). now apply peers_lt. }
  unfold PartialReconstruct.
  rewrite Hlen, Nat.eqb_refl. cbn [negb].
  rewrite (inc_in_incremental _ _ _ (sel_inc Hsel)). cbn [negb].
  change (incremental [b]) with true. cbn [negb].
  replace (numberPresent shards =? Shards r) with false.
  2:{ symmetry. apply Nat.eqb_neq. intros Hall. rewrite <- Hlen in Hall.
      apply numberPresent_all_inv in Hall. rewrite Forall_forall in Hall.
      apply (Hall (nth b shards nil_slice)); [apply nth_In; lia | now apply Habsent]. }
  rewrite (present_in_survival r shards sel Hlen).
  2:{ intros i Hi Hp. apply mem_In. apply (sel_peers Hsel).
      destruct (in_dec Nat.eq_dec i peers); auto. exfalso. apply Hp. now apply Habsent. }
  destruct (invalid_indices_spec (Shards r) sel (sel_inc Hsel)) as [Einv [Hil Hle]].
  rewrite Einv. cbn [bind].
  destruct (decode_matrix_general r t sel
              (filter (fun i => negb (mem i sel)) (seq 0 (Shards r))) Hok Hsys Ht)
    as [dec [t' [Ed [Hdec Ht']]]].
  { rewrite <- (sel_length Hsel). symmetry. apply valid_of_invalid. apply (sel_inc Hsel). }
  { apply (sel_length Hsel). }
  { apply sel_lt. }
  { apply (sel_invert Hsel). }
  rewrite Ed. cbn [bind].
  pose proof Hdec as [Hdl [Hdw _]].
  rewrite (final_decode_single r b dec Hok Hb Hdl). cbn [bind].
  rewrite (shardSize_mixed shards size Hmixed Hex).
  destruct (fill_survivors_spec size sel shards Hsize) as [shards1 [Ef [Hl1 Hn1]]].
  { intros i Hi. rewrite Hlen. now apply sel_lt. }
  rewrite Ef. cbn [bind].
  rewrite (collect_survivors_spec r sel shards1)
    by (try apply (sel_inc Hsel); try apply (sel_length Hsel); lia).
  cbn [bind].
  set (pb := prepared size (nth b shards1 nil_slice)).
  set (sub := map (fun i => nth i shards1 nil_slice) sel).
  set (w := row_mul (nth b (m r) []) dec).
  rewrite (loop_at_one (gather_bad size [b]) b
             {| g_shards := upd shards1 b pb;
                g_outputs := upd (repeat nil_slice (ParityShards r)) 0 pb;
                g_rows := []; g_index := [b] |}).
  2:{ lia. }
  2:{ intros i g Hi. unfold gather_bad. cbn [mem existsb].
      replace (i =? b) with false by (symmetry; apply Nat.eqb_neq; lia). reflexivity. }
  2:{ unfold gather_bad. cbn [mem existsb]. rewrite Nat.eqb_refl. cbn [orb].
      unfold gather_output. cbn [g_shards g_outputs g_index g_rows].
      rewrite (get_Ok shards1 b nil_slice) by lia. cbn [bind].
      rewrite (proj1 (prepared_spec size _)). cbn [bind].
      rewrite set_Ok by lia. cbn [bind].
      rewrite set_Ok by (rewrite repeat_length; simpl; lia). reflexivity. }
  cbn [bind g_outputs g_index g_shards length].
  rewrite slice_to_Ok by (rewrite length_upd, repeat_length; lia). cbn [bind].
  assert (Hfirst : firstn 1 (upd (repeat nil_slice (ParityShards r)) 0 pb) = [pb]).
  { destruct (ParityShards r); [lia|]. reflexivity. }
  rewrite Hfirst.
  rewrite codeSomeShards_spec; auto.
  - cbn [bind]. eexists. exists t'. split; [reflexivity|]. split; [assumption|]. split.
    + simpl. rewrite !length_upd. lia.
    + simpl scatter. rewrite nth_upd_eq by (rewrite length_upd; lia).
      rewrite bytes_pw_const by apply prepared_spec.
      rewrite (bytes_as_map (nth b E nil_slice) size) by now apply (cw_len Hcw).
      apply map_ext_in. intros q Hq. apply in_seq in Hq.
      apply recovered_byte; auto. lia.
  - apply (ok_split Hok).
  - unfold sub. rewrite length_map, (sel_length Hsel). lia.
  - intros c Hc. unfold sub.
    rewrite (nth_indep _ nil_slice ((fun i => nth i shards1 nil_slice) 0))
      by (rewrite length_map, (sel_length Hsel); lia).
    rewrite (map_nth (fun i => nth i shards1 nil_slice)). rewrite Hn1.
    replace (mem (nth c sel 0) sel) with true
      by (symmetry; apply mem_In, nth_In; rewrite (sel_length Hsel); lia).
    rewrite Forall_forall in Hmixed.
    destruct (Hmixed (nth (nth c sel 0) shards nil_slice)) as [Hm|Hm].
    + apply nth_In. rewrite Hlen. now apply sel_nth_lt.
    + rewrite Hm. replace (size =? 0) with false by (symmetry; apply Nat.eqb_neq; lia).
      simpl. exact Hm.
    + rewrite Hm. simpl. apply len_make.
  - intros i Hi. replace i with 0 by lia. unfold w. simpl nth.
    rewrite length_row_mul, (cols_width (DataShards r)); auto. lia.
  - intros i Hi. replace i with 0 by lia. simpl. apply prepared_spec.
Qed.

End Recover.

(** * The matrix product of [PartialReconstruct] *)

Lemma copy_rows_bad src n idxs :
  width n src -> (forall i, In i idxs -> i < length src) ->
  copy_rows src n idxs (newMatrix (length idxs) n) = Ok (select_rows src idxs).
Proof.
  intros Hw Hin. unfold copy_rows.
  rewrite copy_rows_from; auto.
  - simpl. rewrite skipn_all2 by (rewrite length_newMatrix; lia).
    now rewrite app_nil_r.
  - rewrite length_newMatrix. lia.
  - apply width_newMatrix.
Qed.

(** C8, amended.  Inside [PartialReconstruct] the product of the bad-row
    encode matrix with the data-decode matrix never fails.  The decode matrix,
    whether it comes from the cache or from [Invert], has [DataShards] rows,
    and the encode matrix is dimensioned [len(badIdx) x DataShards].  With bad
    indices below [Shards] the product is the matrix whose rows are the rows
    of the encoding matrix at [badIdx], each multiplied by the decode matrix,
    and the call goes on to the coder with it: the [return nil] that follows a
    failed product is never reached. *)
Theorem PartialReconstruct_product_never_fails
  (r : reedSolomon) (t t' : inversionTree) (shards : list slice)
  (survivalIdx badIdx invalidIndices : list nat) (dec : matrix) :
  enc_ok r ->
  tree_shape r t ->
  length shards = Shards r ->
  incremental survivalIdx = true ->
  incremental badIdx = true ->
  numberPresent shards <> Shards r ->
  (forall i, i < Shards r -> len (nth i shards nil_slice) <> 0 ->
             mem i survivalIdx = true) ->
  invalid_indices (Shards r) survivalIdx = Ok invalidIndices ->
  decode_matrix r t survivalIdx invalidIndices = Ok (Success dec, t') ->
  (forall e, final_decode r badIdx dec <> Ok (Failure e))
  /\ ((forall b, In b badIdx -> b < Shards r) ->
      final_decode r badIdx dec
      = Ok (Success (map (fun b => row_mul (nth b (m r) []) dec) badIdx))
      /\ PartialReconstruct r t shards survivalIdx badIdx
         = partial_code r t' (map (fun b => row_mul (nth b (m r) []) dec) badIdx)
                        survivalIdx badIdx shards).
Proof.
  intros Hok Ht Hlen Hs Hbi Hnp Hmem Hinv Hdec.
  destruct (decode_matrix_rows r t survivalIdx invalidIndices dec t' Ht Hdec) as [Hr _].
  split.
  - intros e. now apply final_decode_defined.
  - intros Hb.
    assert (Hfin : final_decode r badIdx dec
                   = Ok (Success (map (fun b => row_mul (nth b (m r) []) dec) badIdx))).
    { unfold final_decode.
      rewrite copy_rows_bad.
      + cbn [bind]. unfold Multiply_dim. rewrite Hr, Nat.eqb_refl.
        unfold select_rows. rewrite map_map. reflexivity.
      + intros row. apply (ok_cols Hok).
      + intros i Hi. rewrite (ok_rows Hok). now apply Hb. }
    split; [exact Hfin|].
    unfold PartialReconstruct, partial_code.
    rewrite Hlen, Nat.eqb_refl, Hs, Hbi. cbn [negb].
    apply Nat.eqb_neq in Hnp. rewrite Hnp.
    rewrite (present_in_survival r shards survivalIdx Hlen Hmem).
    rewrite Hinv. cbn [bind]. rewrite Hdec. cbn [bind]. rewrite Hfin. cbn [bind].
    reflexivity.
Qed.

Lemma PartialReconstruct_product_never_fails_witness :
  (forall e, final_decode enc_2_1 [0] [[xf5; xf4]; [x01; x00]] <> Ok (Failure e))
  /\ ((forall b, In b [0] -> b < Shards enc_2_1) ->
      final_decode enc_2_1 [0] [[xf5; xf4]; [x01; x00]]
      = Ok (Success (map (fun b => row_mul (nth b (m enc_2_1) [])
                                     [[xf5; xf4]; [x01; x00]]) [0]))
      /\ PartialReconstruct enc_2_1 newInversionTree
           [nil_slice; shard_of [7]; shard_of [1]] [1; 2] [0]
         = partial_code enc_2_1 [([0], [[xf5; xf4]; [x01; x00]])]
             (map (fun b => row_mul (nth b (m enc_2_1) [])
                              [[xf5; xf4]; [x01; x00]]) [0])
             [1; 2] [0] [nil_slice; shard_of [7]; shard_of [1]]).
Proof.
  apply (PartialReconstruct_product_never_fails enc_2_1 newInversionTree
           [([0], [[xf5; xf4]; [x01; x00]])]
           [nil_slice; shard_of [7]; shard_of [1]] [1; 2] [0] [0]
           [[xf5; xf4]; [x01; x00]]).
  - exact enc_2_1_ok.
  - intros key mx H. discriminate H.
  - reflexivity.
  - reflexivity.
  - reflexivity.
  - vm_compute. lia.
  - intros [|[|[|i]]] Hi Hl; simpl in Hi; try lia; try reflexivity.
    exfalso. apply Hl. reflexivity.
  - vm_compute. reflexivity.
  - vm_compute. reflexivity.
Defined.

(** ** Loops that write one cell of a matrix at a time *)

Lemma mset_inv mx r c v mx' :
  mset mx r c v = Ok mx' ->
  r < length mx /\ c < length (nth r mx []) /\ mx' = upd mx r (upd (nth r mx []) c v).
Proof.
  unfold mset. intros E.
  apply bind_Ok_inv in E. destruct E as [row [E1 E]].
  apply bind_Ok_inv in E. destruct E as [row' [E2 E3]].
  destruct (get_inv mx r row [] E1) as [Hr ->].
  destruct (set_inv _ _ _ _ E2) as [Hc ->].
  destruct (set_inv _ _ _ _ E3) as [_ ->]. auto.
Qed.

Lemma mget_inv mx r c v :
  mget mx r c = Ok v -> v = entry mx r c /\ r < length mx /\ c < length (nth r mx []).
Proof.
  unfold mget. intros E.
  apply bind_Ok_inv in E. destruct E as [row [E1 E2]].
  destruct (get_inv mx r row [] E1) as [Hr ->].
  destruct (get_inv _ c v x00 E2) as [Hc ->]. auto.
Qed.

Lemma mset_entry mx r c v mx' :
  mset mx r c v = Ok mx' ->
  forall r' c', entry mx' r' c'
                = if (r' =? r) && (c' =? c) then v else entry mx r' c'.
Proof.
  intros E r' c'. destruct (mset_inv _ _ _ _ _ E) as [Hr [Hc ->]].
  unfold entry. rewrite nth_upd. apply Nat.ltb_lt in Hr as Hr'. rewrite Hr', andb_true_r.
  destruct (r' =? r) eqn:Er; simpl; auto.
  apply Nat.eqb_eq in Er. subst r'.
  rewrite nth_upd. apply Nat.ltb_lt in Hc as Hc'. rewrite Hc', andb_true_r.
  reflexivity.
Qed.

Lemma mset_value mx r c v w mx' :
  mset mx r c v = Ok mx' -> v = w -> mset mx r c w = Ok mx'.
Proof. now intros E <-. Qed.

Section CellsLoop.

Variables (body : nat -> matrix -> outcome matrix) (R C : nat -> nat) (f : nat -> byte).
Variables (start count : nat) (vm0 : matrix).

Hypothesis Hinj :
  forall x x', start <= x < start + count -> start <= x' < start + count ->
               R x = R x' -> C x = C x' -> x = x'.
Hypothesis Hbody :
  forall vm x vm',
    start <= x < start + count ->
    same_shape vm vm0 ->
    (forall r c, (forall x', start <= x' < x -> ~ (r = R x' /\ c = C x')) ->
                 entry vm r c = entry vm0 r c) ->
    body x vm = Ok vm' -> mset vm (R x) (C x) (f x) = Ok vm'.

Lemma cells_loop vm' :
  loop body start count vm0 = Ok vm' ->
  same_shape vm' vm0
  /\ (forall x, start <= x < start + count -> entry vm' (R x) (C x) = f x)
  /\ (forall r c, (forall x, start <= x < start + count -> ~ (r = R x /\ c = C x)) ->
                  entry vm' r c = entry vm0 r c).
Proof.
  intros E.
  apply (loop_result
           (fun k vm =>
              k <= start + count
              /\ same_shape vm vm0
              /\ (forall x, start <= x < k -> entry vm (R x) (C x) = f x)
              /\ (forall r c, (forall x, start <= x < k -> ~ (r = R x /\ c = C x)) ->
                              entry vm r c = entry vm0 r c))
           body count start vm0 vm') in E.
  - tauto.
  - split; [lia|]. split; [apply same_shape_refl|]. split.
    + intros x Hx. lia.
    + reflexivity.
  - intros k vm vm1 Hk [_ [Hs [Hf Hu]]] Eb.
    apply Hbody in Eb; auto.
    pose proof (mset_entry _ _ _ _ _ Eb) as He.
    split; [lia|]. split; [|split].
    + apply (same_shape_trans _ vm); auto. now apply (mset_same_shape _ _ _ _ _ Eb).
    + intros x Hx. rewrite He.
      destruct (Nat.eq_dec x k) as [->|Hne].
      * now rewrite !Nat.eqb_refl.
      * destruct ((R x =? R k) && (C x =? C k)) eqn:Eq.
        -- apply andb_true_iff in Eq. destruct Eq as [E1 E2].
           apply Nat.eqb_eq in E1, E2. exfalso. apply Hne. apply Hinj; auto; lia.
        -- apply Hf. lia.
    + intros r c Hrc. rewrite He.
      destruct ((r =? R k) && (c =? C k)) eqn:Eq.
      * apply andb_true_iff in Eq. destruct Eq as [E1 E2].
        apply Nat.eqb_eq in E1, E2. exfalso. apply (Hrc k); auto. lia.
      * apply Hu. intros x Hx. apply Hrc. lia.
Qed.

End CellsLoop.

(** Reading a row and a shape through [same_shape]. *)

Lemma same_shape_sym a b : same_shape a b -> same_shape b a.
Proof. intros [H1 H2]. split; auto. Qed.

Lemma same_shape_width n a b : same_shape a b -> width n b -> width n a.
Proof.
  intros [H1 H2] Hw. apply width_nth. intros r Hr. rewrite H2.
  apply (proj1 (width_nth n b) Hw). lia.
Qed.

Lemma entry_ext_row n a b r :
  length (nth r a []) = n -> length (nth r b []) = n ->
  (forall c, c < n -> entry a r c = entry b r c) -> nth r a [] = nth r b [].
Proof.
  intros Ha Hb H. apply (nth_ext_lt _ _ x00); [congruence|].
  intros c Hc. apply H. lia.
Qed.

(** ** Column and row operations of the Jerasure builder *)

Lemma scale_column_spec c tmp from count vm vm' :
  scale_column c tmp from count vm = Ok vm' ->
  same_shape vm' vm
  /\ forall r c', entry vm' r c'
                  = if (c' =? c) && (from <=? r) && (r <? from + count)
                    then galMultiply (entry vm r c) tmp else entry vm r c'.
Proof.
  unfold scale_column. intros E.
  apply (cells_loop _ (fun x => x) (fun _ => c)
                    (fun x => galMultiply (entry vm x c) tmp)) in E.
  - destruct E as [Hs [Hf Hu]]. split; [assumption|]. intros r c'.
    destruct ((c' =? c) && (from <=? r) && (r <? from + count)) eqn:Eq.
    + apply andb_true_iff in Eq. destruct Eq as [Eq E3].
      apply andb_true_iff in Eq. destruct Eq as [E1 E2].
      apply Nat.eqb_eq in E1. apply Nat.leb_le in E2. apply Nat.ltb_lt in E3. subst c'.
      apply (Hf r). lia.
    + apply Hu. intros x Hx [-> ->].
      rewrite Nat.eqb_refl in Eq. simpl in Eq.
      destruct (Nat.leb_spec from x), (Nat.ltb_spec x (from + count)); simpl in Eq;
        try discriminate; lia.
  - intros x x' _ _ H _. exact H.
  - intros vm1 x vm2 Hx Hs Hu Eb.
    apply bind_Ok_inv in Eb. destruct Eb as [v [E1 E2]].
    apply mget_inv in E1. destruct E1 as [-> _].
    apply (mset_value _ _ _ _ _ _ E2). f_equal. apply Hu.
    intros x' Hx' [H1 _]. lia.
Qed.

Lemma column_addmul_spec i j tmp total vm vm' :
  loop (fun r vm => a <- mget vm r j ;; b <- mget vm r i ;;
                    mset vm r j (galAdd a (galMultiply tmp b))) 0 total vm = Ok vm' ->
  same_shape vm' vm
  /\ forall r c', entry vm' r c'
                  = if (c' =? j) && (r <? total)
                    then galAdd (entry vm r j) (galMultiply tmp (entry vm r i))
                    else entry vm r c'.
Proof.
  intros E.
  apply (cells_loop _ (fun x => x) (fun _ => j)
           (fun x => galAdd (entry vm x j) (galMultiply tmp (entry vm x i)))) in E.
  - destruct E as [Hs [Hf Hu]]. split; [assumption|]. intros r c'.
    destruct ((c' =? j) && (r <? total)) eqn:Eq.
    + apply andb_true_iff in Eq. destruct Eq as [E1 E2].
      apply Nat.eqb_eq in E1. apply Nat.ltb_lt in E2. subst c'.
      apply (Hf r). lia.
    + apply Hu. intros x Hx [-> ->].
      rewrite Nat.eqb_refl in Eq. simpl in Eq. apply Nat.ltb_ge in Eq. lia.
  - intros x x' _ _ H _. exact H.
  - intros vm1 x vm2 Hx Hs Hu Eb.
    apply bind_Ok_inv in Eb. destruct Eb as [a [E1 Eb]].
    apply bind_Ok_inv in Eb. destruct Eb as [b [E2 E3]].
    apply mget_inv in E1. destruct E1 as [-> _].
    apply mget_inv in E2. destruct E2 as [-> _].
    apply (mset_value _ _ _ _ _ _ E3). f_equal; [|f_equal].
    + apply Hu. intros x' Hx' [H1 _]. lia.
    + apply Hu. intros x' Hx' [H1 _]. lia.
Qed.

Lemma scale_row_spec r tmp count vm vm' :
  scale_row r tmp count vm = Ok vm' ->
  same_shape vm' vm
  /\ forall r' c', r' <> r -> entry vm' r' c' = entry vm r' c'.
Proof.
  unfold scale_row. intros E.
  apply (cells_loop _ (fun _ => r) (fun x => x)
                    (fun x => galMultiply (entry vm r x) tmp)) in E.
  - destruct E as [Hs [_ Hu]]. split; [assumption|]. intros r' c' Hne.
    apply Hu. intros x Hx [H1 _]. contradiction.
  - intros x x' _ _ _ H. exact H.
  - intros vm1 x vm2 Hx Hs Hu Eb.
    apply bind_Ok_inv in Eb. destruct Eb as [v [E1 E2]].
    apply mget_inv in E1. destruct E1 as [-> _].
    apply (mset_value _ _ _ _ _ _ E2). f_equal. apply Hu.
    intros x' Hx' [_ H1]. lia.
Qed.

Lemma jerasure_find_row_ge vm i : forall count r r',
  jerasure_find_row vm i r count = Ok r' -> r <= r'.
Proof.
  induction count as [|count IH]; intros r r' E; simpl in E.
  - injection E as <-. lia.
  - apply bind_Ok_inv in E. destruct E as [v [_ E]].
    destruct (Byte.eqb v x00).
    + apply IH in E. lia.
    + injection E as <-. lia.
Qed.

Lemma galDivide_or_panic_inv d tmp :
  galDivide_or_panic x01 d = Ok tmp -> galMultiply d tmp = x01.
Proof.
  unfold galDivide_or_panic. intros E.
  destruct (byte_eq_dec d x00) as [->|Hd].
  - rewrite galDivide_0 in E. discriminate.
  - rewrite (galDivide_1 d Hd) in E. injection E as <-. now apply invTable_spec.
Qed.

(** ** The normalisation loop: the rows above [i] are unit rows *)


Lemma same_shape_shape rows cols a b : same_shape a b -> shape rows cols b -> shape rows cols a.
Proof.
  intros Hs [Hl Hw]. split.
  - destruct Hs as [H _]. congruence.
  - now apply (same_shape_width _ _ b).
Qed.

Lemma swap_rows_spec (vm : matrix) r i vm' :
  (t <- get vm r ;; vi <- get vm i ;; vm1 <- set vm r vi ;; set vm1 i t) = Ok vm' ->
  r < length vm /\ i < length vm
  /\ vm' = upd (upd vm r (nth i vm [])) i (nth r vm []).
Proof.
  intros E.
  apply bind_Ok_inv in E. destruct E as [t [E1 E]].
  apply bind_Ok_inv in E. destruct E as [vi [E2 E]].
  apply bind_Ok_inv in E. destruct E as [vm1 [E3 E4]].
  destruct (get_inv vm r t [] E1) as [Hr ->].
  destruct (get_inv vm i vi [] E2) as [Hi ->].
  destruct (set_inv _ _ _ _ E3) as [_ ->].
  destruct (set_inv _ _ _ _ E4) as [_ ->]. auto.
Qed.

Section JerasureStep.

Variables (n total i : nat).
Hypothesis Hi : i < n.

Lemma jerasure_eliminate vm vm' :
  shape total n vm -> unit_rows i n vm -> entry vm i i = x01 ->
  loop (fun j vm =>
          tmp <- mget vm i j ;;
          if negb (j =? i) && negb (Byte.eqb tmp x00) then
            loop (fun r vm =>
                    a <- mget vm r j ;; b <- mget vm r i ;;
                    mset vm r j (galAdd a (galMultiply tmp b)))
                 0 total vm
          else Ok vm)
       0 n vm = Ok vm' ->
  shape total n vm' /\ unit_rows (S i) n vm'.
Proof.
  intros Hs Hu H1 E.
  apply (loop_result
           (fun j vm1 =>
              shape total n vm1 /\ unit_rows i n vm1 /\ entry vm1 i i = x01
              /\ forall c, c < j -> c <> i -> entry vm1 i c = x00)) in E.
  - destruct E as [Hs' [Hu' [H1' Hz]]]. split; [assumption|].
    intros r c Hr Hc. destruct (Nat.eq_dec r i) as [->|Hne].
    + unfold delta. destruct (Nat.eqb_spec i c) as [<-|Hic]; auto.
    + apply Hu'; lia.
  - split; [assumption|]. split; [assumption|]. split; [assumption|].
    intros c Hc. lia.
  - intros j vm1 vm2 Hj [Hs1 [Hu1 [H11 Hz1]]] Eb. simpl in Hj.
    apply bind_Ok_inv in Eb. destruct Eb as [tmp [E1 E2]].
    apply mget_inv in E1. destruct E1 as [-> [Hil _]].
    destruct (negb (j =? i) && negb (Byte.eqb (entry vm1 i j) x00)) eqn:Ec.
    + apply andb_true_iff in Ec. destruct Ec as [Ej _].
      apply negb_true_iff, Nat.eqb_neq in Ej.
      apply column_addmul_spec in E2. destruct E2 as [Hss He].
      assert (Hit : i < total) by (destruct Hs1 as [Hl _]; lia).
      split; [now apply (same_shape_shape _ _ _ vm1)|]. split; [|split].
      * intros r c Hr Hc. rewrite He.
        destruct ((c =? j) && (r <? total)) eqn:Eq; [|now apply Hu1].
        apply andb_true_iff in Eq. destruct Eq as [Eq _]. apply Nat.eqb_eq in Eq. subst c.
        rewrite (Hu1 r j Hr Hc), (Hu1 r i Hr Hi). unfold delta at 2.
        replace (r =? i) with false by (symmetry; apply Nat.eqb_neq; lia). ring.
      * rewrite He. replace (i =? j) with false by (symmetry; apply Nat.eqb_neq; lia).
        exact H11.
      * intros c Hc Hci. rewrite He.
        destruct (Nat.eq_dec c j) as [->|Hcj].
        -- rewrite Nat.eqb_refl. apply Nat.ltb_lt in Hit. rewrite Hit. simpl.
           rewrite H11, galMultiply_1_r. apply galAdd_self.
        -- replace (c =? j) with false by (symmetry; apply Nat.eqb_neq; lia).
           simpl. apply Hz1; lia.
    + injection E2 as <-.
      split; [assumption|]. split; [assumption|]. split; [assumption|].
      intros c Hc Hci. destruct (Nat.eq_dec c j) as [->|Hcj]; [|apply Hz1; lia].
      apply andb_false_iff in Ec. destruct Ec as [Ec|Ec].
      * apply negb_false_iff, Nat.eqb_eq in Ec. contradiction.
      * apply negb_false_iff in Ec. now apply byte_eqb_eq in Ec.
Qed.

Lemma jerasure_step_spec vm vm' :
  shape total n vm -> unit_rows i n vm ->
  jerasure_step n total i vm = Ok vm' ->
  shape total n vm' /\ unit_rows (S i) n vm'.
Proof.
  intros Hs Hu E. unfold jerasure_step in E.
  apply bind_Ok_inv in E. destruct E as [r [Er E]].
  apply jerasure_find_row_ge in Er.
  apply bind_Ok_inv in E. destruct E as [vma [Ea E]].
  assert (Ha : shape total n vma /\ unit_rows i n vma).
  { destruct (r =? i) eqn:Eri.
    - injection Ea as <-. auto.
    - apply Nat.eqb_neq in Eri. apply swap_rows_spec in Ea.
      destruct Ea as [Hr [Hil ->]]. destruct Hs as [Hl Hw]. split.
      + split; [now rewrite !length_upd|].
        apply width_upd; [apply width_upd|]; auto;
          apply (proj1 (width_nth n vm) Hw); assumption.
      + intros x c Hx Hc. unfold entry.
        rewrite !nth_upd_neq by lia. now apply Hu. }
  destruct Ha as [Hsa Hua].
  apply bind_Ok_inv in E. destruct E as [d [Ed E]].
  apply mget_inv in Ed. destruct Ed as [-> _].
  apply bind_Ok_inv in E. destruct E as [vmb [Eb E]].
  assert (Hb : shape total n vmb /\ unit_rows i n vmb /\ entry vmb i i = x01).
  { destruct (Byte.eqb (entry vma i i) x01) eqn:Ed.
    - injection Eb as <-. apply byte_eqb_eq in Ed. auto.
    - apply bind_Ok_inv in Eb. destruct Eb as [tmp [Et Eb]].
      apply galDivide_or_panic_inv in Et.
      apply scale_column_spec in Eb. destruct Eb as [Hss He].
      assert (Hit : i < total).
      { destruct Hsa as [Hl Hw]. destruct (Nat.lt_ge_cases i total); auto.
        exfalso. unfold entry in Et. rewrite (nth_overflow vma) in Et by lia.
        destruct i; simpl in Et; rewrite galMultiply_0_l in Et; discriminate. }
      split; [now apply (same_shape_shape _ _ _ vma)|]. split.
      + intros x c Hx Hc. rewrite He.
        destruct ((c =? i) && (0 <=? x) && (x <? 0 + total)) eqn:Eq; [|now apply Hua].
        apply andb_true_iff in Eq. destruct Eq as [Eq _].
        apply andb_true_iff in Eq. destruct Eq as [Eq _]. apply Nat.eqb_eq in Eq. subst c.
        rewrite !(Hua x i Hx Hi). unfold delta.
        replace (x =? i) with false by (symmetry; apply Nat.eqb_neq; lia). ring.
      + rewrite He, Nat.eqb_refl. simpl.
        apply Nat.ltb_lt in Hit. now rewrite Hit. }
  destruct Hb as [Hsb [Hub H1]].
  now apply (jerasure_eliminate vmb vm').
Qed.

End JerasureStep.

(** ** The Jerasure matrices keep unit rows on top *)

Lemma loop_same_shape (body : nat -> matrix -> outcome matrix) count start vm vm' :
  (forall i a b, body i a = Ok b -> same_shape b a) ->
  loop body start count vm = Ok vm' -> same_shape vm' vm.
Proof.
  intros H E.
  apply (loop_result (fun _ a => same_shape a vm) body count start vm vm'); auto.
  - apply same_shape_refl.
  - intros i a b _ Ha Eb. apply (same_shape_trans _ a); auto. now apply (H i).
Qed.

(** Writing below the first [k] rows keeps them. *)
Lemma mset_frame k n rows cols vm r c v vm' :
  shape rows cols vm -> unit_rows k n vm -> k <= r ->
  mset vm r c v = Ok vm' ->
  shape rows cols vm' /\ unit_rows k n vm'.
Proof.
  intros Hs Hu Hr E. split.
  - apply (same_shape_shape _ _ _ vm); auto. now apply (mset_same_shape _ _ _ _ _ E).
  - intros x y Hx Hy. rewrite (mset_entry _ _ _ _ _ E).
    replace (x =? r) with false by (symmetry; apply Nat.eqb_neq; lia).
    simpl. now apply Hu.
Qed.

Lemma shape_vandermonde total n : shape total n (vandermonde total n).
Proof. split; [apply length_vandermonde | apply width_vandermonde]. Qed.

Lemma buildMatrixJerasure_spec n total vm :
  buildMatrixJerasure n total = Ok vm ->
  shape total n vm /\ unit_rows n n vm.
Proof.
  unfold buildMatrixJerasure. intros E.
  apply bind_Ok_inv in E. destruct E as [vm1 [E1 E]].
  apply bind_Ok_inv in E. destruct E as [vm2 [E2 E]].
  apply bind_Ok_inv in E. destruct E as [last [_ E]].
  apply bind_Ok_inv in E. destruct E as [vm3 [E3 E]].
  apply bind_Ok_inv in E. destruct E as [lastc [_ E]].
  apply bind_Ok_inv in E. destruct E as [vm4 [E4 E]].
  apply bind_Ok_inv in E. destruct E as [vm5 [E5 E]].
  apply bind_Ok_inv in E. destruct E as [vm6 [E6 E7]].
  assert (H4 : shape total n vm4).
  { apply mset_same_shape in E1, E4.
    apply loop_same_shape in E2; [|intros i a b; apply mset_same_shape].
    apply loop_same_shape in E3; [|intros i a b; apply mset_same_shape].
    apply (same_shape_shape _ _ _ (vandermonde total n)); [|apply shape_vandermonde].
    eauto using same_shape_trans. }
  assert (H5 : shape total n vm5 /\ unit_rows n n vm5).
  { apply (loop_result (fun i a => i <= n /\ shape total n a /\ unit_rows i n a)) in E5.
    - tauto.
    - split; [lia|]. split; [assumption|]. intros r c Hr. lia.
    - intros i a b Hi [_ [Hs Hu]] Eb. simpl in Hi.
      destruct (jerasure_step_spec n total i) with (vm := a) (vm' := b); auto; try lia.
      split; [lia|]. auto. }
  assert (H6 : shape total n vm6 /\ unit_rows n n vm6).
  { apply (loop_result (fun _ a => shape total n a /\ unit_rows n n a)) in E6; auto.
    intros j a b _ [Hs Hu] Eb.
    apply bind_Ok_inv in Eb. destruct Eb as [tmp [_ Eb]].
    destruct (Byte.eqb tmp x01); [injection Eb as <-; auto|].
    apply bind_Ok_inv in Eb. destruct Eb as [tmp' [_ Eb]].
    apply scale_column_spec in Eb. destruct Eb as [Hss He]. split.
    - now apply (same_shape_shape _ _ _ a).
    - intros r c Hr Hc. rewrite He.
      replace (n <=? r) with false by (symmetry; apply Nat.leb_gt; lia).
      rewrite andb_false_r. simpl. now apply Hu. }
  apply (loop_result (fun i a => n < i /\ shape total n a /\ unit_rows n n a)) in E7.
  - tauto.
  - split; [lia|]. tauto.
  - intros i a b Hi [Hni [Hs Hu]] Eb. split; [lia|].
    apply bind_Ok_inv in Eb. destruct Eb as [tmp [_ Eb]].
    destruct (Byte.eqb tmp x01); [injection Eb as <-; auto|].
    apply bind_Ok_inv in Eb. destruct Eb as [tmp' [_ Eb]].
    apply scale_row_spec in Eb. destruct Eb as [Hss He]. split.
    + now apply (same_shape_shape _ _ _ a).
    + intros r c Hr Hc. rewrite He by lia. now apply Hu.
Qed.

Lemma buildMatrixSpecialJerasure_spec n total vm :
  n <= total ->
  buildMatrixSpecialJerasure n total = Ok vm ->
  shape total n vm /\ unit_rows n n vm.
Proof.
  unfold buildMatrixSpecialJerasure. intros Hn E.
  apply bind_Ok_inv in E. destruct E as [vm1 [E1 E]].
  apply bind_Ok_inv in E. destruct E as [vm2 [E2 E3]].
  apply buildMatrixJerasure_spec in E1.
  assert (H2 : shape (total + 1) n vm2 /\ unit_rows n n vm2).
  { apply (loop_result (fun i a => n <= i /\ shape (total + 1) n a /\ unit_rows n n a))
      in E2.
    - tauto.
    - split; [lia|]. exact E1.
    - intros i a b Hi [Hni Ha] Eb. split; [lia|].
      apply (loop_result (fun _ a => shape (total + 1) n a /\ unit_rows n n a)) in Eb; auto.
      intros j a' b' _ [Hs Hu] Eb'.
      apply bind_Ok_inv in Eb'. destruct Eb' as [v [_ Eb']].
      now apply (mset_frame n n _ _ a' i j v). }
  destruct H2 as [[Hl Hw] Hu].
  unfold slice_to in E3. destruct (total <=? length vm2); [|discriminate].
  injection E3 as <-. split; [split|].
  - rewrite length_firstn. lia.
  - intros row Hin. apply Hw. now apply (In_firstn total).
  - intros r c Hr Hc. unfold entry. rewrite nth_firstn.
    replace (r <? total) with true by (symmetry; apply Nat.ltb_lt; lia).
    now apply Hu.
Qed.

(** ** The AzureLRC+1 builder *)

Lemma entry_app_l (a b : matrix) r c : r < length a -> entry (a ++ b) r c = entry a r c.
Proof. intros H. unfold entry. now rewrite app_nth1. Qed.

Lemma entry_app_zero (a : matrix) k n r c :
  length a <= r -> entry (a ++ newMatrix k n) r c = x00.
Proof.
  intros H. unfold entry. rewrite app_nth2 by assumption.
  destruct (Nat.lt_ge_cases (r - length a) k) as [Hk|Hk].
  - rewrite nth_newMatrix by assumption.
    destruct (Nat.lt_ge_cases c n).
    + now apply nth_repeat_lt.
    + apply nth_overflow. now rewrite repeat_length.
  - rewrite (nth_overflow (newMatrix k n)) by now rewrite length_newMatrix.
    now destruct c.
Qed.

Lemma shape_app r1 r2 n (a b : matrix) :
  shape r1 n a -> shape r2 n b -> shape (r1 + r2) n (a ++ b).
Proof.
  intros [Hl1 Hw1] [Hl2 Hw2]. split.
  - rewrite length_app. lia.
  - intros row Hin. apply in_app_or in Hin. destruct Hin; auto.
Qed.

Section LrcBuilder.

Variables (n m : nat) (vm0 : matrix).
Hypothesis Hs0 : shape (n + m + 3) n vm0.

Lemma lrc_loop_az vmA :
  loop (fun row vm =>
          loop (fun col vm =>
                  (if n / 2 =? 0 then Panic else Ok tt) ;;
                  if negb (col / (n / 2) =? row)
                  then mset vm (n + m + row) col x00
                  else mset vm (n + m + row) col x01)
               0 n vm)
       0 2 vm0 = Ok vmA ->
  same_shape vmA vm0
  /\ (forall r c, r < n + m \/ n + m + 2 <= r -> entry vmA r c = entry vm0 r c)
  /\ (forall row c, row < 2 -> c < n -> entry vmA (n + m + row) c = az_row n row c).
Proof.
  intros E.
  apply (loop_result
           (fun row vm =>
              same_shape vm vm0
              /\ (forall r c, r < n + m \/ n + m + 2 <= r -> entry vm r c = entry vm0 r c)
              /\ (forall row' c, row' < row -> c < n ->
                                 entry vm (n + m + row') c = az_row n row' c))) in E.
  - exact E.
  - split; [apply same_shape_refl|]. split; [reflexivity|]. intros row' c H. lia.
  - intros row vm vm' Hrow [Hsh [Hfr Haz]] Eb. simpl in Hrow.
    apply (cells_loop _ (fun _ => n + m + row) (fun x => x) (fun x => az_row n row x))
      in Eb.
    + destruct Eb as [Hs' [Hf Hu]]. split; [|split].
      * now apply (same_shape_trans _ vm).
      * intros r c Hr. rewrite Hu; [now apply Hfr|]. intros x Hx [H1 _]. lia.
      * intros row' c Hr' Hc. destruct (Nat.eq_dec row' row) as [->|Hne].
        -- apply (Hf c). lia.
        -- rewrite Hu; [apply Haz; lia|]. intros x Hx [H1 _]. lia.
    + intros x x' _ _ _ H. exact H.
    + intros vm1 x vm2 Hx _ _ Eb'.
      destruct (n / 2 =? 0); [discriminate|]. cbn [bind] in Eb'.
      unfold az_row. destruct (x / (n / 2) =? row); exact Eb'.
Qed.

Lemma lrc_loop_lp vmA vmB :
  same_shape vmA vm0 ->
  (forall c, c < n -> entry vmA (n + m + 2) c = x00) ->
  loop (fun row vm =>
          loop (fun col vm =>
                  tmp <- mget vm (n + m + 2) col ;;
                  v <- mget vm row col ;;
                  mset vm (n + m + 2) col (galAdd tmp v))
               0 n vm)
       n m vmA = Ok vmB ->
  same_shape vmB vmA
  /\ (forall r c, r <> n + m + 2 -> entry vmB r c = entry vmA r c)
  /\ (forall c, c < n ->
                entry vmB (n + m + 2) c = bigsum m (fun k => entry vmA (n + k) c)).
Proof.
  intros HsA Hz E.
  apply (loop_result
           (fun row vm =>
              n <= row <= n + m
              /\ same_shape vm vmA
              /\ (forall r c, r <> n + m + 2 -> entry vm r c = entry vmA r c)
              /\ (forall c, c < n ->
                            entry vm (n + m + 2) c
                            = bigsum (row - n) (fun k => entry vmA (n + k) c)))) in E.
  - destruct E as [_ [H1 [H2 H3]]]. split; [assumption|]. split; [assumption|].
    intros c Hc. rewrite (H3 c Hc). f_equal. lia.
  - split; [lia|]. split; [apply same_shape_refl|]. split; [reflexivity|].
    intros c Hc. rewrite Nat.sub_diag. simpl. now apply Hz.
  - intros row vm vm' Hrow [Hr [Hsh [Hfr Hsum]]] Eb.
    apply (cells_loop _ (fun _ => n + m + 2) (fun x => x)
             (fun x => galAdd (entry vm (n + m + 2) x) (entry vm row x))) in Eb.
    + destruct Eb as [Hs' [Hf Hu]]. split; [lia|]. split; [|split].
      * now apply (same_shape_trans _ vm).
      * intros r c Hne. rewrite Hu; [now apply Hfr|]. intros x Hx [H1 _]. lia.
      * intros c Hc. rewrite (Hf c) by lia. rewrite (Hsum c Hc).
        replace (S row - n) with (S (row - n)) by lia. simpl. f_equal.
        rewrite Hfr by lia. f_equal. lia.
    + intros x x' _ _ _ H. exact H.
    + intros vm1 x vm2 Hx _ Hu Eb'.
      apply bind_Ok_inv in Eb'. destruct Eb' as [tmp [E1 Eb']].
      apply bind_Ok_inv in Eb'. destruct Eb' as [v [E2 E3]].
      apply mget_inv in E1. destruct E1 as [-> _].
      apply mget_inv in E2. destruct E2 as [-> _].
      apply (mset_value _ _ _ _ _ _ E3). f_equal.
      * apply Hu. intros x' Hx' [_ H1]. lia.
      * apply Hu. intros x' Hx' [H1 _]. lia.
Qed.

End LrcBuilder.

Lemma buildMatrixAzureLrcP1_spec n m vm :
  buildMatrixAzureLrcP1 n m 3 = Ok vm -> lrc_matrix n m vm.
Proof.
  unfold buildMatrixAzureLrcP1. intros E.
  apply bind_Ok_inv in E. destruct E as [vm1 [E1 E]].
  apply buildMatrixSpecialJerasure_spec in E1; [|lia]. destruct E1 as [Hs1 Hu1].
  cbn [index_pred bind] in E. simpl (2 =? 0) in E. cbn [bind] in E.
  apply bind_Ok_inv in E. destruct E as [vmA [EA EB]].
  set (vm0 := vm1 ++ newMatrix 3 n) in *.
  assert (Hs0 : shape (n + m + 3) n vm0).
  { replace (n + m + 3) with (m + n + 3) by lia. apply shape_app; auto.
    split; [apply length_newMatrix | apply width_newMatrix]. }
  assert (Hl1 : length vm1 = m + n) by apply Hs1.
  apply (lrc_loop_az n m vm0) in EA. destruct EA as [HsA [HfA HazA]].
  apply (lrc_loop_lp n m vm0 vmA vm HsA) in EB.
  2:{ intros c Hc. rewrite HfA by lia. apply entry_app_zero. lia. }
  destruct EB as [HsB [HfB HlpB]].
  split.
  - apply (same_shape_shape _ _ _ vm0); auto. now apply (same_shape_trans _ vmA).
  - intros r c Hr Hc. rewrite HfB by lia. rewrite HfA by lia.
    unfold vm0. rewrite entry_app_l by lia. now apply Hu1.
  - intros row c Hrow Hc. rewrite HfB by lia. now apply HazA.
  - intros c Hc. rewrite (HlpB c Hc). apply bigsum_ext. intros k Hk.
    symmetry. apply HfB. lia.
Qed.

(** ** The AzureLRC+1 encoder *)

Lemma New_lrc n p opts r :
  useCauchy opts = false -> usePAR1Matrix opts = false ->
  useJerasureMatrix opts = false -> useAzureLrcP1Matrix opts = true ->
  0 < minSplitSize opts ->
  New n p opts = Ok (Success r) ->
  3 <= p /\ lrc_code n (p - 3) r.
Proof.
  intros F1 F2 F3 F4 Hsplit Hnew.
  pose proof (New_bounds n p opts r Hsplit Hnew) as [Hn [Hp Hle]].
  assert (Hb : 3 <= p /\ exists vm, buildMatrixAzureLrcP1 n (n + p - n - 3) 3 = Ok vm).
  { unfold New in Hnew.
    destruct (n =? 0); [discriminate|]. destruct (p =? 0); [discriminate|].
    simpl in Hnew. destruct (256 <? n + p); [discriminate|].
    rewrite F1, F2, F3, F4 in Hnew.
    destruct (p <? 3) eqn:E3; [discriminate|]. apply Nat.ltb_ge in E3.
    split; [assumption|].
    destruct (buildMatrixAzureLrcP1 n (n + p - n - 3) 3) as [vm|]; [|discriminate].
    now exists vm. }
  destruct Hb as [Hp3 [vm Evm]]. split; [assumption|].
  replace (n + p - n - 3) with (p - 3) in Evm by lia.
  pose proof (buildMatrixAzureLrcP1_spec n (p - 3) vm Evm) as Hmx.
  destruct (lrc_shape Hmx) as [Hl Hw].
  assert (Hr := New_fields n p opts r Hsplit Hnew vm).
  rewrite F1, F2, F3, F4 in Hr.
  replace (p <? 3) with false in Hr by (symmetry; apply Nat.ltb_ge; lia).
  replace (n + p - n - 3) with (p - 3) in Hr by lia.
  rewrite Evm in Hr. specialize (Hr eq_refl). rewrite Hr by lia.
  split; simpl; auto; try lia.
  split; simpl; auto; try lia.
Qed.

(** ** Generic facts *)
(** A failed member of a balanced AZ is the sum of the other members. *)
Lemma balanced_local r b az :
  b < Shards r -> In b az -> az_balanced r az ->
  local_relation r b (filter (fun shardIdx => negb (b =? shardIdx)) az).
Proof.
  intros Hb Hin Hbal k Hk. specialize (Hbal k Hk).
  rewrite (bigsum_split _ b) in Hbal by assumption.
  apply mem_In in Hin. rewrite Hin, galMultiply_1_l in Hbal.
  apply -> galAdd_eq_0 in Hbal. rewrite Hbal.
  apply bigsum_ext. intros x Hx. destruct (Nat.eqb_spec x b) as [->|Hne].
  - replace (mem b (filter (fun shardIdx => negb (b =? shardIdx)) az)) with false.
    + now rewrite galMultiply_0_l.
    + symmetry. apply mem_false. intros H. apply filter_In in H.
      rewrite Nat.eqb_refl in H. now destruct H.
  - f_equal. destruct (mem x az) eqn:E.
    + replace (mem x (filter (fun shardIdx => negb (b =? shardIdx)) az)) with true; auto.
      symmetry. apply mem_In. apply filter_In. split; [now apply mem_In|].
      apply negb_true_iff. apply Nat.eqb_neq. congruence.
    + replace (mem x (filter (fun shardIdx => negb (b =? shardIdx)) az)) with false; auto.
      symmetry. apply mem_false. intros H. apply filter_In in H.
      apply mem_false in E. now destruct H.
Qed.

Lemma length_filter_neq b az :
  NoDup az -> In b az ->
  length (filter (fun shardIdx => negb (b =? shardIdx)) az) = length az - 1.
Proof.
  induction az as [|a az IH]; intros Hnd Hin; [destruct Hin|].
  inversion Hnd as [|? ? Hnot Hnd']; subst. simpl.
  destruct (Nat.eqb_spec b a) as [->|Hne]; simpl.
  - rewrite filter_all; [lia|]. intros x Hx. apply negb_true_iff, Nat.eqb_neq.
    intros ->. contradiction.
  - destruct Hin as [->|Hin]; [congruence|]. rewrite IH by assumption.
    destruct az; [destruct Hin | simpl; lia].
Qed.

Lemma inc_in_app hi l1 l2 : forall lo mid,
  lo <= mid -> mid <= hi -> inc_in lo mid l1 -> inc_in mid hi l2 ->
  inc_in lo hi (l1 ++ l2).
Proof.
  induction l1 as [|a t IH]; intros lo mid H1 H2 Hl Hr.
  - simpl. now apply (inc_in_weaken _ _ mid).
  - destruct Hl as [Ha Ht]. simpl. split; [lia|].
    apply (IH (S a) mid); auto. lia.
Qed.

Lemma In_survivors n b x : b < n -> In x (survivors n b) <-> x < n /\ x <> b.
Proof.
  intros H. unfold survivors. rewrite in_app_iff, !in_seq. lia.
Qed.

Lemma inc_in_survivors n b : b < n -> inc_in 0 n (survivors n b).
Proof.
  intros H. unfold survivors. apply (inc_in_app _ _ _ 0 b); try lia.
  - apply inc_in_seq. lia.
  - apply (inc_in_weaken _ _ (S b)); [lia|]. apply inc_in_seq. lia.
Qed.

(** ** The code that [New] builds *)

Section LrcCode.

Variables (n g h : nat) (r : reedSolomon).
Hypothesis Hc : lrc_code n g r.
Hypothesis Hn : n = 2 * h.
Hypothesis Hh : 0 < h.

Lemma lrc_half : n / 2 = h.
Proof. rewrite Hn. rewrite Nat.mul_comm. now apply Nat.div_mul. Qed.

Lemma lrc_entry_unit i c : i < n -> c < n -> entry (m r) i c = delta i c.
Proof. apply (lrc_unit (lc_matrix Hc)). Qed.

Lemma lrc_systematic : systematic (DataShards r) (m r).
Proof. rewrite (lc_data Hc). intros i j. apply lrc_entry_unit. Qed.

Lemma lrc_row_length i : i < n + g + 3 -> length (nth i (m r) []) = n.
Proof.
  intros Hi. destruct (lrc_shape (lc_matrix Hc)) as [Hl Hw].
  apply (proj1 (width_nth n (m r)) Hw). lia.
Qed.

Lemma lrc_unit_row i : i < n -> nth i (m r) [] = map (fun c => delta i c) (seq 0 n).
Proof.
  intros Hi. apply (nth_ext_lt _ _ x00).
  - rewrite lrc_row_length by lia. now rewrite length_map, length_seq.
  - intros c Hc'. rewrite lrc_row_length in Hc' by lia.
    rewrite nth_map_seq by assumption. now apply lrc_entry_unit.
Qed.

Lemma az_row_spec j c :
  j < 2 -> c < n ->
  az_row n j c = if (j * h <=? c) && (c <? j * h + h) then x01 else x00.
Proof.
  intros Hj Hc'. unfold az_row. rewrite lrc_half.
  destruct (Nat.lt_ge_cases c h) as [Hlt|Hge].
  - rewrite Nat.div_small by assumption.
    destruct j as [|[|j]]; simpl; try lia.
    + apply Nat.ltb_lt in Hlt. now rewrite Hlt.
    + replace (h + 0 <=? c) with false by (symmetry; apply Nat.leb_gt; lia).
      reflexivity.
  - replace (c / h) with 1 by (apply (Nat.div_unique c h 1 (c - h)); lia).
    destruct j as [|[|j]]; simpl; try lia.
    + replace (c <? h) with false by (symmetry; apply Nat.ltb_ge; lia). reflexivity.
    + replace (h + 0 <=? c) with true by (symmetry; apply Nat.leb_le; lia).
      replace (c <? h + 0 + h) with true by (symmetry; apply Nat.ltb_lt; lia).
      reflexivity.
Qed.

(** *** The AZs of the layout *)

Let layout := az_layout n g.

Lemma lrc_layout :
  layout = [seq 0 h ++ [n + g]; seq h h ++ [n + g + 1]; seq n g ++ [n + g + 2]].
Proof. unfold layout, az_layout. now rewrite lrc_half. Qed.

Lemma mem_app x l1 l2 : mem x (l1 ++ l2) = mem x l1 || mem x l2.
Proof. unfold mem. apply existsb_app. Qed.

Lemma mem_seq x a k : mem x (seq a k) = (a <=? x) && (x <? a + k).
Proof.
  destruct (mem x (seq a k)) eqn:E; symmetry.
  - apply mem_In, in_seq in E. apply andb_true_iff. split.
    + apply Nat.leb_le. lia.
    + apply Nat.ltb_lt. lia.
  - apply mem_false in E. rewrite in_seq in E.
    destruct (Nat.leb_spec a x); destruct (Nat.ltb_spec x (a + k)); simpl; auto.
    exfalso. apply E. lia.
Qed.

Lemma mem_single x q : mem x [q] = (x =? q).
Proof. unfold mem. simpl. apply orb_false_r. Qed.

Lemma find_bad_az_lt b : find_bad_az b layout 0 < length layout.
Proof.
  rewrite lrc_layout. simpl.
  repeat match goal with |- context [if ?c then _ else _] => destruct c end; lia.
Qed.

Lemma lrc_az_data b :
  in_data_az n g b = true ->
  exists j, j < 2
    /\ nth (find_bad_az b layout 0) layout [] = seq (j * h) h ++ [n + g + j]
    /\ In b (seq (j * h) h ++ [n + g + j]).
Proof.
  intros Hd. unfold in_data_az in Hd. rewrite lrc_layout.
  cbn [find_bad_az]. rewrite !mem_app, !mem_seq, !mem_single.
  destruct (Nat.ltb_spec b n) as [Hlt|Hge].
  - destruct (Nat.lt_ge_cases b h) as [Hlo|Hhi].
    + exists 0. split; [lia|].
      replace (0 <=? b) with true by (symmetry; apply Nat.leb_le; lia).
      replace (b <? 0 + h) with true by (symmetry; apply Nat.ltb_lt; lia).
      cbn [andb orb nth]. simpl Nat.mul. rewrite Nat.add_0_r. split; [reflexivity|].
      apply in_or_app. left. apply in_seq. lia.
    + exists 1. split; [lia|].
      replace (b <? 0 + h) with false by (symmetry; apply Nat.ltb_ge; lia).
      replace (b =? n + g) with false by (symmetry; apply Nat.eqb_neq; lia).
      replace (h <=? b) with true by (symmetry; apply Nat.leb_le; lia).
      replace (b <? h + h) with true by (symmetry; apply Nat.ltb_lt; lia).
      rewrite andb_false_r. cbn [andb orb nth]. simpl Nat.mul. rewrite Nat.add_0_r.
      split; [reflexivity|]. apply in_or_app. left. apply in_seq. lia.
  - simpl in Hd. apply andb_true_iff in Hd. destruct Hd as [H1 H2].
    apply Nat.leb_le in H1. apply Nat.ltb_lt in H2.
    replace (b <? 0 + h) with false by (symmetry; apply Nat.ltb_ge; lia).
    rewrite andb_false_r. cbn [orb].
    destruct (Nat.eq_dec b (n + g)) as [->|Hne].
    + exists 0. split; [lia|]. rewrite Nat.eqb_refl. cbn [nth]. simpl Nat.mul.
      rewrite Nat.add_0_r. split; [reflexivity|].
      apply in_or_app. right. now left.
    + exists 1. split; [lia|].
      replace (b =? n + g) with false by (symmetry; apply Nat.eqb_neq; lia).
      replace (b <? h + h) with false by (symmetry; apply Nat.ltb_ge; lia).
      rewrite andb_false_r. cbn [orb].
      replace (b =? n + g + 1) with true by (symmetry; apply Nat.eqb_eq; lia).
      cbn [nth]. simpl Nat.mul. rewrite Nat.add_0_r. split; [reflexivity|].
      apply in_or_app. right. left. lia.
Qed.

Lemma lrc_az_parity b :
  b < n + g + 3 -> in_data_az n g b = false ->
  nth (find_bad_az b layout 0) layout [] = seq n g ++ [n + g + 2]
  /\ In b (seq n g ++ [n + g + 2]).
Proof.
  intros Hb Hd. unfold in_data_az in Hd. rewrite lrc_layout.
  cbn [find_bad_az]. rewrite !mem_app, !mem_seq, !mem_single.
  apply orb_false_iff in Hd. destruct Hd as [H1 H2]. apply Nat.ltb_ge in H1.
  assert (H3 : b < n + g \/ b = n + g + 2).
  { destruct (Nat.leb_spec (n + g) b); destruct (Nat.ltb_spec b (n + g + 2));
      simpl in H2; try discriminate; lia. }
  replace (b <? 0 + h) with false by (symmetry; apply Nat.ltb_ge; lia).
  replace (b <? h + h) with false by (symmetry; apply Nat.ltb_ge; lia).
  replace (b =? n + g) with false by (symmetry; apply Nat.eqb_neq; lia).
  replace (b =? n + g + 1) with false by (symmetry; apply Nat.eqb_neq; lia).
  rewrite !andb_false_r. cbn [orb].
  replace ((n <=? b) && (b <? n + g) || (b =? n + g + 2)) with true.
  - cbn [nth]. split; [reflexivity|]. apply in_or_app.
    destruct H3 as [H3| ->]; [left; apply in_seq; lia | right; now left].
  - symmetry. apply orb_true_iff. destruct H3 as [H3| ->].
    + left. apply andb_true_iff. split; [apply Nat.leb_le | apply Nat.ltb_lt]; lia.
    + right. apply Nat.eqb_refl.
Qed.

Lemma NoDup_az a k q : a + k <= q -> NoDup (seq a k ++ [q]).
Proof.
  intros H. apply NoDup_app.
  - apply seq_NoDup.
  - constructor; [intros []|constructor].
  - intros x Hx [<-|[]]. apply in_seq in Hx. lia.
Qed.

(** *** The rows of an AZ sum to zero *)

Lemma bigsum_mem N l (E : nat -> byte) :
  NoDup l -> (forall x, In x l -> x < N) ->
  bigsum N (fun x => galMultiply (if mem x l then x01 else x00) (E x))
  = bigsum (length l) (fun p => E (nth p l 0)).
Proof.
  intros Hnd Hlt. rewrite (bigsum_support N _ l Hnd Hlt).
  - apply bigsum_ext. intros p Hp.
    replace (mem (nth p l 0) l) with true
      by (symmetry; apply mem_In; now apply nth_In).
    apply galMultiply_1_l.
  - intros x _ Hx. apply mem_false in Hx. rewrite Hx. apply galMultiply_0_l.
Qed.

Lemma bigsum_az N a k q (E : nat -> byte) :
  a + k <= q -> q < N ->
  bigsum N (fun x => galMultiply (if mem x (seq a k ++ [q]) then x01 else x00) (E x))
  = galAdd (bigsum k (fun p => E (a + p))) (E q).
Proof.
  intros Ha Hq. rewrite bigsum_mem.
  - rewrite length_app, length_seq. simpl length. rewrite Nat.add_1_r. simpl bigsum.
    f_equal.
    + apply bigsum_ext. intros p Hp.
      rewrite app_nth1 by (rewrite length_seq; lia). now rewrite seq_nth.
    + rewrite app_nth2 by (rewrite length_seq; lia).
      rewrite length_seq, Nat.sub_diag. reflexivity.
  - now apply NoDup_az.
  - intros x Hx. apply in_app_or in Hx. destruct Hx as [Hx|[<-|[]]]; [|lia].
    apply in_seq in Hx. lia.
Qed.

Lemma bigsum_delta_range a k c :
  bigsum k (fun p => delta (a + p) c)
  = if (a <=? c) && (c <? a + k) then x01 else x00.
Proof.
  induction k as [|k IH].
  - simpl. rewrite Nat.add_0_r.
    destruct (Nat.leb_spec a c); destruct (Nat.ltb_spec c a); simpl; auto; lia.
  - simpl bigsum. rewrite IH. unfold delta.
    destruct (Nat.leb_spec a c); destruct (Nat.ltb_spec c (a + k));
      destruct (Nat.ltb_spec c (a + S k)); destruct (Nat.eqb_spec (a + k) c);
      simpl; try lia; reflexivity.
Qed.

Lemma az_data_balanced j : j < 2 -> az_balanced r (seq (j * h) h ++ [n + g + j]).
Proof.
  intros Hj k Hk. rewrite (lc_data Hc) in Hk. rewrite (lc_shards Hc).
  rewrite bigsum_az by nia.
  rewrite (bigsum_ext h _ (fun p => delta (j * h + p) k)).
  - rewrite bigsum_delta_range.
    rewrite (lrc_az (lc_matrix Hc)) by assumption.
    rewrite az_row_spec by assumption. apply galAdd_self.
  - intros p Hp. apply lrc_entry_unit; [nia | assumption].
Qed.

Lemma az_parity_balanced : az_balanced r (seq n g ++ [n + g + 2]).
Proof.
  intros k Hk. rewrite (lc_data Hc) in Hk. rewrite (lc_shards Hc).
  rewrite bigsum_az by lia.
  rewrite (lrc_lp (lc_matrix Hc)) by assumption. apply galAdd_self.
Qed.

(** *** A repair selection for every DATA-AZ failure *)

Lemma lrc_select_shape sel :
  length sel = n -> (forall i, In i sel -> i < n + g + 3) ->
  length (select_rows (m r) sel) = n /\ width n (select_rows (m r) sel).
Proof.
  intros Hl Hlt. destruct (lrc_shape (lc_matrix Hc)) as [Hlen Hw].
  split.
  - now rewrite length_select_rows.
  - apply width_select_rows; [assumption|]. intros i Hi. rewrite Hlen. auto.
Qed.

Lemma kernel_unit sel x i :
  in_kernel (select_rows (m r) sel) x -> In i sel -> i < n -> nth i x x00 = x00.
Proof.
  intros Hk Hi Hlt. rewrite <- (dot_unit_l n i x Hlt).
  rewrite <- lrc_unit_row by assumption.
  apply Hk. unfold select_rows. apply in_map_iff. now exists i.
Qed.

Lemma independent_data : independent n (select_rows (m r) (seq 0 n)).
Proof.
  intros x Hx Hk i. destruct (Nat.lt_ge_cases i n) as [Hi|Hi].
  - apply (kernel_unit (seq 0 n)); auto. apply in_seq. lia.
  - apply nth_overflow. lia.
Qed.

Lemma independent_local j b :
  j < 2 -> j * h <= b < j * h + h ->
  independent n (select_rows (m r) (survivors n b ++ [n + g + j])).
Proof.
  intros Hj Hb x Hx Hk.
  assert (Hbn : b < n) by nia.
  assert (Hz : forall c, c < n -> c <> b -> nth c x x00 = x00).
  { intros c Hc' Hne. apply (kernel_unit (survivors n b ++ [n + g + j])); auto.
    apply in_or_app. left. apply In_survivors; auto. }
  assert (Hrow : dot (nth (n + g + j) (m r) []) x = x00).
  { apply Hk. unfold select_rows. apply in_map_iff. exists (n + g + j). split; auto.
    apply in_or_app. right. now left. }
  rewrite (dot_bigsum _ x n) in Hrow by lia.
  rewrite (bigsum_split n b) in Hrow by assumption.
  rewrite (bigsum_zero n) in Hrow.
  - rewrite galAdd_0_r in Hrow.
    change (nth b (nth (n + g + j) (m r) []) x00) with (entry (m r) (n + g + j) b) in Hrow.
    rewrite (lrc_az (lc_matrix Hc)) in Hrow by assumption.
    rewrite az_row_spec in Hrow by assumption.
    replace (j * h <=? b) with true in Hrow by (symmetry; apply Nat.leb_le; lia).
    replace (b <? j * h + h) with true in Hrow by (symmetry; apply Nat.ltb_lt; lia).
    simpl in Hrow. rewrite galMultiply_1_l in Hrow.
    intros i. destruct (Nat.eq_dec i b) as [->|Hne]; [assumption|].
    destruct (Nat.lt_ge_cases i n) as [Hi|Hi]; [now apply Hz|].
    apply nth_overflow. lia.
  - intros c Hc'. destruct (Nat.eqb_spec c b) as [->|Hne]; [reflexivity|].
    rewrite (Hz c) by assumption. apply galMultiply_0_r.
Qed.

Lemma lrc_selection_exists b :
  in_data_az n g b = true ->
  exists sel, selection r b (az_peers (layout) b) sel.
Proof.
  intros Hd. destruct (lrc_az_data b Hd) as [j [Hj [Eaz Hin]]].
  unfold az_peers. rewrite Eaz. clear Eaz.
  apply in_app_or in Hin. destruct Hin as [Hin|[Hin|[]]].
  - apply in_seq in Hin. assert (Hbn : b < n) by nia.
    exists (survivors n b ++ [n + g + j]).
    assert (Hl : length (survivors n b ++ [n + g + j]) = n)
      by (rewrite length_app, length_survivors by assumption; simpl; lia).
    assert (Hlt : forall i, In i (survivors n b ++ [n + g + j]) -> i < n + g + 3).
    { intros i Hi. apply in_app_or in Hi. destruct Hi as [Hi|[<-|[]]]; [|lia].
      apply In_survivors in Hi; lia. }
    split.
    + now rewrite (lc_data Hc).
    + rewrite (lc_shards Hc). apply (inc_in_app _ _ _ 0 n); try lia.
      * now apply inc_in_survivors.
      * simpl. split; [lia | exact I].
    + intros Hi. apply in_app_or in Hi. destruct Hi as [Hi|[Hi|[]]]; [|lia].
      apply In_survivors in Hi; lia.
    + intros p Hp. apply filter_In in Hp. destruct Hp as [Hp Hne].
      apply negb_true_iff, Nat.eqb_neq in Hne.
      apply in_or_app. apply in_app_or in Hp. destruct Hp as [Hp|Hp]; [left|now right].
      apply in_seq in Hp. apply In_survivors; [assumption | split; [nia | congruence]].
    + destruct (lrc_select_shape _ Hl Hlt) as [H1 H2].
      apply (Invert_independent _ _ H1 H2). apply independent_local; [assumption | lia].
  - exists (seq 0 n).
    assert (Hl : length (seq 0 n) = n) by apply length_seq.
    assert (Hlt : forall i, In i (seq 0 n) -> i < n + g + 3)
      by (intros i Hi; apply in_seq in Hi; lia).
    split.
    + now rewrite (lc_data Hc).
    + rewrite (lc_shards Hc). apply inc_in_seq. lia.
    + intros Hi. apply in_seq in Hi. lia.
    + intros p Hp. apply filter_In in Hp. destruct Hp as [Hp Hne].
      apply negb_true_iff, Nat.eqb_neq in Hne.
      apply in_app_or in Hp. destruct Hp as [Hp|[Hp|[]]]; [|congruence].
      apply in_seq in Hp. apply in_seq. nia.
    + destruct (lrc_select_shape _ Hl Hlt) as [H1 H2].
      apply (Invert_independent _ _ H1 H2). apply independent_data.
Qed.

Lemma lrc_az_member b :
  b < n + g + 3 -> In b (nth (find_bad_az b layout 0) layout []).
Proof.
  intros Hb. destruct (in_data_az n g b) eqn:Hd.
  - destruct (lrc_az_data b Hd) as [j [_ [E H]]]. now rewrite E.
  - destruct (lrc_az_parity b Hb Hd) as [E H]. now rewrite E.
Qed.

(** The read set: the other members of the AZ, as many as the AZ has data
    shards (DATA-AZ) or global parities (PARITY-AZ); the failed shard is their
    sum. *)
Lemma lrc_peers b :
  b < n + g + 3 ->
  find_bad_az b (layout) 0 < length (layout)
  /\ length (az_peers (layout) b) = (if in_data_az n g b then n / 2 else g)
  /\ (forall p, In p (az_peers (layout) b) ->
        p <> b /\ In p (nth (find_bad_az b (layout) 0) (layout) []))
  /\ local_relation r b (az_peers (layout) b).
Proof.
  intros Hb. split; [apply find_bad_az_lt|].
  assert (Hfil : forall p az, In p (filter (fun shardIdx => negb (b =? shardIdx)) az) ->
                              p <> b /\ In p az).
  { intros p az Hp. apply filter_In in Hp. destruct Hp as [Hp Hne].
    apply negb_true_iff, Nat.eqb_neq in Hne. split; [congruence | assumption]. }
  unfold az_peers. destruct (in_data_az n g b) eqn:Hd.
  - destruct (lrc_az_data b Hd) as [j [Hj [Eaz Hin]]]. rewrite Eaz.
    refine (conj _ (conj (fun p => Hfil p _) _)).
    + rewrite length_filter_neq by (auto; apply NoDup_az; nia).
      rewrite length_app, length_seq, lrc_half. simpl. lia.
    + apply balanced_local; auto.
      * rewrite (lc_shards Hc). assumption.
      * now apply az_data_balanced.
  - destruct (lrc_az_parity b Hb Hd) as [Eaz Hin]. rewrite Eaz.
    refine (conj _ (conj (fun p => Hfil p _) _)).
    + rewrite length_filter_neq by (auto; apply NoDup_az; lia).
      rewrite length_app, length_seq. simpl. lia.
    + apply balanced_local; auto.
      * rewrite (lc_shards Hc). assumption.
      * apply az_parity_balanced.
Qed.

End LrcCode.

(** * Local repair with the AzureLRC+1 code *)

(** ** A count that is not positive *)




(** ** Where the count is exact *)

(** Outside the documented range [g = n/2] the PARITY-AZ has another size
    than the DATA-AZs.  The encoder of [New 4 4] has [n = 4] data shards and
    [g = 1] global parity; when the global parity, shard 4, fails, the rest of
    its AZ is the local parity 7 alone. *)
Example LRC_parity_az_read_size :
  New 4 4 lrcOptions = Ok (Success enc_lrc_4_1)
  /\ exists sel read,
       GetSurvivalShards enc_lrc_4_1 [4] (az_layout 4 1) = Ok (sel, read, None)
       /\ read = az_peers (az_layout 4 1) 4
       /\ length read <> 4 / (3 - 1).
Proof.
  split; [vm_compute; reflexivity|].
  exists [0; 1; 2; 7], [7]. split; [vm_compute; reflexivity|].
  split; [reflexivity|]. vm_compute. discriminate.
Qed.

(** With more global parities than data shards no combination of
    [DataShards] survivors holds the rest of the PARITY-AZ, and
    [GetSurvivalShards] returns nothing, without an error. *)
Example LRC_parity_az_no_selection :
  exists r, New 2 6 lrcOptions = Ok (Success r)
    /\ GetSurvivalShards r [2] (az_layout 2 3) = Ok ([], [], None).
Proof.
  eexists. split.
  - vm_compute. reflexivity.
  - vm_compute. reflexivity.
Qed.

(** X27.  Local repair in a DATA-AZ.  Take the encoder that [New] builds
    with the AzureLRC+1 matrix for an even number [n] of data shards and [g]
    global parities, the AZ layout of that matrix, and a failed shard [b] of a
    DATA-AZ: a data shard or one of the first two local parities.  With a
    number of combinations below [2^31], where the floating-point count of the
    source is exact, [GetSurvivalShards] returns [DataShards] shards to select
    and, as the shards to read, the [n/2] other members of the AZ of [b]; and
    [PartialReconstruct], given the encoded shards of that read set and
    nothing else, succeeds and leaves shard [b] with the bytes it had after
    [Encode]. *)
Theorem LRC_data_az_local_repair
  (n g h : nat) (opts : options) (r : reedSolomon) (t : inversionTree)
  (data : slice) (b : nat) :
  useCauchy opts = false -> usePAR1Matrix opts = false ->
  useJerasureMatrix opts = false -> useAzureLrcP1Matrix opts = true ->
  0 < minSplitSize opts ->
  New n (g + 3) opts = Ok (Success r) ->
  n = 2 * h ->
  tree_ok r t ->
  0 < len data ->
  b < Shards r ->
  in_data_az n g b = true ->
  (N.of_nat (comb (Shards r - 1) (DataShards r)) < 2 ^ 31)%N ->
  exists az read,
    In az (az_layout n g) /\ In b az
    /\ (forall x, In x read <-> In x az /\ x <> b)
    /\ length read = n / 2
    /\ exists shards encoded sel,
         Split r data = Success shards
         /\ Encode r shards = Ok (None, encoded)
         /\ GetSurvivalShards r [b] (az_layout n g) = Ok (sel, read, None)
         /\ length sel = DataShards r
         /\ forall damaged,
              length damaged = Shards r ->
              (forall i, In i read ->
                         nth i damaged nil_slice = nth i encoded nil_slice) ->
              (forall i, i < Shards r -> ~ In i read ->
                         len (nth i damaged nil_slice) = 0) ->
              exists restored t',
                PartialReconstruct r t damaged sel [b] = Ok (None, restored, t')
                /\ tree_ok r t'
                /\ length restored = Shards r
                /\ bytes (nth b restored nil_slice)
                   = bytes (nth b encoded nil_slice).
Proof.
  intros F1 F2 F3 F4 Hsplit Hnew Hn Ht Hdata Hb Hd _.
  destruct (New_lrc n (g + 3) opts r F1 F2 F3 F4 Hsplit Hnew) as [_ Hc].
  replace (g + 3 - 3) with g in Hc by lia.
  pose proof (lc_ok Hc) as Hok.
  assert (Hh : 0 < h) by (pose proof (ok_data Hok); rewrite (lc_data Hc) in *; lia).
  assert (Hb' : b < n + g + 3) by (now rewrite <- (lc_shards Hc)).
  assert (Hpar : 0 < ParityShards r) by (rewrite (lc_parity Hc); lia).
  destruct (lrc_peers n g h r Hc Hn Hh b Hb') as [Hfind [Hlen [Hmem Hrel]]].
  rewrite Hd in Hlen.
  exists (nth (find_bad_az b (az_layout n g) 0) (az_layout n g) []),
         (az_peers (az_layout n g) b).
  split; [now apply nth_In|].
  split; [now apply (lrc_az_member n g h Hn Hh)|].
  split.
  { intros x. split.
    - intros Hx. destruct (Hmem x Hx). now split.
    - intros [Hx Hne]. apply filter_In. split; [assumption|].
      apply negb_true_iff, Nat.eqb_neq. congruence. }
  split; [exact Hlen|].
  destruct (Split_success r data (ok_data Hok) Hdata)
    as [shards [size [Es [Hsize [Hl Hall]]]]].
  destruct (Encode_codeword r shards size Hok (lrc_systematic n g r Hc) Hl Hsize Hall)
    as [encoded [Ee Hcw]].
  destruct (GetSurvivalShards_single r b (az_layout n g) (lc_flag Hc) Hok Hpar Hb Hfind)
    as [[sel [Hsel Eg]]|[Hno _]].
  - exists shards, encoded, sel.
    split; [exact Es|]. split; [exact Ee|]. split; [exact Eg|].
    split; [exact (sel_length Hsel)|].
    intros damaged Hdl Hkeep Hnil.
    apply (PartialReconstruct_recovers r t b (az_peers (az_layout n g) b) sel size
             encoded damaged); auto.
    + exact (lrc_systematic n g r Hc).
    + intros E. rewrite E in Hlen. cbn [length] in Hlen.
      assert (Hhalf : n / 2 = h)
        by (subst n; rewrite Nat.mul_comm; apply Nat.div_mul; lia).
      lia.
  - destruct (lrc_selection_exists n g h r Hc Hn Hh b Hd) as [sel Hsel].
    now destruct (Hno sel).
Qed.

Lemma LRC_data_az_local_repair_witness :
  exists az read,
    In az (az_layout 4 2) /\ In 0 az
    /\ (forall x, In x read <-> In x az /\ x <> 0)
    /\ length read = 4 / 2
    /\ exists shards encoded sel,
         Split enc_lrc_4_2 (shard_of [1; 2; 3; 4]) = Success shards
         /\ Encode enc_lrc_4_2 shards = Ok (None, encoded)
         /\ GetSurvivalShards enc_lrc_4_2 [0] (az_layout 4 2) = Ok (sel, read, None)
         /\ length sel = DataShards enc_lrc_4_2
         /\ forall damaged,
              length damaged = Shards enc_lrc_4_2 ->
              (forall i, In i read ->
                         nth i damaged nil_slice = nth i encoded nil_slice) ->
              (forall i, i < Shards enc_lrc_4_2 -> ~ In i read ->
                         len (nth i damaged nil_slice) = 0) ->
              exists restored t',
                PartialReconstruct enc_lrc_4_2 newInversionTree damaged sel [0]
                = Ok (None, restored, t')
                /\ tree_ok enc_lrc_4_2 t'
                /\ length restored = Shards enc_lrc_4_2
                /\ bytes (nth 0 restored nil_slice)
                   = bytes (nth 0 encoded nil_slice).
Proof.
  apply (LRC_data_az_local_repair 4 2 2 lrcOptions enc_lrc_4_2 newInversionTree
           (shard_of [1; 2; 3; 4]) 0).
  - reflexivity.
  - reflexivity.
  - reflexivity.
  - reflexivity.
  - simpl. lia.
  - vm_compute. reflexivity.
  - reflexivity.
  - intros key mx _ H. discriminate H.
  - vm_compute. lia.
  - simpl. lia.
  - reflexivity.
  - vm_compute. reflexivity.
Defined.

(** * Checking parity shards *)

(** ** The kernel calls of [checkSomeShards] *)

Lemma check_cell_spec matrixRows c inb iRow outputs :
  iRow < length matrixRows -> c < length (nth iRow matrixRows []) ->
  iRow < length outputs -> length inb = length (nth iRow outputs []) ->
  check_cell matrixRows c inb iRow outputs
  = Ok (upd outputs iRow
            (map2 (fun i o => galAdd o (galMultiply (nth c (nth iRow matrixRows []) x00) i))
                  inb (nth iRow outputs []))).
Proof.
  intros H1 H2 H3 H4. unfold check_cell.
  rewrite (get_Ok matrixRows iRow []) by assumption. cbn [bind].
  rewrite (get_Ok _ c x00) by assumption. cbn [bind].
  rewrite (get_Ok outputs iRow []) by assumption. cbn [bind].
  rewrite galMulSliceXor_eq by assumption. reflexivity.
Qed.

Lemma map_seq_ext {A} (f g : nat -> A) n :
  (forall i, i < n -> f i = g i) -> map f (seq 0 n) = map g (seq 0 n).
Proof. intros H. apply map_ext_in. intros i Hi. apply in_seq in Hi. apply H. lia. Qed.

Lemma upd_map_seq {A} (f : nat -> A) n j v :
  upd (map f (seq 0 n)) j v = map (fun i => if i =? j then v else f i) (seq 0 n).
Proof.
  destruct (Nat.lt_ge_cases j n) as [Hj|Hj].
  - apply (nth_ext_lt _ _ v).
    + now rewrite length_upd, !length_map.
    + intros i Hi. rewrite length_upd, length_map, length_seq in Hi.
      rewrite nth_upd, length_map, length_seq.
      apply Nat.ltb_lt in Hj. rewrite Hj, andb_true_r.
      rewrite !nth_map_seq by assumption. reflexivity.
  - rewrite upd_ge by (rewrite length_map, length_seq; lia).
    apply map_seq_ext. intros i Hi.
    replace (i =? j) with false by (symmetry; apply Nat.eqb_neq; lia). reflexivity.
Qed.

Section CheckNest.

Variables (matrixRows : matrix) (inb : nat -> list byte).
Variables (n outputCount do L : nat).

Hypothesis Hrows : outputCount <= length matrixRows.
Hypothesis Hcols : forall i, i < outputCount -> n <= length (nth i matrixRows []).
Hypothesis HL : outputCount <= L.
Hypothesis Hin : forall c, c < n -> length (inb c) = do.

(** Byte [k] of output [i] after [c] columns. *)
Let acc (c i k : nat) : byte :=
  if i <? outputCount
  then bigsum c (fun c' => galMultiply (nth c' (nth i matrixRows []) x00)
                                       (nth k (inb c') x00))
  else x00.

Let state (c : nat) : list (list byte) :=
  map (fun i => map (fun k => acc c i k) (seq 0 do)) (seq 0 L).

Lemma check_state_0 : repeat (repeat x00 do) L = state 0.
Proof.
  unfold state. apply (nth_ext_lt _ _ []).
  - now rewrite repeat_length, length_map, length_seq.
  - intros i Hi. rewrite repeat_length in Hi.
    rewrite (nth_indep _ [] (repeat x00 do)) by (rewrite repeat_length; lia).
    rewrite nth_repeat, nth_map_seq by assumption.
    apply (nth_ext_lt _ _ x00).
    + now rewrite repeat_length, length_map, length_seq.
    + intros k Hk. rewrite repeat_length in Hk. rewrite nth_repeat.
      rewrite nth_map_seq by assumption. unfold acc. now destruct (i <? outputCount).
Qed.

Lemma check_column c :
  c < n ->
  loop (check_cell matrixRows c (inb c)) 0 outputCount (state c) = Ok (state (S c)).
Proof.
  intros Hc.
  destruct (loop_invariant
              (fun iRow cur =>
                 cur = map (fun i => map (fun k => acc (if i <? iRow then S c else c) i k)
                                         (seq 0 do))
                           (seq 0 L))
              (check_cell matrixRows c (inb c)) outputCount 0 (state c))
    as [s [E P]].
  - unfold state. apply map_seq_ext. intros i Hi. reflexivity.
  - intros iRow cur Hi ->. simpl in Hi. eexists. split.
    + apply check_cell_spec; try lia.
      * specialize (Hcols iRow). lia.
      * rewrite length_map, length_seq. lia.
      * rewrite nth_map_seq by lia. rewrite length_map, length_seq. now apply Hin.
    + rewrite upd_map_seq. apply map_seq_ext. intros i Hi'.
      destruct (Nat.eqb_spec i iRow) as [->|Hne].
      * rewrite nth_map_seq by lia.
        replace (iRow <? S iRow) with true by (symmetry; apply Nat.ltb_lt; lia).
        rewrite Nat.ltb_irrefl.
        apply (nth_ext_lt _ _ x00).
        { rewrite length_map2, Hin by assumption. rewrite !length_map, !length_seq. lia. }
        intros k Hk. rewrite length_map2, Hin in Hk by assumption.
        rewrite length_map, length_seq in Hk.
        rewrite (nth_map2 _ _ _ _ x00 x00)
          by (rewrite ?length_map, ?length_seq, ?Hin by assumption; lia).
        rewrite !nth_map_seq by lia. unfold acc.
        replace (iRow <? outputCount) with true by (symmetry; apply Nat.ltb_lt; lia).
        reflexivity.
      * replace (i <? S iRow) with (i <? iRow); [reflexivity|].
        destruct (Nat.ltb_spec i iRow); destruct (Nat.ltb_spec i (S iRow)); auto; lia.
  - rewrite E. f_equal. simpl in P. rewrite P. unfold state.
    apply map_seq_ext. intros i Hi. apply map_seq_ext. intros k Hk.
    unfold acc. destruct (i <? outputCount) eqn:Ei; reflexivity.
Qed.

(** The outputs once every column has been applied. *)
Lemma check_columns (body : nat -> list (list byte) -> outcome (list (list byte))) :
  (forall c cur, c < n ->
     body c cur = loop (check_cell matrixRows c (inb c)) 0 outputCount cur) ->
  loop body 0 n (repeat (repeat x00 do) L) = Ok (state n).
Proof.
  intros Hbody. rewrite check_state_0.
  destruct (loop_invariant (fun c cur => cur = state c) body n 0 (state 0))
    as [s [E P]]; auto.
  - intros c cur Hc ->. exists (state (S c)). split; auto.
    rewrite Hbody by lia. apply check_column. lia.
  - rewrite E. simpl in P. now subst.
Qed.

Lemma check_state_nth i k :
  i < L -> k < do ->
  nth k (nth i (state n) []) x00 = acc n i k.
Proof.
  intros Hi Hk. unfold state. now rewrite !nth_map_seq.
Qed.

Lemma check_state_length : length (state n) = L.
Proof. unfold state. now rewrite length_map, length_seq. Qed.

Lemma check_state_row_length i : i < L -> length (nth i (state n) []) = do.
Proof. intros Hi. unfold state. rewrite nth_map_seq by assumption. now rewrite length_map, length_seq. Qed.

End CheckNest.

(** ** The comparison *)

Lemma bool_ext (a b : bool) : (a = true <-> b = true) -> a = b.
Proof.
  destruct a, b; intros [H1 H2]; auto.
  symmetry. now apply H1.
Qed.

Lemma bytes_equal_spec a b : bytes_equal a b = true <-> a = b.
Proof.
  unfold bytes_equal. destruct (list_eq_dec _ a b) as [E|E].
  - split; [intros _; exact E | reflexivity].
  - split; [discriminate | intros; contradiction].
Qed.

Lemma forallb_seq_shift (f : nat -> bool) n : forall s,
  forallb f (seq (S s) n) = forallb (fun i => f (S i)) (seq s n).
Proof. induction n as [|n IH]; intros s; simpl; auto. now rewrite IH. Qed.

Lemma forallb_seq_ext (f g : nat -> bool) n :
  (forall i, i < n -> f i = g i) -> forallb f (seq 0 n) = forallb g (seq 0 n).
Proof.
  intros H. apply bool_ext. rewrite !forallb_forall. split; intros Hf i Hi.
  - rewrite <- H; auto. apply in_seq in Hi. lia.
  - rewrite H; auto. apply in_seq in Hi. lia.
Qed.

Lemma check_outputs_spec view : forall outputs toCheck (v : nat -> list byte),
  length outputs = length toCheck ->
  (forall i, i < length toCheck -> view (nth i toCheck nil_slice) = Ok (v i)) ->
  check_outputs view outputs toCheck
  = Ok (forallb (fun i => bytes_equal (nth i outputs []) (v i))
                (seq 0 (length outputs))).
Proof.
  induction outputs as [|calc outputs IH]; intros [|chk toCheck] v Hl Hv;
    simpl in Hl; try lia; [reflexivity|].
  cbn [check_outputs]. pose proof (Hv 0 (Nat.lt_0_succ _)) as H0. cbn [nth] in H0.
  rewrite H0. cbn [bind].
  cbn [length seq forallb nth].
  destruct (bytes_equal calc (v 0)); [|reflexivity].
  rewrite (IH toCheck (fun i => v (S i))).
  - cbn [andb]. now rewrite forallb_seq_shift.
  - simpl in Hl. lia.
  - intros i Hi. apply (Hv (S i)). simpl. lia.
Qed.

Lemma agree_spec n matrixRows inputs toCheck a :
  agree n matrixRows inputs toCheck a = true
  <-> forall i q, i < length toCheck -> q < a ->
        coded_byte (nth i matrixRows []) inputs n q = shard_byte toCheck i q.
Proof.
  unfold agree. rewrite forallb_forall. split.
  - intros H i q Hi Hq. specialize (H i). rewrite forallb_forall in H.
    apply byte_dec_bl. apply H; apply in_seq; lia.
  - intros H i Hi. apply in_seq in Hi. apply forallb_forall. intros q Hq.
    apply in_seq in Hq. apply byte_dec_lb. apply H; lia.
Qed.

Lemma agree_0 n matrixRows inputs toCheck : agree n matrixRows inputs toCheck 0 = true.
Proof. apply agree_spec. intros i q _ Hq. lia. Qed.

Lemma agree_le n matrixRows inputs toCheck a b :
  a <= b -> agree n matrixRows inputs toCheck a = false ->
  agree n matrixRows inputs toCheck b = false.
Proof.
  intros Hab Ha. destruct (agree n matrixRows inputs toCheck b) eqn:Eb; auto.
  rewrite <- Ha. symmetry. apply agree_spec. intros i q Hi Hq.
  apply (proj1 (agree_spec _ _ _ _ _) Eb); auto. lia.
Qed.

(** A loop on an optional state that stays defined. *)
Lemma loop_some {S : Type} (body : nat -> option S -> outcome (option S))
  (g : nat -> S -> outcome S) : forall count start s,
  (forall c x, start <= c < start + count ->
     body c (Some x) = (y <- g c x ;; Ok (Some y))) ->
  loop body start count (Some s) = (y <- loop g start count s ;; Ok (Some y)).
Proof.
  induction count as [|count IH]; intros start s H; [reflexivity|].
  simpl. rewrite H by lia. destruct (g start s) as [y|]; [|reflexivity].
  cbn [bind]. apply IH. intros c x Hc. apply H. lia.
Qed.

Lemma loop_none {S : Type} (body : nat -> option S -> outcome (option S)) :
  forall count start,
  (forall c, start <= c < start + count -> body c None = Ok None) ->
  loop body start count None = Ok None.
Proof.
  induction count as [|count IH]; intros start H; [reflexivity|].
  simpl. rewrite H by lia. cbn [bind]. apply IH. intros c Hc. apply H. lia.
Qed.

(** ** The result of [checkSomeShards] *)

Section CheckSpec.

Variables (r : reedSolomon) (matrixRows : matrix) (inputs toCheck : list slice).
Variables (outputCount byteCount : nat).

Hypothesis Hdata : 0 < DataShards r.
Hypothesis Hsplit : 0 < minSplitSize (o r).
Hypothesis Hinputs : DataShards r <= length inputs.
Hypothesis Hin_len :
  forall c, c < DataShards r -> len (nth c inputs nil_slice) = byteCount.
Hypothesis Hrows : outputCount <= length matrixRows.
Hypothesis Hcols :
  forall i, i < outputCount -> DataShards r <= length (nth i matrixRows []).
Hypothesis Hchecks : length toCheck = outputCount.
Hypothesis Hcheck_len :
  forall i, i < outputCount -> len (nth i toCheck nil_slice) = byteCount.

Let st (a : nat) : bool := agree (DataShards r) matrixRows inputs toCheck a.

(** The comparison of the windows [[a, b)] when the bytes below [a] agree. *)
Lemma check_windows a b :
  a <= b <= byteCount -> st a = true ->
  forallb (fun i =>
             bytes_equal
               (map (fun k =>
                       if i <? outputCount
                       then bigsum (DataShards r)
                              (fun c' =>
                                 galMultiply (nth c' (nth i matrixRows []) x00)
                                   (nth k (firstn (b - a)
                                             (skipn a (bytes (nth c' inputs nil_slice))))
                                        x00))
                       else x00)
                    (seq 0 (b - a)))
               (firstn (b - a) (skipn a (bytes (nth i toCheck nil_slice)))))
          (seq 0 outputCount)
  = st b.
Proof.
  intros Hab Ha. apply bool_ext. unfold st in *.
  rewrite agree_spec in Ha. rewrite agree_spec, forallb_forall. rewrite Hchecks in *.
  split.
  - intros H i q Hi Hq. destruct (Nat.lt_ge_cases q a) as [Hlt|Hge]; [now apply Ha|].
    specialize (H i). rewrite bytes_equal_spec in H.
    assert (Hi' : In i (seq 0 outputCount)) by (apply in_seq; lia).
    specialize (H Hi').
    assert (Hk : q - a < b - a) by lia.
    apply (f_equal (fun l => nth (q - a) l x00)) in H.
    rewrite nth_map_seq in H by assumption.
    apply Nat.ltb_lt in Hi as Hi''. rewrite Hi'' in H.
    rewrite nth_window_bytes in H by assumption.
    replace (a + (q - a)) with q in H by lia.
    unfold coded_byte, shard_byte. rewrite <- H.
    apply bigsum_ext. intros c Hc. f_equal.
    rewrite nth_window_bytes by assumption. f_equal. lia.
  - intros H i Hi. apply in_seq in Hi. apply bytes_equal_spec.
    apply (nth_ext_lt _ _ x00).
    + rewrite length_map, length_seq, length_window_bytes; try lia.
      rewrite Hcheck_len; lia.
    + intros k Hk. rewrite length_map, length_seq in Hk.
      rewrite nth_map_seq by assumption.
      replace (i <? outputCount) with true by (symmetry; apply Nat.ltb_lt; lia).
      rewrite nth_window_bytes by assumption.
      fold (shard_byte toCheck i (a + k)). rewrite <- H by lia.
      unfold coded_byte, shard_byte. apply bigsum_ext. intros c Hc. f_equal.
      now rewrite nth_window_bytes.
Qed.

Lemma checkSomeShards_chunk_spec a b :
  a < b <= byteCount ->
  checkSomeShards_chunk (DataShards r) matrixRows inputs toCheck outputCount a b (st a)
  = Ok (st b).
Proof.
  intros Hab. unfold checkSomeShards_chunk.
  destruct (st a) eqn:Ea.
  - rewrite (loop_some _ (fun c outputs =>
               inp <- get inputs c ;;
               inb <- window inp a b ;;
               loop (check_cell matrixRows c inb) 0 outputCount outputs)).
    2:{ intros c x Hc. cbn [negb]. destruct (get inputs c) as [inp|]; [|reflexivity].
        cbn [bind]. destruct (window inp a b); reflexivity. }
    rewrite (check_columns matrixRows
               (fun c => firstn (b - a) (skipn a (bytes (nth c inputs nil_slice))))
               (DataShards r) outputCount (b - a) (length toCheck)); auto; try lia.
    + cbn [bind]. rewrite (check_outputs_spec _ _ _
               (fun i => firstn (b - a) (skipn a (bytes (nth i toCheck nil_slice))))).
      * cbn [bind]. rewrite length_map, length_seq, Hchecks.
        erewrite forallb_seq_ext.
        2:{ intros i Hi. cbv beta. rewrite nth_map_seq by lia. reflexivity. }
        rewrite check_windows by (auto; lia). now destruct (st b).
      * now rewrite length_map, length_seq.
      * intros i Hi. apply window_Ok; [lia|]. rewrite Hcheck_len; lia.
    + intros c Hc. rewrite length_window_bytes; try lia. rewrite Hin_len; lia.
    + intros c cur Hc. rewrite (get_Ok inputs c nil_slice) by lia. cbn [bind].
      rewrite window_Ok by (try rewrite Hin_len; lia). reflexivity.
  - assert (Hb : st b = false) by (apply (agree_le _ _ _ _ a); [lia | exact Ea]).
    rewrite Hb.
    replace (DataShards r) with (S (DataShards r - 1)) at 1 by lia.
    cbn [loop negb bind]. rewrite loop_none; [reflexivity|].
    intros c Hc. reflexivity.
Qed.

Lemma checkSomeShards_loop_spec :
  checkSomeShards_loop (DataShards r) matrixRows inputs toCheck outputCount byteCount
  = Ok (st byteCount).
Proof.
  unfold checkSomeShards_loop.
  rewrite (check_columns matrixRows (fun c => bytes (nth c inputs nil_slice))
             (DataShards r) outputCount byteCount (length toCheck)); auto; try lia.
  - cbn [bind]. rewrite (check_outputs_spec _ _ _ (fun i => bytes (nth i toCheck nil_slice))).
    + rewrite length_map, length_seq, Hchecks. f_equal.
      rewrite <- (check_windows 0 byteCount) by (try apply agree_0; lia).
      apply forallb_seq_ext. intros i Hi. rewrite nth_map_seq by lia.
      rewrite Nat.sub_0_r. cbn [skipn].
      rewrite (@firstn_all2 _ byteCount (bytes (nth i toCheck nil_slice)))
        by (fold (len (nth i toCheck nil_slice)); rewrite Hcheck_len; lia).
      f_equal. apply map_seq_ext. intros k Hk.
      destruct (i <? outputCount); [|reflexivity].
      apply bigsum_ext. intros c Hc.
      rewrite (@firstn_all2 _ byteCount (bytes (nth c inputs nil_slice)))
        by (fold (len (nth c inputs nil_slice)); rewrite Hin_len; lia).
      reflexivity.
    + now rewrite length_map, length_seq.
    + intros i Hi. reflexivity.
  - intros c cur Hc. rewrite (get_Ok inputs c nil_slice) by lia. reflexivity.
Qed.

Lemma checkSomeShardsP_spec :
  checkSomeShardsP r matrixRows inputs toCheck outputCount byteCount = Ok (st byteCount).
Proof.
  unfold checkSomeShardsP.
  set (do0 := byteCount / maxGoroutines (o r)).
  set (do1 := if do0 <? minSplitSize (o r) then minSplitSize (o r) else do0).
  set (do2 := (do1 + 31) / 32 * 32).
  assert (Hdo1 : 0 < do1).
  { unfold do1. destruct (do0 <? minSplitSize (o r)) eqn:E; [assumption|].
    apply Nat.ltb_ge in E. lia. }
  assert (Hdo2 : 0 < do2).
  { unfold do2.
    assert (1 <= (do1 + 31) / 32) by (apply Nat.div_le_lower_bound; lia).
    lia. }
  rewrite <- (agree_0 (DataShards r) matrixRows inputs toCheck) at 1.
  apply (split_loop_spec
           (checkSomeShards_chunk (DataShards r) matrixRows inputs toCheck outputCount)
           st byteCount); try lia.
  intros a b Hab. now apply checkSomeShards_chunk_spec.
Qed.

(** Both variants of [checkSomeShards] return whether every checked shard
    holds the product of its matrix row with the inputs. *)
Lemma checkSomeShards_spec :
  checkSomeShards r matrixRows inputs toCheck outputCount byteCount
  = Ok (agree (DataShards r) matrixRows inputs toCheck byteCount).
Proof.
  unfold checkSomeShards.
  destruct ((1 <? maxGoroutines (o r)) && (minSplitSize (o r) <? byteCount)).
  - apply checkSomeShardsP_spec.
  - apply checkSomeShards_loop_spec.
Qed.

End CheckSpec.

(** * Verify *)

(** ** The shape check *)

Lemma checkShards_None shards nilok :
  checkShards shards nilok = None
  <-> exists size, 0 < size
        /\ (exists shard, In shard shards /\ len shard = size)
        /\ Forall (fun shard => len shard = size \/ (len shard = 0 /\ nilok = true)) shards.
Proof.
  unfold checkShards. split.
  - destruct (shardSize shards =? 0) eqn:E; [discriminate|].
    apply Nat.eqb_neq in E. intros H. exists (shardSize shards).
    split; [lia|]. split; [now apply shardSize_In|].
    now apply checkShards_sizes_None.
  - intros [size [Hs [Hex Hall]]].
    assert (Hsz : shardSize shards = size).
    { apply shardSize_mixed; auto.
      eapply Forall_impl; [|exact Hall]. simpl. intros a [H|[H _]]; auto. }
    rewrite Hsz. replace (size =? 0) with false by (symmetry; apply Nat.eqb_neq; lia).
    now apply checkShards_sizes_None.
Qed.

Lemma checkShards_errors shards nilok e :
  checkShards shards nilok = Some e -> e = ErrShardNoData \/ e = ErrShardSize.
Proof.
  unfold checkShards. destruct (shardSize shards =? 0).
  - intros [= <-]. now left.
  - intros H. right. eapply checkShards_sizes_Some. exact H.
Qed.

Lemma checkShards_NoData_iff shards nilok :
  checkShards shards nilok = Some ErrShardNoData
  <-> Forall (fun shard => len shard = 0) shards.
Proof.
  split; [|apply checkShards_NoData].
  unfold checkShards. destruct (shardSize shards =? 0) eqn:E.
  - intros _. now apply shardSize_0, Nat.eqb_eq.
  - intros H. apply checkShards_sizes_Some in H. discriminate.
Qed.

(** A non-empty shard beside a shard of another length, empty or not, is a
    size error when empty shards are not allowed. *)
Lemma checkShards_unequal shards s1 s2 :
  In s1 shards -> In s2 shards -> len s1 <> 0 -> len s1 <> len s2 ->
  checkShards shards false = Some ErrShardSize.
Proof.
  intros H1 H2 N1 Hne.
  destruct (checkShards shards false) as [e|] eqn:E.
  - destruct (checkShards_errors _ _ _ E) as [-> | ->]; [|reflexivity].
    apply checkShards_NoData_iff in E. rewrite Forall_forall in E.
    specialize (E s1 H1). contradiction.
  - apply checkShards_None in E. destruct E as [size [_ [_ Hall]]].
    rewrite Forall_forall in Hall.
    destruct (Hall s1 H1) as [A|[_ A]]; [|discriminate].
    destruct (Hall s2 H2) as [B|[_ B]]; [|discriminate].
    congruence.
Qed.

(** ** Verify on well-shaped input *)

Lemma Verify_well_shaped r shards size :
  enc_ok r ->
  length shards = Shards r -> 0 < size ->
  Forall (fun shard => len shard = size) shards ->
  Verify r shards
  = Ok (agree (DataShards r) (parity r) (firstn (DataShards r) shards)
              (skipn (DataShards r) shards) size, None).
Proof.
  intros Hok Hlen Hsize Hall.
  pose proof (ok_data Hok) as Hd. pose proof (ok_shards Hok) as Hs.
  assert (Hne : shards <> []) by (destruct shards; simpl in *; [lia | discriminate]).
  assert (Hnth : forall i, i < Shards r -> len (nth i shards nil_slice) = size).
  { intros i Hi. rewrite Forall_forall in Hall. apply Hall, nth_In. lia. }
  unfold Verify. rewrite Hlen, Nat.eqb_refl. cbn [negb].
  rewrite (checkShards_uniform shards size false Hne Hsize Hall).
  rewrite slice_from_Ok, slice_to_Ok by lia. cbn [bind].
  rewrite (get_Ok shards 0 nil_slice) by lia. cbn [bind].
  rewrite (Hnth 0) by lia.
  rewrite checkSomeShards_spec; auto.
  - apply (ok_split Hok).
  - rewrite length_firstn. lia.
  - intros c Hc. rewrite nth_firstn.
    apply Nat.ltb_lt in Hc as Hc'. rewrite Hc'. apply Hnth. lia.
  - rewrite (enc_ok_parity_length r Hok). lia.
  - intros i Hi. rewrite (enc_ok_parity_nth r i Hok), enc_ok_row_length; auto. lia.
  - rewrite length_skipn. lia.
  - intros i Hi. rewrite nth_skipn. apply Hnth. lia.
Qed.

Lemma agree_parity_consistent r shards size :
  enc_ok r -> length shards = Shards r ->
  agree (DataShards r) (parity r) (firstn (DataShards r) shards)
        (skipn (DataShards r) shards) size = true
  <-> parity_consistent r size shards.
Proof.
  intros Hok Hlen.
  pose proof (ok_data Hok) as Hd. pose proof (ok_shards Hok) as Hs.
  rewrite agree_spec, length_skipn, Hlen. unfold parity_consistent.
  assert (Hrow : forall i q, i < ParityShards r ->
            coded_byte (nth i (parity r) []) (firstn (DataShards r) shards)
                       (DataShards r) q
            = coded_byte (nth (DataShards r + i) (m r) []) shards (DataShards r) q).
  { intros i q Hi. rewrite (enc_ok_parity_nth r _ Hok).
    apply coded_byte_ext. intros c Hc. now apply shard_byte_firstn. }
  assert (Hsh : forall i q,
            shard_byte (skipn (DataShards r) shards) i q
            = shard_byte shards (DataShards r + i) q).
  { intros i q. unfold shard_byte. now rewrite nth_skipn. }
  split.
  - intros H i q Hi Hq.
    replace i with (DataShards r + (i - DataShards r)) by lia.
    rewrite <- Hsh, <- Hrow by lia. symmetry. apply H; lia.
  - intros H i q Hi Hq. rewrite Hsh, Hrow by lia. symmetry. apply H; lia.
Qed.

Lemma Verify_parity_consistent r shards size :
  enc_ok r ->
  length shards = Shards r -> 0 < size ->
  Forall (fun shard => len shard = size) shards ->
  exists ok, Verify r shards = Ok (ok, None)
             /\ (ok = true <-> parity_consistent r size shards).
Proof.
  intros Hok Hlen Hsize Hall. eexists. split.
  - now apply (Verify_well_shaped r shards size).
  - now apply agree_parity_consistent.
Qed.

Lemma Verify_true r shards size :
  enc_ok r ->
  length shards = Shards r -> 0 < size ->
  Forall (fun shard => len shard = size) shards ->
  parity_consistent r size shards ->
  Verify r shards = Ok (true, None).
Proof.
  intros Hok Hlen Hsize Hall Hp.
  rewrite (Verify_well_shaped r shards size) by assumption.
  do 2 f_equal. now apply agree_parity_consistent.
Qed.

Lemma Verify_false r shards size :
  enc_ok r ->
  length shards = Shards r -> 0 < size ->
  Forall (fun shard => len shard = size) shards ->
  ~ parity_consistent r size shards ->
  Verify r shards = Ok (false, None).
Proof.
  intros Hok Hlen Hsize Hall Hp.
  rewrite (Verify_well_shaped r shards size) by assumption.
  do 2 f_equal.
  destruct (agree _ _ _ _ _) eqn:E; auto.
  exfalso. apply Hp. now apply agree_parity_consistent.
Qed.

(** What a successful [Encode] says about its input. *)
Lemma Encode_None_inv r shards shards' :
  Encode r shards = Ok (None, shards') ->
  length shards = Shards r
  /\ exists size, 0 < size /\ Forall (fun shard => len shard = size) shards.
Proof.
  unfold Encode. destruct (length shards =? Shards r) eqn:El; [|discriminate].
  apply Nat.eqb_eq in El. cbn [negb].
  destruct (checkShards shards false) as [e|] eqn:Ec; [discriminate|].
  intros _. split; [assumption|].
  apply checkShards_None in Ec. destruct Ec as [size [Hs [_ Hall]]].
  exists size. split; [assumption|].
  eapply Forall_impl; [|exact Hall]. simpl. intros a [H|[_ H]]; [assumption | discriminate].
Qed.

(** The parity shards that [Encode] writes are consistent. *)
Lemma Encode_consistent r shards shards' :
  enc_ok r ->
  Encode r shards = Ok (None, shards') ->
  exists size,
    0 < size /\ length shards' = Shards r
    /\ Forall (fun shard => len shard = size) shards'
    /\ parity_consistent r size shards'.
Proof.
  intros Hok He.
  pose proof (ok_data Hok) as Hd. pose proof (ok_shards Hok) as Hs.
  destruct (Encode_None_inv r shards shards' He) as [Hlen [size [Hsize Hall]]].
  destruct (Encode_success r shards size Hok Hlen Hsize Hall)
    as [s' [E' [Hl' [Hdata Hpar]]]].
  rewrite He in E'. injection E' as <-.
  assert (Hnth : forall i, i < Shards r -> len (nth i shards nil_slice) = size).
  { intros i Hi. rewrite Forall_forall in Hall. apply Hall, nth_In. lia. }
  exists size. split; [assumption|]. split; [assumption|]. split.
  - apply Forall_forall. intros s Hin.
    destruct (In_nth shards' s nil_slice Hin) as [i [Hi <-]]. rewrite Hl' in Hi.
    destruct (Nat.lt_ge_cases i (DataShards r)) as [Hlt|Hge].
    + rewrite Hdata by assumption. apply Hnth. lia.
    + apply (Hpar i). lia.
  - intros i q Hi Hq. rewrite (proj2 (Hpar i Hi) q Hq).
    apply coded_byte_ext. intros c Hc. unfold shard_byte. now rewrite Hdata.
Qed.

(** * Codewords *)

(** ** Consistent shard vectors are codewords *)

Lemma systematic_coded_byte r shards i q :
  systematic (DataShards r) (m r) -> i < DataShards r ->
  coded_byte (nth i (m r) []) shards (DataShards r) q = shard_byte shards i q.
Proof.
  intros Hsys Hi. unfold coded_byte.
  rewrite (bigsum_ext _ _ (fun c => galMultiply (delta i c) (shard_byte shards c q))).
  - now apply (bigsum_delta_l (DataShards r) i (fun c => shard_byte shards c q)).
  - intros c Hc. f_equal. now apply Hsys.
Qed.

Lemma consistent_codeword r size shards :
  enc_ok r -> systematic (DataShards r) (m r) ->
  length shards = Shards r ->
  Forall (fun shard => len shard = size) shards ->
  parity_consistent r size shards ->
  codeword r size shards.
Proof.
  intros Hok Hsys Hlen Hall Hp. split.
  - assumption.
  - intros i Hi. rewrite Forall_forall in Hall. apply Hall, nth_In. lia.
  - intros i q Hi Hq. destruct (Nat.lt_ge_cases i (DataShards r)) as [Hlt|Hge].
    + symmetry. now apply systematic_coded_byte.
    + apply Hp; [lia | assumption].
Qed.

Lemma codeword_consistent r size shards :
  codeword r size shards -> parity_consistent r size shards.
Proof. intros Hcw i q Hi Hq. apply (cw_coded Hcw); [lia | assumption]. Qed.

Lemma codeword_Forall r size shards :
  codeword r size shards -> Forall (fun shard => len shard = size) shards.
Proof.
  intros Hcw. apply Forall_forall. intros s Hin.
  destruct (In_nth shards s nil_slice Hin) as [i [Hi <-]].
  rewrite (cw_length Hcw) in Hi. now apply (cw_len Hcw).
Qed.

(** ** Any [DataShards] shards determine a codeword *)

Lemma shard_bytes_eq s1 s2 size :
  len s1 = size -> len s2 = size ->
  (forall q, q < size -> nth q (bytes s1) x00 = nth q (bytes s2) x00) ->
  bytes s1 = bytes s2.
Proof.
  intros H1 H2 H. apply (nth_ext_lt _ _ x00).
  - unfold len in *. congruence.
  - intros q Hq. apply H. unfold len in H1. lia.
Qed.

Lemma codeword_unique r size E1 E2 kept :
  rs_code r -> codeword r size E1 -> codeword r size E2 ->
  NoDup kept -> length kept = DataShards r -> (forall i, In i kept -> i < Shards r) ->
  (forall i, In i kept -> bytes (nth i E1 nil_slice) = bytes (nth i E2 nil_slice)) ->
  forall i, i < Shards r -> bytes (nth i E1 nil_slice) = bytes (nth i E2 nil_slice).
Proof.
  intros Hc H1 H2 Hnd Hkl Hklt Hsame.
  pose proof (code_ok Hc) as Hok. pose proof (ok_shards Hok) as Hs.
  assert (Hdata : forall c q, c < DataShards r -> q < size ->
                              shard_byte E1 c q = shard_byte E2 c q).
  { intros c q Hc' Hq.
    set (x := map (fun c => galAdd (shard_byte E1 c q) (shard_byte E2 c q))
                  (seq 0 (DataShards r))).
    assert (Hx : zero_vector x).
    { apply (code_mds Hc Hnd Hkl Hklt).
      - unfold x. now rewrite length_map, length_seq.
      - intros row Hin. apply select_rows_In in Hin. destruct Hin as [i [Hi ->]].
        rewrite (dot_bigsum _ x (DataShards r))
          by (unfold x; rewrite length_map, length_seq; lia).
        rewrite (bigsum_ext _ _ (fun c =>
                   galAdd (galMultiply (nth c (nth i (m r) []) x00) (shard_byte E1 c q))
                          (galMultiply (nth c (nth i (m r) []) x00) (shard_byte E2 c q)))).
        + rewrite <- bigsum_add.
          fold (coded_byte (nth i (m r) []) E1 (DataShards r) q).
          fold (coded_byte (nth i (m r) []) E2 (DataShards r) q).
          rewrite <- (cw_coded H1), <- (cw_coded H2) by auto.
          unfold shard_byte. rewrite (Hsame i Hi). apply galAdd_self.
        + intros k Hk. unfold x. rewrite nth_map_seq by assumption. ring. }
    specialize (Hx c). unfold x in Hx. rewrite nth_map_seq in Hx by assumption.
    apply -> galAdd_eq_0 in Hx. exact Hx. }
  intros i Hi.
  apply (shard_bytes_eq _ _ size); try (apply (cw_len H1) || apply (cw_len H2)); auto.
  intros q Hq. fold (shard_byte E1 i q). fold (shard_byte E2 i q).
  rewrite (cw_coded H1), (cw_coded H2) by assumption.
  apply coded_byte_ext. intros c Hc'. now apply Hdata.
Qed.

(** A shard vector that keeps [DataShards] shards of a codeword and is not
    that codeword is not consistent. *)
Lemma corrupted_inconsistent r size E shards kept :
  rs_code r -> codeword r size E ->
  length shards = Shards r ->
  Forall (fun shard => len shard = size) shards ->
  NoDup kept -> length kept = DataShards r -> (forall i, In i kept -> i < Shards r) ->
  (forall i, In i kept -> bytes (nth i shards nil_slice) = bytes (nth i E nil_slice)) ->
  (exists i, i < Shards r /\ bytes (nth i shards nil_slice) <> bytes (nth i E nil_slice)) ->
  ~ parity_consistent r size shards.
Proof.
  intros Hc Hcw Hlen Hall Hnd Hkl Hklt Hsame [i [Hi Hne]] Hp.
  apply Hne.
  apply (codeword_unique r size shards E kept); auto.
  apply consistent_codeword; auto; [apply (code_ok Hc) | apply (code_systematic Hc)].
Qed.

(** * Join *)

(** ** The size loop *)

Lemma join_size_enough : forall shards k acc outSize,
  0 < k <= length shards ->
  (forall j, j < k -> is_nil (nth j shards nil_slice) = false) ->
  outSize <= acc + length (concat (map bytes (firstn k shards))) ->
  exists size, join_size shards acc outSize = Success size /\ outSize <= size.
Proof.
  induction shards as [|shard rest IH]; intros k acc outSize Hk Hnil Hsz;
    [simpl in Hk; lia|].
  destruct k as [|k]; [lia|]. cbn [join_size].
  pose proof (Hnil 0 (Nat.lt_0_succ _)) as H0. cbn [nth] in H0. rewrite H0.
  destruct (Nat.leb_spec outSize (acc + len shard)) as [Hle|Hgt].
  - eexists. split; [reflexivity | assumption].
  - cbn [firstn map concat] in Hsz. rewrite length_app in Hsz. fold (len shard) in Hsz.
    destruct k as [|k].
    { simpl in Hsz. lia. }
    apply (IH (S k)).
    + simpl in Hk. lia.
    + intros j Hj. apply (Hnil (S j)). lia.
    + lia.
Qed.

(** A nil shard met before [outSize] bytes have been counted. *)
Lemma join_size_nil : forall shards j acc outSize,
  j < length shards ->
  (forall i, i < j -> is_nil (nth i shards nil_slice) = false) ->
  is_nil (nth j shards nil_slice) = true ->
  j = 0 \/ acc + length (concat (map bytes (firstn j shards))) < outSize ->
  join_size shards acc outSize = Failure ErrReconstructRequired.
Proof.
  induction shards as [|shard rest IH]; intros j acc outSize Hj Hnot Hnil Hsz;
    [simpl in Hj; lia|].
  cbn [join_size]. destruct j as [|j].
  - simpl in Hnil. now rewrite Hnil.
  - pose proof (Hnot 0 (Nat.lt_0_succ _)) as H0. cbn [nth] in H0. rewrite H0.
    destruct Hsz as [Hsz|Hsz]; [discriminate|].
    cbn [firstn map concat] in Hsz. rewrite length_app in Hsz. fold (len shard) in Hsz.
    replace (outSize <=? acc + len shard) with false by (symmetry; apply Nat.leb_gt; lia).
    apply (IH j).
    + simpl in Hj. lia.
    + intros i Hi. apply (Hnot (S i)). lia.
    + exact Hnil.
    + right. lia.
Qed.

(** Too little data in shards that are all there. *)
Lemma join_size_short : forall shards acc outSize,
  (forall j, j < length shards -> is_nil (nth j shards nil_slice) = false) ->
  acc + length (concat (map bytes shards)) < outSize ->
  join_size shards acc outSize
  = Success (acc + length (concat (map bytes shards))).
Proof.
  induction shards as [|shard rest IH]; intros acc outSize Hnil Hsz.
  - simpl. now rewrite Nat.add_0_r.
  - cbn [join_size].
    pose proof (Hnil 0 (Nat.lt_0_succ _)) as H0. cbn [nth] in H0. rewrite H0.
    cbn [map concat] in *. rewrite length_app in *. fold (len shard) in *.
    replace (outSize <=? acc + len shard) with false by (symmetry; apply Nat.leb_gt; lia).
    rewrite IH.
    + f_equal. lia.
    + intros j Hj. apply (Hnil (S j)). simpl. lia.
    + lia.
Qed.

(** ** The write loop on a buffer *)

Lemma join_write_buffer : forall shards todo dst,
  join_write buffer_write shards (Z.of_nat todo) dst
  = Ok (dst ++ firstn todo (concat (map bytes shards)), None).
Proof.
  induction shards as [|shard rest IH]; intros todo dst.
  - simpl. now rewrite firstn_nil, app_nil_r.
  - cbn [join_write map concat].
    destruct (Z.ltb_spec (Z.of_nat todo) (Z.of_nat (len shard))) as [Hlt|Hge].
    + replace (Z.of_nat todo <? 0)%Z with false by (symmetry; apply Z.ltb_ge; lia).
      unfold buffer_write. rewrite Nat2Z.id.
      rewrite firstn_app. replace (todo - length (bytes shard)) with 0
        by (unfold len in Hlt; lia).
      now rewrite firstn_O, app_nil_r.
    + unfold buffer_write at 1.
      replace (Z.of_nat todo - Z.of_nat (length (bytes shard)))%Z
        with (Z.of_nat (todo - length (bytes shard))) by (unfold len in Hge; lia).
      rewrite IH. rewrite firstn_app, <- app_assoc.
      rewrite (@firstn_all2 _ todo (bytes shard)) by (unfold len in Hge; lia).
      reflexivity.
Qed.

(** ** The shards of [Split] *)

Lemma concat_chunks (buf : list byte) p : forall k,
  k * p <= length buf ->
  concat (map (fun i => firstn p (skipn (i * p) buf)) (seq 0 k)) = firstn (k * p) buf.
Proof.
  induction k as [|k IH]; intros Hk; [reflexivity|].
  rewrite seq_S, map_app, concat_app, IH by lia. cbn [map concat Nat.add].
  rewrite app_nil_r.
  rewrite <- (firstn_skipn (k * p) (firstn (S k * p) buf)) at 1.
  rewrite firstn_firstn. replace (Nat.min (k * p) (S k * p)) with (k * p) by lia.
  f_equal. rewrite skipn_firstn_comm. f_equal. lia.
Qed.

Lemma Split_shards r data :
  0 < DataShards r -> 0 < len data ->
  exists shards perShard buf,
    Split r data = Success shards
    /\ perShard = (len data + DataShards r - 1) / DataShards r
    /\ Shards r * perShard <= length buf
    /\ firstn (length (backing data)) buf = backing data
    /\ (forall q, length (backing data) <= q -> nth q buf x00 = x00)
    /\ length shards = Shards r
    /\ (forall i, i < Shards r ->
          nth i shards nil_slice
          = mk_slice (firstn perShard (skipn (i * perShard) buf))
                     (skipn (perShard + i * perShard) buf)).
Proof.
  intros Hd Hl. unfold Split.
  replace (len data =? 0) with false by (symmetry; apply Nat.eqb_neq; lia).
  set (perShard := (len data + DataShards r - 1) / DataShards r).
  set (buf := if length (backing data) <? Shards r * perShard
              then backing data ++ repeat x00 (Shards r * perShard - length (backing data))
              else backing data).
  eexists. exists perShard, buf. split; [reflexivity|]. split; [reflexivity|].
  split; [|split; [|split; [|split]]].
  - unfold buf. destruct (length (backing data) <? Shards r * perShard) eqn:E.
    + apply Nat.ltb_lt in E. rewrite length_app, repeat_length. lia.
    + now apply Nat.ltb_ge in E.
  - unfold buf. destruct (length (backing data) <? Shards r * perShard).
    + rewrite firstn_app, Nat.sub_diag, firstn_O, app_nil_r. apply firstn_all.
    + apply firstn_all.
  - intros q Hq. unfold buf. destruct (length (backing data) <? Shards r * perShard).
    + rewrite app_nth2 by lia. apply nth_repeat.
    + apply nth_overflow. lia.
  - now rewrite length_map, length_seq.
  - intros i Hi.
    rewrite (nth_indep _ nil_slice
               ((fun i => mk_slice (firstn perShard (skipn (i * perShard) buf))
                                   (skipn (perShard + i * perShard) buf)) 0))
      by (rewrite length_map, length_seq; lia).
    rewrite (map_nth (fun i => mk_slice (firstn perShard (skipn (i * perShard) buf))
                                        (skipn (perShard + i * perShard) buf))).
    now rewrite seq_nth by lia.
Qed.

Lemma ceil_div_bound a n : 0 < n -> a <= n * ((a + n - 1) / n).
Proof.
  intros Hn. pose proof (Nat.div_mod_eq (a + n - 1) n) as E.
  pose proof (Nat.mod_upper_bound (a + n - 1) n) as U. lia.
Qed.

(** The data shards of [Split], one after the other, begin with the data. *)
Lemma Split_data r data shards :
  0 < DataShards r -> DataShards r <= Shards r -> 0 < len data ->
  Split r data = Success shards ->
  firstn (len data) (concat (map bytes (firstn (DataShards r) shards))) = bytes data.
Proof.
  intros Hd Hle Hl Hs.
  destruct (Split_shards r data Hd Hl)
    as [shards' [perShard [buf [E [Hp [Hb [Hpre [_ [Hlen Hnth]]]]]]]]].
  rewrite Hs in E. injection E as <-.
  assert (Hmap : map bytes (firstn (DataShards r) shards)
                 = map (fun i => firstn perShard (skipn (i * perShard) buf))
                       (seq 0 (DataShards r))).
  { apply (nth_ext_lt _ _ []).
    - rewrite !length_map, length_firstn, length_seq. lia.
    - intros i Hi. rewrite length_map, length_firstn in Hi.
      rewrite (nth_indep _ [] (bytes nil_slice)) by (rewrite length_map, length_firstn; lia).
      rewrite map_nth, nth_firstn.
      replace (i <? DataShards r) with true by (symmetry; apply Nat.ltb_lt; lia).
      rewrite Hnth by lia. rewrite nth_map_seq by lia. reflexivity. }
  rewrite Hmap, concat_chunks by nia.
  rewrite firstn_firstn.
  assert (Hceil : len data <= DataShards r * perShard)
    by (rewrite Hp; now apply ceil_div_bound).
  replace (Nat.min (len data) (DataShards r * perShard)) with (len data) by lia.
  pose proof (len_le_cap data) as Hcap. unfold cap in Hcap.
  transitivity (firstn (len data) (firstn (length (backing data)) buf)).
  { rewrite firstn_firstn. f_equal. lia. }
  rewrite Hpre.
  destruct data as [|vis spare]; [reflexivity|].
  unfold len. simpl. rewrite firstn_app, Nat.sub_diag, firstn_O, app_nil_r.
  apply firstn_all.
Qed.

(** ** Join into a buffer *)

Lemma Join_buffer r dst shards outSize k :
  DataShards r <= length shards -> 0 < k <= DataShards r ->
  (forall j, j < k -> is_nil (nth j shards nil_slice) = false) ->
  outSize <= length (concat (map bytes (firstn k shards))) ->
  Join buffer_write r dst shards outSize
  = Ok (dst ++ firstn outSize (concat (map bytes (firstn (DataShards r) shards))), None).
Proof.
  intros Hlen Hk Hnil Hsz. unfold Join.
  replace (length shards <? DataShards r) with false by (symmetry; apply Nat.ltb_ge; lia).
  destruct (join_size_enough (firstn (DataShards r) shards) k 0 outSize)
    as [size [E Hle]].
  - rewrite length_firstn. lia.
  - intros j Hj. rewrite nth_firstn.
    replace (j <? DataShards r) with true by (symmetry; apply Nat.ltb_lt; lia).
    now apply Hnil.
  - rewrite firstn_firstn. replace (Nat.min k (DataShards r)) with k by lia. exact Hsz.
  - rewrite E. replace (size <? outSize) with false by (symmetry; apply Nat.ltb_ge; lia).
    rewrite join_write_buffer. reflexivity.
Qed.

(** * Reconstructing the data shards only *)

Section DataOnly.

Variables (r : reedSolomon) (t : inversionTree) (size : nat).
Variables (E dm : list slice).

Hypothesis Hc : rs_code r.
Hypothesis Ht : tree_ok r t.
Hypothesis Hcw : codeword r size E.
Hypothesis Hsize : 0 < size.
Hypothesis Hlen : length dm = Shards r.
Hypothesis Hkeep :
  forall i, i < Shards r ->
            nth i dm nil_slice = nth i E nil_slice \/ len (nth i dm nil_slice) = 0.
Hypothesis Hpres : DataShards r <= numberPresent dm.

(** [ReconstructData] on a codeword of which at least [DataShards] shards
    are kept and the others are empty restores the data shards and leaves the
    other shards as they are. *)
Lemma reconstruct_data_codeword :
  exists restored t',
    ReconstructData r t dm = Ok (None, restored, t')
    /\ tree_ok r t'
    /\ length restored = Shards r
    /\ (forall i, i < DataShards r ->
          bytes (nth i restored nil_slice) = bytes (nth i E nil_slice))
    /\ (forall i, DataShards r <= i ->
          nth i restored nil_slice = nth i dm nil_slice).
Proof.
  pose proof (dm_present r E dm Hkeep) as dm_present'.
  pose proof (dm_mixed r size E dm Hcw Hlen Hkeep) as dm_mixed'.
  pose proof (dm_some_present r size E dm Hc Hcw Hsize Hlen Hkeep Hpres) as dm_some_present'.
  pose proof (decode_byte r size E dm Hcw Hsize Hlen Hpres) as decode_byte'.
  pose proof (codeword_bytes r size E dm Hcw Hsize Hlen Hpres) as codeword_bytes'.
  pose proof (code_ok Hc) as Hok.
  pose proof (ok_data Hok) as Hd. pose proof (ok_shards Hok) as Hs.
  unfold ReconstructData, reconstruct.
  rewrite Hlen, Nat.eqb_refl. cbn [negb].
  rewrite (checkShards_mixed dm size Hsize dm_mixed' dm_some_present').
  rewrite (shardSize_mixed dm size dm_mixed' dm_some_present').
  destruct (numberPresent dm =? Shards r) eqn:Eall.
  { exists dm, t. split; [reflexivity|]. split; [assumption|]. split; [assumption|].
    split; [|reflexivity].
    intros i Hi. apply Nat.eqb_eq in Eall. rewrite <- Hlen in Eall.
    apply numberPresent_all_inv in Eall. rewrite Forall_forall in Eall.
    rewrite dm_present'; auto; [lia|]. apply Eall. apply nth_In. lia. }
  replace (numberPresent dm <? DataShards r) with false
    by (symmetry; apply Nat.ltb_ge; lia).
  destruct (scan_valid dm 0 (DataShards r)) as [[sub valid] invalid] eqn:Es.
  destruct (scan_valid_spec dm 0 (DataShards r) sub valid invalid Es Hpres)
    as [Hvl [Hsub [Hvin [Hvnd [_ Hvkey]]]]].
  assert (Hvlt : forall i, In i valid -> i < Shards r)
    by (intros i Hi; destruct (Hvin i Hi); lia).
  destruct (decode_matrix_spec r t valid invalid Hc Ht) as [dec [t' [Ed [Hdec Ht']]]]; auto.
  { apply Hvkey. lia. }
  rewrite Ed. cbn [bind].
  pose proof Hdec as [Hdl [Hdw [Hdinv _]]].
  (* the missing data shards *)
  destruct (round_run r size (get dec) (fun i => nth i dec []) 0 (DataShards r) dm
              (repeat nil_slice (ParityShards r)) (repeat [] (ParityShards r)) Hok)
    as [g1 [E1 [G1 [S1 C1]]]].
  { lia. }
  { rewrite repeat_length. apply missing_data_le; [lia | assumption]. }
  { rewrite repeat_length. apply missing_data_le; [lia | assumption]. }
  { intros i Hi. split; [apply get_Ok; lia|].
    apply (proj1 (width_nth (DataShards r) dec) Hdw). lia. }
  rewrite E1. cbn [bind]. rewrite S1. cbn [bind].
  assert (Hsubn : forall c, c < DataShards r ->
                            nth c sub nil_slice = nth (nth c valid 0) E nil_slice).
  { intros c Hc'. rewrite Hsub.
    rewrite (nth_indep _ nil_slice ((fun i => nth (i - 0) dm nil_slice) 0))
      by (rewrite length_map; lia).
    rewrite (map_nth (fun i => nth (i - 0) dm nil_slice)).
    destruct (Hvin (nth c valid 0)) as [Hr Hp]; [apply nth_In; lia|].
    rewrite Nat.sub_0_r in Hp |- *. apply dm_present'; [lia | exact Hp]. }
  destruct (C1 sub) as [K1 [L1 [O1 B1]]].
  { rewrite Hsub, length_map. lia. }
  { intros c Hc'. rewrite Hsubn by assumption. apply (cw_len Hcw).
    apply Hvlt, nth_In. lia. }
  rewrite K1. cbn [bind]. cbv zeta.
  set (miss1 := missing dm 0 (DataShards r)) in *.
  set (outs1 := coded (DataShards r) (g_rows g1) sub (length miss1) size
                      (firstn (length miss1) (g_outputs g1))) in *.
  set (shards2 := scatter (g_index g1) outs1 (g_shards g1)) in *.
  assert (H2data : forall i, i < DataShards r ->
                             bytes (nth i shards2 nil_slice) = bytes (nth i E nil_slice)).
  { intros i Hi. destruct (Nat.eq_dec (len (nth i dm nil_slice)) 0) as [Z|NZ].
    - rewrite B1 by (apply missing_In; split; [lia | assumption]).
      apply codeword_bytes'; [lia|]. intros q Hq.
      apply (decode_byte' dec valid sub); auto.
      + intros c Hc'. apply Hvlt, nth_In. lia.
      + intros c Hc'. now rewrite Hsubn.
    - rewrite O1 by (intros Hin; apply missing_In in Hin; lia).
      rewrite dm_present'; auto. lia. }
  assert (H2par : forall i, DataShards r <= i ->
                            nth i shards2 nil_slice = nth i dm nil_slice).
  { intros i Hi. apply O1. intros Hin. apply missing_In in Hin. lia. }
  exists shards2, t'. split; [reflexivity|]. split; [assumption|].
  split; [rewrite L1; assumption|]. split; assumption.
Qed.

End DataOnly.

(** * The first combination that [GetSurvivalShards] accepts *)

Section FirstCombination.

Variables (r : reedSolomon) (badIndex fcs sur : list nat) (ns k : nat).
Hypothesis Hns : length sur = ns.
Hypothesis Hm : width k (m r).
Hypothesis Hsur : forall s, s < length sur -> nth s sur 0 < length (m r).

Lemma combination_loop_first : forall todo i st,
  i + todo = comb ns k ->
  (0 < todo -> s_comb st = nth i (combs ns 0 k) []) ->
  length (s_sub st) = k -> width k (s_sub st) -> length (s_select st) = k ->
  s_chosen st = false ->
  exists st',
    combination_loop r badIndex fcs sur ns k (comb ns k) i todo st = Ok st'
    /\ ((s_chosen st' = true /\ s_err st' = None
         /\ exists j, i <= j < comb ns k
                      /\ good_comb r badIndex fcs sur (nth j (combs ns 0 k) []) = true
                      /\ (forall j', i <= j' < j ->
                            good_comb r badIndex fcs sur (nth j' (combs ns 0 k) []) = false)
                      /\ s_select st' = sel_of sur (nth j (combs ns 0 k) []))
        \/ (s_chosen st' = false
            /\ s_err st'
               = (if todo =? 0 then s_err st
                  else inversion_error r (sel_of sur (nth (comb ns k - 1) (combs ns 0 k) [])))
            /\ forall j, i <= j < comb ns k ->
                         good_comb r badIndex fcs sur (nth j (combs ns 0 k) []) = false)).
Proof.
  induction todo as [|todo IH]; intros i st Hi Hcomb Hsub Hsubw Hsel Hch.
  - exists st. split; [reflexivity|]. right. split; [assumption|].
    split; [reflexivity|]. intros j Hj. lia.
  - set (c := nth i (combs ns 0 k) []).
    assert (Hc : length c = k /\ inc_in 0 (0 + ns) c).
    { apply combs_In. apply nth_In. rewrite length_combs. lia. }
    destruct Hc as [Hcl Hci].
    assert (Hcs : forall s, In s c -> s < length sur).
    { intros s Hs. destruct (inc_in_bound _ _ _ _ Hci Hs). lia. }
    assert (Hkn : k <= ns).
    { destruct (Nat.le_gt_cases k ns); auto. rewrite (comb_zero ns k) in Hi by lia. lia. }
    (* what happens when the combination is not chosen *)
    assert (Hcont : good_comb r badIndex fcs sur c = false ->
              forall sel' err, length sel' = k ->
              err = inversion_error r (sel_of sur c) ->
              exists st',
                (tmp <- (if i <? comb ns k - 1 then next_combination c ns k else Ok c) ;;
                 combination_loop r badIndex fcs sur ns k (comb ns k) (S i) todo
                   {| s_comb := tmp; s_sub := select_rows (m r) (sel_of sur c);
                      s_select := sel'; s_err := err; s_chosen := false |}) = Ok st'
                /\ ((s_chosen st' = true /\ s_err st' = None
                     /\ exists j, i <= j < comb ns k
                          /\ good_comb r badIndex fcs sur (nth j (combs ns 0 k) []) = true
                          /\ (forall j', i <= j' < j ->
                                good_comb r badIndex fcs sur (nth j' (combs ns 0 k) [])
                                = false)
                          /\ s_select st' = sel_of sur (nth j (combs ns 0 k) []))
                    \/ (s_chosen st' = false
                        /\ s_err st'
                           = inversion_error r
                               (sel_of sur (nth (comb ns k - 1) (combs ns 0 k) []))
                        /\ forall j, i <= j < comb ns k ->
                             good_comb r badIndex fcs sur (nth j (combs ns 0 k) []) = false))).
    { intros Hbad sel' err Hsel' Herr.
      assert (Hnext : exists tmp,
                 (if i <? comb ns k - 1 then next_combination c ns k else Ok c) = Ok tmp
                 /\ (0 < todo -> tmp = nth (S i) (combs ns 0 k) [])).
      { destruct (i <? comb ns k - 1) eqn:Eg.
        - apply Nat.ltb_lt in Eg. exists (nth (S i) (combs ns 0 k) []). split; auto.
          apply next_combination_step; auto.
          apply (combs_chain ns 0 k i). lia.
        - apply Nat.ltb_ge in Eg. exists c. split; auto. intros Ht. lia. }
      destruct Hnext as [tmp [En Htmp]]. rewrite En. cbn [bind].
      destruct (IH (S i) {| s_comb := tmp; s_sub := select_rows (m r) (sel_of sur c);
                            s_select := sel'; s_err := err; s_chosen := false |})
        as [st' [E [[H1 [H0 [j [Hj [Hg [Hf Hs]]]]]]|[H1 [H0 H2]]]]]; simpl; auto; try lia.
      - unfold sel_of. now rewrite length_select_rows, length_map.
      - apply width_select_rows; auto. intros x Hx. unfold sel_of in Hx.
        apply in_map_iff in Hx. destruct Hx as [s [<- Hs]]. auto.
      - exists st'. split; [exact E|]. left. split; [assumption|]. split; [assumption|].
        exists j. split; [lia|]. split; [assumption|]. split; [|assumption].
        intros j' Hj'. destruct (Nat.eq_dec j' i) as [->|Hne]; [exact Hbad|].
        apply Hf. lia.
      - exists st'. split; [exact E|]. right. split; [assumption|]. split.
        + rewrite H0. simpl. destruct (Nat.eqb_spec todo 0) as [Ht|Ht]; [|reflexivity].
          rewrite Herr. unfold c. do 3 f_equal. lia.
        + intros j Hj. destruct (Nat.eq_dec j i) as [->|Hne]; [exact Hbad|].
          apply H2. lia. }
    simpl combination_loop. rewrite (Hcomb (Nat.lt_0_succ todo)). fold c.
    rewrite (fill_sub (m r) k sur Hm Hsur c (s_sub st)) by (auto; lia).
    cbn [bind]. cbv zeta.
    unfold good_comb in Hcont. unfold inversion_error in Hcont at 1.
    destruct (Invert (select_rows (m r) (sel_of sur c))) as [inv|e] eqn:EI.
    + rewrite (fill_select sur c (s_select st)) by (auto; lia). cbn [bind].
      fold (chosen_pred r badIndex fcs (sel_of sur c)) in *.
      destruct (chosen_pred r badIndex fcs (sel_of sur c)) eqn:EC.
      * eexists. split; [reflexivity|]. left. split; [reflexivity|].
        split; [reflexivity|].
        exists i. split; [lia|]. split; [|split; [|reflexivity]].
        -- unfold good_comb. fold c. now rewrite EI.
        -- intros j' Hj'. lia.
      * apply Hcont; auto. unfold sel_of. now rewrite length_map.
    + cbn [bind]. apply Hcont; auto.
Qed.

End FirstCombination.

(** ** The survivors of several failures *)

Lemma length_survivor_list n bad :
  NoDup bad -> (forall b, In b bad -> b < n) ->
  length (survivor_list n bad) = n - length bad.
Proof.
  intros Hnd Hlt. unfold survivor_list.
  pose proof (filter_length (fun i => mem i bad) (seq 0 n)) as H.
  rewrite length_seq in H.
  assert (Hin : length (filter (fun i => mem i bad) (seq 0 n)) = length bad).
  { apply Nat.le_antisymm.
    - apply NoDup_incl_length.
      + apply NoDup_filter, seq_NoDup.
      + intros x Hx. apply filter_In in Hx. now apply mem_In.
    - apply NoDup_incl_length; [assumption|].
      intros x Hx. apply filter_In. split.
      + apply in_seq. specialize (Hlt x Hx). lia.
      + now apply mem_In. }
  lia.
Qed.

Lemma survivor_list_In n bad x : In x (survivor_list n bad) <-> x < n /\ ~ In x bad.
Proof.
  unfold survivor_list. rewrite filter_In, in_seq, negb_true_iff, mem_false.
  split; intros [H1 H2]; split; auto; lia.
Qed.

Lemma survival_indices_general n bad :
  NoDup bad -> (forall b, In b bad -> b < n) ->
  survival_indices n bad = Ok (survivor_list n bad, n - length bad).
Proof.
  intros Hnd Hlt. unfold survival_indices. fold (survivor_list n bad).
  pose proof (length_survivor_list n bad Hnd Hlt) as Hl.
  assert (Hle : length bad <= n).
  { rewrite <- (length_seq n 0) at 1. apply NoDup_incl_length; [assumption|].
    intros x Hx. apply in_seq. specialize (Hlt x Hx). lia. }
  replace (n <? length bad) with false by (symmetry; apply Nat.ltb_ge; lia).
  rewrite Hl, Nat.ltb_irrefl, Nat.sub_diag. simpl. now rewrite app_nil_r.
Qed.

(** With more than one failure every invertible combination is accepted. *)
Lemma good_comb_multi r bad fcs sur c :
  1 < length bad ->
  good_comb r bad fcs sur c
  = match Invert (select_rows (m r) (sel_of sur c)) with
    | Success _ => true
    | Failure _ => false
    end.
Proof.
  intros H. unfold good_comb, chosen_pred.
  apply Nat.ltb_lt in H. rewrite H. reflexivity.
Qed.

(** [GetSurvivalShards] for several failures: the first invertible candidate,
    as both lists, or no lists and the error of the last inversion. *)
Lemma GetSurvivalShards_multi r bad azLayout :
  enc_ok r -> NoDup bad -> (forall b, In b bad -> b < Shards r) ->
  1 < length bad <= ParityShards r ->
  (exists j sel inv,
      j < length (candidates r bad)
      /\ nth j (candidates r bad) [] = sel
      /\ Invert (select_rows (m r) sel) = Success inv
      /\ (forall j', j' < j ->
            exists e, Invert (select_rows (m r) (nth j' (candidates r bad) [])) = Failure e)
      /\ GetSurvivalShards r bad azLayout = Ok (sel, sel, None))
  \/ ((forall sel, In sel (candidates r bad) ->
         exists e, Invert (select_rows (m r) sel) = Failure e)
      /\ exists e, GetSurvivalShards r bad azLayout = Ok ([], [], Some e)).
Proof.
  intros Hok Hnd Hlt Hb.
  pose proof (ok_shards Hok) as Hs. pose proof (ok_data Hok) as Hd.
  set (sur := survivor_list (Shards r) bad).
  set (ns := Shards r - length bad).
  set (k := DataShards r).
  assert (Hcnt : 0 < comb ns k) by (apply comb_pos; unfold ns, k; lia).
  assert (Hcl : length (candidates r bad) = comb ns k)
    by (unfold candidates; now rewrite length_map, length_combs).
  assert (Hcn : forall j, j < comb ns k ->
            nth j (candidates r bad) [] = sel_of sur (nth j (combs ns 0 k) [])).
  { intros j Hj. unfold candidates. fold sur ns k.
    rewrite (nth_indep _ [] (sel_of sur [])) by (rewrite length_map, length_combs; lia).
    now rewrite (map_nth (sel_of sur)). }
  rewrite GetSurvivalShards_eq.
  replace (length bad =? 0) with false by (symmetry; apply Nat.eqb_neq; lia).
  replace (Shards r <? DataShards r + length bad) with false
    by (symmetry; apply Nat.ltb_ge; lia).
  replace (length bad =? 1) with false by (symmetry; apply Nat.eqb_neq; lia).
  cbn [andb bind].
  rewrite survival_indices_general by assumption. cbn [bind]. cbv zeta.
  fold sur ns k.
  destruct (combination_loop_first r bad [] sur ns k)
    with (todo := comb ns k) (i := 0)
         (st := {| s_comb := seq 0 k;
                   s_sub := newMatrix k k;
                   s_select := repeat 0 k;
                   s_err := None; s_chosen := false |})
    as [st' [E [[Hch [Herr [j [Hj [Hg [Hfirst Hsel]]]]]]|[Hch [Herr Hnone]]]]];
    simpl; auto.
  - unfold sur, ns. now apply length_survivor_list.
  - intros row. apply (ok_cols Hok).
  - intros s Hs'. rewrite (ok_rows Hok).
    apply (survivor_list_In (Shards r) bad). apply nth_In. exact Hs'.
  - intros _. symmetry. apply combs_first. unfold ns, k. lia.
  - apply length_newMatrix.
  - apply width_newMatrix.
  - apply repeat_length.
  - left. rewrite good_comb_multi in Hg by lia.
    destruct (Invert (select_rows (m r) (sel_of sur (nth j (combs ns 0 k) []))))
      as [inv|] eqn:EI; [|discriminate].
    exists j, (s_select st'), inv. split; [lia|]. split; [rewrite Hcn by lia; now symmetry|].
    split; [now rewrite Hsel|]. split.
    + intros j' Hj'. rewrite Hcn by lia.
      specialize (Hfirst j' (conj (Nat.le_0_l _) Hj')).
      rewrite good_comb_multi in Hfirst by lia.
      destruct (Invert (select_rows (m r) (sel_of sur (nth j' (combs ns 0 k) []))))
        as [|e]; [discriminate Hfirst|]. now exists e.
    + rewrite E. cbn [bind]. rewrite Hch. reflexivity.
  - right.
    assert (Hfail : forall j, j < comb ns k ->
              exists e, Invert (select_rows (m r) (nth j (candidates r bad) [])) = Failure e).
    { intros j Hj. rewrite Hcn by assumption.
      specialize (Hnone j (conj (Nat.le_0_l _) Hj)).
      rewrite good_comb_multi in Hnone by lia.
      destruct (Invert (select_rows (m r) (sel_of sur (nth j (combs ns 0 k) []))))
        as [|e]; [discriminate Hnone|]. now exists e. }
    split.
    + intros sel Hin. destruct (In_nth _ _ [] Hin) as [j [Hj <-]].
      apply Hfail. lia.
    + rewrite E. cbn [bind]. rewrite Hch. cbn [negb].
      replace (comb ns k =? 0) with false in Herr by (symmetry; apply Nat.eqb_neq; lia).
      rewrite Herr. unfold inversion_error.
      destruct (Hfail (comb ns k - 1)) as [e He]; [lia|].
      rewrite Hcn in He by lia. rewrite He. now exists e.
Qed.

(** ** The candidates *)

Lemma inc_in_nth_mono hi l : forall lo i j,
  inc_in lo hi l -> i < j < length l -> nth i l 0 < nth j l 0.
Proof.
  induction l as [|a t IH]; intros lo i j H Hij; [simpl in Hij; lia|].
  destruct H as [Ha Ht]. destruct j as [|j]; [lia|]. destruct i as [|i].
  - simpl. assert (Hj : j < length t) by (simpl in Hij; lia).
    destruct (inc_in_bound _ _ _ _ Ht (nth_In t 0 Hj)). lia.
  - simpl. apply (IH (S a)); [assumption|]. simpl in Hij. lia.
Qed.

Lemma inc_in_filter_seq (f : nat -> bool) n : forall lo,
  inc_in lo (lo + n) (filter f (seq lo n)).
Proof.
  induction n as [|n IH]; intros lo; simpl; auto.
  specialize (IH (S lo)). replace (S lo + n) with (lo + S n) in IH by lia.
  destruct (f lo).
  - simpl. split; [lia | assumption].
  - apply (inc_in_weaken _ _ (S lo)); [lia | assumption].
Qed.

Lemma inc_in_map (g : nat -> nat) hi hi' c : forall lo lo',
  (forall a b, a < b < hi -> g a < g b) ->
  inc_in lo hi c ->
  (forall a, lo <= a < hi -> lo' <= g a < hi') ->
  inc_in lo' hi' (map g c).
Proof.
  induction c as [|a t IH]; intros lo lo' Hmono H Hb; simpl; auto.
  destruct H as [Ha Ht]. split; [now apply Hb|].
  apply (IH (S a)); auto.
  intros b Hb'. specialize (Hmono a b). specialize (Hb b). lia.
Qed.

Lemma candidates_sound r bad sel :
  NoDup bad -> (forall b, In b bad -> b < Shards r) ->
  In sel (candidates r bad) ->
  length sel = DataShards r /\ inc_in 0 (Shards r) sel
  /\ forall x, In x sel -> ~ In x bad.
Proof.
  intros Hnd Hlt Hin. unfold candidates in Hin. apply in_map_iff in Hin.
  destruct Hin as [c [<- Hc]]. apply combs_In in Hc. destruct Hc as [Hcl Hci].
  simpl in Hci.
  pose proof (length_survivor_list (Shards r) bad Hnd Hlt) as Hl.
  pose proof (inc_in_filter_seq (fun i => negb (mem i bad)) (Shards r) 0) as Hsur.
  fold (survivor_list (Shards r) bad) in Hsur. simpl in Hsur.
  assert (Hnth : forall a, 0 <= a < Shards r - length bad ->
                           In (nth a (survivor_list (Shards r) bad) 0)
                              (survivor_list (Shards r) bad))
    by (intros a Ha; apply nth_In; lia).
  unfold sel_of. split; [now rewrite length_map|]. split.
  - apply (inc_in_map _ (Shards r - length bad) _ c 0 0); auto.
    + intros a b Hab. apply (inc_in_nth_mono _ _ _ _ _ Hsur). lia.
    + intros a Ha. apply Hnth, survivor_list_In in Ha. lia.
  - intros x Hx. apply in_map_iff in Hx. destruct Hx as [a [<- Ha]].
    destruct (inc_in_bound _ _ _ _ Hci Ha) as [_ Ha'].
    apply (survivor_list_In (Shards r)), Hnth. lia.
Qed.

(** * What one call of [PartialReconstruct] contributes *)

(** ** The decode matrix of a selection is unique *)

Lemma decodes_unique r sel dec1 dec2 i j :
  decodes r sel dec1 -> decodes r sel dec2 ->
  i < DataShards r -> j < DataShards r ->
  entry dec1 i j = entry dec2 i j.
Proof.
  intros [_ [_ [H1 _]]] [_ [_ [_ H2]]] Hi Hj.
  transitivity (bigsum (DataShards r) (fun k =>
                  bigsum (DataShards r) (fun l =>
                    galMultiply (galMultiply (entry dec1 i k)
                                             (entry (select_rows (m r) sel) k l))
                                (entry dec2 l j)))).
  - rewrite (bigsum_ext _ _ (fun k => galMultiply (entry dec1 i k) (delta k j))).
    + symmetry. now apply (bigsum_delta_r (DataShards r) j (fun k => entry dec1 i k)).
    + intros k Hk. rewrite <- (H2 k j Hk Hj). rewrite bigsum_scale.
      apply bigsum_ext. intros l Hl. ring.
  - rewrite bigsum_exchange.
    rewrite (bigsum_ext _ _ (fun l => galMultiply (delta i l) (entry dec2 l j))).
    + now apply (bigsum_delta_l (DataShards r) i (fun l => entry dec2 l j)).
    + intros l Hl. rewrite <- (H1 i l Hi Hl). rewrite bigsum_scale_r.
      apply bigsum_ext. intros k Hk. ring.
Qed.

(** ** One call *)

Section Contribution.

Variables (r : reedSolomon) (t : inversionTree) (b : nat) (have sel : list nat).
Variables (size : nat) (E shards : list slice).

Hypothesis Hok : enc_ok r.
Hypothesis Hsys : systematic (DataShards r) (m r).
Hypothesis Ht : tree_ok r t.
Hypothesis Hpar : 0 < ParityShards r.
Hypothesis Hsel : selection r b have sel.
Hypothesis Hb : b < Shards r.
Hypothesis Hcw : codeword r size E.
Hypothesis Hsize : 0 < size.
Hypothesis Hlen : length shards = Shards r.
Hypothesis Hpresent :
  forall i, In i have -> nth i shards nil_slice = nth i E nil_slice.
Hypothesis Habsent :
  forall i, i < Shards r -> ~ In i have -> len (nth i shards nil_slice) = 0.
Hypothesis Hsome : have <> [].

Lemma csel_lt i : In i sel -> i < Shards r.
Proof. intros H. destruct (inc_in_bound _ _ _ _ (sel_inc Hsel) H). lia. Qed.

Lemma csel_nth_lt c : c < DataShards r -> nth c sel 0 < Shards r.
Proof. intros H. apply csel_lt, nth_In. now rewrite (sel_length Hsel). Qed.

Lemma chave_lt i : In i have -> i < Shards r.
Proof. intros H. apply csel_lt. now apply (sel_peers Hsel). Qed.

(** The weights of the survivors in the failed shard. *)
Lemma row_mul_nth dec c :
  length dec = DataShards r -> c < DataShards r -> width (DataShards r) dec ->
  nth c (row_mul (nth b (m r) []) dec) x00
  = bigsum (DataShards r) (fun k => galMultiply (entry (m r) b k) (entry dec k c)).
Proof.
  intros Hdl Hc Hdw.
  rewrite nth_row_mul
    by (rewrite (cols_width (DataShards r)); auto; rewrite Hdl; apply (ok_data Hok)).
  now rewrite (dot_column _ dec c (DataShards r) Hdl).
Qed.

Lemma PartialReconstruct_contribution :
  exists restored t' dec,
    PartialReconstruct r t shards sel [b] = Ok (None, restored, t')
    /\ tree_ok r t'
    /\ decodes r sel dec
    /\ length restored = Shards r
    /\ len (nth b restored nil_slice) = size
    /\ (forall q, q < size ->
          shard_byte restored b q
          = bigsum (DataShards r)
              (fun c => galMultiply (nth c (row_mul (nth b (m r) []) dec) x00)
                          (if mem (nth c sel 0) have
                           then shard_byte E (nth c sel 0) q else x00)))
    /\ (forall i, i <> b ->
          nth i restored nil_slice
          = if mem i sel && (len (nth i shards nil_slice) =? 0) then make size
            else nth i shards nil_slice).
Proof.
  pose proof (ok_data Hok) as Hd. pose proof (ok_shards Hok) as Hs.
  assert (Hbsel : ~ In b sel) by apply (sel_bad Hsel).
  assert (Hbp : ~ In b have) by (intros H; apply Hbsel; now apply (sel_peers Hsel)).
  assert (Hmixed : Forall (fun shard => len shard = size \/ len shard = 0) shards).
  { apply Forall_forall. intros s Hin.
    destruct (In_nth shards s nil_slice Hin) as [i [Hi <-]]. rewrite Hlen in Hi.
    destruct (in_dec Nat.eq_dec i have) as [Hp|Hp].
    - left. rewrite Hpresent by assumption. now apply (cw_len Hcw).
    - right. now apply Habsent. }
  assert (Hex : exists shard, In shard shards /\ len shard = size).
  { assert (Hp : exists p, In p have).
    { clear - Hsome. destruct have as [|p ps]; [contradiction|]. exists p. now left. }
    destruct Hp as [p Hp]. exists (nth p shards nil_slice). split.
    - apply nth_In. rewrite Hlen. now apply chave_lt.
    - rewrite Hpresent by assumption. apply (cw_len Hcw). now apply chave_lt. }
  unfold PartialReconstruct.
  rewrite Hlen, Nat.eqb_refl. cbn [negb].
  rewrite (inc_in_incremental _ _ _ (sel_inc Hsel)). cbn [negb].
  change (incremental [b]) with true. cbn [negb].
  replace (numberPresent shards =? Shards r) with false.
  2:{ symmetry. apply Nat.eqb_neq. intros Hall. rewrite <- Hlen in Hall.
      apply numberPresent_all_inv in Hall. rewrite Forall_forall in Hall.
      apply (Hall (nth b shards nil_slice)); [apply nth_In; lia | now apply Habsent]. }
  rewrite (present_in_survival r shards sel Hlen).
  2:{ intros i Hi Hp. apply mem_In. apply (sel_peers Hsel).
      destruct (in_dec Nat.eq_dec i have); auto. exfalso. apply Hp. now apply Habsent. }
  destruct (invalid_indices_spec (Shards r) sel (sel_inc Hsel)) as [Einv [Hil Hle]].
  rewrite Einv. cbn [bind].
  destruct (decode_matrix_general r t sel
              (filter (fun i => negb (mem i sel)) (seq 0 (Shards r))) Hok Hsys Ht)
    as [dec [t' [Ed [Hdec Ht']]]].
  { rewrite <- (sel_length Hsel). symmetry. apply valid_of_invalid. apply (sel_inc Hsel). }
  { apply (sel_length Hsel). }
  { apply csel_lt. }
  { apply (sel_invert Hsel). }
  rewrite Ed. cbn [bind].
  pose proof Hdec as [Hdl [Hdw _]].
  rewrite (final_decode_single r b dec Hok Hb Hdl). cbn [bind].
  rewrite (shardSize_mixed shards size Hmixed Hex).
  destruct (fill_survivors_spec size sel shards Hsize) as [shards1 [Ef [Hl1 Hn1]]].
  { intros i Hi. rewrite Hlen. now apply csel_lt. }
  rewrite Ef. cbn [bind].
  rewrite (collect_survivors_spec r sel shards1)
    by (try apply (sel_inc Hsel); try apply (sel_length Hsel); lia).
  cbn [bind].
  set (pb := prepared size (nth b shards1 nil_slice)).
  set (sub := map (fun i => nth i shards1 nil_slice) sel).
  set (w := row_mul (nth b (m r) []) dec).
  rewrite (loop_at_one (gather_bad size [b]) b
             {| g_shards := upd shards1 b pb;
                g_outputs := upd (repeat nil_slice (ParityShards r)) 0 pb;
                g_rows := []; g_index := [b] |}).
  2:{ lia. }
  2:{ intros i g Hi. unfold gather_bad. cbn [mem existsb].
      replace (i =? b) with false by (symmetry; apply Nat.eqb_neq; lia). reflexivity. }
  2:{ unfold gather_bad. cbn [mem existsb]. rewrite Nat.eqb_refl. cbn [orb].
      unfold gather_output. cbn [g_shards g_outputs g_index g_rows].
      rewrite (get_Ok shards1 b nil_slice) by lia. cbn [bind].
      rewrite (proj1 (prepared_spec size _)). cbn [bind].
      rewrite set_Ok by lia. cbn [bind].
      rewrite set_Ok by (rewrite repeat_length; simpl; lia). reflexivity. }
  cbn [bind g_outputs g_index g_shards length].
  rewrite slice_to_Ok by (rewrite length_upd, repeat_length; lia). cbn [bind].
  assert (Hfirst : firstn 1 (upd (repeat nil_slice (ParityShards r)) 0 pb) = [pb]).
  { destruct (ParityShards r); [lia|]. reflexivity. }
  rewrite Hfirst.
  assert (Hsubn : forall c, c < DataShards r ->
            nth c sub nil_slice
            = if len (nth (nth c sel 0) shards nil_slice) =? 0 then make size
              else nth (nth c sel 0) shards nil_slice).
  { intros c Hc. unfold sub.
    rewrite (nth_indep _ nil_slice ((fun i => nth i shards1 nil_slice) 0))
      by (rewrite length_map, (sel_length Hsel); lia).
    rewrite (map_nth (fun i => nth i shards1 nil_slice)). rewrite Hn1.
    replace (mem (nth c sel 0) sel) with true
      by (symmetry; apply mem_In, nth_In; rewrite (sel_length Hsel); lia).
    reflexivity. }
  rewrite codeSomeShards_spec; auto.
  - cbn [bind]. eexists. exists t', dec. split; [reflexivity|]. split; [assumption|].
    split; [assumption|]. simpl scatter.
    split; [rewrite !length_upd; lia|].
    rewrite nth_upd_eq by (rewrite length_upd; lia).
    split; [rewrite len_pw; apply prepared_spec|]. split.
    + intros q Hq. unfold shard_byte at 1.
      rewrite nth_upd_eq by (rewrite length_upd; lia).
      rewrite bytes_pw_const by apply prepared_spec.
      rewrite nth_map_seq by assumption. unfold coded_byte. simpl nth at 1.
      apply bigsum_ext. intros c Hc. fold w. f_equal.
      unfold shard_byte at 1. rewrite Hsubn by assumption.
      destruct (mem (nth c sel 0) have) eqn:Em.
      * apply mem_In in Em. rewrite (Hpresent _ Em).
        rewrite (cw_len Hcw (chave_lt _ Em)).
        replace (size =? 0) with false by (symmetry; apply Nat.eqb_neq; lia).
        reflexivity.
      * apply mem_false in Em. rewrite (Habsent _ (csel_nth_lt c Hc) Em).
        cbn [Nat.eqb]. rewrite bytes_make. now rewrite nth_repeat.
    + intros i Hi. rewrite !nth_upd_neq by auto. apply Hn1.
  - apply (ok_split Hok).
  - unfold sub. rewrite length_map, (sel_length Hsel). lia.
  - intros c Hc. rewrite Hsubn by assumption.
    rewrite Forall_forall in Hmixed.
    destruct (Hmixed (nth (nth c sel 0) shards nil_slice)) as [Hm|Hm].
    + apply nth_In. rewrite Hlen. now apply csel_nth_lt.
    + rewrite Hm. replace (size =? 0) with false by (symmetry; apply Nat.eqb_neq; lia).
      exact Hm.
    + rewrite Hm. simpl. apply len_make.
  - intros i Hi. replace i with 0 by lia. unfold w. simpl nth.
    rewrite length_row_mul, (cols_width (DataShards r)); auto. lia.
  - intros i Hi. replace i with 0 by lia. simpl. apply prepared_spec.
Qed.

End Contribution.

(** ** Two calls *)

(** The weighted sum of every survivor of the selection is the failed
    shard. *)
Lemma full_decode r b sel size E dec q :
  enc_ok r -> length sel = DataShards r ->
  (forall c, c < DataShards r -> nth c sel 0 < Shards r) ->
  b < Shards r -> codeword r size E ->
  decodes r sel dec -> q < size ->
  bigsum (DataShards r)
    (fun c => galMultiply (nth c (row_mul (nth b (m r) []) dec) x00)
                          (shard_byte E (nth c sel 0) q))
  = shard_byte E b q.
Proof.
  intros Hok Hsl Hslt Hb Hcw Hdec Hq. pose proof Hdec as [Hdl [Hdw [Hinv _]]].
  rewrite (cw_coded Hcw Hb Hq). unfold coded_byte.
  rewrite (bigsum_ext _ _ (fun c => bigsum (DataShards r) (fun k =>
             galMultiply (entry (m r) b k)
               (bigsum (DataShards r) (fun j =>
                  galMultiply (galMultiply (entry dec k c)
                                           (entry (select_rows (m r) sel) c j))
                              (shard_byte E j q)))))).
  2:{ intros c Hc. rewrite (row_mul_nth r b Hok) by assumption.
      rewrite bigsum_scale_r. apply bigsum_ext. intros k Hk.
      rewrite (cw_coded Hcw (Hslt c Hc) Hq). unfold coded_byte.
      rewrite <- !galMultiply_assoc. f_equal.
      rewrite bigsum_scale. apply bigsum_ext. intros j Hj.
      change (entry (select_rows (m r) sel) c j)
        with (nth j (nth c (select_rows (m r) sel) []) x00).
      rewrite nth_select_rows by (rewrite Hsl; lia).
      ring. }
  rewrite bigsum_exchange. apply bigsum_ext. intros k Hk.
  fold (entry (m r) b k). rewrite <- bigsum_scale. f_equal.
  rewrite bigsum_exchange.
  rewrite (bigsum_ext _ _ (fun j => galMultiply (delta k j) (shard_byte E j q))).
  - now apply (bigsum_delta_l (DataShards r) k (fun j => shard_byte E j q)).
  - intros j Hj. rewrite <- (Hinv k j Hk Hj). now rewrite bigsum_scale_r.
Qed.

(** The weights do not depend on which decode matrix of the selection is
    used. *)
Lemma weights_unique r b sel dec1 dec2 c :
  enc_ok r -> decodes r sel dec1 -> decodes r sel dec2 -> c < DataShards r ->
  nth c (row_mul (nth b (m r) []) dec1) x00 = nth c (row_mul (nth b (m r) []) dec2) x00.
Proof.
  intros Hok H1 H2 Hc.
  pose proof H1 as [Hl1 [Hw1 _]]. pose proof H2 as [Hl2 [Hw2 _]].
  rewrite !(row_mul_nth r b Hok) by assumption.
  apply bigsum_ext. intros k Hk. f_equal. now apply (decodes_unique r sel).
Qed.

(** Two calls, each with one part of the selection present, give two
    buffers whose XOR is the failed shard. *)
Lemma partial_sums r t b partA partB sel size E shardsA shardsB :
  enc_ok r -> systematic (DataShards r) (m r) -> tree_ok r t ->
  0 < ParityShards r -> b < Shards r ->
  codeword r size E -> 0 < size ->
  selection r b partA sel -> selection r b partB sel ->
  partA <> [] -> partB <> [] ->
  (forall i, In i sel -> In i partA \/ In i partB) ->
  (forall i, In i partA -> ~ In i partB) ->
  length shardsA = Shards r -> length shardsB = Shards r ->
  (forall i, In i partA -> nth i shardsA nil_slice = nth i E nil_slice) ->
  (forall i, i < Shards r -> ~ In i partA -> len (nth i shardsA nil_slice) = 0) ->
  (forall i, In i partB -> nth i shardsB nil_slice = nth i E nil_slice) ->
  (forall i, i < Shards r -> ~ In i partB -> len (nth i shardsB nil_slice) = 0) ->
  exists outA tA outB tB,
    PartialReconstruct r t shardsA sel [b] = Ok (None, outA, tA)
    /\ PartialReconstruct r tA shardsB sel [b] = Ok (None, outB, tB)
    /\ tree_ok r tB
    /\ len (nth b outA nil_slice) = size
    /\ len (nth b outB nil_slice) = size
    /\ forall q, q < size ->
         galAdd (shard_byte outA b q) (shard_byte outB b q) = shard_byte E b q.
Proof.
  intros Hok Hsys Ht Hpar Hb Hcw Hsize HsA HsB HnA HnB Hcover Hdisj HlA HlB HpA HaA HpB HaB.
  destruct (PartialReconstruct_contribution r t b partA sel size E shardsA)
    as [outA [tA [decA [EA [HtA [HdA [_ [HlenA [HbyteA _]]]]]]]]]; auto.
  destruct (PartialReconstruct_contribution r tA b partB sel size E shardsB)
    as [outB [tB [decB [EB [HtB [HdB [_ [HlenB [HbyteB _]]]]]]]]]; auto.
  exists outA, tA, outB, tB. repeat (split; [assumption|]).
  intros q Hq. rewrite HbyteA, HbyteB by assumption.
  rewrite bigsum_add.
  assert (Hslt : forall c, c < DataShards r -> nth c sel 0 < Shards r).
  { intros c Hc. assert (Hin : In (nth c sel 0) sel)
      by (apply nth_In; rewrite (sel_length HsA); lia).
    destruct (inc_in_bound _ _ _ _ (sel_inc HsA) Hin). lia. }
  rewrite <- (full_decode r b sel size E decA q Hok (sel_length HsA) Hslt Hb Hcw HdA Hq).
  apply bigsum_ext. intros c Hc.
  rewrite <- (weights_unique r b sel decA decB c Hok HdA HdB Hc).
  assert (Hin : In (nth c sel 0) sel) by (apply nth_In; rewrite (sel_length HsA); lia).
  destruct (mem (nth c sel 0) partA) eqn:EmA; destruct (mem (nth c sel 0) partB) eqn:EmB.
  - exfalso. apply mem_In in EmA, EmB. now apply (Hdisj _ EmA).
  - ring.
  - ring.
  - exfalso. apply mem_false in EmA, EmB. destruct (Hcover _ Hin); contradiction.
Qed.

(** * What [New] returns *)

(** ** The default matrix is always built *)

Lemma firstn_select_rows (mx : matrix) n :
  n <= length mx -> firstn n mx = select_rows mx (seq 0 n).
Proof.
  intros H. apply (nth_ext_lt _ _ []).
  - rewrite length_firstn, length_select_rows, length_seq. lia.
  - intros i Hi. rewrite length_firstn in Hi.
    rewrite nth_firstn. replace (i <? n) with true by (symmetry; apply Nat.ltb_lt; lia).
    rewrite nth_select_rows by (rewrite length_seq; lia).
    now rewrite seq_nth by lia.
Qed.

Lemma buildMatrix_total n total :
  0 < n -> n <= total -> total <= 256 ->
  exists mx, buildMatrix n total = Success mx.
Proof.
  intros Hn Hnt Ht. unfold buildMatrix.
  rewrite (SubMatrix_top _ n total)
    by (auto using length_vandermonde, width_vandermonde).
  assert (Hl : length (firstn n (vandermonde total n)) = n)
    by (rewrite length_firstn, length_vandermonde; lia).
  assert (Hw : width n (firstn n (vandermonde total n))).
  { intros row Hin. apply (width_vandermonde total n). now apply (In_firstn n). }
  destruct (Invert_independent _ _ Hl Hw) as [b Hb].
  - rewrite firstn_select_rows by (rewrite length_vandermonde; lia).
    apply vandermonde_independent; auto.
    + apply seq_NoDup.
    + apply length_seq.
    + intros i Hi. apply in_seq in Hi. lia.
  - rewrite Hb.
    destruct (Invert_success n _ Hl Hw b Hb) as [Hbl [Hbw _]].
    rewrite Multiply_Success; [eauto|].
    rewrite (cols_width n (vandermonde total n)).
    + unfold rows. now rewrite Hbl.
    + rewrite length_vandermonde. lia.
    + apply width_vandermonde.
Qed.

(** ** The PAR1 matrix *)

Lemma length_buildMatrixPAR1 n total : length (buildMatrixPAR1 n total) = total.
Proof. unfold buildMatrixPAR1. now rewrite length_map, length_seq. Qed.

Lemma width_buildMatrixPAR1 n total : width n (buildMatrixPAR1 n total).
Proof.
  apply width_nth. intros r Hr. rewrite length_buildMatrixPAR1 in Hr.
  unfold buildMatrixPAR1. rewrite nth_map_seq by assumption.
  now rewrite length_map, length_seq.
Qed.

Lemma buildMatrixPAR1_systematic n total :
  n <= total -> systematic n (buildMatrixPAR1 n total).
Proof.
  intros Hn i j Hi Hj. unfold entry, buildMatrixPAR1.
  rewrite nth_map_seq by lia. rewrite nth_map_seq by assumption.
  apply Nat.ltb_lt in Hi. rewrite Hi. unfold delta. now rewrite Nat.eqb_sym.
Qed.

(** ** Every matrix option *)

Lemma New_matrix d p opts r :
  New d p opts = Ok (Success r) ->
  0 < d /\ 0 < p /\ d + p <= 256
  /\ exists mx,
       (if useCauchy opts then Ok (Success (buildMatrixCauchy d (d + p)))
        else if usePAR1Matrix opts then Ok (Success (buildMatrixPAR1 d (d + p)))
        else if useJerasureMatrix opts then
               vm <- buildMatrixJerasure d (d + p) ;; Ok (Success vm)
        else if useAzureLrcP1Matrix opts then
               if p <? 3 then Panic
               else vm <- buildMatrixAzureLrcP1 d (d + p - d - 3) 3 ;; Ok (Success vm)
        else Ok (buildMatrix d (d + p))) = Ok (Success mx).
Proof.
  intros Hnew. unfold New in Hnew.
  destruct (d =? 0) eqn:E1; [discriminate|].
  destruct (p =? 0) eqn:E2; [discriminate|]. simpl in Hnew.
  destruct (256 <? d + p) eqn:E3; [discriminate|].
  apply Nat.eqb_neq in E1, E2. apply Nat.ltb_ge in E3.
  repeat (split; [lia|]).
  match type of Hnew with
  | bind ?x _ = _ => destruct x as [[mx|e]|] eqn:Ex; try discriminate
  end.
  now exists mx.
Qed.

Lemma New_wellformed d p opts r :
  0 < minSplitSize opts ->
  New d p opts = Ok (Success r) ->
  enc_ok r /\ systematic (DataShards r) (m r)
  /\ DataShards r = d /\ ParityShards r = p /\ o r = opts.
Proof.
  intros Hsplit Hnew.
  destruct (New_matrix d p opts r Hnew) as [Hd [Hp [Hle [mx Hmx]]]].
  assert (Hshape : length mx = d + p /\ width d mx /\ systematic d mx).
  { destruct (useCauchy opts).
    { injection Hmx as <-. split; [apply length_buildMatrixCauchy|].
      split; [apply width_buildMatrixCauchy|]. apply buildMatrixCauchy_systematic; lia. }
    destruct (usePAR1Matrix opts).
    { injection Hmx as <-. split; [apply length_buildMatrixPAR1|].
      split; [apply width_buildMatrixPAR1|]. apply buildMatrixPAR1_systematic; lia. }
    destruct (useJerasureMatrix opts).
    { destruct (buildMatrixJerasure d (d + p)) as [vm|] eqn:Ej; [|discriminate].
      injection Hmx as <-.
      destruct (buildMatrixJerasure_spec d (d + p) vm Ej) as [[Hl Hw] Hu].
      split; [assumption|]. split; [assumption|]. exact Hu. }
    destruct (useAzureLrcP1Matrix opts).
    { destruct (p <? 3) eqn:E3; [discriminate|]. apply Nat.ltb_ge in E3.
      destruct (buildMatrixAzureLrcP1 d (d + p - d - 3) 3) as [vm|] eqn:Ej; [|discriminate].
      injection Hmx as <-.
      replace (d + p - d - 3) with (p - 3) in Ej by lia.
      pose proof (buildMatrixAzureLrcP1_spec d (p - 3) vm Ej) as Hm.
      destruct (lrc_shape Hm) as [Hl Hw].
      split; [lia|]. split; [assumption|]. exact (lrc_unit Hm). }
    injection Hmx as Hb.
    split; [apply (buildMatrix_length d (d + p) mx); auto; lia|].
    split; [apply (buildMatrix_width d (d + p)); auto; lia|].
    apply (buildMatrix_systematic d (d + p)); auto; lia. }
  destruct Hshape as [Hl [Hw Hsys]].
  rewrite (New_fields d p opts r Hsplit Hnew mx Hmx Hl). simpl.
  split; [|auto]. split; simpl; auto.
Qed.

(** [New] returns no error but the two of its own checks. *)
Lemma New_failure d p opts e :
  New d p opts = Ok (Failure e) ->
  (e = ErrInvShardNum /\ (d = 0 \/ p = 0))
  \/ (e = ErrMaxShardNum /\ 0 < d /\ 0 < p /\ 256 < d + p).
Proof.
  unfold New.
  destruct (d =? 0) eqn:E1.
  { intros [= <-]. left. apply Nat.eqb_eq in E1. auto. }
  destruct (p =? 0) eqn:E2.
  { intros [= <-]. left. apply Nat.eqb_eq in E2. auto. }
  cbn [orb]. apply Nat.eqb_neq in E1, E2.
  destruct (256 <? d + p) eqn:E3.
  { intros [= <-]. right. apply Nat.ltb_lt in E3. repeat split; auto; lia. }
  apply Nat.ltb_ge in E3. cbv zeta. intros H. exfalso.
  destruct (useCauchy opts).
  { cbn [bind] in H. destruct (loop _ _ _ _) in H; discriminate. }
  destruct (usePAR1Matrix opts).
  { cbn [bind] in H. destruct (loop _ _ _ _) in H; discriminate. }
  destruct (useJerasureMatrix opts).
  { destruct (buildMatrixJerasure d (d + p)); [|discriminate].
    cbn [bind] in H. destruct (loop _ _ _ _) in H; discriminate. }
  destruct (useAzureLrcP1Matrix opts).
  { destruct (p <? 3); [discriminate|].
    destruct (buildMatrixAzureLrcP1 d (d + p - d - 3) 3); [|discriminate].
    cbn [bind] in H. destruct (loop _ _ _ _) in H; discriminate. }
  destruct (buildMatrix_total d (d + p)) as [mx Hmx]; try lia.
  rewrite Hmx in H. cbn [bind] in H. destruct (loop _ _ _ _) in H; discriminate.
Qed.

(** ** Codes whose selections can all be inverted *)

Lemma rs_code_invertible r idx :
  rs_code r -> NoDup idx -> length idx = DataShards r ->
  (forall i, In i idx -> i < Shards r) ->
  exists inv, Invert (select_rows (m r) idx) = Success inv.
Proof.
  intros Hc Hnd Hl Hlt. pose proof (code_ok Hc) as Hok.
  apply (Invert_independent (DataShards r)).
  - now rewrite length_select_rows.
  - apply width_select_rows.
    + intros row. apply (ok_cols Hok).
    + intros i Hi. rewrite (ok_rows Hok). auto.
  - now apply (code_mds Hc).
Qed.

(** ** Valid shard counts give an encoder *)

Lemma New_success d p opts :
  0 < d -> 0 < p -> d + p <= 256 ->
  useCauchy opts = true \/ usePAR1Matrix opts = true
  \/ (useJerasureMatrix opts = false /\ useAzureLrcP1Matrix opts = false) ->
  exists r, New d p opts = Ok (Success r).
Proof.
  intros Hd Hp Hle Hflags. unfold New.
  replace (d =? 0) with false by (symmetry; apply Nat.eqb_neq; lia).
  replace (p =? 0) with false by (symmetry; apply Nat.eqb_neq; lia).
  replace (256 <? d + p) with false by (symmetry; apply Nat.ltb_ge; lia).
  cbn [orb]. cbv zeta.
  destruct (useCauchy opts).
  { cbn [bind]. rewrite New_parity_loop by apply length_buildMatrixCauchy.
    cbn [bind]. eauto. }
  destruct (usePAR1Matrix opts).
  { cbn [bind]. rewrite New_parity_loop by apply length_buildMatrixPAR1.
    cbn [bind]. eauto. }
  destruct Hflags as [F|[F|[F1 F2]]]; try discriminate.
  rewrite F1, F2.
  destruct (buildMatrix_total d (d + p)) as [mx Hmx]; try lia.
  rewrite Hmx. cbn [bind].
  rewrite New_parity_loop by (apply (buildMatrix_length d (d + p) mx); auto; lia).
  cbn [bind]. eauto.
Qed.

(** * The shards of an AZ *)

Lemma bigsum_nth_fold (f : nat -> byte) (l : list nat) :
  bigsum (length l) (fun p => f (nth p l 0)) = fold_right galAdd x00 (map f l).
Proof.
  induction l as [|a l IH]; [reflexivity|].
  cbn [length map fold_right]. rewrite bigsum_shift. cbn [nth]. now rewrite IH.
Qed.

(** In a codeword the shards of a balanced AZ XOR to zero. *)
Lemma balanced_xor r size E az q :
  codeword r size E -> az_balanced r az ->
  NoDup az -> (forall x, In x az -> x < Shards r) -> q < size ->
  fold_right galAdd x00 (map (fun x => shard_byte E x q) az) = x00.
Proof.
  intros Hcw Hbal Hnd Hlt Hq.
  rewrite <- bigsum_nth_fold.
  rewrite <- (bigsum_mem (Shards r) az (fun x => shard_byte E x q) Hnd Hlt).
  rewrite (bigsum_ext _ _ (fun x => bigsum (DataShards r) (fun k =>
             galMultiply (galMultiply (if mem x az then x01 else x00)
                                      (entry (m r) x k))
                         (shard_byte E k q)))).
  2:{ intros x Hx. rewrite (cw_coded Hcw Hx Hq). unfold coded_byte.
      rewrite bigsum_scale. apply bigsum_ext. intros k Hk. unfold entry. ring. }
  rewrite bigsum_exchange. apply bigsum_zero. intros k Hk.
  rewrite <- bigsum_scale_r. rewrite (Hbal k Hk). apply galMultiply_0_l.
Qed.

(** Every AZ of the layout of an AzureLRC+1 encoder is balanced. *)
Lemma lrc_layout_balanced n g h r az :
  lrc_code n g r -> n = 2 * h -> 0 < h ->
  In az (az_layout n g) ->
  az_balanced r az /\ NoDup az /\ (forall x, In x az -> x < Shards r).
Proof.
  intros Hc Hn Hh Hin. rewrite (lrc_layout n g h Hn) in Hin.
  rewrite (lc_shards Hc).
  assert (Hlt : forall a k q' x, a + k <= q' -> q' < n + g + 3 ->
                                 In x (seq a k ++ [q']) -> x < n + g + 3).
  { intros a k q' x H1 H2 Hx. apply in_app_or in Hx.
    destruct Hx as [Hx|[<-|[]]]; [|assumption]. apply in_seq in Hx. lia. }
  destruct Hin as [<-|[<-|[<-|[]]]].
  - split; [|split].
    + pose proof (az_data_balanced n g h r Hc Hn Hh 0) as H. simpl in H.
      rewrite Nat.add_0_r in H. apply H. lia.
    + apply (NoDup_az n h Hn Hh). lia.
    + intros x. apply Hlt; lia.
  - split; [|split].
    + pose proof (az_data_balanced n g h r Hc Hn Hh 1) as H. simpl in H.
      rewrite Nat.add_0_r in H. apply H. lia.
    + apply (NoDup_az n h Hn Hh). lia.
    + intros x. apply Hlt; lia.
  - split; [|split].
    + apply (az_parity_balanced n g h r Hc Hn Hh).
    + apply (NoDup_az n h Hn Hh). lia.
    + intros x. apply Hlt; lia.
Qed.

(** * The first parity row of the Jerasure matrix *)

Lemma scale_row_value r tmp count vm vm' :
  scale_row r tmp count vm = Ok vm' ->
  forall c, c < count -> entry vm' r c = galMultiply (entry vm r c) tmp.
Proof.
  unfold scale_row. intros E.
  apply (cells_loop _ (fun _ => r) (fun x => x)
                    (fun x => galMultiply (entry vm r x) tmp)) in E.
  - destruct E as [_ [Hf _]]. intros c Hc. apply (Hf c). lia.
  - intros x x' _ _ _ H. exact H.
  - intros vm1 x vm2 Hx Hs Hu Eb.
    apply bind_Ok_inv in Eb. destruct Eb as [v [E1 E2]].
    apply mget_inv in E1. destruct E1 as [-> _].
    apply (mset_value _ _ _ _ _ _ E2). f_equal. apply Hu.
    intros x' Hx' [_ H1]. lia.
Qed.

Lemma index_pred_inv n k : index_pred n = Ok k -> n = S k.
Proof. destruct n; simpl; [discriminate|]. now intros [= <-]. Qed.

(** Row [n] is all ones and so is column 0 below it. *)
Lemma buildMatrixJerasure_ones n total vm :
  buildMatrixJerasure n total = Ok vm ->
  n < total
  /\ (forall c, c < n -> entry vm n c = x01)
  /\ (forall i, n < i < total -> entry vm i 0 = x01).
Proof.
  unfold buildMatrixJerasure. intros E.
  apply bind_Ok_inv in E. destruct E as [vm1 [E1 E]].
  apply bind_Ok_inv in E. destruct E as [vm2 [E2 E]].
  apply bind_Ok_inv in E. destruct E as [last [_ E]].
  apply bind_Ok_inv in E. destruct E as [vm3 [E3 E]].
  apply bind_Ok_inv in E. destruct E as [lastc [Elc E]].
  apply bind_Ok_inv in E. destruct E as [vm4 [E4 E]].
  apply bind_Ok_inv in E. destruct E as [vm5 [E5 E]].
  apply bind_Ok_inv in E. destruct E as [vm6 [E6 E7]].
  apply index_pred_inv in Elc.
  assert (H4 : shape total n vm4).
  { apply mset_same_shape in E1, E4.
    apply loop_same_shape in E2; [|intros i a b; apply mset_same_shape].
    apply loop_same_shape in E3; [|intros i a b; apply mset_same_shape].
    apply (same_shape_shape _ _ _ (vandermonde total n)); [|apply shape_vandermonde].
    eauto using same_shape_trans. }
  assert (H5 : shape total n vm5).
  { apply (loop_result (fun i a => i <= n /\ shape total n a /\ unit_rows i n a)) in E5.
    - tauto.
    - split; [lia|]. split; [assumption|]. intros r c Hr. lia.
    - intros i a b Hi [_ [Hs Hu]] Eb. simpl in Hi.
      destruct (jerasure_step_spec n total i) with (vm := a) (vm' := b); auto; try lia.
      split; [lia|]. auto. }
  assert (H6 : shape total n vm6 /\ n < total /\ forall c, c < n -> entry vm6 n c = x01).
  { apply (loop_result (fun j a => shape total n a /\ (0 < j -> n < total)
                                   /\ forall c, c < j -> entry a n c = x01)) in E6.
    - simpl in E6. destruct E6 as [Hs [Hn Hc]]. split; [assumption|].
      split; [apply Hn; lia | assumption].
    - split; [assumption|]. split; intros; lia.
    - intros j a b Hj [Hs [_ Hone]] Eb. simpl in Hj.
      apply bind_Ok_inv in Eb. destruct Eb as [tmp [Et Eb]].
      apply mget_inv in Et. destruct Et as [-> [Hrow _]].
      destruct Hs as [Hl Hw]. rewrite Hl in Hrow.
      destruct (Byte.eqb (entry a n j) x01) eqn:Eq.
      + injection Eb as <-. split; [split; assumption|]. split; [auto|].
        intros c Hc. destruct (Nat.eq_dec c j) as [->|Hne].
        * now apply byte_dec_bl.
        * apply Hone. lia.
      + apply bind_Ok_inv in Eb. destruct Eb as [tmp' [Ed Eb]].
        apply galDivide_or_panic_inv in Ed.
        apply scale_column_spec in Eb. destruct Eb as [Hss He]. split.
        * apply (same_shape_shape _ _ _ a); [assumption | split; assumption].
        * split; [auto|]. intros c Hc. rewrite He.
          destruct (Nat.eqb_spec c j) as [->|Hne].
          -- replace (n <=? n) with true by (symmetry; apply Nat.leb_le; lia).
             replace (n <? n + (total - n)) with true by (symmetry; apply Nat.ltb_lt; lia).
             simpl. exact Ed.
          -- simpl. apply Hone. lia. }
  destruct H6 as [Hs6 [Hnt Hone6]]. split; [assumption|].
  apply (loop_result (fun i a => shape total n a
                                 /\ (forall c, c < n -> entry a n c = x01)
                                 /\ forall i', n < i' < i -> entry a i' 0 = x01)) in E7.
  - destruct E7 as [_ [H1 H2]]. split; [assumption|].
    intros i Hi. apply H2. lia.
  - split; [assumption|]. split; [assumption|]. intros i' Hi'. lia.
  - intros i a b Hi [Hs [Hone Hcol]] Eb.
    apply bind_Ok_inv in Eb. destruct Eb as [tmp [Et Eb]].
    apply mget_inv in Et. destruct Et as [-> _].
    destruct (Byte.eqb (entry a i 0) x01) eqn:Eq.
    + injection Eb as <-. split; [assumption|]. split; [assumption|].
      intros i' Hi'. destruct (Nat.eq_dec i' i) as [->|Hne].
      * now apply byte_dec_bl.
      * apply Hcol. lia.
    + apply bind_Ok_inv in Eb. destruct Eb as [tmp' [Ed Eb]].
      apply galDivide_or_panic_inv in Ed.
      pose proof (scale_row_value _ _ _ _ _ Eb) as Hv.
      apply scale_row_spec in Eb. destruct Eb as [Hss He]. split.
      * now apply (same_shape_shape _ _ _ a).
      * split.
        -- intros c Hc. rewrite He by lia. now apply Hone.
        -- intros i' Hi'. destruct (Nat.eq_dec i' i) as [->|Hne].
           ++ rewrite Hv by lia. exact Ed.
           ++ rewrite He by assumption. apply Hcol. lia.
Qed.

(** ** The shard checks, [Verify] and what it says about encoded vectors *)

Lemma New_rs_code d p opts r :
  useCauchy opts = true
  \/ (useCauchy opts = false /\ usePAR1Matrix opts = false
      /\ useJerasureMatrix opts = false /\ useAzureLrcP1Matrix opts = false) ->
  0 < minSplitSize opts ->
  New d p opts = Ok (Success r) ->
  rs_code r.
Proof.
  intros [F|[F1 [F2 [F3 F4]]]] Hsplit Hnew.
  - now apply (New_cauchy_code d p opts r Hsplit Hnew).
  - now apply (New_default_code d p opts r Hsplit Hnew).
Qed.

Lemma Encode_is_codeword r shards encoded :
  enc_ok r -> systematic (DataShards r) (m r) ->
  Encode r shards = Ok (None, encoded) ->
  exists size, 0 < size /\ codeword r size encoded.
Proof.
  intros Hok Hsys E.
  destruct (Encode_consistent r shards encoded Hok E) as [size [Hs [Hl [Hall Hp]]]].
  exists size. split; [exact Hs|]. now apply consistent_codeword.
Qed.

Lemma same_bytes_len (A B : list slice) i :
  bytes (nth i A nil_slice) = bytes (nth i B nil_slice) ->
  len (nth i A nil_slice) = len (nth i B nil_slice).
Proof. intros H. unfold len. now rewrite H. Qed.

Lemma same_bytes_consistent r size A B :
  (forall i, i < Shards r -> bytes (nth i A nil_slice) = bytes (nth i B nil_slice)) ->
  DataShards r <= Shards r ->
  parity_consistent r size B -> parity_consistent r size A.
Proof.
  intros Hsame Hle Hp i q Hi Hq.
  unfold shard_byte at 1. rewrite Hsame by lia.
  change (nth q (bytes (nth i B nil_slice)) x00) with (shard_byte B i q).
  rewrite (Hp i q Hi Hq). apply coded_byte_ext.
  intros c Hc. unfold shard_byte. rewrite Hsame by lia. reflexivity.
Qed.

Lemma Forall_len_nth (shards : list slice) size n :
  length shards = n ->
  (forall i, i < n -> len (nth i shards nil_slice) = size) ->
  Forall (fun shard => len shard = size) shards.
Proof.
  intros Hl H. apply Forall_forall. intros s Hin.
  destruct (In_nth _ _ nil_slice Hin) as [i [Hi <-]]. apply H. lia.
Qed.

(** X1.  [checkShards] accepts a shard vector exactly when some shard is not
    empty and every shard has the length of that one, an empty shard being
    tolerated only when [nilok] is set.  It answers [ErrShardNoData] exactly
    when every shard is empty, the empty vector included, and
    [ErrShardSize] in every other case. *)
Theorem checkShards_contract (shards : list slice) (nilok : bool) :
  (checkShards shards nilok = None
   <-> exists size,
         0 < size
         /\ (exists shard, In shard shards /\ len shard = size)
         /\ Forall (fun shard => len shard = size \/ (len shard = 0 /\ nilok = true))
                   shards)
  /\ (checkShards shards nilok = Some ErrShardNoData
      <-> Forall (fun shard => len shard = 0) shards)
  /\ (forall e, checkShards shards nilok = Some e ->
                e = ErrShardNoData \/ e = ErrShardSize).
Proof.
  split; [apply checkShards_None|].
  split; [apply checkShards_NoData_iff|].
  intros e. apply checkShards_errors.
Qed.

(** X2.  [Verify] first rejects a vector with another number of shards than
    the encoder has ([ErrTooFewShards]), then one whose shards are all empty
    ([ErrShardNoData]), then one with a shard whose length differs from that
    of a non-empty shard, an empty shard included ([ErrShardSize]).  On a
    vector of [Shards] shards of one positive length it returns no error, and
    answers [true] exactly when every byte of every parity shard is the
    product of the shard's matrix row with the data shards; this holds both
    for the sequential and for the concurrent checker. *)
Theorem Verify_contract (r : reedSolomon) (shards : list slice) :
  enc_ok r ->
  (length shards <> Shards r ->
   Verify r shards = Ok (false, Some ErrTooFewShards))
  /\ (length shards = Shards r ->
      Forall (fun shard => len shard = 0) shards ->
      Verify r shards = Ok (false, Some ErrShardNoData))
  /\ (length shards = Shards r ->
      forall s1 s2, In s1 shards -> In s2 shards ->
                    len s1 <> 0 -> len s1 <> len s2 ->
                    Verify r shards = Ok (false, Some ErrShardSize))
  /\ (length shards = Shards r ->
      forall size, 0 < size ->
        Forall (fun shard => len shard = size) shards ->
        exists ok, Verify r shards = Ok (ok, None)
                   /\ (ok = true <-> parity_consistent r size shards)).
Proof.
  intros Hok. repeat split.
  - intros Hne. unfold Verify.
    apply Nat.eqb_neq in Hne. now rewrite Hne.
  - intros Hl Hall. unfold Verify.
    apply Nat.eqb_eq in Hl. rewrite Hl. cbn [negb].
    apply (checkShards_NoData_iff shards false) in Hall. now rewrite Hall.
  - intros Hl s1 s2 H1 H2 Hn Hd. unfold Verify.
    apply Nat.eqb_eq in Hl. rewrite Hl. cbn [negb].
    now rewrite (checkShards_unequal shards s1 s2 H1 H2 Hn Hd).
  - intros Hl size Hs Hall. now apply Verify_parity_consistent.
Qed.

Lemma Verify_contract_witness :
  (length [shard_of [5]; shard_of [7]; shard_of [1]] <> Shards enc_2_1 ->
   Verify enc_2_1 [shard_of [5]; shard_of [7]; shard_of [1]]
   = Ok (false, Some ErrTooFewShards))
  /\ (length [shard_of [5]; shard_of [7]; shard_of [1]] = Shards enc_2_1 ->
      Forall (fun shard => len shard = 0) [shard_of [5]; shard_of [7]; shard_of [1]] ->
      Verify enc_2_1 [shard_of [5]; shard_of [7]; shard_of [1]]
      = Ok (false, Some ErrShardNoData))
  /\ (length [shard_of [5]; shard_of [7]; shard_of [1]] = Shards enc_2_1 ->
      forall s1 s2, In s1 [shard_of [5]; shard_of [7]; shard_of [1]] ->
                    In s2 [shard_of [5]; shard_of [7]; shard_of [1]] ->
                    len s1 <> 0 -> len s1 <> len s2 ->
                    Verify enc_2_1 [shard_of [5]; shard_of [7]; shard_of [1]]
                    = Ok (false, Some ErrShardSize))
  /\ (length [shard_of [5]; shard_of [7]; shard_of [1]] = Shards enc_2_1 ->
      forall size, 0 < size ->
        Forall (fun shard => len shard = size)
               [shard_of [5]; shard_of [7]; shard_of [1]] ->
        exists ok, Verify enc_2_1 [shard_of [5]; shard_of [7]; shard_of [1]]
                   = Ok (ok, None)
                   /\ (ok = true
                       <-> parity_consistent enc_2_1 size
                             [shard_of [5]; shard_of [7]; shard_of [1]])).
Proof.
  apply (Verify_contract enc_2_1 [shard_of [5]; shard_of [7]; shard_of [1]]).
  exact enc_2_1_ok.
Defined.

(** X3.  What [Encode] returns passes [Verify]: when [Encode] succeeds, the
    shard vector it leaves is accepted by [Verify] with the answer [true]. *)
Theorem Encode_then_Verify (r : reedSolomon) (shards encoded : list slice) :
  enc_ok r ->
  Encode r shards = Ok (None, encoded) ->
  Verify r encoded = Ok (true, None).
Proof.
  intros Hok E.
  destruct (Encode_consistent r shards encoded Hok E) as [size [Hs [Hl [Hall Hp]]]].
  now apply (Verify_true r encoded size).
Qed.

Lemma Encode_then_Verify_witness :
  Verify enc_2_1 [shard_of [5]; shard_of [7]; shard_of [1]] = Ok (true, None).
Proof.
  apply (Encode_then_Verify enc_2_1 [shard_of [5]; shard_of [7]; shard_of [0]]).
  - exact enc_2_1_ok.
  - vm_compute. reflexivity.
Defined.

(** X4.  With the default or the Cauchy matrix, [Verify] detects every
    corruption that leaves at least [DataShards] shards intact: a vector with
    the shard lengths of an encoded vector that has the bytes of the encoded
    vector in [DataShards] places and other bytes in some place is answered
    with [false]. *)
Theorem Verify_detects_corruption
  (d p : nat) (opts : options) (r : reedSolomon)
  (shards encoded corrupted : list slice) (kept : list nat) :
  useCauchy opts = true
  \/ (useCauchy opts = false /\ usePAR1Matrix opts = false
      /\ useJerasureMatrix opts = false /\ useAzureLrcP1Matrix opts = false) ->
  0 < minSplitSize opts ->
  New d p opts = Ok (Success r) ->
  Encode r shards = Ok (None, encoded) ->
  length corrupted = Shards r ->
  (forall i, i < Shards r ->
             len (nth i corrupted nil_slice) = len (nth i encoded nil_slice)) ->
  NoDup kept ->
  length kept = DataShards r ->
  (forall i, In i kept ->
             i < Shards r
             /\ bytes (nth i corrupted nil_slice) = bytes (nth i encoded nil_slice)) ->
  (exists i, i < Shards r
             /\ bytes (nth i corrupted nil_slice) <> bytes (nth i encoded nil_slice)) ->
  Verify r corrupted = Ok (false, None).
Proof.
  intros Hflags Hsplit Hnew E Hl Hlen Hnd Hk Hkept Hdiff.
  pose proof (New_rs_code d p opts r Hflags Hsplit Hnew) as Hc.
  pose proof (code_ok Hc) as Hok.
  destruct (Encode_is_codeword r shards encoded Hok (code_systematic Hc) E)
    as [size [Hs Hcw]].
  assert (Hall : Forall (fun shard => len shard = size) corrupted).
  { apply (Forall_len_nth corrupted size (Shards r) Hl).
    intros i Hi. rewrite Hlen by exact Hi. now apply (cw_len Hcw). }
  apply (Verify_false r corrupted size Hok Hl Hs Hall).
  apply (corrupted_inconsistent r size encoded corrupted kept Hc Hcw Hl Hall Hnd Hk).
  - intros i Hi. now apply Hkept.
  - intros i Hi. now apply Hkept.
  - exact Hdiff.
Qed.

Lemma Verify_detects_corruption_witness :
  Verify enc_2_1 [shard_of [5]; shard_of [7]; shard_of [2]] = Ok (false, None).
Proof.
  apply (Verify_detects_corruption 2 1 plainOptions enc_2_1
           [shard_of [5]; shard_of [7]; shard_of [0]]
           [shard_of [5]; shard_of [7]; shard_of [1]]
           [shard_of [5]; shard_of [7]; shard_of [2]] [0; 1]).
  - right. repeat split; reflexivity.
  - simpl. lia.
  - vm_compute. reflexivity.
  - vm_compute. reflexivity.
  - reflexivity.
  - intros [|[|[|i]]] Hi; simpl in Hi; try lia; reflexivity.
  - repeat constructor; simpl; intuition discriminate.
  - reflexivity.
  - intros i [<-|[<-|[]]]; (split; [simpl; lia | reflexivity]).
  - exists 2. split; [simpl; lia | vm_compute; discriminate].
Defined.

(** X5.  [Reconstruct] followed by [Verify]: with the default or the Cauchy
    matrix, after [Reconstruct] has run on a vector that kept at least
    [DataShards] shards of an encoded vector and has empty shards elsewhere,
    [Verify] answers [true] on the result. *)
Theorem Reconstruct_then_Verify
  (d p : nat) (opts : options) (r : reedSolomon) (t : inversionTree)
  (shards encoded damaged : list slice) :
  useCauchy opts = true
  \/ (useCauchy opts = false /\ usePAR1Matrix opts = false
      /\ useJerasureMatrix opts = false /\ useAzureLrcP1Matrix opts = false) ->
  0 < minSplitSize opts ->
  New d p opts = Ok (Success r) ->
  tree_ok r t ->
  Encode r shards = Ok (None, encoded) ->
  length damaged = Shards r ->
  (forall i, i < Shards r ->
             nth i damaged nil_slice = nth i encoded nil_slice
             \/ len (nth i damaged nil_slice) = 0) ->
  DataShards r <= numberPresent damaged ->
  exists restored t',
    Reconstruct r t damaged = Ok (None, restored, t')
    /\ Verify r restored = Ok (true, None).
Proof.
  intros Hflags Hsplit Hnew Ht E Hl Hkeep Hpres.
  pose proof (New_rs_code d p opts r Hflags Hsplit Hnew) as Hc.
  pose proof (code_ok Hc) as Hok.
  destruct (Encode_is_codeword r shards encoded Hok (code_systematic Hc) E)
    as [size [Hs Hcw]].
  destruct (reconstruct_codeword r t size encoded damaged Hc Ht Hcw Hs Hl Hkeep Hpres)
    as [restored [t' [Er [Ht' [Hrl Hsame]]]]].
  exists restored, t'. split; [exact Er|].
  apply (Verify_true r restored size Hok Hrl Hs).
  - apply (Forall_len_nth restored size (Shards r) Hrl).
    intros i Hi. rewrite (same_bytes_len restored encoded i (Hsame i Hi)).
    now apply (cw_len Hcw).
  - apply (same_bytes_consistent r size restored encoded Hsame).
    + rewrite (ok_shards Hok). lia.
    + now apply codeword_consistent.
Qed.

Lemma Reconstruct_then_Verify_witness :
  exists restored t',
    Reconstruct enc_2_1 newInversionTree [nil_slice; shard_of [7]; shard_of [1]]
    = Ok (None, restored, t')
    /\ Verify enc_2_1 restored = Ok (true, None).
Proof.
  apply (Reconstruct_then_Verify 2 1 plainOptions enc_2_1 newInversionTree
           [shard_of [5]; shard_of [7]; shard_of [0]]
           [shard_of [5]; shard_of [7]; shard_of [1]]
           [nil_slice; shard_of [7]; shard_of [1]]).
  - right. repeat split; reflexivity.
  - simpl. lia.
  - vm_compute. reflexivity.
  - intros key mx _ H. discriminate H.
  - vm_compute. reflexivity.
  - reflexivity.
  - intros [|[|[|i]]] Hi; simpl in Hi; try lia;
      [right | left | left]; reflexivity.
  - vm_compute. lia.
Defined.

(** X6.  [ReconstructData] restores the data shards only.  With the default
    or the Cauchy matrix, on a vector that kept at least [DataShards] shards
    of an encoded vector and has empty shards elsewhere, it succeeds, every
    data shard has the bytes it had after [Encode], and every parity shard is
    left as it was passed in.  A parity shard that was missing therefore
    stays missing, and [Verify] rejects the result with [ErrShardSize]. *)
Theorem ReconstructData_restores_data_only
  (d p : nat) (opts : options) (r : reedSolomon) (t : inversionTree)
  (shards encoded damaged : list slice) :
  useCauchy opts = true
  \/ (useCauchy opts = false /\ usePAR1Matrix opts = false
      /\ useJerasureMatrix opts = false /\ useAzureLrcP1Matrix opts = false) ->
  0 < minSplitSize opts ->
  New d p opts = Ok (Success r) ->
  tree_ok r t ->
  Encode r shards = Ok (None, encoded) ->
  length damaged = Shards r ->
  (forall i, i < Shards r ->
             nth i damaged nil_slice = nth i encoded nil_slice
             \/ len (nth i damaged nil_slice) = 0) ->
  DataShards r <= numberPresent damaged ->
  exists restored t',
    ReconstructData r t damaged = Ok (None, restored, t')
    /\ tree_ok r t'
    /\ length restored = Shards r
    /\ (forall i, i < DataShards r ->
          bytes (nth i restored nil_slice) = bytes (nth i encoded nil_slice))
    /\ (forall i, DataShards r <= i ->
          nth i restored nil_slice = nth i damaged nil_slice)
    /\ ((exists i, DataShards r <= i < Shards r
                   /\ len (nth i damaged nil_slice) = 0) ->
        Verify r restored = Ok (false, Some ErrShardSize)).
Proof.
  intros Hflags Hsplit Hnew Ht E Hl Hkeep Hpres.
  pose proof (New_rs_code d p opts r Hflags Hsplit Hnew) as Hc.
  pose proof (code_ok Hc) as Hok.
  destruct (Encode_is_codeword r shards encoded Hok (code_systematic Hc) E)
    as [size [Hs Hcw]].
  destruct (reconstruct_data_codeword r t size encoded damaged Hc Ht Hcw Hs Hl Hkeep Hpres)
    as [restored [t' [Er [Ht' [Hrl [Hdata Hpar]]]]]].
  exists restored, t'. repeat (split; [assumption|]).
  intros [i [Hi Hz]].
  pose proof (ok_data Hok) as Hd.
  unfold Verify. rewrite Hrl, Nat.eqb_refl. cbn [negb].
  rewrite (checkShards_unequal restored (nth 0 restored nil_slice)
             (nth i restored nil_slice)).
  - reflexivity.
  - apply nth_In. lia.
  - apply nth_In. lia.
  - rewrite (same_bytes_len restored encoded 0 (Hdata 0 Hd)).
    rewrite (cw_len Hcw) by lia. lia.
  - rewrite (same_bytes_len restored encoded 0 (Hdata 0 Hd)).
    rewrite (cw_len Hcw) by lia. rewrite Hpar by lia. lia.
Qed.

Lemma ReconstructData_restores_data_only_witness :
  exists restored t',
    ReconstructData enc_2_2 newInversionTree
      [nil_slice; shard_of [7]; shard_of [1]; nil_slice]
    = Ok (None, restored, t')
    /\ tree_ok enc_2_2 t'
    /\ length restored = Shards enc_2_2
    /\ (forall i, i < DataShards enc_2_2 ->
          bytes (nth i restored nil_slice)
          = bytes (nth i [shard_of [5]; shard_of [7]; shard_of [1]; shard_of [3]]
                       nil_slice))
    /\ (forall i, DataShards enc_2_2 <= i ->
          nth i restored nil_slice
          = nth i [nil_slice; shard_of [7]; shard_of [1]; nil_slice] nil_slice)
    /\ ((exists i, DataShards enc_2_2 <= i < Shards enc_2_2
                   /\ len (nth i [nil_slice; shard_of [7]; shard_of [1]; nil_slice]
                                nil_slice) = 0) ->
        Verify enc_2_2 restored = Ok (false, Some ErrShardSize)).
Proof.
  apply (ReconstructData_restores_data_only 2 2 plainOptions enc_2_2 newInversionTree
           [shard_of [5]; shard_of [7]; shard_of [0]; shard_of [0]]
           [shard_of [5]; shard_of [7]; shard_of [1]; shard_of [3]]
           [nil_slice; shard_of [7]; shard_of [1]; nil_slice]).
  - right. repeat split; reflexivity.
  - simpl. lia.
  - vm_compute. reflexivity.
  - intros key mx _ H. discriminate H.
  - vm_compute. reflexivity.
  - reflexivity.
  - intros [|[|[|[|i]]]] Hi; simpl in Hi; try lia;
      [right | left | left | right]; reflexivity.
  - vm_compute. lia.
Defined.

(** ** [Split] and [Join] *)

Lemma map_bytes_firstn (A B : list slice) n :
  n <= length A -> n <= length B ->
  (forall i, i < n -> bytes (nth i A nil_slice) = bytes (nth i B nil_slice)) ->
  map bytes (firstn n A) = map bytes (firstn n B).
Proof.
  intros HA HB H. apply (nth_ext_lt _ _ (bytes nil_slice)).
  - rewrite !length_map, !length_firstn. lia.
  - intros i Hi. rewrite length_map, length_firstn in Hi.
    rewrite !map_nth, !nth_firstn.
    replace (i <? n) with true by (symmetry; apply Nat.ltb_lt; lia).
    apply H. lia.
Qed.

Lemma Join_restored r dst data shards restored :
  enc_ok r -> 0 < len data ->
  Split r data = Success shards ->
  length restored = Shards r ->
  (forall i, i < DataShards r ->
     bytes (nth i restored nil_slice) = bytes (nth i shards nil_slice)) ->
  Join buffer_write r dst restored (len data) = Ok (dst ++ bytes data, None).
Proof.
  intros Hok Hl Hs Hrl Hsame.
  pose proof (ok_data Hok) as Hd. pose proof (ok_shards Hok) as Hsh.
  destruct (Split_success r data Hd Hl) as [shards' [size [E [Hsize [Hlen Hall]]]]].
  rewrite Hs in E. injection E as <-.
  assert (Hmap : map bytes (firstn (DataShards r) restored)
                 = map bytes (firstn (DataShards r) shards))
    by (apply map_bytes_firstn; [lia | lia | exact Hsame]).
  pose proof (Split_data r data shards Hd ltac:(lia) Hl Hs) as Hdata.
  assert (Hlong : len data <= length (concat (map bytes (firstn (DataShards r) shards)))).
  { destruct (Nat.le_gt_cases (len data)
                (length (concat (map bytes (firstn (DataShards r) shards)))))
      as [H|H]; [exact H|].
    rewrite firstn_all2 in Hdata by lia.
    unfold len in H. rewrite <- Hdata in H. lia. }
  rewrite (Join_buffer r dst restored (len data) (DataShards r)).
  - rewrite Hmap, Hdata. reflexivity.
  - lia.
  - lia.
  - intros j Hj. apply is_nil_len. unfold len. rewrite Hsame by exact Hj.
    rewrite Forall_forall in Hall.
    change (0 < len (nth j shards nil_slice)).
    rewrite (Hall (nth j shards nil_slice)); [exact Hsize|]. apply nth_In. lia.
  - rewrite Hmap. exact Hlong.
Qed.

(** X7.  [Split] rejects empty data with [ErrShortData].  On other data it
    returns [Shards] shards of [ceil(len(data) / DataShards)] bytes each,
    and byte [q] of shard [i] is byte [i * perShard + q] of the data taken
    up to its capacity, and zero past the capacity: the shards hold the data
    in order, then whatever the slice had in its spare capacity, then
    zeros. *)
Theorem Split_contract (r : reedSolomon) (data : slice) :
  (len data = 0 -> Split r data = Failure ErrShortData)
  /\ (0 < len data -> 0 < DataShards r ->
      exists shards perShard,
        Split r data = Success shards
        /\ perShard = (len data + DataShards r - 1) / DataShards r
        /\ length shards = Shards r
        /\ forall i, i < Shards r ->
             len (nth i shards nil_slice) = perShard
             /\ forall q, q < perShard ->
                  shard_byte shards i q
                  = nth (i * perShard + q) (backing data) x00).
Proof.
  split.
  - intros H. unfold Split. now rewrite H.
  - intros Hl Hd.
    destruct (Split_shards r data Hd Hl)
      as [shards [perShard [buf [E [Hp [Hb [Hpre [Hzero [Hlen Hnth]]]]]]]]].
    exists shards, perShard. repeat (split; [assumption|]).
    intros i Hi.
    assert (Hfit : i * perShard + perShard <= length buf) by nia.
    split.
    + rewrite Hnth by exact Hi. unfold len. cbn [bytes].
      rewrite length_firstn, length_skipn. lia.
    + intros q Hq. unfold shard_byte. rewrite Hnth by exact Hi. cbn [bytes].
      rewrite nth_firstn.
      replace (q <? perShard) with true by (symmetry; apply Nat.ltb_lt; lia).
      rewrite nth_skipn.
      destruct (Nat.lt_ge_cases (i * perShard + q) (length (backing data))) as [H|H].
      * rewrite <- Hpre at 1. rewrite nth_firstn.
        replace (i * perShard + q <? length (backing data)) with true
          by (symmetry; apply Nat.ltb_lt; lia).
        reflexivity.
      * rewrite Hzero by exact H. symmetry. apply nth_overflow. exact H.
Qed.

(** X8.  The checks of [Join], for any writer.  With fewer than [DataShards]
    shards it returns [ErrTooFewShards].  When a [nil] shard is met among the
    data shards before [outSize] bytes have been counted, or as the first
    shard, it returns [ErrReconstructRequired].  When no data shard is [nil]
    and the data shards together hold fewer than [outSize] bytes, it returns
    [ErrShortData].  In each of these cases nothing is written. *)
Theorem Join_rejects
  (W E : Type) (write : W -> list byte -> W * Z * option E)
  (r : reedSolomon) (dst : W) (shards : list slice) (outSize : nat) :
  (length shards < DataShards r ->
   Join write r dst shards outSize = Ok (dst, Some (inl ErrTooFewShards)))
  /\ (DataShards r <= length shards ->
      forall j, j < DataShards r ->
        (forall i, i < j -> is_nil (nth i shards nil_slice) = false) ->
        is_nil (nth j shards nil_slice) = true ->
        j = 0 \/ length (concat (map bytes (firstn j shards))) < outSize ->
        Join write r dst shards outSize = Ok (dst, Some (inl ErrReconstructRequired)))
  /\ (DataShards r <= length shards ->
      (forall j, j < DataShards r -> is_nil (nth j shards nil_slice) = false) ->
      length (concat (map bytes (firstn (DataShards r) shards))) < outSize ->
      Join write r dst shards outSize = Ok (dst, Some (inl ErrShortData))).
Proof.
  split; [|split].
  - intros H. unfold Join. apply Nat.ltb_lt in H. now rewrite H.
  - intros Hl j Hj Hbefore Hnil Hfew. unfold Join.
    replace (length shards <? DataShards r) with false
      by (symmetry; apply Nat.ltb_ge; lia).
    rewrite (join_size_nil (firstn (DataShards r) shards) j 0 outSize).
    + reflexivity.
    + rewrite length_firstn. lia.
    + intros i Hi. rewrite nth_firstn.
      replace (i <? DataShards r) with true by (symmetry; apply Nat.ltb_lt; lia).
      now apply Hbefore.
    + rewrite nth_firstn.
      replace (j <? DataShards r) with true by (symmetry; apply Nat.ltb_lt; lia).
      exact Hnil.
    + rewrite firstn_firstn. replace (Nat.min j (DataShards r)) with j by lia.
      destruct Hfew as [H|H]; [now left | right; lia].
  - intros Hl Hnil Hshort. unfold Join.
    replace (length shards <? DataShards r) with false
      by (symmetry; apply Nat.ltb_ge; lia).
    rewrite (join_size_short (firstn (DataShards r) shards) 0 outSize).
    + cbn [Nat.add].
      apply Nat.ltb_lt in Hshort. now rewrite Hshort.
    + intros j Hj. rewrite length_firstn in Hj. rewrite nth_firstn.
      replace (j <? DataShards r) with true by (symmetry; apply Nat.ltb_lt; lia).
      apply Hnil. lia.
    + cbn [Nat.add]. exact Hshort.
Qed.

(** X9.  [Join] into a byte buffer writes the first [outSize] bytes of the
    data shards, taken in order, after what the buffer held, and returns no
    error; parity shards and further shards are not read.  The data shards
    up to the one that completes [outSize] bytes must not be [nil]; a later
    data shard may be. *)
Theorem Join_writes_data
  (r : reedSolomon) (dst : list byte) (shards : list slice) (outSize k : nat) :
  DataShards r <= length shards ->
  0 < k <= DataShards r ->
  (forall j, j < k -> is_nil (nth j shards nil_slice) = false) ->
  outSize <= length (concat (map bytes (firstn k shards))) ->
  Join buffer_write r dst shards outSize
  = Ok (dst ++ firstn outSize (concat (map bytes (firstn (DataShards r) shards))),
        None).
Proof. apply Join_buffer. Qed.

Lemma Join_writes_data_witness :
  Join buffer_write enc_2_1 [x01] [shard_of [5; 6]; nil_slice; shard_of [1; 2]] 1
  = Ok ([x01]
          ++ firstn 1 (concat (map bytes
               (firstn (DataShards enc_2_1)
                       [shard_of [5; 6]; nil_slice; shard_of [1; 2]]))),
        None).
Proof.
  apply (Join_writes_data enc_2_1 [x01]
           [shard_of [5; 6]; nil_slice; shard_of [1; 2]] 1 1).
  - simpl. lia.
  - simpl. lia.
  - intros [|j] Hj; [reflexivity | lia].
  - simpl. lia.
Defined.

(** X10.  [Split] then [Join]: joining the shards that [Split] made of a
    non-empty byte string, with the length of the string as output size,
    writes exactly the string. *)
Theorem Split_then_Join
  (r : reedSolomon) (dst : list byte) (data : slice) :
  enc_ok r ->
  0 < len data ->
  exists shards,
    Split r data = Success shards
    /\ Join buffer_write r dst shards (len data) = Ok (dst ++ bytes data, None).
Proof.
  intros Hok Hl.
  destruct (Split_success r data (ok_data Hok) Hl)
    as [shards [size [E [Hsize [Hlen Hall]]]]].
  exists shards. split; [exact E|].
  now apply (Join_restored r dst data shards shards).
Qed.

Lemma Split_then_Join_witness :
  exists shards,
    Split enc_2_1 (shard_of [1; 2; 3]) = Success shards
    /\ Join buffer_write enc_2_1 [] shards (len (shard_of [1; 2; 3]))
       = Ok ([] ++ bytes (shard_of [1; 2; 3]), None).
Proof.
  apply (Split_then_Join enc_2_1 [] (shard_of [1; 2; 3])).
  - exact enc_2_1_ok.
  - vm_compute. lia.
Defined.

(** X11.  The whole pipeline.  With the default or the Cauchy matrix, split
    a non-empty byte string, encode the shards, lose any shards but
    [DataShards] of them, and run [Reconstruct] or [ReconstructData]: both
    succeed, and [Join] on either result writes exactly the byte string. *)
Theorem Split_Encode_Reconstruct_Join
  (d p : nat) (opts : options) (r : reedSolomon) (t : inversionTree)
  (data : slice) (dst : list byte) :
  useCauchy opts = true
  \/ (useCauchy opts = false /\ usePAR1Matrix opts = false
      /\ useJerasureMatrix opts = false /\ useAzureLrcP1Matrix opts = false) ->
  0 < minSplitSize opts ->
  New d p opts = Ok (Success r) ->
  tree_ok r t ->
  0 < len data ->
  exists shards encoded,
    Split r data = Success shards
    /\ Encode r shards = Ok (None, encoded)
    /\ forall damaged,
         length damaged = Shards r ->
         (forall i, i < Shards r ->
                    nth i damaged nil_slice = nth i encoded nil_slice
                    \/ len (nth i damaged nil_slice) = 0) ->
         DataShards r <= numberPresent damaged ->
         (exists restored t',
            Reconstruct r t damaged = Ok (None, restored, t')
            /\ Join buffer_write r dst restored (len data)
               = Ok (dst ++ bytes data, None))
         /\ (exists restored t',
               ReconstructData r t damaged = Ok (None, restored, t')
               /\ Join buffer_write r dst restored (len data)
                  = Ok (dst ++ bytes data, None)).
Proof.
  intros Hflags Hsplit Hnew Ht Hl.
  pose proof (New_rs_code d p opts r Hflags Hsplit Hnew) as Hc.
  pose proof (code_ok Hc) as Hok.
  destruct (Split_success r data (ok_data Hok) Hl)
    as [shards [size [Es [Hsize [Hlen Hall]]]]].
  destruct (Encode_success r shards size Hok Hlen Hsize Hall)
    as [encoded [Ee [Hel [Hdata Hpar]]]].
  destruct (Encode_is_codeword r shards encoded Hok (code_systematic Hc) Ee)
    as [size' [Hs' Hcw]].
  exists shards, encoded. split; [exact Es|]. split; [exact Ee|].
  intros damaged Hdl Hkeep Hpres. split.
  - destruct (reconstruct_codeword r t size' encoded damaged Hc Ht Hcw Hs' Hdl Hkeep Hpres)
      as [restored [t' [Er [Ht' [Hrl Hsame]]]]].
    exists restored, t'. split; [exact Er|].
    apply (Join_restored r dst data shards restored Hok Hl Es Hrl).
    intros i Hi. rewrite Hsame by (rewrite (ok_shards Hok); lia).
    now rewrite Hdata.
  - destruct (reconstruct_data_codeword r t size' encoded damaged Hc Ht Hcw Hs' Hdl Hkeep Hpres)
      as [restored [t' [Er [Ht' [Hrl [Hsame _]]]]]].
    exists restored, t'. split; [exact Er|].
    apply (Join_restored r dst data shards restored Hok Hl Es Hrl).
    intros i Hi. rewrite Hsame by exact Hi.
    now rewrite Hdata.
Qed.

Lemma Split_Encode_Reconstruct_Join_witness :
  exists shards encoded,
    Split enc_2_1 (shard_of [1; 2; 3]) = Success shards
    /\ Encode enc_2_1 shards = Ok (None, encoded)
    /\ forall damaged,
         length damaged = Shards enc_2_1 ->
         (forall i, i < Shards enc_2_1 ->
                    nth i damaged nil_slice = nth i encoded nil_slice
                    \/ len (nth i damaged nil_slice) = 0) ->
         DataShards enc_2_1 <= numberPresent damaged ->
         (exists restored t',
            Reconstruct enc_2_1 newInversionTree damaged = Ok (None, restored, t')
            /\ Join buffer_write enc_2_1 [] restored (len (shard_of [1; 2; 3]))
               = Ok ([] ++ bytes (shard_of [1; 2; 3]), None))
         /\ (exists restored t',
               ReconstructData enc_2_1 newInversionTree damaged
               = Ok (None, restored, t')
               /\ Join buffer_write enc_2_1 [] restored (len (shard_of [1; 2; 3]))
                  = Ok ([] ++ bytes (shard_of [1; 2; 3]), None)).
Proof.
  apply (Split_Encode_Reconstruct_Join 2 1 plainOptions enc_2_1 newInversionTree
           (shard_of [1; 2; 3]) []).
  - right. repeat split; reflexivity.
  - simpl. lia.
  - vm_compute. reflexivity.
  - intros key mx _ H. discriminate H.
  - vm_compute. lia.
Defined.

(** ** What [New] returns, and the matrices it builds *)

Lemma Encode_parity_bytes r shards encoded :
  enc_ok r ->
  Encode r shards = Ok (None, encoded) ->
  forall i, DataShards r <= i < Shards r ->
    forall q, q < len (nth i encoded nil_slice) ->
      shard_byte encoded i q
      = coded_byte (nth i (m r) []) encoded (DataShards r) q.
Proof.
  intros Hok E i Hi q Hq.
  destruct (Encode_None_inv r shards encoded E) as [Hl [size [Hs Hall]]].
  destruct (Encode_success r shards size Hok Hl Hs Hall)
    as [encoded' [E' [Hel [Hdata Hpar]]]].
  rewrite E in E'. injection E' as <-.
  destruct (Hpar i Hi) as [Hlen Hb]. rewrite Hlen in Hq.
  rewrite (Hb q Hq). apply coded_byte_ext.
  intros c Hc. unfold shard_byte. now rewrite Hdata.
Qed.

Lemma bigsum_seq_fold (f : nat -> byte) n :
  bigsum n f = fold_right galAdd x00 (map f (seq 0 n)).
Proof.
  rewrite <- bigsum_nth_fold, length_seq.
  apply bigsum_ext. intros c Hc. now rewrite seq_nth.
Qed.

(** X12.  The errors of [New].  It returns [ErrInvShardNum] when the number
    of data shards or of parity shards is zero, [ErrMaxShardNum] when both
    are positive and their sum exceeds 256, and, AzureLRC+1 with fewer than
    its three local parity shards left aside, no other error.  With the
    default, the Cauchy or the PAR1 matrix it returns an encoder for all
    other shard counts. *)
Theorem New_error_cases (d p : nat) (opts : options) :
  (d = 0 \/ p = 0 -> New d p opts = Ok (Failure ErrInvShardNum))
  /\ (0 < d -> 0 < p -> 256 < d + p -> New d p opts = Ok (Failure ErrMaxShardNum))
  /\ ((useAzureLrcP1Matrix opts = true -> 3 <= p) ->
      forall e, New d p opts = Ok (Failure e) ->
        (e = ErrInvShardNum /\ (d = 0 \/ p = 0))
        \/ (e = ErrMaxShardNum /\ 0 < d /\ 0 < p /\ 256 < d + p))
  /\ (0 < d -> 0 < p -> d + p <= 256 ->
      useCauchy opts = true \/ usePAR1Matrix opts = true
      \/ (useJerasureMatrix opts = false /\ useAzureLrcP1Matrix opts = false) ->
      exists r, New d p opts = Ok (Success r)).
Proof.
  split; [|split; [|split]].
  - intros H. unfold New.
    replace ((d =? 0) || (p =? 0)) with true; [reflexivity|].
    symmetry. apply orb_true_iff.
    destruct H as [H|H]; [left | right]; now apply Nat.eqb_eq.
  - intros Hd Hp Hbig. unfold New.
    replace (d =? 0) with false by (symmetry; apply Nat.eqb_neq; lia).
    replace (p =? 0) with false by (symmetry; apply Nat.eqb_neq; lia).
    cbn [orb]. apply Nat.ltb_lt in Hbig. now rewrite Hbig.
  - intros _ e. apply New_failure.
  - apply New_success.
Qed.

(** X13.  The encoder that [New] returns, whichever matrix is selected: it
    has the shard counts that were asked for and the options that were
    given; its matrix has [Shards] rows of [DataShards] entries and the
    identity matrix on top, so that encoding leaves the data shards as they
    are; its parity rows are the rows below the identity. *)
Theorem New_encoder_shape (d p : nat) (opts : options) (r : reedSolomon) :
  0 < minSplitSize opts ->
  New d p opts = Ok (Success r) ->
  DataShards r = d /\ ParityShards r = p /\ Shards r = d + p /\ o r = opts
  /\ 0 < d /\ 0 < p /\ d + p <= 256
  /\ length (m r) = d + p
  /\ (forall row, In row (m r) -> length row = d)
  /\ (forall i j, i < d -> j < d ->
        entry (m r) i j = if i =? j then x01 else x00)
  /\ parity r = skipn d (m r).
Proof.
  intros Hsplit Hnew.
  destruct (New_wellformed d p opts r Hsplit Hnew) as [Hok [Hsys [Hd [Hp Ho]]]].
  destruct (New_matrix d p opts r Hnew) as [Hd0 [Hp0 [Hle _]]].
  pose proof (ok_shards Hok) as Hsh. pose proof (ok_rows Hok) as Hrows.
  pose proof (ok_cols Hok) as Hcols. pose proof (ok_parity Hok) as Hpar.
  rewrite Hd in *. rewrite Hp in *.
  split; [reflexivity|]. split; [reflexivity|]. split; [exact Hsh|].
  split; [exact Ho|]. split; [exact Hd0|]. split; [exact Hp0|].
  split; [exact Hle|]. split; [lia|]. split; [exact Hcols|].
  split; [|exact Hpar].
  intros i j Hi Hj. apply (Hsys i j Hi Hj).
Qed.

Lemma New_encoder_shape_witness :
  DataShards enc_2_1 = 2 /\ ParityShards enc_2_1 = 1 /\ Shards enc_2_1 = 2 + 1
  /\ o enc_2_1 = plainOptions
  /\ 0 < 2 /\ 0 < 1 /\ 2 + 1 <= 256
  /\ length (m enc_2_1) = 2 + 1
  /\ (forall row, In row (m enc_2_1) -> length row = 2)
  /\ (forall i j, i < 2 -> j < 2 ->
        entry (m enc_2_1) i j = if i =? j then x01 else x00)
  /\ parity enc_2_1 = skipn 2 (m enc_2_1).
Proof.
  apply (New_encoder_shape 2 1 plainOptions enc_2_1).
  - simpl. lia.
  - vm_compute. reflexivity.
Defined.

(** X14.  The encoding matrix for the default and for the Cauchy option:
    any [DataShards] different rows of it form a matrix that [Invert]
    inverts, which is what lets [Reconstruct] work from any [DataShards]
    shards. *)
Theorem New_any_rows_invertible
  (d p : nat) (opts : options) (r : reedSolomon) (idx : list nat) :
  useCauchy opts = true
  \/ (useCauchy opts = false /\ usePAR1Matrix opts = false
      /\ useJerasureMatrix opts = false /\ useAzureLrcP1Matrix opts = false) ->
  0 < minSplitSize opts ->
  New d p opts = Ok (Success r) ->
  NoDup idx ->
  length idx = d ->
  (forall i, In i idx -> i < d + p) ->
  exists inv,
    Invert (select_rows (m r) idx) = Success inv
    /\ forall i j, i < d -> j < d ->
         bigsum d (fun k => galMultiply (entry inv i k)
                                        (entry (select_rows (m r) idx) k j))
         = if i =? j then x01 else x00.
Proof.
  intros Hflags Hsplit Hnew Hnd Hl Hlt.
  pose proof (New_rs_code d p opts r Hflags Hsplit Hnew) as Hc.
  pose proof (code_ok Hc) as Hok.
  destruct (New_wellformed d p opts r Hsplit Hnew) as [_ [_ [Hd [Hp _]]]].
  pose proof (ok_shards Hok) as Hsh.
  assert (Hsq : length (select_rows (m r) idx) = DataShards r)
    by (rewrite length_select_rows; lia).
  assert (Hw : width (DataShards r) (select_rows (m r) idx)).
  { apply width_select_rows.
    - intros row. apply (ok_cols Hok).
    - intros i Hi. rewrite (ok_rows Hok). rewrite Hsh, Hd, Hp. auto. }
  destruct (rs_code_invertible r idx Hc Hnd) as [inv Hinv].
  - lia.
  - intros i Hi. rewrite Hsh, Hd, Hp. auto.
  - exists inv. split; [exact Hinv|].
    destruct (Invert_success (DataShards r) (select_rows (m r) idx) Hsq Hw inv Hinv)
      as [_ [_ [Hleft _]]].
    intros i j Hi Hj. rewrite <- Hd in *. apply (Hleft i j Hi Hj).
Qed.

Lemma New_any_rows_invertible_witness :
  exists inv,
    Invert (select_rows (m enc_2_1) [2; 0]) = Success inv
    /\ forall i j, i < 2 -> j < 2 ->
         bigsum 2 (fun k => galMultiply (entry inv i k)
                                        (entry (select_rows (m enc_2_1) [2; 0]) k j))
         = if i =? j then x01 else x00.
Proof.
  apply (New_any_rows_invertible 2 1 plainOptions enc_2_1 [2; 0]).
  - right. repeat split; reflexivity.
  - simpl. lia.
  - vm_compute. reflexivity.
  - repeat constructor; simpl; intuition discriminate.
  - reflexivity.
  - intros i [<-|[<-|[]]]; lia.
Defined.

(** X15.  With the Jerasure matrix the first parity shard is the XOR of the
    data shards: after [Encode], every byte of shard number [DataShards] is
    the sum in GF(2^8) of the bytes of the data shards at that position. *)
Theorem Jerasure_first_parity_is_xor
  (d p : nat) (opts : options) (r : reedSolomon)
  (shards encoded : list slice) (q : nat) :
  useCauchy opts = false ->
  usePAR1Matrix opts = false ->
  useJerasureMatrix opts = true ->
  0 < minSplitSize opts ->
  New d p opts = Ok (Success r) ->
  Encode r shards = Ok (None, encoded) ->
  q < len (nth d encoded nil_slice) ->
  shard_byte encoded d q
  = fold_right galAdd x00 (map (fun c => shard_byte encoded c q) (seq 0 d)).
Proof.
  intros F1 F2 F3 Hsplit Hnew E Hq.
  destruct (New_wellformed d p opts r Hsplit Hnew) as [Hok [_ [Hd [Hp _]]]].
  destruct (New_matrix d p opts r Hnew) as [Hd0 [Hp0 [Hle [mx Hmx]]]].
  rewrite F1, F2, F3 in Hmx.
  destruct (buildMatrixJerasure d (d + p)) as [vm|] eqn:Ej; [|discriminate].
  cbn [bind] in Hmx. injection Hmx as <-.
  destruct (buildMatrixJerasure_spec d (d + p) vm Ej) as [[Hl Hw] Hu].
  destruct (buildMatrixJerasure_ones d (d + p) vm Ej) as [_ [Hones _]].
  assert (Hm : m r = vm).
  { rewrite (New_fields d p opts r Hsplit Hnew vm); [reflexivity| |exact Hl].
    rewrite F1, F2, F3, Ej. reflexivity. }
  pose proof (ok_shards Hok) as Hsh.
  rewrite <- Hd in Hq |- * at 1.
  rewrite (Encode_parity_bytes r shards encoded Hok E (DataShards r)) by (auto; lia).
  unfold coded_byte. rewrite Hm, Hd. rewrite <- bigsum_seq_fold.
  apply bigsum_ext. intros c Hc.
  change (nth c (nth d vm []) x00) with (entry vm d c).
  rewrite (Hones c Hc). apply galMultiply_1_l.
Qed.

Lemma Jerasure_first_parity_is_xor_witness :
  shard_byte [shard_of [5]; shard_of [7]; shard_of [9]; shard_of [11]; shard_of [243]] 3 0
  = fold_right galAdd x00
      (map (fun c => shard_byte
                       [shard_of [5]; shard_of [7]; shard_of [9];
                        shard_of [11]; shard_of [243]] c 0)
           (seq 0 3)).
Proof.
  apply (Jerasure_first_parity_is_xor 3 2 jerasureOptions enc_jerasure_3_2
           [shard_of [5]; shard_of [7]; shard_of [9]; shard_of [0]; shard_of [0]]).
  - reflexivity.
  - reflexivity.
  - reflexivity.
  - simpl. lia.
  - vm_compute. reflexivity.
  - vm_compute. reflexivity.
  - vm_compute. lia.
Defined.

(** X16.  With the AzureLRC+1 matrix for an even number of data shards, the
    shards of every AZ of the layout XOR to zero after [Encode]: each local
    parity is the XOR of the data shards of its AZ, and the last local parity
    is the XOR of the global parities.  A single lost shard is therefore the
    XOR of the other shards of its AZ. *)
Theorem LRC_az_shards_xor_to_zero
  (n p h : nat) (opts : options) (r : reedSolomon)
  (shards encoded : list slice) (az : list nat) (q : nat) :
  useCauchy opts = false ->
  usePAR1Matrix opts = false ->
  useJerasureMatrix opts = false ->
  useAzureLrcP1Matrix opts = true ->
  0 < minSplitSize opts ->
  New n p opts = Ok (Success r) ->
  n = 2 * h ->
  Encode r shards = Ok (None, encoded) ->
  In az (az_layout n (p - 3)) ->
  q < len (nth 0 encoded nil_slice) ->
  fold_right galAdd x00 (map (fun x => shard_byte encoded x q) az) = x00.
Proof.
  intros F1 F2 F3 F4 Hsplit Hnew Hn E Haz Hq.
  destruct (New_lrc n p opts r F1 F2 F3 F4 Hsplit Hnew) as [Hp Hc].
  pose proof (lc_ok Hc) as Hok.
  assert (Hh : 0 < h).
  { pose proof (ok_data Hok) as H. rewrite (lc_data Hc) in H. lia. }
  pose proof (lrc_systematic n (p - 3) r Hc) as Hsys.
  destruct (Encode_is_codeword r shards encoded Hok Hsys E) as [size [Hs Hcw]].
  destruct (lrc_layout_balanced n (p - 3) h r az Hc Hn Hh Haz) as [Hbal [Hnd Hlt]].
  apply (balanced_xor r size encoded az q Hcw Hbal Hnd Hlt).
  rewrite (cw_len Hcw) in Hq; [exact Hq|].
  pose proof (ok_data Hok). pose proof (ok_shards Hok). lia.
Qed.

Lemma LRC_az_shards_xor_to_zero_witness :
  fold_right galAdd x00
    (map (fun x => shard_byte
                     [shard_of [5]; shard_of [7]; shard_of [9]; shard_of [11];
                      shard_of [2]; shard_of [2]; shard_of [2]; shard_of [2]] x 0)
         [0; 1; 5])
  = x00.
Proof.
  apply (LRC_az_shards_xor_to_zero 4 4 2 lrcOptions enc_lrc_4_1
           [shard_of [5]; shard_of [7]; shard_of [9]; shard_of [11];
            shard_of [0]; shard_of [0]; shard_of [0]; shard_of [0]]).
  - reflexivity.
  - reflexivity.
  - reflexivity.
  - reflexivity.
  - simpl. lia.
  - vm_compute. reflexivity.
  - reflexivity.
  - vm_compute. reflexivity.
  - left. reflexivity.
  - vm_compute. lia.
Defined.

(** ** The search of [GetSurvivalShards] and the sums of [PartialReconstruct] *)

Lemma New_Encode_codeword d p opts r shards E :
  0 < minSplitSize opts ->
  New d p opts = Ok (Success r) ->
  Encode r shards = Ok (None, E) ->
  enc_ok r /\ systematic (DataShards r) (m r) /\ 0 < ParityShards r
  /\ exists size, 0 < size /\ codeword r size E.
Proof.
  intros Hsplit Hnew He.
  destruct (New_wellformed d p opts r Hsplit Hnew) as [Hok [Hsys [Hd [Hp _]]]].
  destruct (New_matrix d p opts r Hnew) as [_ [Hp0 _]].
  split; [exact Hok|]. split; [exact Hsys|]. split; [lia|].
  now apply (Encode_is_codeword r shards E).
Qed.

Lemma sel_of_seq (sur : list nat) n :
  n <= length sur -> sel_of sur (seq 0 n) = firstn n sur.
Proof.
  intros Hn. unfold sel_of. apply (nth_ext_lt _ _ 0).
  - rewrite length_map, length_seq, length_firstn. lia.
  - intros i Hi. rewrite length_map, length_seq in Hi.
    rewrite nth_map_seq by exact Hi. rewrite nth_firstn.
    replace (i <? n) with true by (symmetry; apply Nat.ltb_lt; lia).
    reflexivity.
Qed.

(** X17.  [GetSurvivalShards] with more than one failed shard, and not more
    than there are parity shards.  The survivors are taken in increasing
    order and their [DataShards]-element selections are tried in
    lexicographic order of positions.  The call returns the first selection
    whose rows [Invert] accepts, as both of its lists; that selection has
    [DataShards] shard numbers, strictly increasing, below [Shards], none of
    them failed.  When no selection can be inverted it returns empty lists
    and an error; the AZ layout is not used.  The number of selections is
    taken below [2^31], where the floating-point count of the source is
    exact. *)
Theorem GetSurvivalShards_several_failures
  (r : reedSolomon) (bad : list nat) (azLayout : list (list nat)) :
  enc_ok r ->
  NoDup bad ->
  (forall b, In b bad -> b < Shards r) ->
  1 < length bad <= ParityShards r ->
  (N.of_nat (comb (Shards r - length bad) (DataShards r)) < 2 ^ 31)%N ->
  (exists j sel,
      j < length (candidates r bad)
      /\ nth j (candidates r bad) [] = sel
      /\ (exists inv, Invert (select_rows (m r) sel) = Success inv)
      /\ (forall j', j' < j ->
            exists e, Invert (select_rows (m r) (nth j' (candidates r bad) []))
                      = Failure e)
      /\ length sel = DataShards r
      /\ inc_in 0 (Shards r) sel
      /\ (forall x, In x sel -> ~ In x bad)
      /\ GetSurvivalShards r bad azLayout = Ok (sel, sel, None))
  \/ ((forall sel, In sel (candidates r bad) ->
         exists e, Invert (select_rows (m r) sel) = Failure e)
      /\ exists e, GetSurvivalShards r bad azLayout = Ok ([], [], Some e)).
Proof.
  intros Hok Hnd Hlt Hlen _.
  destruct (GetSurvivalShards_multi r bad azLayout Hok Hnd Hlt Hlen)
    as [[j [sel [inv [Hj [Hsel [Hinv [Hfirst Hres]]]]]]]|[Hnone Hres]].
  - left. exists j, sel.
    destruct (candidates_sound r bad sel Hnd Hlt) as [Hl [Hinc Hav]].
    { rewrite <- Hsel. now apply nth_In. }
    split; [exact Hj|]. split; [exact Hsel|]. split; [now exists inv|].
    split; [exact Hfirst|]. split; [exact Hl|]. split; [exact Hinc|].
    split; [exact Hav|exact Hres].
  - right. split; assumption.
Qed.

Lemma GetSurvivalShards_several_failures_witness :
  (exists j sel,
      j < length (candidates enc_2_2 [0; 2])
      /\ nth j (candidates enc_2_2 [0; 2]) [] = sel
      /\ (exists inv, Invert (select_rows (m enc_2_2) sel) = Success inv)
      /\ (forall j', j' < j ->
            exists e, Invert (select_rows (m enc_2_2)
                                (nth j' (candidates enc_2_2 [0; 2]) []))
                      = Failure e)
      /\ length sel = DataShards enc_2_2
      /\ inc_in 0 (Shards enc_2_2) sel
      /\ (forall x, In x sel -> ~ In x [0; 2])
      /\ GetSurvivalShards enc_2_2 [0; 2] [] = Ok (sel, sel, None))
  \/ ((forall sel, In sel (candidates enc_2_2 [0; 2]) ->
         exists e, Invert (select_rows (m enc_2_2) sel) = Failure e)
      /\ exists e, GetSurvivalShards enc_2_2 [0; 2] [] = Ok ([], [], Some e)).
Proof.
  apply (GetSurvivalShards_several_failures enc_2_2 [0; 2] []).
  - constructor; simpl; try lia; try reflexivity.
    intros row [<-|[<-|[<-|[<-|[]]]]]; reflexivity.
  - repeat constructor; simpl; intuition discriminate.
  - intros b [<-|[<-|[]]]; simpl; lia.
  - simpl. lia.
  - vm_compute. reflexivity.
Defined.

(** X18.  With the default or the Cauchy matrix every selection can be
    inverted, so for more than one failed shard [GetSurvivalShards] returns
    the [DataShards] lowest-numbered surviving shards, as both of its
    lists.  The number of selections is taken below [2^31], where the
    floating-point count of the source is exact. *)
Theorem GetSurvivalShards_lowest_survivors
  (d p : nat) (opts : options) (r : reedSolomon)
  (bad : list nat) (azLayout : list (list nat)) :
  useCauchy opts = true
  \/ (useCauchy opts = false /\ usePAR1Matrix opts = false
      /\ useJerasureMatrix opts = false /\ useAzureLrcP1Matrix opts = false) ->
  0 < minSplitSize opts ->
  New d p opts = Ok (Success r) ->
  NoDup bad ->
  (forall b, In b bad -> b < d + p) ->
  1 < length bad <= p ->
  (N.of_nat (comb (d + p - length bad) d) < 2 ^ 31)%N ->
  GetSurvivalShards r bad azLayout
  = Ok (firstn d (survivor_list (d + p) bad),
        firstn d (survivor_list (d + p) bad), None).
Proof.
  intros Hflags Hsplit Hnew Hnd Hlt Hlen _.
  pose proof (New_rs_code d p opts r Hflags Hsplit Hnew) as Hc.
  pose proof (code_ok Hc) as Hok.
  destruct (New_wellformed d p opts r Hsplit Hnew) as [_ [_ [Hd [Hp _]]]].
  pose proof (ok_shards Hok) as Hsh. rewrite Hd, Hp in Hsh.
  assert (Hlt' : forall b, In b bad -> b < Shards r)
    by (intros b Hb; rewrite Hsh; auto).
  assert (Hlen' : 1 < length bad <= ParityShards r) by (rewrite Hp; exact Hlen).
  assert (Hsur : length (survivor_list (Shards r) bad) = Shards r - length bad)
    by (apply length_survivor_list; assumption).
  assert (Hcand : 0 < length (candidates r bad)).
  { unfold candidates. rewrite length_map, length_combs. apply comb_pos. lia. }
  assert (Hfirst : nth 0 (candidates r bad) [] = firstn d (survivor_list (d + p) bad)).
  { unfold candidates.
    rewrite (nth_indep _ [] (sel_of (survivor_list (Shards r) bad) []))
      by (rewrite length_map, length_combs; apply comb_pos; lia).
    rewrite map_nth, combs_first by lia.
    rewrite sel_of_seq by lia. now rewrite Hsh, Hd. }
  assert (Hgood : exists inv,
             Invert (select_rows (m r) (nth 0 (candidates r bad) [])) = Success inv).
  { destruct (candidates_sound r bad (nth 0 (candidates r bad) []) Hnd Hlt')
      as [Hl [Hinc Hav]]; [now apply nth_In|].
    apply (rs_code_invertible r _ Hc).
    - apply (inc_in_NoDup (Shards r) _ 0). exact Hinc.
    - exact Hl.
    - intros i Hi. destruct (inc_in_bound _ _ _ _ Hinc Hi). lia. }
  destruct Hgood as [inv0 Hinv0].
  destruct (GetSurvivalShards_multi r bad azLayout Hok Hnd Hlt' Hlen')
    as [[j [sel [inv [Hj [Hsel [Hinv [Hbefore Hres]]]]]]]|[Hnone Hres]].
  - destruct j as [|j].
    + rewrite Hres, <- Hsel, Hfirst. reflexivity.
    + destruct (Hbefore 0 (Nat.lt_0_succ j)) as [e He].
      rewrite Hinv0 in He. discriminate He.
  - destruct (Hnone (nth 0 (candidates r bad) [])) as [e He]; [now apply nth_In|].
    rewrite Hinv0 in He. discriminate He.
Qed.

Lemma GetSurvivalShards_lowest_survivors_witness :
  GetSurvivalShards enc_2_2 [0; 2] []
  = Ok (firstn 2 (survivor_list (2 + 2) [0; 2]),
        firstn 2 (survivor_list (2 + 2) [0; 2]), None).
Proof.
  apply (GetSurvivalShards_lowest_survivors 2 2 plainOptions enc_2_2 [0; 2] []).
  - right. repeat split; reflexivity.
  - simpl. lia.
  - vm_compute. reflexivity.
  - repeat constructor; simpl; intuition discriminate.
  - intros b [<-|[<-|[]]]; lia.
  - simpl. lia.
  - vm_compute. reflexivity.
Defined.

(** X19.  One call of [PartialReconstruct] with part of the survivors.  The
    encoder comes from [New] with any matrix, [encoded] from [Encode]; [sel]
    is a selection for the failed shard [b] whose rows can be inverted, and
    the shards numbered in [have], a non-empty part of [sel], are present
    while all others are empty.  The call succeeds.  Shard [b] then holds
    the partial sum: byte by byte the sum, over the present survivors, of the
    survivor's byte times its decoding coefficient, the entry of row [b] of
    the encoding matrix times the inverse [dec] of the selected rows.  Every
    absent survivor of the selection is replaced by a zero-filled shard, and
    every other shard is left as it was. *)
Theorem PartialReconstruct_partial_sum
  (d p : nat) (opts : options) (r : reedSolomon) (t : inversionTree)
  (data encoded shards : list slice) (b : nat) (have sel : list nat) :
  0 < minSplitSize opts ->
  New d p opts = Ok (Success r) ->
  tree_ok r t ->
  Encode r data = Ok (None, encoded) ->
  b < Shards r ->
  selection r b have sel ->
  have <> [] ->
  length shards = Shards r ->
  (forall i, In i have -> nth i shards nil_slice = nth i encoded nil_slice) ->
  (forall i, i < Shards r -> ~ In i have -> len (nth i shards nil_slice) = 0) ->
  exists restored t' dec,
    PartialReconstruct r t shards sel [b] = Ok (None, restored, t')
    /\ tree_ok r t'
    /\ decodes r sel dec
    /\ length restored = Shards r
    /\ len (nth b restored nil_slice) = len (nth b encoded nil_slice)
    /\ (forall q, q < len (nth b encoded nil_slice) ->
          shard_byte restored b q
          = bigsum (DataShards r)
              (fun c => galMultiply
                          (nth c (row_mul (nth b (m r) []) dec) x00)
                          (if mem (nth c sel 0) have
                           then shard_byte encoded (nth c sel 0) q
                           else x00)))
    /\ (forall i, i <> b ->
          nth i restored nil_slice
          = if mem i sel && (len (nth i shards nil_slice) =? 0)
            then make (len (nth b encoded nil_slice))
            else nth i shards nil_slice).
Proof.
  intros Hsplit Hnew Ht He Hb Hsel Hne Hl Hpres Habs.
  destruct (New_Encode_codeword d p opts r data encoded Hsplit Hnew He)
    as [Hok [Hsys [Hp [size [Hs Hcw]]]]].
  rewrite (cw_len Hcw Hb).
  now apply (PartialReconstruct_contribution r t b have sel size encoded shards).
Qed.

Lemma PartialReconstruct_partial_sum_witness :
  exists restored t' dec,
    PartialReconstruct enc_2_1 newInversionTree
      [nil_slice; shard_of [7]; nil_slice] [1; 2] [0]
    = Ok (None, restored, t')
    /\ tree_ok enc_2_1 t'
    /\ decodes enc_2_1 [1; 2] dec
    /\ length restored = Shards enc_2_1
    /\ len (nth 0 restored nil_slice)
       = len (nth 0 [shard_of [5]; shard_of [7]; shard_of [1]] nil_slice)
    /\ (forall q, q < len (nth 0 [shard_of [5]; shard_of [7]; shard_of [1]] nil_slice) ->
          shard_byte restored 0 q
          = bigsum (DataShards enc_2_1)
              (fun c => galMultiply
                          (nth c (row_mul (nth 0 (m enc_2_1) []) dec) x00)
                          (if mem (nth c [1; 2] 0) [1]
                           then shard_byte [shard_of [5]; shard_of [7]; shard_of [1]]
                                           (nth c [1; 2] 0) q
                           else x00)))
    /\ (forall i, i <> 0 ->
          nth i restored nil_slice
          = if mem i [1; 2]
               && (len (nth i [nil_slice; shard_of [7]; nil_slice] nil_slice) =? 0)
            then make (len (nth 0 [shard_of [5]; shard_of [7]; shard_of [1]] nil_slice))
            else nth i [nil_slice; shard_of [7]; nil_slice] nil_slice).
Proof.
  apply (PartialReconstruct_partial_sum 2 1 plainOptions enc_2_1 newInversionTree
           [shard_of [5]; shard_of [7]; shard_of [0]]
           [shard_of [5]; shard_of [7]; shard_of [1]]
           [nil_slice; shard_of [7]; nil_slice] 0 [1] [1; 2]).
  - simpl. lia.
  - vm_compute. reflexivity.
  - intros key mx _ H. discriminate H.
  - vm_compute. reflexivity.
  - simpl. lia.
  - constructor.
    + reflexivity.
    + simpl. lia.
    + simpl. intuition discriminate.
    + intros x [<-|[]]. simpl. auto.
    + exists [[xf5; xf4]; [x01; x00]]. vm_compute. reflexivity.
  - discriminate.
  - reflexivity.
  - intros i [<-|[]]. reflexivity.
  - intros [|[|[|i]]] Hi Hn; simpl in Hi; try lia; try reflexivity.
    exfalso. apply Hn. left. reflexivity.
Defined.

(** X20.  Partial results add up.  Two calls of [PartialReconstruct] for the
    same failed shard and the same selection, one on a vector that holds one
    part of the selected survivors and one on a vector that holds the other
    part, both succeed, and the XOR of the two buffers they leave in the
    failed shard's place is the failed shard as [Encode] made it. *)
Theorem PartialReconstruct_parts_add_up
  (d p : nat) (opts : options) (r : reedSolomon) (t : inversionTree)
  (data encoded shardsA shardsB : list slice) (b : nat)
  (partA partB sel : list nat) :
  0 < minSplitSize opts ->
  New d p opts = Ok (Success r) ->
  tree_ok r t ->
  Encode r data = Ok (None, encoded) ->
  b < Shards r ->
  selection r b partA sel ->
  selection r b partB sel ->
  partA <> [] ->
  partB <> [] ->
  (forall i, In i sel -> In i partA \/ In i partB) ->
  (forall i, In i partA -> ~ In i partB) ->
  length shardsA = Shards r ->
  length shardsB = Shards r ->
  (forall i, In i partA -> nth i shardsA nil_slice = nth i encoded nil_slice) ->
  (forall i, i < Shards r -> ~ In i partA -> len (nth i shardsA nil_slice) = 0) ->
  (forall i, In i partB -> nth i shardsB nil_slice = nth i encoded nil_slice) ->
  (forall i, i < Shards r -> ~ In i partB -> len (nth i shardsB nil_slice) = 0) ->
  exists outA tA outB tB,
    PartialReconstruct r t shardsA sel [b] = Ok (None, outA, tA)
    /\ PartialReconstruct r tA shardsB sel [b] = Ok (None, outB, tB)
    /\ len (nth b outA nil_slice) = len (nth b encoded nil_slice)
    /\ len (nth b outB nil_slice) = len (nth b encoded nil_slice)
    /\ forall q, q < len (nth b encoded nil_slice) ->
         galAdd (shard_byte outA b q) (shard_byte outB b q)
         = shard_byte encoded b q.
Proof.
  intros Hsplit Hnew Ht He Hb HsA HsB HnA HnB Hcover Hdisj HlA HlB HpA HaA HpB HaB.
  destruct (New_Encode_codeword d p opts r data encoded Hsplit Hnew He)
    as [Hok [Hsys [Hp [size [Hs Hcw]]]]].
  rewrite (cw_len Hcw Hb).
  destruct (partial_sums r t b partA partB sel size encoded shardsA shardsB
              Hok Hsys Ht Hp Hb Hcw Hs HsA HsB HnA HnB Hcover Hdisj
              HlA HlB HpA HaA HpB HaB)
    as [outA [tA [outB [tB [EA [EB [_ [HA [HB Hsum]]]]]]]]].
  exists outA, tA, outB, tB. repeat (split; [assumption|]). exact Hsum.
Qed.

Lemma PartialReconstruct_parts_add_up_witness :
  exists outA tA outB tB,
    PartialReconstruct enc_2_1 newInversionTree
      [nil_slice; shard_of [7]; nil_slice] [1; 2] [0]
    = Ok (None, outA, tA)
    /\ PartialReconstruct enc_2_1 tA
         [nil_slice; nil_slice; shard_of [1]] [1; 2] [0]
       = Ok (None, outB, tB)
    /\ len (nth 0 outA nil_slice)
       = len (nth 0 [shard_of [5]; shard_of [7]; shard_of [1]] nil_slice)
    /\ len (nth 0 outB nil_slice)
       = len (nth 0 [shard_of [5]; shard_of [7]; shard_of [1]] nil_slice)
    /\ forall q, q < len (nth 0 [shard_of [5]; shard_of [7]; shard_of [1]] nil_slice) ->
         galAdd (shard_byte outA 0 q) (shard_byte outB 0 q)
         = shard_byte [shard_of [5]; shard_of [7]; shard_of [1]] 0 q.
Proof.
  apply (PartialReconstruct_parts_add_up 2 1 plainOptions enc_2_1 newInversionTree
           [shard_of [5]; shard_of [7]; shard_of [0]]
           [shard_of [5]; shard_of [7]; shard_of [1]]
           [nil_slice; shard_of [7]; nil_slice]
           [nil_slice; nil_slice; shard_of [1]] 0 [1] [2] [1; 2]).
  - simpl. lia.
  - vm_compute. reflexivity.
  - intros key mx _ H. discriminate H.
  - vm_compute. reflexivity.
  - simpl. lia.
  - constructor.
    + reflexivity.
    + simpl. lia.
    + simpl. intuition discriminate.
    + intros x [<-|[]]. simpl. auto.
    + exists [[xf5; xf4]; [x01; x00]]. vm_compute. reflexivity.
  - constructor.
    + reflexivity.
    + simpl. lia.
    + simpl. intuition discriminate.
    + intros x [<-|[]]. simpl. auto.
    + exists [[xf5; xf4]; [x01; x00]]. vm_compute. reflexivity.
  - discriminate.
  - discriminate.
  - intros i [<-|[<-|[]]]; [left | right]; left; reflexivity.
  - intros i [<-|[]] [H|[]]. discriminate H.
  - reflexivity.
  - reflexivity.
  - intros i [<-|[]]. reflexivity.
  - intros [|[|[|i]]] Hi Hn; simpl in Hi; try lia; try reflexivity.
    exfalso. apply Hn. left. reflexivity.
  - intros i [<-|[]]. reflexivity.
  - intros [|[|[|i]]] Hi Hn; simpl in Hi; try lia; try reflexivity.
    exfalso. apply Hn. left. reflexivity.
Defined.

(** X21.  With every survivor of the selection present, one call of
    [PartialReconstruct] rebuilds the failed shard: it succeeds and shard [b]
    has the bytes it had after [Encode].  This holds for every matrix option,
    as long as the rows of the selection can be inverted. *)
Theorem PartialReconstruct_full_selection
  (d p : nat) (opts : options) (r : reedSolomon) (t : inversionTree)
  (data encoded shards : list slice) (b : nat) (sel : list nat) :
  0 < minSplitSize opts ->
  New d p opts = Ok (Success r) ->
  tree_ok r t ->
  Encode r data = Ok (None, encoded) ->
  b < Shards r ->
  selection r b sel sel ->
  length shards = Shards r ->
  (forall i, In i sel -> nth i shards nil_slice = nth i encoded nil_slice) ->
  (forall i, i < Shards r -> ~ In i sel -> len (nth i shards nil_slice) = 0) ->
  exists restored t',
    PartialReconstruct r t shards sel [b] = Ok (None, restored, t')
    /\ tree_ok r t'
    /\ length restored = Shards r
    /\ bytes (nth b restored nil_slice) = bytes (nth b encoded nil_slice)
    /\ forall i, i <> b -> nth i restored nil_slice = nth i shards nil_slice.
Proof.
  intros Hsplit Hnew Ht He Hb Hsel Hl Hpres Habs.
  destruct (New_Encode_codeword d p opts r data encoded Hsplit Hnew He)
    as [Hok [Hsys [Hp [size [Hs Hcw]]]]].
  pose proof (sel_length Hsel) as Hsl.
  assert (Hne : sel <> []).
  { intros ->. simpl in Hsl. pose proof (ok_data Hok). lia. }
  assert (Hin : forall c, c < DataShards r -> In (nth c sel 0) sel)
    by (intros c Hc; apply nth_In; lia).
  assert (Hslt : forall c, c < DataShards r -> nth c sel 0 < Shards r).
  { intros c Hc. destruct (inc_in_bound _ _ _ _ (sel_inc Hsel) (Hin c Hc)). lia. }
  destruct (PartialReconstruct_contribution r t b sel sel size encoded shards
              Hok Hsys Ht Hp Hsel Hb Hcw Hs Hl Hpres Habs Hne)
    as [restored [t' [dec [E [Ht' [Hdec [Hrl [Hlen [Hbyte Hother]]]]]]]]].
  exists restored, t'. repeat (split; [assumption|]). split.
  - apply (shard_bytes_eq _ _ size Hlen (cw_len Hcw Hb)).
    intros q Hq. change (shard_byte restored b q = shard_byte encoded b q).
    rewrite (Hbyte q Hq).
    rewrite <- (full_decode r b sel size encoded dec q Hok Hsl Hslt Hb Hcw Hdec Hq).
    apply bigsum_ext. intros c Hc.
    replace (mem (nth c sel 0) sel) with true
      by (symmetry; apply mem_In; now apply Hin).
    reflexivity.
  - intros i Hi. rewrite (Hother i Hi).
    destruct (mem i sel) eqn:Em; [|reflexivity].
    apply mem_In in Em. rewrite (Hpres i Em).
    assert (Hilt : i < Shards r).
    { destruct (inc_in_bound _ _ _ _ (sel_inc Hsel) Em). lia. }
    rewrite (cw_len Hcw Hilt).
    replace (size =? 0) with false by (symmetry; apply Nat.eqb_neq; lia).
    reflexivity.
Qed.

Lemma PartialReconstruct_full_selection_witness :
  exists restored t',
    PartialReconstruct enc_2_1 newInversionTree
      [nil_slice; shard_of [7]; shard_of [1]] [1; 2] [0]
    = Ok (None, restored, t')
    /\ tree_ok enc_2_1 t'
    /\ length restored = Shards enc_2_1
    /\ bytes (nth 0 restored nil_slice)
       = bytes (nth 0 [shard_of [5]; shard_of [7]; shard_of [1]] nil_slice)
    /\ forall i, i <> 0 ->
         nth i restored nil_slice
         = nth i [nil_slice; shard_of [7]; shard_of [1]] nil_slice.
Proof.
  apply (PartialReconstruct_full_selection 2 1 plainOptions enc_2_1 newInversionTree
           [shard_of [5]; shard_of [7]; shard_of [0]]
           [shard_of [5]; shard_of [7]; shard_of [1]]
           [nil_slice; shard_of [7]; shard_of [1]] 0 [1; 2]).
  - simpl. lia.
  - vm_compute. reflexivity.
  - intros key mx _ H. discriminate H.
  - vm_compute. reflexivity.
  - simpl. lia.
  - constructor.
    + reflexivity.
    + simpl. lia.
    + simpl. intuition discriminate.
    + auto.
    + exists [[xf5; xf4]; [x01; x00]]. vm_compute. reflexivity.
  - reflexivity.
  - intros i [<-|[<-|[]]]; reflexivity.
  - intros [|[|[|i]]] Hi Hn; simpl in Hi; try lia; try reflexivity;
      exfalso; apply Hn; simpl; auto.
Defined.

(** ** [Encode] again, concurrency, and the PAR1 matrix *)

Lemma checkShards_None_uniform shards :
  checkShards shards false = None ->
  exists size, 0 < size /\ Forall (fun shard => len shard = size) shards.
Proof.
  intros H. apply checkShards_None in H. destruct H as [size [Hs [_ Hall]]].
  exists size. split; [exact Hs|].
  apply Forall_forall. intros s Hin. rewrite Forall_forall in Hall.
  destruct (Hall s Hin) as [H|[_ H]]; [exact H | discriminate H].
Qed.

Lemma coded_coded n matrixRows inputs outputCount size outputs :
  coded n matrixRows inputs outputCount size
    (coded n matrixRows inputs outputCount size outputs)
  = coded n matrixRows inputs outputCount size outputs.
Proof.
  unfold coded. rewrite imap_lt_imap_lt.
  apply (imap_lt_ext _ _ _ _ nil_slice). intros i Hi Hl. apply pw_pw.
Qed.

(** X22.  The result of [Encode] and of [Verify] does not depend on the
    concurrency options.  Two encoders with the same shard counts and the
    same matrix, whatever their [maxGoroutines] and [minSplitSize], return
    the same error and leave the same shards on every input: the coder that
    splits the byte range over goroutines computes what the sequential one
    computes. *)
Theorem Encode_Verify_independent_of_concurrency
  (r1 r2 : reedSolomon) (shards : list slice) :
  enc_ok r1 -> enc_ok r2 ->
  useAVX512 (o r1) = false -> useAVX512 (o r2) = false ->
  DataShards r1 = DataShards r2 ->
  ParityShards r1 = ParityShards r2 ->
  m r1 = m r2 ->
  Encode r1 shards = Encode r2 shards
  /\ Verify r1 shards = Verify r2 shards.
Proof.
  intros H1 H2 _ _ Hd Hp Hm.
  assert (Hs : Shards r1 = Shards r2)
    by (rewrite (ok_shards H1), (ok_shards H2); congruence).
  assert (Hpar : parity r1 = parity r2)
    by (rewrite (ok_parity H1), (ok_parity H2); congruence).
  destruct (Nat.eq_dec (length shards) (Shards r1)) as [Hl|Hl].
  - destruct (checkShards shards false) as [e|] eqn:Ec.
    + split.
      * unfold Encode. rewrite <- Hs, Hl, Nat.eqb_refl. cbn [negb].
        now rewrite Ec.
      * unfold Verify. rewrite <- Hs, Hl, Nat.eqb_refl. cbn [negb].
        now rewrite Ec.
    + destruct (checkShards_None_uniform shards Ec) as [size [Hsz Hall]].
      split.
      * rewrite (Encode_well_shaped r1 shards size H1 Hl Hsz Hall).
        rewrite (Encode_well_shaped r2 shards size H2 ltac:(congruence) Hsz Hall).
        now rewrite Hd, Hp, Hpar.
      * rewrite (Verify_well_shaped r1 shards size H1 Hl Hsz Hall).
        rewrite (Verify_well_shaped r2 shards size H2 ltac:(congruence) Hsz Hall).
        now rewrite Hd, Hpar.
  - split.
    + unfold Encode. rewrite <- Hs.
      apply Nat.eqb_neq in Hl. now rewrite Hl.
    + unfold Verify. rewrite <- Hs.
      apply Nat.eqb_neq in Hl. now rewrite Hl.
Qed.

Lemma Encode_Verify_independent_of_concurrency_witness :
  Encode enc_2_1 [shard_of [5; 6; 7]; shard_of [7; 8; 9]; shard_of [0; 0; 0]]
  = Encode enc_2_1_concurrent
           [shard_of [5; 6; 7]; shard_of [7; 8; 9]; shard_of [0; 0; 0]]
  /\ Verify enc_2_1 [shard_of [5; 6; 7]; shard_of [7; 8; 9]; shard_of [0; 0; 0]]
     = Verify enc_2_1_concurrent
              [shard_of [5; 6; 7]; shard_of [7; 8; 9]; shard_of [0; 0; 0]].
Proof.
  apply (Encode_Verify_independent_of_concurrency enc_2_1 enc_2_1_concurrent).
  - exact enc_2_1_ok.
  - constructor; simpl; try lia; try reflexivity.
    intros row [<-|[<-|[<-|[]]]]; reflexivity.
  - reflexivity.
  - reflexivity.
  - reflexivity.
  - reflexivity.
  - reflexivity.
Defined.

(** X23.  [Encode] is idempotent: encoding a vector that [Encode] has
    returned succeeds and returns the same vector, shard by shard, spare
    capacity included. *)
Theorem Encode_idempotent (r : reedSolomon) (shards encoded : list slice) :
  enc_ok r ->
  Encode r shards = Ok (None, encoded) ->
  Encode r encoded = Ok (None, encoded).
Proof.
  intros Hok E.
  destruct (Encode_None_inv r shards encoded E) as [Hl [size [Hs Hall]]].
  pose proof (Encode_well_shaped r shards size Hok Hl Hs Hall) as E1.
  rewrite E in E1. injection E1 as Henc.
  destruct (Encode_consistent r shards encoded Hok E) as [size' [Hs' [Hl' [Hall' _]]]].
  rewrite (Encode_well_shaped r encoded size' Hok Hl' Hs' Hall').
  assert (Hsz : size' = size).
  { pose proof (ok_data Hok) as Hd. pose proof (ok_shards Hok) as Hsh.
    rewrite Forall_forall in Hall, Hall'.
    rewrite <- (Hall' (nth 0 encoded nil_slice)) by (apply nth_In; lia).
    rewrite <- (Hall (nth 0 shards nil_slice)) by (apply nth_In; lia).
    rewrite Henc. rewrite app_nth1 by (rewrite length_firstn; lia).
    rewrite nth_firstn.
    replace (0 <? DataShards r) with true by (symmetry; apply Nat.ltb_lt; lia).
    reflexivity. }
  subst size'.
  assert (Hfl : length (firstn (DataShards r) shards) = DataShards r).
  { rewrite length_firstn. rewrite Hl, (ok_shards Hok). lia. }
  assert (Hf : firstn (DataShards r) encoded = firstn (DataShards r) shards).
  { rewrite Henc at 1. rewrite firstn_app, Hfl, Nat.sub_diag, firstn_O, app_nil_r.
    rewrite firstn_firstn. f_equal. lia. }
  assert (Hk : skipn (DataShards r) encoded
               = coded (DataShards r) (parity r) (firstn (DataShards r) shards)
                       (ParityShards r) size (skipn (DataShards r) shards)).
  { rewrite Henc at 1. rewrite skipn_app, Hfl, Nat.sub_diag. cbn [skipn].
    rewrite skipn_all2 by lia. reflexivity. }
  rewrite Hf, Hk, coded_coded. now rewrite <- Henc.
Qed.

Lemma Encode_idempotent_witness :
  Encode enc_2_1 [shard_of [5]; shard_of [7]; shard_of [1]]
  = Ok (None, [shard_of [5]; shard_of [7]; shard_of [1]]).
Proof.
  apply (Encode_idempotent enc_2_1 [shard_of [5]; shard_of [7]; shard_of [0]]).
  - exact enc_2_1_ok.
  - vm_compute. reflexivity.
Defined.

(** X24.  With the PAR1 matrix, parity shard number [i] is the sum of the
    data shards weighted by the [i]-th powers of [1, 2, ..., DataShards]:
    after [Encode], byte [q] of shard [DataShards + i] is the sum over the
    data shards [c] of [(c + 1)^i] times byte [q] of shard [c].  The first
    parity shard is therefore the XOR of the data shards. *)
Theorem PAR1_parity_is_power_sum
  (d p : nat) (opts : options) (r : reedSolomon)
  (shards encoded : list slice) (i q : nat) :
  useCauchy opts = false ->
  usePAR1Matrix opts = true ->
  0 < minSplitSize opts ->
  New d p opts = Ok (Success r) ->
  Encode r shards = Ok (None, encoded) ->
  i < p ->
  q < len (nth (d + i) encoded nil_slice) ->
  shard_byte encoded (d + i) q
  = fold_right galAdd x00
      (map (fun c => galMultiply (galExp (byte_of_nat (c + 1)) i)
                                 (shard_byte encoded c q))
           (seq 0 d))
  /\ (i = 0 ->
      shard_byte encoded d q
      = fold_right galAdd x00 (map (fun c => shard_byte encoded c q) (seq 0 d))).
Proof.
  intros F1 F2 Hsplit Hnew E Hi Hq.
  destruct (New_wellformed d p opts r Hsplit Hnew) as [Hok [_ [Hd [Hp _]]]].
  destruct (New_matrix d p opts r Hnew) as [Hd0 [Hp0 [Hle [mx Hmx]]]].
  assert (Hm : m r = buildMatrixPAR1 d (d + p)).
  { pose proof (New_fields d p opts r Hsplit Hnew (buildMatrixPAR1 d (d + p))) as Hf.
    rewrite F1, F2 in Hf.
    rewrite (Hf eq_refl (length_buildMatrixPAR1 d (d + p))). reflexivity. }
  pose proof (ok_shards Hok) as Hsh.
  assert (Hrow : forall c, c < d ->
             nth c (nth (d + i) (m r) []) x00 = galExp (byte_of_nat (c + 1)) i).
  { intros c Hc. rewrite Hm. unfold buildMatrixPAR1.
    rewrite nth_map_seq by lia. rewrite nth_map_seq by lia.
    replace (d + i <? d) with false by (symmetry; apply Nat.ltb_ge; lia).
    replace (d + i - d) with i by lia. reflexivity. }
  assert (Hsum : shard_byte encoded (d + i) q
                 = fold_right galAdd x00
                     (map (fun c => galMultiply (galExp (byte_of_nat (c + 1)) i)
                                                (shard_byte encoded c q))
                          (seq 0 d))).
  { rewrite <- Hd in Hq |- * at 1.
    rewrite (Encode_parity_bytes r shards encoded Hok E (DataShards r + i))
      by (auto; lia).
    unfold coded_byte. rewrite Hd. rewrite <- bigsum_seq_fold.
    apply bigsum_ext. intros c Hc. now rewrite (Hrow c Hc). }
  split; [exact Hsum|].
  intros ->. rewrite Nat.add_0_r in Hsum. rewrite Hsum.
  f_equal. apply map_ext. intros c. rewrite galExp_0. apply galMultiply_1_l.
Qed.

Lemma PAR1_parity_is_power_sum_witness :
  shard_byte [shard_of [5]; shard_of [7]; shard_of [2]; shard_of [11]] (2 + 1) 0
  = fold_right galAdd x00
      (map (fun c => galMultiply (galExp (byte_of_nat (c + 1)) 1)
                       (shard_byte [shard_of [5]; shard_of [7]; shard_of [2];
                                    shard_of [11]] c 0))
           (seq 0 2))
  /\ (1 = 0 ->
      shard_byte [shard_of [5]; shard_of [7]; shard_of [2]; shard_of [11]] 2 0
      = fold_right galAdd x00
          (map (fun c => shard_byte [shard_of [5]; shard_of [7]; shard_of [2];
                                     shard_of [11]] c 0)
               (seq 0 2))).
Proof.
  apply (PAR1_parity_is_power_sum 2 2 par1Options enc_par1_2_2
           [shard_of [5]; shard_of [7]; shard_of [0]; shard_of [0]]).
  - reflexivity.
  - reflexivity.
  - simpl. lia.
  - vm_compute. reflexivity.
  - vm_compute. reflexivity.
  - lia.
  - vm_compute. lia.
Defined.

(** ** What [Update] and [PartialReconstruct] reject *)

Lemma update_check_old_stays shards : forall newDatashards start,
  range_loop (fun i nd (bad : bool) =>
                if bad then Ok true
                else if is_nil nd then Ok false
                else s <- get shards i ;; Ok (is_nil s))
             start newDatashards true = Ok true.
Proof.
  induction newDatashards as [|x l IH]; intros start; [reflexivity|].
  cbn [range_loop bind]. apply IH.
Qed.

Lemma update_check_old_hit shards : forall newDatashards start bad c,
  start + length newDatashards <= length shards ->
  c < length newDatashards ->
  is_nil (nth c newDatashards nil_slice) = false ->
  is_nil (nth (start + c) shards nil_slice) = true ->
  range_loop (fun i nd (bad : bool) =>
                if bad then Ok true
                else if is_nil nd then Ok false
                else s <- get shards i ;; Ok (is_nil s))
             start newDatashards bad = Ok true.
Proof.
  induction newDatashards as [|x l IH]; intros start bad c Hfit Hc Hnew Hold;
    [simpl in Hc; lia|].
  cbn [length] in Hfit, Hc. cbn [range_loop].
  destruct c as [|c].
  - cbn [nth] in Hnew. rewrite Nat.add_0_r in Hold.
    destruct bad; cbn [bind]; [apply update_check_old_stays|].
    rewrite Hnew, (get_Ok shards start nil_slice) by lia. cbn [bind].
    rewrite Hold. apply update_check_old_stays.
  - cbn [nth] in Hnew.
    assert (Hstep : exists b',
               (if bad then Ok true
                else if is_nil x then Ok false
                else s <- get shards start ;; Ok (is_nil s)) = Ok b').
    { destruct bad; [eauto|]. destruct (is_nil x); [eauto|].
      rewrite (get_Ok shards start nil_slice) by lia. cbn [bind]. eauto. }
    destruct Hstep as [b' ->]. cbn [bind].
    apply (IH (S start) b' c); try lia; try assumption.
    now replace (S start + c) with (start + S c) by lia.
Qed.

Lemma incremental_false : forall (l : list nat) k,
  S k < length l -> nth (S k) l 0 <= nth k l 0 -> incremental l = false.
Proof.
  induction l as [|a l IH]; intros k Hk Hle; [simpl in Hk; lia|].
  destruct l as [|b l]; [simpl in Hk; lia|].
  change (incremental (a :: b :: l)) with ((a <? b) && incremental (b :: l)).
  destruct k as [|k].
  - cbn [nth] in Hle. replace (a <? b) with false by (symmetry; apply Nat.ltb_ge; lia).
    reflexivity.
  - rewrite (IH k); [apply andb_false_r | simpl in Hk |- *; lia | exact Hle].
Qed.

Lemma numberPresent_missing_one shards i :
  i < length shards -> len (nth i shards nil_slice) = 0 ->
  numberPresent shards <> length shards.
Proof.
  intros Hi Hz Hall. apply numberPresent_all_inv in Hall.
  rewrite Forall_forall in Hall. apply (Hall (nth i shards nil_slice)); [|exact Hz].
  now apply nth_In.
Qed.

(** X25.  What [Update] rejects, in the order of its checks, the shards
    being left as they were in each case: another number of shards than
    [Shards], or of new data shards than [DataShards], gives
    [ErrTooFewShards]; no non-empty shard, or no non-empty new data shard (so
    a call with nothing to update), gives [ErrShardNoData]; a new data shard
    for a column whose old shard is [nil], or a [nil] parity shard, gives
    [ErrInvalidInput]. *)
Theorem Update_rejects (r : reedSolomon) (shards newDatashards : list slice) :
  (length shards <> Shards r \/ length newDatashards <> DataShards r ->
   Update r shards newDatashards = Ok (Some ErrTooFewShards, shards))
  /\ (length shards = Shards r -> length newDatashards = DataShards r ->
      Forall (fun shard => len shard = 0) shards ->
      Update r shards newDatashards = Ok (Some ErrShardNoData, shards))
  /\ (length shards = Shards r -> length newDatashards = DataShards r ->
      checkShards shards true = None ->
      Forall (fun shard => len shard = 0) newDatashards ->
      Update r shards newDatashards = Ok (Some ErrShardNoData, shards))
  /\ (length shards = Shards r -> length newDatashards = DataShards r ->
      DataShards r <= Shards r ->
      checkShards shards true = None ->
      checkShards newDatashards true = None ->
      (exists c, c < DataShards r
                 /\ is_nil (nth c newDatashards nil_slice) = false
                 /\ is_nil (nth c shards nil_slice) = true) ->
      Update r shards newDatashards = Ok (Some ErrInvalidInput, shards))
  /\ (length shards = Shards r -> length newDatashards = DataShards r ->
      DataShards r <= Shards r ->
      checkShards shards true = None ->
      checkShards newDatashards true = None ->
      (forall c, c < DataShards r ->
                 is_nil (nth c newDatashards nil_slice) = false ->
                 is_nil (nth c shards nil_slice) = false) ->
      (exists i, DataShards r <= i < Shards r
                 /\ is_nil (nth i shards nil_slice) = true) ->
      Update r shards newDatashards = Ok (Some ErrInvalidInput, shards)).
Proof.
  split; [|split; [|split; [|split]]].
  - intros [H|H]; unfold Update.
    + apply Nat.eqb_neq in H. now rewrite H.
    + apply Nat.eqb_neq in H. rewrite H.
      now destruct (length shards =? Shards r).
  - intros Hl Hn Hall. unfold Update.
    apply Nat.eqb_eq in Hl, Hn. rewrite Hl, Hn. cbn [negb].
    apply (checkShards_NoData_iff shards true) in Hall. now rewrite Hall.
  - intros Hl Hn Hs Hall. unfold Update.
    apply Nat.eqb_eq in Hl, Hn. rewrite Hl, Hn. cbn [negb]. rewrite Hs.
    apply (checkShards_NoData_iff newDatashards true) in Hall. now rewrite Hall.
  - intros Hl Hn Hle Hs Hnd [c [Hc [Hnew Hold]]]. unfold Update.
    rewrite Hl, Hn, !Nat.eqb_refl. cbn [negb]. rewrite Hs, Hnd.
    unfold update_check_old.
    rewrite (update_check_old_hit shards newDatashards 0 false c); try lia; auto.
  - intros Hl Hn Hle Hs Hnd Hold [i [Hi Hnil]]. unfold Update.
    rewrite Hl, Hn, !Nat.eqb_refl. cbn [negb]. rewrite Hs, Hnd.
    rewrite update_check_old_false.
    2:{ intros c Hc Hx. split; [lia|]. apply Hold; [lia | exact Hx]. }
    cbn [bind]. rewrite slice_from_Ok by lia. cbn [bind].
    replace (existsb is_nil (skipn (DataShards r) shards)) with true; [reflexivity|].
    symmetry. apply existsb_exists. exists (nth i shards nil_slice).
    split; [|exact Hnil].
    replace i with (DataShards r + (i - DataShards r)) by lia.
    rewrite <- nth_skipn. apply nth_In. rewrite length_skipn. lia.
Qed.

(** X26.  What [PartialReconstruct] rejects, shards and inversion cache
    being left as they were in each case: another number of shards than
    [Shards] gives [ErrTooFewShards]; a list of survivors or of failed shards
    that is not strictly increasing gives [ErrIndexNotIncremental], before
    any shard is looked at; and when some shard is missing, a present shard
    whose number is not in the survivor list gives
    [ErrShardsNotSurvival]. *)
Theorem PartialReconstruct_rejects
  (r : reedSolomon) (t : inversionTree) (shards : list slice)
  (survivalIdx badIdx : list nat) :
  (length shards <> Shards r ->
   PartialReconstruct r t shards survivalIdx badIdx
   = Ok (Some ErrTooFewShards, shards, t))
  /\ (length shards = Shards r ->
      (exists k, S k < length survivalIdx
                 /\ nth (S k) survivalIdx 0 <= nth k survivalIdx 0)
      \/ (exists k, S k < length badIdx
                    /\ nth (S k) badIdx 0 <= nth k badIdx 0) ->
      PartialReconstruct r t shards survivalIdx badIdx
      = Ok (Some ErrIndexNotIncremental, shards, t))
  /\ (length shards = Shards r ->
      incremental survivalIdx = true ->
      incremental badIdx = true ->
      (exists j, j < Shards r /\ len (nth j shards nil_slice) = 0) ->
      (exists i, i < Shards r /\ len (nth i shards nil_slice) <> 0
                 /\ ~ In i survivalIdx) ->
      PartialReconstruct r t shards survivalIdx badIdx
      = Ok (Some ErrShardsNotSurvival, shards, t)).
Proof.
  split; [|split].
  - intros H. unfold PartialReconstruct.
    apply Nat.eqb_neq in H. now rewrite H.
  - intros Hl H. unfold PartialReconstruct.
    rewrite Hl, Nat.eqb_refl. cbn [negb].
    destruct H as [[k [Hk Hle]]|[k [Hk Hle]]].
    + now rewrite (incremental_false survivalIdx k Hk Hle).
    + rewrite (incremental_false badIdx k Hk Hle).
      now destruct (incremental survivalIdx).
  - intros Hl Hs Hb [j [Hj Hz]] [i [Hi [Hp Hout]]]. unfold PartialReconstruct.
    rewrite Hl, Nat.eqb_refl, Hs, Hb. cbn [negb].
    replace (numberPresent shards =? Shards r) with false.
    2:{ symmetry. apply Nat.eqb_neq. rewrite <- Hl.
        apply (numberPresent_missing_one shards j); [lia | exact Hz]. }
    replace (existsb _ _) with true; [reflexivity|].
    symmetry. apply existsb_exists. exists (i, nth i shards nil_slice). split.
    + replace (i, nth i shards nil_slice)
        with (nth i (combine (seq 0 (Shards r)) shards) (0, nil_slice)).
      * apply nth_In. rewrite length_combine, length_seq. lia.
      * rewrite combine_nth by (rewrite length_seq; lia).
        now rewrite seq_nth by lia.
    + apply andb_true_iff. split.
      * apply negb_true_iff. now apply Nat.eqb_neq.
      * apply negb_true_iff. now apply mem_false.
Qed.
